(** * freud: cell-list neighbor search and correlation accumulation

    A shallow embedding of [cpp/locality/LinkCell.cc],
    [cpp/density/CorrelationFunction.cc], the [RDF] class declaration and
    [cpp/pmft/PMFTXY2D.cc], with the properties of the specification proved
    about it.

    Conventions of the embedding.
    - C++ [float] and [double] values are rationals ([Q]). Where the code
      turns a float into an integer that sizes or indexes an array (the
      number of bins, the bin of a bond, the dimensions of the cell grid),
      every operation is rounded as the machine rounds it: to binary32, to
      nearest with ties to even ([to_float]); [double] operations are rounded
      to binary64 ([to_double]). The neighbor search itself (its distance
      tests and the bound on its shells) is over the rationals: its
      properties compare it with a brute-force search that computes the same
      distances. Overflow, infinities, NaN and division by zero are outside
      the model.
    - [unsigned int] values are integers ([Z]) in [0, 2^32); arithmetic that
      the code performs on them is reduced modulo [2^32] where it is written.
    - Arrays are lists read with [!!] and written with [<[ _ := _ ]>]; a read
      or write outside the array is the exception [out_of_range].
    - Member functions run in a state-and-exception monad over the object;
      a [throw] leaves the object as it was at the throw. *)

From Stdlib Require Import ZArith QArith Qround Qminmax Qabs Qpower Lia Lqa String.
From Stdlib Require Import Sorting.Sorted Sorting.Permutation.
From stdpp Require Import base tactics option list gmap sorting.

Local Open Scope Z_scope.

(** ** Exceptions and the object monad *)

Inductive exn : Type :=
| invalid_argument (what : string)
| runtime_error (what : string)
| out_of_range
| division_by_zero.

Inductive outcome (A : Type) : Type :=
| Ok (a : A)
| Throw (e : exn).
Arguments Ok {A} a.
Arguments Throw {A} e.

Definition is_Ok {A} (o : outcome A) : Prop :=
  match o with Ok _ => True | Throw _ => False end.

Definition M (S A : Type) : Type := S -> outcome A * S.

Definition ret {S A} (a : A) : M S A := fun s => (Ok a, s).

Definition bind {S A B} (c : M S A) (k : A -> M S B) : M S B :=
  fun s => match c s with
           | (Ok a, s') => k a s'
           | (Throw e, s') => (Throw e, s')
           end.

Definition throw {S A} (e : exn) : M S A := fun s => (Throw e, s).
Definition get {S} : M S S := fun s => (Ok s, s).
Definition gets {S A} (f : S -> A) : M S A := fun s => (Ok (f s), s).
Definition modify {S} (f : S -> S) : M S unit := fun s => (Ok tt, f s).

Notation "x <- c1 ;; c2" := (bind c1 (fun x => c2))
  (at level 100, c1 at next level, c2 at level 200, right associativity).
Notation "c1 ;;; c2" := (bind c1 (fun _ => c2))
  (at level 100, c2 at level 200, right associativity).

(** [for (x : l) body(x)] *)
Fixpoint for_each {S A} (l : list A) (body : A -> M S unit) : M S unit :=
  match l with
  | [] => ret tt
  | x :: l' => body x ;;; for_each l' body
  end.

(** [for (i = 0; i < n; ++i) body(i)] *)
Fixpoint for_loop {S} (from : Z) (n : nat) (body : Z -> M S unit) : M S unit :=
  match n with
  | O => ret tt
  | S n' => body from ;;; for_loop (from + 1) n' body
  end.

(** ** Machine numbers *)

Definition UINT_MOD : Z := 2 ^ 32.
Definition INT_MIN : Z := - 2 ^ 31.

(** Conversion of a signed value to [unsigned int]. *)
Definition to_unsigned (z : Z) : Z := z mod UINT_MOD.

(** Truncation of a real toward zero. *)
Definition Qtrunc (x : Q) : Z := Z.quot (Qnum x) (Z.pos (Qden x)).

(** [_mm_cvtt_ss2si]: truncating conversion to a 32-bit signed integer; a
    value that does not fit gives the integer indefinite value [INT_MIN].
    The same instruction implements the cast [int(x)]. *)
Definition cvtt_ss2si (x : Q) : Z :=
  let t := Qtrunc x in
  if (INT_MIN <=? t) && (t <? 2 ^ 31) then t else INT_MIN.

Definition Qltb (x y : Q) : bool := negb (Qle_bool y x).
Definition Qleb (x y : Q) : bool := Qle_bool x y.

(** ** Floating point *)

(** The binade of a positive rational: the [e] with [2^e <= x < 2^(e+1)]. *)
Definition Qlog2 (x : Q) : Z :=
  if Qle_bool 1 x then Z.log2 (Qfloor x) else - Z.log2_up (Qceiling (/ x)).

(** Rounding to the nearest integer, a tie going to the even one. *)
Definition round_half_even (x : Q) : Z :=
  let f := Qfloor x in
  match (x - inject_Z f ?= 1 # 2)%Q with
  | Lt => f
  | Gt => f + 1
  | Eq => if Z.even f then f else f + 1
  end.

(** Rounding to the nearest value of the binary format with [prec]
    significant bits whose smallest positive value is [2^emin]: the values
    of the binade of [x] are the multiples of [2^e], [e] the binade less
    [prec - 1] and at least [emin]. *)
Definition round_to (prec emin : Z) (x : Q) : Q :=
  if Qeq_bool x 0 then 0%Q
  else
    let e := Z.max (Qlog2 (Qabs x) - (prec - 1)) emin in
    Qred (inject_Z (round_half_even (x / 2 ^ e)) * 2 ^ e)%Q.

(** binary32 ([float]) and binary64 ([double]) *)
Definition to_float : Q -> Q := round_to 24 (-149).
Definition to_double : Q -> Q := round_to 53 (-1074).

(** [+], [-], [*] and [/] on [float] *)
Definition fadd (a b : Q) : Q := to_float (a + b).
Definition fsub (a b : Q) : Q := to_float (a - b).
Definition fmul (a b : Q) : Q := to_float (a * b).
Definition fdiv (a b : Q) : Q := to_float (a / b).

(** [*] and [/] on [double] *)
Definition dmul (a b : Q) : Q := to_double (a * b).
Definition ddiv (a b : Q) : Q := to_double (a / b).

(** [floorf] *)
Definition floorf (x : Q) : Q := inject_Z (Qfloor x).

(** [(unsigned int)(x)] of a [float]: the value truncated toward zero when
    that fits ([-1 < x < 2^32]). C++ leaves the other values undefined; the
    model takes what the x86-64 conversion gives for them, the truncation to
    a 64-bit integer (the integer indefinite value [-2^63] when it does not
    fit) of which the low 32 bits are kept. *)
Definition cvtt_ss2si64 (x : Q) : Z :=
  let t := Qtrunc x in
  if (- 2 ^ 63 <=? t) && (t <? 2 ^ 63) then t else - 2 ^ 63.

Definition float_to_unsigned (x : Q) : Z := to_unsigned (cvtt_ss2si64 x).

(** Array access. *)
Definition read {S A} (a : list A) (i : Z) : M S A :=
  match a !! Z.to_nat i with
  | Some x => ret x
  | None => throw out_of_range
  end.

Definition write {A} (a : list A) (i : Z) (x : A) : outcome (list A) :=
  if decide (Z.to_nat i < length a)%nat then Ok (<[Z.to_nat i := x]> a)
  else Throw out_of_range.

(** ** Geometry shared by both parts *)

Record vec3 (A : Type) : Type := mk_vec3 { vx : A; vy : A; vz : A }.
Arguments mk_vec3 {A} vx vy vz.
Arguments vx {A} v.
Arguments vy {A} v.
Arguments vz {A} v.

(** Modelled from the spec: the Box collaborator (Box.h is not part of the
    verified sources), by the three capabilities the specification lists for
    it: [wrap], [getNearestPlaneDistance] and [is2D]. *)
Record Box : Type := mk_Box {
  getNearestPlaneDistance : vec3 Q;
  is2D : bool;
  wrap : vec3 Q -> vec3 Q
}.

(** [a - b] on [vec3<float>] *)
Definition vsub_float (a b : vec3 Q) : vec3 Q :=
  mk_vec3 (fsub (vx a) (vx b)) (fsub (vy a) (vy b)) (fsub (vz a) (vz b)).

Definition default_Box : Box :=
  mk_Box (mk_vec3 0%Q 0%Q 0%Q) false (fun v => v).

(** Modelled from the spec: NeighborBond (NeighborBond.h is not part of the
    verified sources): a discovered pair (query index, reference index,
    distance), built in the code as [NeighborBond(id, ref_id, distance)].
    The member [id] is spelled [id_] here. *)
Record NeighborBond : Type := mk_NeighborBond {
  id_ : Z;
  ref_id : Z;
  distance : Q
}.

(** Modelled from the spec: ThreadStorage (ThreadStorage.h is not part of the
    verified sources): every worker thread owns an index-addressable scratch
    array, created filled with the default value the first time the thread
    asks for it; [reset] refills the arrays and the merge step visits all of
    them. *)
Record ThreadStorage (A : Type) : Type := mk_ThreadStorage {
  ts_size : nat;
  ts_arrays : gmap nat (list A)
}.
Arguments mk_ThreadStorage {A} ts_size ts_arrays.
Arguments ts_size {A} t.
Arguments ts_arrays {A} t.

Definition ts_empty {A} : ThreadStorage A := mk_ThreadStorage 0%nat ∅.

Definition ts_resize {A} (n : nat) (t : ThreadStorage A) : ThreadStorage A :=
  mk_ThreadStorage n (ts_arrays t).

(** [local()] of thread [tid] *)
Definition ts_local {A} (zero : A) (t : ThreadStorage A) (tid : nat) : list A :=
  default (replicate (ts_size t) zero) (ts_arrays t !! tid).

Definition ts_store {A} (t : ThreadStorage A) (tid : nat) (a : list A)
  : ThreadStorage A :=
  mk_ThreadStorage (ts_size t) (<[tid := a]> (ts_arrays t)).

Definition ts_reset {A} (zero : A) (t : ThreadStorage A) : ThreadStorage A :=
  mk_ThreadStorage (ts_size t)
    ((fun a => replicate (length a) zero) <$> ts_arrays t).

(** the arrays of all threads, as the merge step iterates over them *)
Definition ts_all {A} (t : ThreadStorage A) : list (list A) :=
  (map_to_list (ts_arrays t)).*2.

(** ** CorrelationFunction.cc *)

Module Correlation.
Section CorrelationFunction.

(** The value type [T] of the template ([double] or [complex<double>]),
    with its default value [T()], [+], [*] and division by a count. *)
Context {T : Type} (T0 : T) (Tadd Tmul : T -> T -> T) (Tdiv : T -> Z -> T).

Record CorrelationFunction : Type := mk_CF {
  m_box : Box;
  m_r_max : Q;
  m_dr : Q;
  m_frame_counter : Z;
  m_reduce : bool;
  m_nbins : Z;
  m_rdf_array : list T;
  m_bin_counts : list Z;
  m_r_array : list Q;
  m_local_bin_counts : ThreadStorage Z;
  m_local_rdf_array : ThreadStorage T
}.

Definition set_box (b : Box) (s : CorrelationFunction) :=
  mk_CF b (m_r_max s) (m_dr s) (m_frame_counter s) (m_reduce s) (m_nbins s)
    (m_rdf_array s) (m_bin_counts s) (m_r_array s)
    (m_local_bin_counts s) (m_local_rdf_array s).
Definition set_frame_counter (n : Z) (s : CorrelationFunction) :=
  mk_CF (m_box s) (m_r_max s) (m_dr s) n (m_reduce s) (m_nbins s)
    (m_rdf_array s) (m_bin_counts s) (m_r_array s)
    (m_local_bin_counts s) (m_local_rdf_array s).
Definition set_reduce (b : bool) (s : CorrelationFunction) :=
  mk_CF (m_box s) (m_r_max s) (m_dr s) (m_frame_counter s) b (m_nbins s)
    (m_rdf_array s) (m_bin_counts s) (m_r_array s)
    (m_local_bin_counts s) (m_local_rdf_array s).
Definition set_nbins (n : Z) (s : CorrelationFunction) :=
  mk_CF (m_box s) (m_r_max s) (m_dr s) (m_frame_counter s) (m_reduce s) n
    (m_rdf_array s) (m_bin_counts s) (m_r_array s)
    (m_local_bin_counts s) (m_local_rdf_array s).
Definition set_rdf_array (a : list T) (s : CorrelationFunction) :=
  mk_CF (m_box s) (m_r_max s) (m_dr s) (m_frame_counter s) (m_reduce s)
    (m_nbins s) a (m_bin_counts s) (m_r_array s)
    (m_local_bin_counts s) (m_local_rdf_array s).
Definition set_bin_counts (a : list Z) (s : CorrelationFunction) :=
  mk_CF (m_box s) (m_r_max s) (m_dr s) (m_frame_counter s) (m_reduce s)
    (m_nbins s) (m_rdf_array s) a (m_r_array s)
    (m_local_bin_counts s) (m_local_rdf_array s).
Definition set_r_array (a : list Q) (s : CorrelationFunction) :=
  mk_CF (m_box s) (m_r_max s) (m_dr s) (m_frame_counter s) (m_reduce s)
    (m_nbins s) (m_rdf_array s) (m_bin_counts s) a
    (m_local_bin_counts s) (m_local_rdf_array s).
Definition set_local_bin_counts (t : ThreadStorage Z) (s : CorrelationFunction) :=
  mk_CF (m_box s) (m_r_max s) (m_dr s) (m_frame_counter s) (m_reduce s)
    (m_nbins s) (m_rdf_array s) (m_bin_counts s) (m_r_array s)
    t (m_local_rdf_array s).
Definition set_local_rdf_array (t : ThreadStorage T) (s : CorrelationFunction) :=
  mk_CF (m_box s) (m_r_max s) (m_dr s) (m_frame_counter s) (m_reduce s)
    (m_nbins s) (m_rdf_array s) (m_bin_counts s) (m_r_array s)
    (m_local_bin_counts s) t.

Local Abbreviation Obj := (M CorrelationFunction).

(** [a[i] = x] on a member array *)
Definition store {A} (a : list A) (set : list A -> CorrelationFunction -> CorrelationFunction)
    (i : Z) (x : A) : Obj unit :=
  match write a i x with
  | Ok a' => modify (set a')
  | Throw e => throw e
  end.

(** The object as the member initialisers of the constructor leave it:
    no array has been allocated yet. *)
Definition initial (r_max dr : Q) : CorrelationFunction :=
  mk_CF default_Box r_max dr 0 true 0 [] [] [] ts_empty ts_empty.

(** the center of bin [i], as the loop of the constructor computes it *)
Definition bin_center (dr : Q) (i : Z) : Q :=
  let r := fmul (to_float (inject_Z i)) dr in
  let nextr := fmul (to_float (inject_Z (to_unsigned (i + 1)))) dr in
  fdiv (fmul (fdiv 2 3)
          (fsub (fmul (fmul nextr nextr) nextr) (fmul (fmul r r) r)))
       (fsub (fmul nextr nextr) (fmul r r)).

(** [CorrelationFunction<T>::CorrelationFunction(float r_max, float dr)] *)
Definition constructor_body (r_max dr : Q) : Obj unit :=
  if Qleb dr 0 then
    throw (invalid_argument "CorrelationFunction requires dr to be positive.")
  else if Qleb r_max 0 then
    throw (invalid_argument "CorrelationFunction requires r_max to be positive.")
  else if Qltb r_max dr then
    throw (invalid_argument
      "CorrelationFunction requires dr must be less than or equal to r_max.")
  else
    modify (fun s => set_nbins
      (to_unsigned (cvtt_ss2si (floorf (fdiv (m_r_max s) (m_dr s))))) s) ;;;
    nbins <- gets m_nbins ;;
    modify (set_rdf_array (replicate (Z.to_nat nbins) T0)) ;;;
    modify (set_bin_counts (replicate (Z.to_nat nbins) 0)) ;;;
    modify (fun s => set_r_array
      (bin_center (m_dr s) <$> seqZ 0 nbins) s) ;;;
    modify (fun s => set_local_bin_counts
      (ts_resize (Z.to_nat nbins) (m_local_bin_counts s)) s) ;;;
    modify (fun s => set_local_rdf_array
      (ts_resize (Z.to_nat nbins) (m_local_rdf_array s)) s).

(** [new CorrelationFunction<T>(r_max, dr)]: the object, or the exception
    of the constructor (and then no object). *)
Definition construct (r_max dr : Q) : outcome CorrelationFunction :=
  match constructor_body r_max dr (initial r_max dr) with
  | (Ok _, s) => Ok s
  | (Throw e, _) => Throw e
  end.

(** [memset(a, 0, sizeof(unsigned int) * n)] *)
Definition memset0 (a : list Z) (n : nat) : outcome (list Z) :=
  if decide (n <= length a)%nat then Ok (replicate n 0 ++ drop n a)
  else Throw out_of_range.

Definition divide (v : T) (c : Z) : Obj T :=
  if c =? 0 then throw division_by_zero else ret (Tdiv v c).

(** the body of the [parallel_for] over the bins *)
Definition reduce_bin (i : Z) : Obj unit :=
  locals_c <- gets (fun s => ts_all (m_local_bin_counts s)) ;;
  for_each locals_c (fun local_bins =>
    a <- gets m_bin_counts ;;
    c <- read a i ;;
    l <- read local_bins i ;;
    store a set_bin_counts i ((c + l) mod UINT_MOD)) ;;;
  locals_v <- gets (fun s => ts_all (m_local_rdf_array s)) ;;
  for_each locals_v (fun local_rdf =>
    a <- gets m_rdf_array ;;
    v <- read a i ;;
    l <- read local_rdf i ;;
    store a set_rdf_array i (Tadd v l)) ;;;
  counts <- gets m_bin_counts ;;
  c <- read counts i ;;
  if c =? 0 then ret tt
  else
    a <- gets m_rdf_array ;;
    v <- read a i ;;
    q <- divide v c ;;
    store a set_rdf_array i q.

(** [CorrelationFunction<T>::reduceCorrelationFunction()] *)
Definition reduceCorrelationFunction : Obj unit :=
  nbins <- gets m_nbins ;;
  counts <- gets m_bin_counts ;;
  match memset0 counts (Z.to_nat nbins) with
  | Throw e => throw e
  | Ok counts' =>
      modify (set_bin_counts counts') ;;;
      for_loop 0 (Z.to_nat nbins) (fun i =>
        a <- gets m_rdf_array ;; store a set_rdf_array i T0) ;;;
      for_loop 0 (Z.to_nat nbins) reduce_bin
  end.

(** [CorrelationFunction<T>::getRDF()] *)
Definition getRDF : Obj (list T) :=
  r <- gets m_reduce ;;
  (if r then reduceCorrelationFunction else ret tt) ;;;
  modify (set_reduce false) ;;;
  gets m_rdf_array.

(** [CorrelationFunction<T>::reset()] *)
Definition reset : Obj unit :=
  modify (fun s => set_local_rdf_array (ts_reset T0 (m_local_rdf_array s)) s) ;;;
  modify (fun s => set_local_bin_counts (ts_reset 0 (m_local_bin_counts s)) s) ;;;
  modify (set_frame_counter 0) ;;;
  modify (set_reduce true).

(** the bin of a bond: [binr = distance * dr_inv] on [float], then the
    truncating conversion, read as [unsigned int] *)
Definition bin_of (dr_inv : Q) (neighbor_bond : NeighborBond) : Z :=
  let binr := fmul (distance neighbor_bond) dr_inv in
  to_unsigned (cvtt_ss2si binr).

(** the function object handed to [loopOverNeighbors], run by thread [tid] *)
Definition accumulate_bond (values query_values : list T) (dr_inv : Q)
    (tid : nat) (neighbor_bond : NeighborBond) : Obj unit :=
  let bin := bin_of dr_inv neighbor_bond in
  nbins <- gets m_nbins ;;
  if bin <? nbins then
    local_counts <- gets (fun s => ts_local 0 (m_local_bin_counts s) tid) ;;
    c <- read local_counts bin ;;
    match write local_counts bin ((c + 1) mod UINT_MOD) with
    | Throw e => throw e
    | Ok a' =>
        modify (fun s => set_local_bin_counts
                           (ts_store (m_local_bin_counts s) tid a') s)
    end ;;;
    local_rdf <- gets (fun s => ts_local T0 (m_local_rdf_array s) tid) ;;
    r <- read local_rdf bin ;;
    v <- read values (ref_id neighbor_bond) ;;
    q <- read query_values (id_ neighbor_bond) ;;
    match write local_rdf bin (Tadd r (Tmul v q)) with
    | Throw e => throw e
    | Ok a' =>
        modify (fun s => set_local_rdf_array
                           (ts_store (m_local_rdf_array s) tid a') s)
    end
  else ret tt.

(** Modelled from the spec: loopOverNeighbors (NeighborComputeFunctional.h
    is not part of the verified sources) asks the neighbor source for its
    bonds and hands every bond to the function object, each on the worker
    thread that found it. The source either rejects the query arguments,
    before it has produced a bond ("raised at the start of accumulation"),
    or produces the sequence [bonds] of (thread, bond) pairs, in the order
    in which the calls take effect. *)
Definition loopOverNeighbors (neighbors : outcome (list (nat * NeighborBond)))
    (cf : nat -> NeighborBond -> Obj unit) : Obj unit :=
  match neighbors with
  | Throw e => throw e
  | Ok bonds => for_each bonds (fun tb => cf tb.1 tb.2)
  end.

(** [CorrelationFunction<T>::accumulate(...)]; [box] is
    [neighbor_query->getBox()]. *)
Definition accumulate (box : Box) (values query_values : list T)
    (neighbors : outcome (list (nat * NeighborBond))) : Obj unit :=
  modify (set_box box) ;;;
  dr <- gets m_dr ;;
  let dr_inv := fdiv 1 dr in
  loopOverNeighbors neighbors (accumulate_bond values query_values dr_inv) ;;;
  modify (fun s => set_frame_counter ((m_frame_counter s + 1) mod UINT_MOD) s) ;;;
  modify (set_reduce true).

(** *** Well-formed objects *)

Definition ts_wf {A} (n : nat) (t : ThreadStorage A) : Prop :=
  ts_size t = n /\ Forall (fun a => length a = n) (ts_all t).

Definition wf (s : CorrelationFunction) : Prop :=
  0 <= m_nbins s <= 2 ^ 31 /\
  length (m_rdf_array s) = Z.to_nat (m_nbins s) /\
  length (m_bin_counts s) = Z.to_nat (m_nbins s) /\
  ts_wf (Z.to_nat (m_nbins s)) (m_local_bin_counts s) /\
  ts_wf (Z.to_nat (m_nbins s)) (m_local_rdf_array s).

(** the members that neither accumulation nor reduction of bins touches *)
Definition same_setup (s s' : CorrelationFunction) : Prop :=
  m_box s' = m_box s /\ m_r_max s' = m_r_max s /\ m_dr s' = m_dr s /\
  m_frame_counter s' = m_frame_counter s /\ m_reduce s' = m_reduce s /\
  m_nbins s' = m_nbins s /\ m_r_array s' = m_r_array s.

(** *** What the reduction computes *)

(** the sum, over the threads, of the counts of bin [i] *)
Definition merged_count (s : CorrelationFunction) (i : nat) : Z :=
  fold_left (fun c (local_bins : list Z) =>
               (c + default 0 (local_bins !! i)) mod UINT_MOD)
    (ts_all (m_local_bin_counts s)) 0.

(** the sum, over the threads, of the values of bin [i], starting from [T()] *)
Definition merged_value (s : CorrelationFunction) (i : nat) : T :=
  fold_left (fun v (local_rdf : list T) => Tadd v (default T0 (local_rdf !! i)))
    (ts_all (m_local_rdf_array s)) T0.

Definition reduced_value (s : CorrelationFunction) (i : nat) : T :=
  if merged_count s i =? 0 then merged_value s i
  else Tdiv (merged_value s i) (merged_count s i).

Definition reduced (s : CorrelationFunction) : CorrelationFunction :=
  set_rdf_array (reduced_value s <$> seq 0 (Z.to_nat (m_nbins s)))
    (set_bin_counts (merged_count s <$> seq 0 (Z.to_nat (m_nbins s))) s).

(** the invariant of accumulation that the reduction relies on: where the
    threads together counted nothing in a bin, every thread still holds the
    default value for it *)
Definition uncounted_bins_default (s : CorrelationFunction) : Prop :=
  forall i local_rdf,
    merged_count s i = 0 ->
    local_rdf ∈ ts_all (m_local_rdf_array s) ->
    (i < Z.to_nat (m_nbins s))%nat ->
    local_rdf !! i = Some T0.

End CorrelationFunction.
End Correlation.

(** ** The RDF class (RDF.h) *)

Module Density.

Record RDF : Type := mk_RDF {
  m_box : Box;
  m_frame_counter : Z;
  m_n_points : Z;
  m_n_query_points : Z;
  m_reduce : bool;
  m_r_max : Q;
  m_r_min : Q;
  m_bins : Z;
  m_pcf : list Q;
  m_histogram : list Z;
  m_N_r : list Q;
  m_vol_array2D : list Q;
  m_vol_array3D : list Q;
  m_local_histograms : ThreadStorage Z
}.

Definition set_reduce (b : bool) (s : RDF) : RDF :=
  mk_RDF (m_box s) (m_frame_counter s) (m_n_points s) (m_n_query_points s) b
    (m_r_max s) (m_r_min s) (m_bins s) (m_pcf s) (m_histogram s) (m_N_r s)
    (m_vol_array2D s) (m_vol_array3D s) (m_local_histograms s).

Definition set_accumulated (n_points n_query_points : Z) (s : RDF) : RDF :=
  mk_RDF (m_box s) (to_unsigned (m_frame_counter s + 1)) n_points
    n_query_points true
    (m_r_max s) (m_r_min s) (m_bins s) (m_pcf s) (m_histogram s) (m_N_r s)
    (m_vol_array2D s) (m_vol_array3D s) (m_local_histograms s).

Section RDF.

(** [RDF::reduce()] is virtual and defined in RDF.cc, which is not part of
    the verified sources; it is a parameter. *)
Context (reduce : M RDF unit).

(** [RDF::reduceAndReturn(thing_to_return)]; the reference to a member that
    the template takes and returns is the projection of that member. *)
Definition reduceAndReturn {A} (thing_to_return : RDF -> A) : M RDF A :=
  r <- gets m_reduce ;;
  (if r then reduce else ret tt) ;;;
  modify (set_reduce false) ;;;
  gets thing_to_return.

(** [RDF::getRDF()] *)
Definition getRDF : M RDF (list Q) := reduceAndReturn m_pcf.

(** [RDF::getNr()] *)
Definition getNr : M RDF (list Q) := reduceAndReturn m_N_r.

(** [RDF::accumulateGeneral(...)]; [loop] is the call of loopOverNeighbors
    with the function object [cf]. *)
Definition accumulateGeneral (box : Box) (n_points n_query_points : Z)
    (loop : M RDF unit) : M RDF unit :=
  modify (fun s => mk_RDF box (m_frame_counter s) (m_n_points s)
                     (m_n_query_points s) (m_reduce s) (m_r_max s) (m_r_min s)
                     (m_bins s) (m_pcf s) (m_histogram s) (m_N_r s)
                     (m_vol_array2D s) (m_vol_array3D s)
                     (m_local_histograms s)) ;;;
  loop ;;;
  modify (set_accumulated n_points n_query_points).

End RDF.
End Density.

(** ** LinkCell.cc *)

Module Locality.

Definition LINK_CELL_TERMINATOR : Z := 4294967295.

(** Conversion of an [unsigned int] to [int]. *)
Definition to_int (z : Z) : Z :=
  let u := to_unsigned z in if u <? 2 ^ 31 then u else u - UINT_MOD.

Definition vsub (a b : vec3 Q) : vec3 Q :=
  mk_vec3 (vx a - vx b)%Q (vy a - vy b)%Q (vz a - vz b)%Q.
Definition dot (a b : vec3 Q) : Q :=
  (vx a * vx b + vy a * vy b + vz a * vz b)%Q.
Definition vadd_int (a b : vec3 Z) : vec3 Z :=
  mk_vec3 (vx a + vx b) (vy a + vy b) (vz a + vz b).

(** [for (int i = n - 1; i >= 0; i--) body(i)] *)
Fixpoint for_down {S} (n : nat) (body : Z -> M S unit) : M S unit :=
  match n with
  | O => ret tt
  | S n' => body (Z.of_nat n') ;;; for_down n' body
  end.

(** [std::sort] of a vector of [unsigned int] *)
Definition sort_cells (l : list Z) : list Z := merge_sort Z.le l.

Section LinkCell.

(** Members of LinkCell.h and ManagedArray.h that LinkCell.cc calls and
    that are not part of the verified sources; they are parameters of the
    development.
    - [getMultiIndex shape x]: the multi-index of the linear index [x] in an
      array of the given shape;
    - [coordToIndex celldim x y z]: the linear index of a cell;
    - [getCellCoord box celldim p]: the cell coordinates of a position. *)
Context (getMultiIndex : list Z -> Z -> list Z).
Context (coordToIndex : vec3 Z -> Z -> Z -> Z -> Z).
Context (getCellCoord : Box -> vec3 Z -> vec3 Q -> vec3 Z).

Record LinkCell : Type := mk_LinkCell {
  m_box : Box;                    (* NeighborQuery::m_box *)
  m_points : list (vec3 Q);       (* NeighborQuery::m_points *)
  nq_n_points : Z;                (* NeighborQuery::m_n_points *)
  m_n_points : Z;
  m_cell_width : Q;
  m_celldim : vec3 Z;
  m_size : Z;
  m_Nc : Z;
  m_cell_list : list Z;
  m_cell_neighbors : gmap Z (list Z)
}.

Definition set_n_points (n : Z) (s : LinkCell) :=
  mk_LinkCell (m_box s) (m_points s) (nq_n_points s) n (m_cell_width s)
    (m_celldim s) (m_size s) (m_Nc s) (m_cell_list s) (m_cell_neighbors s).
Definition set_celldim (d : vec3 Z) (s : LinkCell) :=
  mk_LinkCell (m_box s) (m_points s) (nq_n_points s) (m_n_points s)
    (m_cell_width s) d (m_size s) (m_Nc s) (m_cell_list s) (m_cell_neighbors s).
Definition set_size (n : Z) (s : LinkCell) :=
  mk_LinkCell (m_box s) (m_points s) (nq_n_points s) (m_n_points s)
    (m_cell_width s) (m_celldim s) n (m_Nc s) (m_cell_list s)
    (m_cell_neighbors s).
Definition set_Nc (n : Z) (s : LinkCell) :=
  mk_LinkCell (m_box s) (m_points s) (nq_n_points s) (m_n_points s)
    (m_cell_width s) (m_celldim s) (m_size s) n (m_cell_list s)
    (m_cell_neighbors s).
Definition set_cell_list (a : list Z) (s : LinkCell) :=
  mk_LinkCell (m_box s) (m_points s) (nq_n_points s) (m_n_points s)
    (m_cell_width s) (m_celldim s) (m_size s) (m_Nc s) a (m_cell_neighbors s).
Definition set_cell_neighbors (m : gmap Z (list Z)) (s : LinkCell) :=
  mk_LinkCell (m_box s) (m_points s) (nq_n_points s) (m_n_points s)
    (m_cell_width s) (m_celldim s) (m_size s) (m_Nc s) (m_cell_list s) m.

Local Abbreviation Obj := (M LinkCell).

Definition store_cell_list (i : Z) (x : Z) : Obj unit :=
  a <- gets m_cell_list ;;
  match write a i x with
  | Ok a' => modify (set_cell_list a')
  | Throw e => throw e
  end.

(** [LinkCell::computeDimensions(box, cell_width)]. With a [cell_width] of 0
    the quotients of the code are infinite or NaN, and their cast is 0 on
    x86-64; the quotient of the model is 0 then, with the same cast. *)
Definition computeDimensions (box : Box) (cell_width : Q) : vec3 Z :=
  let L := getNearestPlaneDistance box in
  let dim_x := float_to_unsigned (fdiv (vx L) cell_width) in
  let dim_y := float_to_unsigned (fdiv (vy L) cell_width) in
  let dim_z :=
    if is2D box then 1 else float_to_unsigned (fdiv (vz L) cell_width) in
  let dim_x := if dim_x =? 0 then 1 else dim_x in
  let dim_y := if dim_y =? 0 then 1 else dim_y in
  let dim_z := if dim_z =? 0 then 1 else dim_z in
  mk_vec3 dim_x dim_y dim_z.

Definition getNumCells (s : LinkCell) : Z := m_size s.

(** [getCell(p)]: the linear index of the cell of a position *)
Definition getCell (s : LinkCell) (p : vec3 Q) : Z :=
  let c := getCellCoord (m_box s) (m_celldim s) p in
  coordToIndex (m_celldim s) (vx c) (vy c) (vz c).

(** [LinkCell::computeCellList(points, n_points)] *)
Definition computeCellList (points : list (vec3 Q)) (n_points : Z) : Obj unit :=
  if n_points =? 0 then
    throw (runtime_error "Cannot generate a cell list of 0 particles.")
  else
    Nc <- gets getNumCells ;;
    modify (set_cell_list
              (replicate (Z.to_nat (to_unsigned (n_points + Nc))) 0)) ;;;
    modify (set_n_points n_points) ;;;
    modify (set_Nc Nc) ;;;
    for_loop 0 (Z.to_nat Nc) (fun cell =>
      store_cell_list (to_unsigned (n_points + cell)) LINK_CELL_TERMINATOR) ;;;
    for_down (Z.to_nat (to_int (n_points - 1) + 1)) (fun i =>
      pt <- read points i ;;
      cell <- gets (fun s => getCell s pt) ;;
      a <- gets m_cell_list ;;
      head <- read a (to_unsigned (n_points + cell)) ;;
      store_cell_list i head ;;;
      store_cell_list (to_unsigned (n_points + cell)) i).

(** the object as the member initialisers leave it *)
Definition initial (box : Box) (cell_width : Q) (points : list (vec3 Q))
    (n_points : Z) : LinkCell :=
  mk_LinkCell box points n_points 0 cell_width (mk_vec3 0 0 0) 0 0 [] ∅.

(** [LinkCell::LinkCell(box, cell_width, points, n_points)] *)
Definition constructor_body (box : Box) (points : list (vec3 Q)) (n_points : Z)
  : Obj unit :=
  w <- gets m_cell_width ;;
  let celldim := computeDimensions box w in
  let nearest_plane_distance := getNearestPlaneDistance box in
  if Qltb (vx nearest_plane_distance) (w * 2)
     || Qltb (vy nearest_plane_distance) (w * 2)
     || (negb (is2D box) && Qltb (vz nearest_plane_distance) (w * 2))
  then
    throw (runtime_error
      "Cannot generate a cell list where cell_width is larger than half the box.")
  else
    let celldim :=
      if is2D box then mk_vec3 (vx celldim) (vy celldim) 1 else celldim in
    modify (set_size (to_unsigned (vx celldim * vy celldim * vz celldim))) ;;;
    size <- gets m_size ;;
    if size <? 1 then
      throw (runtime_error "At least one cell must be present.")
    else
      modify (set_celldim celldim) ;;;
      computeCellList points n_points.

Definition construct (box : Box) (cell_width : Q) (points : list (vec3 Q))
    (n_points : Z) : outcome LinkCell :=
  match constructor_body box points n_points
          (initial box cell_width points n_points) with
  | (Ok _, s) => Ok s
  | (Throw e, _) => Throw e
  end.

(** [LinkCell::indexToCoord(x)] *)
Definition indexToCoord (s : LinkCell) (x : Z) : vec3 Z :=
  let coord :=
    getMultiIndex [vx (m_celldim s); vy (m_celldim s); vz (m_celldim s)] x in
  mk_vec3 (coord !!! 2%nat) (coord !!! 1%nat) (coord !!! 0%nat).

(** [for (int v = from; v <= to; v++)] as the list of the values of [v] *)
Definition int_range (from to : Z) : list Z := seqZ from (to - from + 1).

(** [(dim + neigh) % dim]: [dim] is [unsigned int], so the sum and the
    remainder are computed on [unsigned int]. *)
Definition wrap_index (dim neigh : Z) : Z := to_unsigned (dim + neigh) mod dim.

(** the body of [LinkCell::computeCellNeighbors] up to the sort *)
Definition neighbor_cells_of (s : LinkCell) (cur_cell : Z) : list Z :=
  let l_idx := indexToCoord s cur_cell in
  let i := to_int (vx l_idx) in
  let j := to_int (vy l_idx) in
  let k := to_int (vz l_idx) in
  let d := m_celldim s in
  let starti := if vx d <? 3 then i else i - 1 in
  let startj := if vy d <? 3 then j else j - 1 in
  let startk := if vz d <? 3 then k else k - 1 in
  let endi := if vx d <? 2 then i else i + 1 in
  let endj := if vy d <? 2 then j else j + 1 in
  let endk := if vz d <? 2 then k else k + 1 in
  let startk := if is2D (m_box s) then k else startk in
  let endk := if is2D (m_box s) then k else endk in
  neighk ← int_range startk endk;
  neighj ← int_range startj endj;
  neighi ← int_range starti endi;
  let wrapi := to_int (wrap_index (vx d) neighi) in
  let wrapj := to_int (wrap_index (vy d) neighj) in
  let wrapk := to_int (wrap_index (vz d) neighk) in
  [coordToIndex d wrapi wrapj wrapk].

(** [LinkCell::computeCellNeighbors(cur_cell)] *)
Definition computeCellNeighbors (cur_cell : Z) : Obj (list Z) :=
  s <- get ;;
  let neighbor_cells := sort_cells (neighbor_cells_of s cur_cell) in
  modify (fun s =>
    set_cell_neighbors (<[cur_cell := neighbor_cells]> (m_cell_neighbors s)) s) ;;;
  ret neighbor_cells.

End LinkCell.

(** *** The cell-shell iterator *)

Definition chebyshev (o : vec3 Z) : Z :=
  Z.max (Z.abs (vx o)) (Z.max (Z.abs (vy o)) (Z.abs (vz o))).

(** Modelled from the spec: IteratorCellShell (declared in LinkCell.h, not
    part of the verified sources) produces the relative cell offsets grouped
    into shells of increasing Chebyshev radius, radius 0 being the origin
    cell only; in 2D mode the third coordinate stays 0. Within a shell every
    offset is produced exactly once; the order chosen here is lexicographic
    (the specification leaves it open). *)
Definition shell (is2D : bool) (range : Z) : list (vec3 Z) :=
  filter (fun o => chebyshev o = range)
    (x ← int_range (- range) range;
     y ← int_range (- range) range;
     z ← (if is2D then [0] else int_range (- range) range);
     [mk_vec3 x y z]).

Record IteratorCellShell : Type := mk_IteratorCellShell {
  m_range : Z;
  m_pos : nat;
  m_is2D : bool
}.

(** [IteratorCellShell(range, is2D)] *)
Definition IteratorCellShell_at (range : Z) (is2D : bool) : IteratorCellShell :=
  mk_IteratorCellShell range 0 is2D.

(** [*it] *)
Definition shell_deref (it : IteratorCellShell) : vec3 Z :=
  default (mk_vec3 0 0 0) (shell (m_is2D it) (m_range it) !! m_pos it).

(** [++it] *)
Definition shell_incr (it : IteratorCellShell) : IteratorCellShell :=
  if decide (S (m_pos it) < length (shell (m_is2D it) (m_range it)))%nat
  then mk_IteratorCellShell (m_range it) (S (m_pos it)) (m_is2D it)
  else mk_IteratorCellShell (m_range it + 1) 0 (m_is2D it).

(** [it == other] *)
Definition shell_eqb (a b : IteratorCellShell) : bool :=
  (m_range a =? m_range b) && Nat.eqb (m_pos a) (m_pos b)
  && Bool.eqb (m_is2D a) (m_is2D b).

Definition getRange (it : IteratorCellShell) : Z := m_range it.

(** *** Queries *)

Inductive QueryType : Type := none | ball | nearest.

(** Modelled from the spec: QueryArgs (NeighborQuery.h is not part of the
    verified sources), the configuration record with the fields [mode],
    [r_max], [r_min], [num_neighbors] and [exclude_ii]. *)
Record QueryArgs : Type := mk_QueryArgs {
  mode : QueryType;
  num_neighbors : Z;
  r_max : Q;
  r_min : Q;
  exclude_ii : bool
}.

(** The members of [NeighborQueryPerPointIterator], [LinkCellIterator] and
    of its two subclasses. [m_cell_iter] is the position [m_cur_idx] of the
    IteratorLinkCell in the cell list. *)
Record LinkCellIterator : Type := mk_LinkCellIterator {
  m_query_point : vec3 Q;
  m_query_point_idx : Z;
  m_r_max : Q;
  m_r_min : Q;
  m_exclude_ii : bool;
  m_finished : bool;
  m_neigh_cell_iter : IteratorCellShell;
  m_cell_iter : Z;
  m_searched_cells : gset Z;
  m_extra_search_width : Z;          (* LinkCellQueryBallIterator *)
  m_num_neighbors : Z;               (* LinkCellQueryIterator *)
  m_count : Z;                       (* LinkCellQueryIterator *)
  m_current_neighbors : list NeighborBond   (* LinkCellQueryIterator *)
}.

Definition set_finished (b : bool) (it : LinkCellIterator) :=
  mk_LinkCellIterator (m_query_point it) (m_query_point_idx it) (m_r_max it)
    (m_r_min it) (m_exclude_ii it) b (m_neigh_cell_iter it) (m_cell_iter it)
    (m_searched_cells it) (m_extra_search_width it) (m_num_neighbors it)
    (m_count it) (m_current_neighbors it).
Definition set_neigh_cell_iter (c : IteratorCellShell) (it : LinkCellIterator) :=
  mk_LinkCellIterator (m_query_point it) (m_query_point_idx it) (m_r_max it)
    (m_r_min it) (m_exclude_ii it) (m_finished it) c (m_cell_iter it)
    (m_searched_cells it) (m_extra_search_width it) (m_num_neighbors it)
    (m_count it) (m_current_neighbors it).
Definition set_cell_iter (c : Z) (it : LinkCellIterator) :=
  mk_LinkCellIterator (m_query_point it) (m_query_point_idx it) (m_r_max it)
    (m_r_min it) (m_exclude_ii it) (m_finished it) (m_neigh_cell_iter it) c
    (m_searched_cells it) (m_extra_search_width it) (m_num_neighbors it)
    (m_count it) (m_current_neighbors it).
Definition set_searched_cells (g : gset Z) (it : LinkCellIterator) :=
  mk_LinkCellIterator (m_query_point it) (m_query_point_idx it) (m_r_max it)
    (m_r_min it) (m_exclude_ii it) (m_finished it) (m_neigh_cell_iter it)
    (m_cell_iter it) g (m_extra_search_width it) (m_num_neighbors it)
    (m_count it) (m_current_neighbors it).
Definition set_count (n : Z) (it : LinkCellIterator) :=
  mk_LinkCellIterator (m_query_point it) (m_query_point_idx it) (m_r_max it)
    (m_r_min it) (m_exclude_ii it) (m_finished it) (m_neigh_cell_iter it)
    (m_cell_iter it) (m_searched_cells it) (m_extra_search_width it)
    (m_num_neighbors it) n (m_current_neighbors it).
Definition set_current_neighbors (l : list NeighborBond) (it : LinkCellIterator) :=
  mk_LinkCellIterator (m_query_point it) (m_query_point_idx it) (m_r_max it)
    (m_r_min it) (m_exclude_ii it) (m_finished it) (m_neigh_cell_iter it)
    (m_cell_iter it) (m_searched_cells it) (m_extra_search_width it)
    (m_num_neighbors it) (m_count it) l.

(** Modelled from the spec: [NeighborQueryIterator::ITERATOR_TERMINATOR]
    (NeighborQuery.h is not part of the verified sources), the sentinel that
    [next] returns when the sequence is exhausted. *)
Definition ITERATOR_TERMINATOR : NeighborBond :=
  mk_NeighborBond 4294967295 4294967295 0.

(** Modelled from the spec: [NeighborBond::operator<] orders bonds by
    distance ("sorting the buffer by distance"). *)
Definition bond_le (a b : NeighborBond) : Prop := (distance a <= distance b)%Q.

#[global] Instance bond_le_dec : RelDecision bond_le.
Proof.
  intros a b. unfold bond_le.
  destruct (Qlt_le_dec (distance b) (distance a)) as [H|H].
  - right. apply Qlt_not_le, H.
  - left. exact H.
Defined.

(** [std::sort] of the buffer of bonds *)
Definition sort_bonds (l : list NeighborBond) : list NeighborBond :=
  merge_sort bond_le l.

Section Iterators.

Context (coordToIndex : vec3 Z -> Z -> Z -> Z -> Z).
Context (getCellCoord : Box -> vec3 Z -> vec3 Q -> vec3 Z).
(** [sqrt] on [float] *)
Context (sqrtf : Q -> Q).

Local Abbreviation getCell := (getCell coordToIndex getCellCoord).

(** Modelled from the spec: [LinkCell::getCellIndex] (LinkCell.h is not part
    of the verified sources) gives the linear index of the cell with the
    given integer coordinates, "with periodic wrap of indices modulo grid
    dimension". *)
Definition getCellIndex (lc : LinkCell) (cellCoord : vec3 Z) : Z :=
  let d := m_celldim lc in
  coordToIndex d (vx cellCoord mod vx d) (vy cellCoord mod vy d)
    (vz cellCoord mod vz d).

(** Modelled from the spec: IteratorLinkCell (declared in LinkCell.h, not
    part of the verified sources) walks the bucket of one cell along the
    links that [computeCellList] lays down: it starts on the head slot
    [n_points + cell] of the cell, [next()] follows one link and returns the
    index found, and [atEnd()] holds on [LINK_CELL_TERMINATOR]. *)
Definition itercell (lc : LinkCell) (cell : Z) : Z :=
  to_unsigned (m_n_points lc + cell).

Definition atEnd (cur_idx : Z) : bool := cur_idx =? LINK_CELL_TERMINATOR.

Definition getCellWidth (lc : LinkCell) : Q := m_cell_width lc.

(** Modelled from the spec: the constructor of [LinkCellIterator]
    (LinkCell.h): the shell iterator starts on the origin cell, the cell
    iterator on the bucket of the cell of the query point, and no cell has
    been searched. The extra search width of the ball query and the number
    of neighbors of the nearest-neighbor query are set by the subclasses. *)
Definition new_LinkCellIterator (lc : LinkCell) (query_point : vec3 Q)
    (query_point_idx : Z) (r_max r_min : Q) (exclude_ii : bool)
    (extra_search_width num_neighbors : Z) : LinkCellIterator :=
  mk_LinkCellIterator query_point query_point_idx r_max r_min exclude_ii false
    (IteratorCellShell_at 0 (is2D (m_box lc)))
    (itercell lc (getCell lc query_point)) ∅
    extra_search_width num_neighbors 0 [].

(** the test of one candidate [j], shared by both iterators: the bond when
    the wrapped squared distance lies in [[r_min^2, r_max^2)] *)
Definition candidate (lc : LinkCell) (it : LinkCellIterator) (pj : vec3 Q) (j : Z)
  : option NeighborBond :=
  let r_max_sq := (m_r_max it * m_r_max it)%Q in
  let r_min_sq := (m_r_min it * m_r_min it)%Q in
  let r_ij := wrap (m_box lc) (vsub pj (m_query_point it)) in
  let r_sq := dot r_ij r_ij in
  if Qltb r_sq r_max_sq && Qleb r_min_sq r_sq
  then Some (mk_NeighborBond (m_query_point_idx it) j (sqrtf r_sq))
  else None.

Inductive ball_phase : Type :=
| BallScan       (* in the [for] loop over the particles of the cell *)
| BallAdvance.   (* in the inner [while (true)] looking for the next cell *)

Definition step_result : Type := option (outcome NeighborBond * LinkCellIterator).

(** the loops of [LinkCellQueryBallIterator::next]; one unit of [fuel] pays
    for one iteration of the [for] loop or of the inner [while] loop *)
Fixpoint ball_loop (lc : LinkCell) (point_cell : vec3 Z) (fuel : nat)
    (ph : ball_phase) (it : LinkCellIterator) : step_result :=
  match fuel with
  | O => None
  | S fuel' =>
    match ph with
    | BallScan =>
      match m_cell_list lc !! Z.to_nat (m_cell_iter it) with
      | None => Some (Throw out_of_range, it)
      | Some j =>
        let it := set_cell_iter j it in
        if atEnd j then ball_loop lc point_cell fuel' BallAdvance it
        else if m_exclude_ii it && (m_query_point_idx it =? j)
        then ball_loop lc point_cell fuel' BallScan it
        else
          match m_points lc !! Z.to_nat j with
          | None => Some (Throw out_of_range, it)
          | Some pj =>
            match candidate lc it pj j with
            | Some b => Some (Ok b, it)
            | None => ball_loop lc point_cell fuel' BallScan it
            end
          end
      end
    | BallAdvance =>
      let it := set_neigh_cell_iter (shell_incr (m_neigh_cell_iter it)) it in
      if Qltb (m_r_max it)
              (inject_Z (getRange (m_neigh_cell_iter it) - m_extra_search_width it)
               * getCellWidth lc)
      then Some (Ok ITERATOR_TERMINATOR, set_finished true it)
      else
        let neighbor_cell_index :=
          getCellIndex lc
            (vadd_int point_cell (shell_deref (m_neigh_cell_iter it))) in
        if decide (neighbor_cell_index ∈ m_searched_cells it)
        then ball_loop lc point_cell fuel' BallAdvance it
        else
          ball_loop lc point_cell fuel' BallScan
            (set_cell_iter (itercell lc neighbor_cell_index)
               (set_searched_cells
                  ({[neighbor_cell_index]} ∪ m_searched_cells it) it))
      end
  end.

(** [LinkCellQueryBallIterator::next()] *)
Definition ball_next (lc : LinkCell) (fuel : nat) (it : LinkCellIterator)
  : step_result :=
  let point_cell := getCellCoord (m_box lc) (m_celldim lc) (m_query_point it) in
  let point_cell_index :=
    getCellIndex lc (vadd_int point_cell (shell_deref (m_neigh_cell_iter it))) in
  let it := set_searched_cells ({[point_cell_index]} ∪ m_searched_cells it) it in
  ball_loop lc point_cell fuel BallScan it.

Inductive knn_phase : Type :=
| KnnTop         (* at the test of the outer [while] loop *)
| KnnScan        (* in the [for] loop over the particles of the cell *)
| KnnAdvance     (* in the inner [while (true)] looking for the next cell *)
| KnnSort.       (* at the [std::sort] that ends a round of the outer loop *)

(** the end of one round of the outer loop: sort, then the early exit *)
Definition knn_sorted_enough (lc : LinkCell) (it : LinkCellIterator)
  : outcome bool * LinkCellIterator :=
  let it := set_current_neighbors (sort_bonds (m_current_neighbors it)) it in
  if Z.of_nat (length (m_current_neighbors it)) <? m_num_neighbors it
  then (Ok false, it)
  else
    match m_current_neighbors it
            !! Z.to_nat (to_unsigned (m_num_neighbors it - 1)) with
    | None => (Throw out_of_range, it)
    | Some b =>
      (Ok (Qltb (distance b)
             (inject_Z (getRange (m_neigh_cell_iter it) - 1) * getCellWidth lc)),
       it)
    end.

(** the expansion loop of [LinkCellQueryIterator::next]; one unit of [fuel]
    pays for one step of one of its loops *)
Fixpoint knn_expand (lc : LinkCell) (point_cell : vec3 Z) (max_range : Z)
    (fuel : nat) (ph : knn_phase) (it : LinkCellIterator)
  : option (outcome unit * LinkCellIterator) :=
  let last := IteratorCellShell_at max_range (is2D (m_box lc)) in
  match fuel with
  | O => None
  | S fuel' =>
    match ph with
    | KnnTop =>
      if shell_eqb (m_neigh_cell_iter it) last then Some (Ok tt, it)
      else if atEnd (m_cell_iter it)
      then knn_expand lc point_cell max_range fuel' KnnAdvance it
      else knn_expand lc point_cell max_range fuel' KnnScan it
    | KnnScan =>
      match m_cell_list lc !! Z.to_nat (m_cell_iter it) with
      | None => Some (Throw out_of_range, it)
      | Some j =>
        let it := set_cell_iter j it in
        if atEnd j then knn_expand lc point_cell max_range fuel' KnnAdvance it
        else if m_exclude_ii it && (m_query_point_idx it =? j)
        then knn_expand lc point_cell max_range fuel' KnnScan it
        else
          match m_points lc !! Z.to_nat j with
          | None => Some (Throw out_of_range, it)
          | Some pj =>
            match candidate lc it pj j with
            | Some b =>
              knn_expand lc point_cell max_range fuel' KnnScan
                (set_current_neighbors (m_current_neighbors it ++ [b]) it)
            | None => knn_expand lc point_cell max_range fuel' KnnScan it
            end
          end
      end
    | KnnAdvance =>
      let it := set_neigh_cell_iter (shell_incr (m_neigh_cell_iter it)) it in
      if shell_eqb (m_neigh_cell_iter it) last
      then knn_expand lc point_cell max_range fuel' KnnSort it
      else
        let neighbor_cell_index :=
          getCellIndex lc
            (vadd_int point_cell (shell_deref (m_neigh_cell_iter it))) in
        if decide (neighbor_cell_index ∈ m_searched_cells it)
        then knn_expand lc point_cell max_range fuel' KnnAdvance it
        else
          knn_expand lc point_cell max_range fuel' KnnSort
            (set_cell_iter (itercell lc neighbor_cell_index)
               (set_searched_cells
                  ({[neighbor_cell_index]} ∪ m_searched_cells it) it))
    | KnnSort =>
      match knn_sorted_enough lc it with
      | (Throw e, it) => Some (Throw e, it)
      | (Ok true, it) => Some (Ok tt, it)
      | (Ok false, it) => knn_expand lc point_cell max_range fuel' KnnTop it
      end
    end
  end.

(** [min_plane_distance]: the smallest of the distances between opposite
    faces of the box, the third one left out in 2D *)
Definition min_plane_distance (box : Box) : Q :=
  let plane_distance := getNearestPlaneDistance box in
  let min_plane_distance := Qmin (vx plane_distance) (vy plane_distance) in
  if is2D box then min_plane_distance
  else Qmin min_plane_distance (vz plane_distance).

(** [ceil(min_plane_distance / (2 * cell_width)) + 1] as [unsigned int] *)
Definition knn_max_range (lc : LinkCell) : Z :=
  float_to_unsigned
    (inject_Z (Qceiling (min_plane_distance (m_box lc) / (2 * getCellWidth lc)))
     + 1).

(** the last loop of [LinkCellQueryIterator::next]: the next bond of the
    buffer, as long as fewer than [m_num_neighbors] have been returned *)
Definition knn_yield (it : LinkCellIterator)
  : outcome NeighborBond * LinkCellIterator :=
  if (m_count it <? m_num_neighbors it)
     && (m_count it <? Z.of_nat (length (m_current_neighbors it)))
  then
    let it := set_count (to_unsigned (m_count it + 1)) it in
    match m_current_neighbors it !! Z.to_nat (m_count it - 1) with
    | None => (Throw out_of_range, it)
    | Some b =>
      if Qltb (m_r_max it) (distance b)
      then (Ok ITERATOR_TERMINATOR, set_finished true it)
      else (Ok b, it)
    end
  else (Ok ITERATOR_TERMINATOR, set_finished true it).

(** [LinkCellQueryIterator::next()] *)
Definition knn_next (lc : LinkCell) (fuel : nat) (it : LinkCellIterator)
  : step_result :=
  let max_range := knn_max_range lc in
  let point_cell := getCellCoord (m_box lc) (m_celldim lc) (m_query_point it) in
  let point_cell_index :=
    getCellIndex lc (vadd_int point_cell (shell_deref (m_neigh_cell_iter it))) in
  let it := set_searched_cells ({[point_cell_index]} ∪ m_searched_cells it) it in
  let expanded :=
    match m_current_neighbors it with
    | [] => knn_expand lc point_cell max_range fuel KnnTop it
    | _ :: _ => Some (Ok tt, it)
    end in
  match expanded with
  | None => None
  | Some (Throw e, it) => Some (Throw e, it)
  | Some (Ok _, it) => Some (knn_yield it)
  end.

(** Modelled from the spec: the consumer of an iterator (loopOverNeighbors,
    NeighborComputeFunctional.h) calls [next] until the iterator reports the
    end of the sequence, and keeps every bond returned before that. [calls]
    bounds the number of calls. *)
Fixpoint drain (next : LinkCellIterator -> step_result) (calls : nat)
    (it : LinkCellIterator) : option (outcome (list NeighborBond)) :=
  match calls with
  | O => None
  | S calls' =>
    match next it with
    | None => None
    | Some (Throw e, _) => Some (Throw e)
    | Some (Ok nb, it') =>
      if m_finished it' then Some (Ok [])
      else
        match drain next calls' it' with
        | Some (Ok l) => Some (Ok (nb :: l))
        | r => r
        end
    end
  end.

Inductive PerPointIterator : Type :=
| BallIterator (it : LinkCellIterator)
| NearestIterator (it : LinkCellIterator).

(** [LinkCell::querySingle(query_point, query_point_idx, args)];
    [validateQueryArgs] (NeighborQuery.h) and the extra search width that
    the constructor of the ball iterator chooses are parameters. *)
Definition querySingle (validateQueryArgs : QueryArgs -> outcome QueryArgs)
    (extra_search_width : Q -> Q -> Z)
    (lc : LinkCell) (query_point : vec3 Q) (query_point_idx : Z)
    (args : QueryArgs) : outcome PerPointIterator :=
  match validateQueryArgs args with
  | Throw e => Throw e
  | Ok args =>
    match mode args with
    | ball =>
      Ok (BallIterator
            (new_LinkCellIterator lc query_point query_point_idx
               (r_max args) (r_min args) (exclude_ii args)
               (extra_search_width (r_max args) (getCellWidth lc)) 0))
    | nearest =>
      Ok (NearestIterator
            (new_LinkCellIterator lc query_point query_point_idx
               (r_max args) (r_min args) (exclude_ii args) 0
               (num_neighbors args)))
    | none =>
      Throw (runtime_error
               "Invalid query mode provided to generic query function.")
    end
  end.

End Iterators.

End Locality.

(** ** PMFTXY2D.cc *)

Module Pmft.

Record vec2 (A : Type) : Type := mk_vec2 { v2x : A; v2y : A }.
Arguments mk_vec2 {A} v2x v2y.
Arguments v2x {A} v.
Arguments v2y {A} v.

(** The members that PMFTXY2D.cc names: those of the class itself and those
    that it inherits from [PMFT]. *)
Record PMFTXY2D : Type := mk_PMFTXY2D {
  m_box : Box;                          (* PMFT *)
  m_x_max : Q;
  m_y_max : Q;
  m_n_x : Z;
  m_n_y : Z;
  m_dx : Q;
  m_dy : Q;
  m_jacobian : Q;
  m_x_array : list Q;
  m_y_array : list Q;
  m_pcf_array : list Q;                 (* PMFT *)
  m_bin_counts : list Z;                (* PMFT *)
  m_r_cut : Q;                          (* PMFT *)
  m_local_bin_counts : ThreadStorage Z  (* PMFT *)
}.

Definition set_local_bin_counts (t : ThreadStorage Z) (s : PMFTXY2D) :=
  mk_PMFTXY2D (m_box s) (m_x_max s) (m_y_max s) (m_n_x s) (m_n_y s) (m_dx s)
    (m_dy s) (m_jacobian s) (m_x_array s) (m_y_array s) (m_pcf_array s)
    (m_bin_counts s) (m_r_cut s) t.

Section PMFTXY2D.

(** Functions of PMFT.h, ManagedArray.h, Index1D.h and VectorMath.h that
    PMFTXY2D.cc calls and that are not part of the verified sources; they
    are parameters of the development.
    - [precomputeAxisBinCenter size d max]: the bin centers of one axis;
    - [makeEmptyArray_float size], [makeEmptyArray_uint size]: the two
      instances of [util::makeEmptyArray];
    - [Index2D w h i j]: the index [Index2D(w, h)(i, j)];
    - [rotate angle v]: [rotmat2<float>::fromAngle(angle) * v];
    - [sqrtf]: the square root on [float]. *)
Context (precomputeAxisBinCenter : Z -> Q -> Q -> list Q).
Context (makeEmptyArray_float : Z -> list Q).
Context (makeEmptyArray_uint : Z -> list Z).
Context (Index2D : Z -> Z -> Z -> Z -> Z).
Context (rotate : Q -> vec2 Q -> vec2 Q).
Context (sqrtf : Q -> Q).

Local Abbreviation Obj := (M PMFTXY2D).

(** [PMFTXY2D::PMFTXY2D(x_max, y_max, n_x, n_y)]: the object, or the
    exception of the constructor (and then no object). [box] and
    [local_bin_counts] are the members as the constructor of [PMFT] leaves
    them. The literal [2.0] makes [2.0 * m_x_max / float(m_n_x)] a [double]
    computation, which the assignment to [m_dx] rounds to [float]. *)
Definition construct (box : Box) (local_bin_counts : ThreadStorage Z)
    (x_max y_max : Q) (n_x n_y : Z) : outcome PMFTXY2D :=
  if n_x <? 1 then
    Throw (invalid_argument "PMFTXY2D requires at least 1 bin in X.")
  else if n_y <? 1 then
    Throw (invalid_argument "PMFTXY2D requires at least 1 bin in Y.")
  else if Qltb x_max 0 then
    Throw (invalid_argument "PMFTXY2D requires that x_max must be positive.")
  else if Qltb y_max 0 then
    Throw (invalid_argument "PMFTXY2D requires that y_max must be positive.")
  else
    let dx := to_float (ddiv (dmul 2 x_max) (to_float (inject_Z n_x))) in
    let dy := to_float (ddiv (dmul 2 y_max) (to_float (inject_Z n_y))) in
    if Qltb x_max dx then
      Throw (invalid_argument
        "PMFTXY2D requires that dx is less than or equal to x_max.")
    else if Qltb y_max dy then
      Throw (invalid_argument
        "PMFTXY2D requires that dy is less than or equal to y_max.")
    else
      let jacobian := fmul dx dy in
      let x_array := precomputeAxisBinCenter n_x dx x_max in
      let y_array := precomputeAxisBinCenter n_y dy y_max in
      let pcf_array := makeEmptyArray_float (to_unsigned (n_x * n_y)) in
      let bin_counts := makeEmptyArray_uint (to_unsigned (n_x * n_y)) in
      let r_cut := sqrtf (fadd (fmul x_max x_max) (fmul y_max y_max)) in
      Ok (mk_PMFTXY2D box x_max y_max n_x n_y dx dy jacobian x_array y_array
            pcf_array bin_counts r_cut
            (ts_resize (Z.to_nat (to_unsigned (n_x * n_y))) local_bin_counts)).

(** the function object that [accumulate] hands to [accumulateGeneral], run
    by thread [tid]; [points] is [neighbor_query->getPoints()] *)
Definition accumulate_bond (points : list (vec3 Q)) (orientations : list Q)
    (query_points : list (vec3 Q)) (dx_inv dy_inv : Q)
    (tid : nat) (neighbor_bond : NeighborBond) : Obj unit :=
  ref <- read points (ref_id neighbor_bond) ;;
  qp <- read query_points (id_ neighbor_bond) ;;
  box <- gets m_box ;;
  let delta := wrap box (vsub_float qp ref) in
  let myVec := mk_vec2 (vx delta) (vy delta) in
  angle <- read orientations (ref_id neighbor_bond) ;;
  let rotVec := rotate (- angle)%Q myVec in
  x_max <- gets m_x_max ;;
  y_max <- gets m_y_max ;;
  let x := fadd (v2x rotVec) x_max in
  let y := fadd (v2y rotVec) y_max in
  let binx := floorf (fmul x dx_inv) in
  let biny := floorf (fmul y dy_inv) in
  let ibinx := to_unsigned (cvtt_ss2si binx) in
  let ibiny := to_unsigned (cvtt_ss2si biny) in
  n_x <- gets m_n_x ;;
  n_y <- gets m_n_y ;;
  if (ibinx <? n_x) && (ibiny <? n_y) then
    local <- gets (fun s => ts_local 0 (m_local_bin_counts s) tid) ;;
    let b := Index2D n_x n_y ibinx ibiny in
    c <- read local b ;;
    match write local b ((c + 1) mod UINT_MOD) with
    | Throw e => throw e
    | Ok a' =>
        modify (fun s => set_local_bin_counts
                           (ts_store (m_local_bin_counts s) tid a') s)
    end
  else ret tt.

(** [PMFTXY2D::accumulate(...)]; [accumulateGeneral] (PMFT.h) is a
    parameter: it is given the function object. *)
Definition accumulate
    (accumulateGeneral : (nat -> NeighborBond -> Obj unit) -> Obj unit)
    (points : list (vec3 Q)) (orientations : list Q)
    (query_points : list (vec3 Q)) : Obj unit :=
  dx <- gets m_dx ;;
  dy <- gets m_dy ;;
  let dx_inv := fdiv 1 dx in
  let dy_inv := fdiv 1 dy in
  accumulateGeneral
    (accumulate_bond points orientations query_points dx_inv dy_inv).

(** [PMFTXY2D::reset()]; [resetGeneral] (PMFT.h) is a parameter. *)
Definition reset (resetGeneral : Z -> Obj unit) : Obj unit :=
  n_x <- gets m_n_x ;;
  n_y <- gets m_n_y ;;
  resetGeneral (to_unsigned (n_x * n_y)).

End PMFTXY2D.
End Pmft.

(** * Vocabulary of the properties *)

(** a value of the type [float] *)
Definition is_float (x : Q) : Prop := (to_float x == x)%Q.

(** the exponent of the last place of [x] in the format of [round_to] *)
Definition quantum (prec emin : Z) (x : Q) : Z :=
  Z.max (Qlog2 (Qabs x) - (prec - 1)) emin.

(** Exceptions of a computation: [raises_only P c] says that every exception
    that [c] throws satisfies [P]. *)
Definition raises_only {S A} (P : exn -> Prop) (c : M S A) : Prop :=
  forall s e s', c s = (Throw e, s') -> P e.

Module HistogramSpec.
Import Correlation.

(** the bin of a bond for the bin width [dr], on [float]: the floor of
    [distance * (1.0f / dr)], each operation rounded *)
Definition float_bin (dr : Q) (b : NeighborBond) : Z :=
  Qfloor (fmul (distance b) (fdiv 1 dr)).

(** the number of the bonds that fall in bin [i] *)
Definition bonds_in_bin (dr : Q) (bonds : list (nat * NeighborBond)) (i : Z)
  : Z :=
  Z.of_nat (length (filter (fun tb => float_bin dr tb.2 = i) bonds)).

(** the bonds that thread [tid] found and that fall in bin [i], in the order
    in which they were found *)
Definition thread_bonds (dr : Q) (bonds : list (nat * NeighborBond))
    (tid : nat) (i : Z) : list (nat * NeighborBond) :=
  filter (fun tb => tb.1 = tid /\ float_bin dr tb.2 = i) bonds.

(** a bond that accumulation can process: its distance is not negative and
    both value arrays have an entry for it *)
Definition bond_ok {T} (values query_values : list T)
    (tb : nat * NeighborBond) : Prop :=
  (0 <= distance tb.2)%Q /\
  is_Some (values !! Z.to_nat (ref_id tb.2)) /\
  is_Some (query_values !! Z.to_nat (id_ tb.2)).

(** the sum of a list of integers *)
Definition Zsum (l : list Z) : Z := foldr Z.add 0 l.

(** the sum, over the threads, of the counts of bin [i], as an integer *)
Definition bin_sum (t : ThreadStorage Z) (i : nat) : Z :=
  Zsum ((fun l => default 0 (l !! i)) <$> ts_all t).

(** the product that a bond contributes to its bin *)
Definition bond_product {T} (T0 : T) (Tmul : T -> T -> T)
    (values query_values : list T) (tb : nat * NeighborBond) : T :=
  Tmul (default T0 (values !! Z.to_nat (ref_id tb.2)))
       (default T0 (query_values !! Z.to_nat (id_ tb.2))).

(** the products of a list of bonds, added one after the other to [v] *)
Definition add_products {T} (T0 : T) (Tadd Tmul : T -> T -> T)
    (values query_values : list T) (bonds : list (nat * NeighborBond))
    (v : T) : T :=
  fold_left Tadd (bond_product T0 Tmul values query_values <$> bonds) v.

(** the members that accumulation of a bond leaves alone: all but the
    arrays of the threads *)
Definition only_locals {T} (s s' : @CorrelationFunction T) : Prop :=
  m_box s' = m_box s /\ m_r_max s' = m_r_max s /\ m_dr s' = m_dr s /\
  m_frame_counter s' = m_frame_counter s /\ m_reduce s' = m_reduce s /\
  m_nbins s' = m_nbins s /\ m_rdf_array s' = m_rdf_array s /\
  m_bin_counts s' = m_bin_counts s /\ m_r_array s' = m_r_array s.

(** the state after a bond has been counted in bin [bin] by thread [tid],
    [c] being the count so far *)
Definition counted {T} (s : @CorrelationFunction T) (tid : nat) (bin : Z)
    (c : Z) : @CorrelationFunction T :=
  set_local_bin_counts
    (ts_store (m_local_bin_counts s) tid
       (<[Z.to_nat bin := (c + 1) mod UINT_MOD]>
          (ts_local 0 (m_local_bin_counts s) tid))) s.

(** the state after thread [tid] has stored the value [x] for bin [bin] *)
Definition added {T} (T0 : T) (s : @CorrelationFunction T) (tid : nat)
    (bin : Z) (x : T) : @CorrelationFunction T :=
  set_local_rdf_array
    (ts_store (m_local_rdf_array s) tid
       (<[Z.to_nat bin := x]> (ts_local T0 (m_local_rdf_array s) tid))) s.

(** [++c] on [unsigned int], [n] times *)
Definition count_up (n : nat) (c : Z) : Z :=
  Nat.iter n (fun c => (c + 1) mod UINT_MOD) c.

End HistogramSpec.

Module Examples.
Import Correlation.

Definition ex_values : list Z := [2; 3].

Definition ex_query_values : list Z := [5; 7].

Definition ex_bonds : list (nat * NeighborBond) :=
  [(0%nat, mk_NeighborBond 0 1 (3 # 4));
   (1%nat, mk_NeighborBond 1 0 (3 # 4));
   (0%nat, mk_NeighborBond 0 1 5)].

(** a correlation function with [r_max = 2] and [dr = 1/2], after one frame *)
Definition ex_cf : @CorrelationFunction Z :=
  match construct 0 2 (1 # 2) with
  | Ok s => (accumulate 0 Z.add Z.mul default_Box ex_values ex_query_values
               (Ok ex_bonds) s).2
  | Throw _ => initial 2 (1 # 2)
  end.

(** an RDF object whose pair correlation function is still to be reduced,
    and a stand-in for its [reduce] *)
Definition ex_rdf : Density.RDF :=
  Density.mk_RDF default_Box 1 2 2 true 2 0 2 [0; 0]%Q [3; 1] [0; 0]%Q
    [] [] ts_empty.

Definition ex_rdf_reduce : M Density.RDF unit :=
  modify (fun s =>
    Density.mk_RDF (Density.m_box s) (Density.m_frame_counter s)
      (Density.m_n_points s) (Density.m_n_query_points s) (Density.m_reduce s)
      (Density.m_r_max s) (Density.m_r_min s) (Density.m_bins s)
      ((fun c => inject_Z c / 2)%Q <$> Density.m_histogram s)
      (Density.m_histogram s) (Density.m_N_r s)
      (Density.m_vol_array2D s) (Density.m_vol_array3D s)
      (Density.m_local_histograms s)).
End Examples.

Module LinkCellSpec.
Import Locality.

(** the size of the grid along an axis of length [L]: the float quotient
    [L / cell_width], cast to [unsigned int] and clamped to at least 1 *)
Definition axis_dimension (L cell_width : Q) : Z :=
  Z.max 1 (float_to_unsigned (fdiv L cell_width)).

(** the cell width is larger than half the box *)
Definition box_too_small (box : Box) (cell_width : Q) : Prop :=
  let d := getNearestPlaneDistance box in
  (vx d < cell_width * 2 \/ vy d < cell_width * 2 \/
   (is2D box = false /\ vz d < cell_width * 2))%Q.

Definition box_error : exn :=
  runtime_error
    "Cannot generate a cell list where cell_width is larger than half the box.".

Definition empty_error : exn :=
  runtime_error "Cannot generate a cell list of 0 particles.".

End LinkCellSpec.

Module NeighborCellSpec.
Import Locality.
Definition in_grid (d c : vec3 Z) : Prop :=
  0 <= vx c < vx d /\ 0 <= vy c < vy d /\ 0 <= vz c < vz d.

(** the distance of two cell coordinates along a periodic axis *)
Definition axis_distance (dim a b : Z) : Z :=
  Z.min ((a - b) mod dim) ((b - a) mod dim).

(** the Chebyshev distance of two cells of a periodic grid *)
Definition cell_distance (d a b : vec3 Z) : Z :=
  Z.max (axis_distance (vx d) (vx a) (vx b))
    (Z.max (axis_distance (vy d) (vy a) (vy b))
           (axis_distance (vz d) (vz a) (vz b))).

(** the wrapped coordinates that the loop over one axis visits *)
Definition axis_cells (dim a : Z) : list Z :=
  (fun n => to_int (wrap_index dim n))
    <$> int_range (if dim <? 3 then a else a - 1) (if dim <? 2 then a else a + 1).

Section Neighbors.

Context (getMultiIndex : list Z -> Z -> list Z).
Context (coordToIndex : vec3 Z -> Z -> Z -> Z -> Z).
Local Abbreviation indexToCoord := (indexToCoord getMultiIndex).
Local Abbreviation neighbor_cells_of := (neighbor_cells_of getMultiIndex coordToIndex).
Local Abbreviation computeCellNeighbors := (computeCellNeighbors getMultiIndex coordToIndex).

(** the contract of the two index conversions: on a grid of [N] cells they
    are inverse bijections between the linear indices below [N] and the
    coordinates inside the grid *)
Definition grid_layout (s : LinkCell) : Prop :=
  let d := m_celldim s in
  let N := vx d * vy d * vz d in
  (forall c, 0 <= c < N ->
     let p := indexToCoord s c in
     in_grid d p /\ coordToIndex d (vx p) (vy p) (vz p) = c) /\
  (forall x y z, in_grid d (mk_vec3 x y z) ->
     0 <= coordToIndex d x y z < N /\
     indexToCoord s (coordToIndex d x y z) = mk_vec3 x y z).

(** grids whose dimensions the [int] loop variables can hold; a 2D box has
    one layer of cells *)
Definition grid_ok (s : LinkCell) : Prop :=
  let d := m_celldim s in
  1 <= vx d < 2 ^ 31 /\ 1 <= vy d < 2 ^ 31 /\ 1 <= vz d < 2 ^ 31 /\
  (is2D (m_box s) = true -> vz d = 1).

End Neighbors.
End NeighborCellSpec.

Module CellListSpec.
Import Locality.

(** [links cl start js]: following the links of the cell list [cl] from the
    slot [start] visits the indices [js], in this order, and then the
    terminator *)
Fixpoint links (cl : list Z) (start : Z) (js : list Z) : Prop :=
  match js with
  | [] => cl !! Z.to_nat start = Some LINK_CELL_TERMINATOR
  | j :: js' =>
    cl !! Z.to_nat start = Some j /\ 0 <= j < LINK_CELL_TERMINATOR /\
    links cl j js'
  end.

Section CellList.

Context (coordToIndex : vec3 Z -> Z -> Z -> Z -> Z).
Context (getCellCoord : Box -> vec3 Z -> vec3 Q -> vec3 Z).
Local Abbreviation getCell := (getCell coordToIndex getCellCoord).
Local Abbreviation computeCellList := (computeCellList coordToIndex getCellCoord).
Local Abbreviation construct := (construct coordToIndex getCellCoord).
Local Abbreviation constructor_body := (constructor_body coordToIndex getCellCoord).

(** the cell of the point with index [j] *)
Definition cell_of_point (lc : LinkCell) (j : Z) : Z :=
  getCell lc (default (mk_vec3 0 0 0)%Q (m_points lc !! Z.to_nat j)).

(** the bucket of a cell: the indices of its points, in ascending order *)
Definition bucket (lc : LinkCell) (c : Z) : list Z :=
  filter (fun j => cell_of_point lc j = c) (seqZ 0 (m_n_points lc)).

(** a cell list as [computeCellList] builds it *)
Definition cell_list_ok (lc : LinkCell) : Prop :=
  let n := m_n_points lc in
  0 < n /\ n + m_size lc < UINT_MOD /\
  1 <= m_size lc /\
  Z.of_nat (length (m_points lc)) = n /\
  Z.of_nat (length (m_cell_list lc)) = n + m_size lc /\
  (forall j, 0 <= j < n -> 0 <= cell_of_point lc j < m_size lc) /\
  (forall c, 0 <= c < m_size lc ->
     links (m_cell_list lc) (n + c) (bucket lc c)).

(** the grid dimensions that the constructor stores *)
Definition grid_dimensions (box : Box) (cell_width : Q) : vec3 Z :=
  let celldim := computeDimensions box cell_width in
  if is2D box then mk_vec3 (vx celldim) (vy celldim) 1 else celldim.

(** the number of cells that the constructor stores *)
Definition grid_size (box : Box) (cell_width : Q) : Z :=
  let d := grid_dimensions box cell_width in
  to_unsigned (vx d * vy d * vz d).

(** the conditions under which a cell list can be built: the box is large
    enough, there are points, their number and the number of slots fit the
    index types, and every point has a cell of the grid *)
Definition buildable (box : Box) (cell_width : Q) (points : list (vec3 Q))
    (n_points : Z) : Prop :=
  let d := grid_dimensions box cell_width in
  ~ LinkCellSpec.box_too_small box cell_width /\
  0 < n_points < 2 ^ 31 /\
  Z.of_nat (length points) = n_points /\
  1 <= grid_size box cell_width /\
  n_points + grid_size box cell_width < UINT_MOD /\
  (forall p, p ∈ points ->
     let c := getCellCoord box d p in
     0 <= coordToIndex d (vx c) (vy c) (vz c) < grid_size box cell_width).

End CellList.
End CellListSpec.

Module ShellSpec.
Import Locality.

(** the offsets that the shell iterator ranges over: in 2D mode the third
    coordinate is 0 *)
Definition offset_ok (is2D : bool) (o : vec3 Z) : Prop :=
  is2D = true -> vz o = 0.

(** a position of the shell iterator inside its shell *)
Definition shell_valid (sh : IteratorCellShell) : Prop :=
  0 <= m_range sh /\
  (m_pos sh < length (shell (m_is2D sh) (m_range sh)))%nat.

(** the offsets that the iterator still produces before it reaches the
    shell of radius [stop] *)
Definition remaining (sh : IteratorCellShell) (stop : Z) : list (vec3 Z) :=
  drop (S (m_pos sh)) (shell (m_is2D sh) (m_range sh))
  ++ mjoin (shell (m_is2D sh) <$> seqZ (m_range sh + 1) (stop - m_range sh - 1)).

(** all offsets of the shells of radius below [stop] *)
Definition offsets_below (is2D : bool) (stop : Z) : list (vec3 Z) :=
  mjoin (shell is2D <$> seqZ 0 stop).

End ShellSpec.

Module IteratorSpec.
Import Locality CellListSpec ShellSpec.

(** the members of an iterator that [next] never assigns *)
Definition same_query (a b : LinkCellIterator) : Prop :=
  m_query_point a = m_query_point b /\
  m_query_point_idx a = m_query_point_idx b /\
  m_r_max a = m_r_max b /\ m_r_min a = m_r_min b /\
  m_exclude_ii a = m_exclude_ii b /\
  m_extra_search_width a = m_extra_search_width b /\
  m_num_neighbors a = m_num_neighbors b.

Section Iterators.

Context (coordToIndex : vec3 Z -> Z -> Z -> Z -> Z).
Context (getCellCoord : Box -> vec3 Z -> vec3 Q -> vec3 Z).
Context (sqrtf : Q -> Q).
Local Abbreviation getCell := (getCell coordToIndex getCellCoord).
Local Abbreviation getCellIndex := (getCellIndex coordToIndex).
Local Abbreviation candidate := (candidate sqrtf).
Local Abbreviation ball_loop := (ball_loop coordToIndex sqrtf).
Local Abbreviation ball_next := (ball_next coordToIndex getCellCoord sqrtf).
Local Abbreviation cell_of_point := (cell_of_point coordToIndex getCellCoord).
Local Abbreviation bucket := (bucket coordToIndex getCellCoord).
Local Abbreviation cell_list_ok := (cell_list_ok coordToIndex getCellCoord).

(** the cell that a shell offset designates, seen from the cell of the
    query point *)
Definition cell_of_offset (lc : LinkCell) (point_cell o : vec3 Z) : Z :=
  getCellIndex lc (vadd_int point_cell o).

(** the cell coordinates of the query point *)
Definition point_cell_of (lc : LinkCell) (it : LinkCellIterator) : vec3 Z :=
  getCellCoord (m_box lc) (m_celldim lc) (m_query_point it).

(** what both iterators do with the point of index [j]: skip it when it is
    the query point itself and self-pairs are excluded, otherwise test its
    distance *)
Definition test (lc : LinkCell) (it : LinkCellIterator) (j : Z)
  : option NeighborBond :=
  if m_exclude_ii it && (m_query_point_idx it =? j) then None
  else candidate lc it
         (default (mk_vec3 0 0 0)%Q (m_points lc !! Z.to_nat j)) j.

(** the points of the cells that a walk over the offsets [offs] opens, in
    the order of the walk, when the cells of [searched] are already open *)
Fixpoint later_points (lc : LinkCell) (point_cell : vec3 Z)
    (searched : gset Z) (offs : list (vec3 Z)) : list Z :=
  match offs with
  | [] => []
  | o :: offs' =>
    let c := cell_of_offset lc point_cell o in
    if decide (c ∈ searched) then later_points lc point_cell searched offs'
    else bucket lc c ++ later_points lc point_cell ({[c]} ∪ searched) offs'
  end.

(** the test that ends the ball query on a shell of the given radius *)
Definition ball_stop (lc : LinkCell) (it : LinkCellIterator) (range : Z) : bool :=
  Qltb (m_r_max it)
       (inject_Z (range - m_extra_search_width it) * getCellWidth lc).

Section Ball.

Context (lc : LinkCell) (it0 : LinkCellIterator).
Local Abbreviation P := (point_cell_of lc it0).
Local Abbreviation n := (m_n_points lc).
Context (stop : Z).

(** an iterator between two steps of its search: the shell iterator is on a
    position before the shell of radius [stop], with the offsets [offs]
    still to come, and the cell iterator has the indices [js] still to
    return *)
Definition Ready (it : LinkCellIterator) (js : list Z) (offs : list (vec3 Z))
  : Prop :=
  same_query it it0 /\
  shell_valid (m_neigh_cell_iter it) /\
  m_range (m_neigh_cell_iter it) < stop /\
  remaining (m_neigh_cell_iter it) stop = offs /\
  links (m_cell_list lc) (m_cell_iter it) js /\
  (forall j, j ∈ js -> 0 <= j < n) /\
  m_finished it = false.

(** the cell of the position of the shell iterator *)
Definition current_cell (it : LinkCellIterator) : Z :=
  cell_of_offset lc P (shell_deref (m_neigh_cell_iter it)).

(** what a run of the search loop does, given the bonds [found] that the
    points still to be visited yield: it ends the sequence when there are
    none, and otherwise returns the first of them and stops in a state from
    which the others are still to be found *)
Definition ball_post (found : list NeighborBond) (run : nat -> step_result)
  : Prop :=
  match found with
  | [] =>
    exists fuel0 it',
      (forall fuel, (fuel0 <= fuel)%nat ->
         run fuel = Some (Ok ITERATOR_TERMINATOR, it')) /\
      m_finished it' = true
  | b :: rest =>
    exists fuel0 it' js' offs',
      (forall fuel, (fuel0 <= fuel)%nat -> run fuel = Some (Ok b, it')) /\
      Ready it' js' offs' /\
      current_cell it' ∈ m_searched_cells it' /\
      omap (test lc it0)
        (js' ++ later_points lc P (m_searched_cells it') offs') = rest
  end.

End Ball.

End Iterators.
End IteratorSpec.

Module SearchSpec.
Import Locality NeighborCellSpec CellListSpec ShellSpec IteratorSpec.

Section Search.

Context (coordToIndex : vec3 Z -> Z -> Z -> Z -> Z).
Context (getCellCoord : Box -> vec3 Z -> vec3 Q -> vec3 Z).
Context (sqrtf : Q -> Q).
Local Abbreviation getCell := (getCell coordToIndex getCellCoord).
Local Abbreviation getCellIndex := (getCellIndex coordToIndex).
Local Abbreviation candidate := (candidate sqrtf).
Local Abbreviation ball_next := (ball_next coordToIndex getCellCoord sqrtf).
Local Abbreviation cell_of_point := (cell_of_point coordToIndex getCellCoord).
Local Abbreviation bucket := (bucket coordToIndex getCellCoord).
Local Abbreviation cell_list_ok := (cell_list_ok coordToIndex getCellCoord).
Local Abbreviation cell_of_offset := (cell_of_offset coordToIndex).
Local Abbreviation point_cell_of := (point_cell_of getCellCoord).
Local Abbreviation test := (test sqrtf).
Local Abbreviation later_points := (later_points coordToIndex getCellCoord).
Local Abbreviation new_LinkCellIterator :=
  (new_LinkCellIterator coordToIndex getCellCoord).

(** the wrapped squared distance of the point of index [j] from the query
    point *)
Definition r_sq (lc : LinkCell) (it : LinkCellIterator) (j : Z) : Q :=
  let pj := default (mk_vec3 0 0 0)%Q (m_points lc !! Z.to_nat j) in
  let r_ij := wrap (m_box lc) (vsub pj (m_query_point it)) in
  dot r_ij r_ij.

(** [r_min <= d < r_max], on the squares *)
Definition within (lc : LinkCell) (it : LinkCellIterator) (j : Z) : bool :=
  Qleb (m_r_min it * m_r_min it) (r_sq lc it j)
  && Qltb (r_sq lc it j) (m_r_max it * m_r_max it).

(** the pair of the query point with itself, when such pairs are excluded *)
Definition self_pair (it : LinkCellIterator) (j : Z) : bool :=
  m_exclude_ii it && (m_query_point_idx it =? j).

(** the bond of the query point with the point of index [j] *)
Definition bond_to (lc : LinkCell) (it : LinkCellIterator) (j : Z) : NeighborBond :=
  mk_NeighborBond (m_query_point_idx it) j (sqrtf (r_sq lc it j)).

(** the brute-force search: every point is tried *)
Definition brute_force (lc : LinkCell) (it : LinkCellIterator)
  : list NeighborBond :=
  bond_to lc it
    <$> filter (fun j => within lc it j = true /\ self_pair it j = false)
          (seqZ 0 (m_n_points lc)).

(** every cell inside the grid has an index below the number of cells *)
Definition grid_cells (lc : LinkCell) : Prop :=
  forall x y z, in_grid (m_celldim lc) (mk_vec3 x y z) ->
    0 <= coordToIndex (m_celldim lc) x y z < m_size lc.

(** The contract of the cell geometry, as the specification states it for
    the shell iterator: the closest possible distance of a point whose cell
    is only reached by offsets of Chebyshev radius [R] or more is
    [(R - 1) * cell_width]. *)
Definition shell_bound (lc : LinkCell) (it : LinkCellIterator) : Prop :=
  forall j R,
    0 <= j < m_n_points lc ->
    (forall o, offset_ok (is2D (m_box lc)) o ->
               cell_of_offset lc (point_cell_of lc it) o = cell_of_point lc j ->
               R <= chebyshev o) ->
    (inject_Z (R - 1) * getCellWidth lc <= sqrtf (r_sq lc it j))%Q.

(** [sqrt] stays below every bound whose square exceeds its argument *)
Definition sqrt_below : Prop :=
  forall x r : Q,
    (0 <= x)%Q -> (0 <= r)%Q -> (x < r * r)%Q -> (sqrtf x < r)%Q.

(** the radius of the shell on which the ball query stops *)
Definition ball_stop_range (lc : LinkCell) (it : LinkCellIterator) : Z :=
  Z.max 1 (Qfloor (m_r_max it / getCellWidth lc) + m_extra_search_width it + 1).

Local Abbreviation construct := (construct coordToIndex getCellCoord).
Local Abbreviation buildable := (buildable coordToIndex getCellCoord).

End Search.
End SearchSpec.

Module KnnSpec.
Import Locality CellListSpec ShellSpec IteratorSpec.
Section Spec.

Context (coordToIndex : vec3 Z -> Z -> Z -> Z -> Z).
Context (getCellCoord : Box -> vec3 Z -> vec3 Q -> vec3 Z).
Context (sqrtf : Q -> Q).
Context (lc : LinkCell) (it0 : LinkCellIterator) (max_range : Z).

(** every offset that leads to the cell of the point [j] has a Chebyshev
    radius of [R] at least *)
Definition far (j R : Z) : Prop :=
  forall o, offset_ok (is2D (m_box lc)) o ->
    cell_of_offset coordToIndex lc (point_cell_of getCellCoord lc it0) o
    = cell_of_point coordToIndex getCellCoord lc j ->
    R <= chebyshev o.

(** the test that ends the expansion early, on the sorted buffer *)
Definition enough (it : LinkCellIterator) : bool :=
  match sort_bonds (m_current_neighbors it)
          !! Z.to_nat (m_num_neighbors it0 - 1) with
  | Some b =>
    Qltb (distance b)
      (inject_Z (m_range (m_neigh_cell_iter it) - 1) * getCellWidth lc)
  | None => false
  end.

(** the expansion has stopped early on a shell of radius [R], with the
    buffer [buf], the points [unvis] not visited *)
Definition early (buf : list NeighborBond) (R : Z) (unvis : list Z) : Prop :=
  R <= max_range /\
  exists b,
    buf !! Z.to_nat (m_num_neighbors it0 - 1) = Some b /\
    (distance b < inject_Z (R - 1) * getCellWidth lc)%Q /\
    forall j, j ∈ unvis -> far j R.

(** what a run of the expansion loop does from the state [it], the points
    [todo] being those that the walk up to [max_range] would visit: it
    visits a prefix of them and leaves their hits, sorted, in the buffer *)
Definition knn_post (it : LinkCellIterator) (todo : list Z)
    (run : nat -> option (outcome unit * LinkCellIterator)) : Prop :=
  exists fuel0 it' vis unvis,
    (forall fuel, (fuel0 <= fuel)%nat -> run fuel = Some (Ok tt, it')) /\
    todo = vis ++ unvis /\
    same_query it' it0 /\ m_count it' = m_count it /\
    m_finished it' = m_finished it /\
    Sorted bond_le (m_current_neighbors it') /\
    m_current_neighbors it'
      ≡ₚ m_current_neighbors it ++ omap (test sqrtf lc it0) vis /\
    (unvis = [] \/
     early (m_current_neighbors it') (m_range (m_neigh_cell_iter it')) unvis).

(** the shell iterator of [it] has passed the offsets [A] and has the
    offsets [offs] still to come before the shell of radius [max_range] *)
Definition passed (it : LinkCellIterator) (A offs : list (vec3 Z)) : Prop :=
  let sh := m_neigh_cell_iter it in
  same_query it it0 /\
  shell_valid sh /\ m_range sh < max_range /\ m_is2D sh = is2D (m_box lc) /\
  remaining sh max_range = offs /\
  A ++ shell_deref sh :: offs = offsets_below (is2D (m_box lc)) max_range /\
  (forall o, o ∈ A ->
     cell_of_offset coordToIndex lc (point_cell_of getCellCoord lc it0) o
     ∈ m_searched_cells it) /\
  current_cell coordToIndex getCellCoord lc it0 it ∈ m_searched_cells it.

End Spec.
End KnnSpec.

Module GridExamples.
Import Locality.

(** a cubic periodic box of side [L], centred on the origin *)
Definition ex_wrap1 (L x : Q) : Q :=
  (x - L * inject_Z (Qfloor (x / L + (1 # 2))))%Q.

Definition cubic_box (L : Q) : Box :=
  mk_Box (mk_vec3 L L L) false
    (fun v => mk_vec3 (ex_wrap1 L (vx v)) (ex_wrap1 L (vy v)) (ex_wrap1 L (vz v))).

(** the index conversions of a grid whose first coordinate runs fastest *)
Definition ex_coordToIndex (d : vec3 Z) (x y z : Z) : Z :=
  x + vx d * (y + vy d * z).

Definition ex_getMultiIndex (shape : list Z) (x : Z) : list Z :=
  let d1 := shape !!! 1%nat in
  let d2 := shape !!! 2%nat in
  [x / (d1 * d2); (x / d2) mod d1; x mod d2].

(** the cell of a point: its fractional coordinates scaled to the grid *)
Definition ex_cell1 (L : Q) (d : Z) (x : Q) : Z :=
  Qfloor ((x / L + (1 # 2)) * inject_Z d) mod d.

Definition ex_getCellCoord (box : Box) (d : vec3 Z) (p : vec3 Q) : vec3 Z :=
  let L := getNearestPlaneDistance box in
  mk_vec3 (ex_cell1 (vx L) (vx d) (vx p)) (ex_cell1 (vy L) (vy d) (vy p))
    (ex_cell1 (vz L) (vz d) (vz p)).

(** the square root, rounded down to a multiple of 1/1000 *)
Definition ex_sqrt (x : Q) : Q :=
  (inject_Z (Z.sqrt (Qfloor (x * 1000000))) / 1000)%Q.

Definition ex_points : list (vec3 Q) :=
  [mk_vec3 0 0 0; mk_vec3 1 0 0; mk_vec3 (- (19 # 10)) 0 0]%Q.

Definition ex_construct (L w : Q) (points : list (vec3 Q)) : LinkCell :=
  match construct ex_coordToIndex ex_getCellCoord (cubic_box L) w points
          (Z.of_nat (length points)) with
  | Ok lc => lc
  | Throw _ => initial (cubic_box L) w points (Z.of_nat (length points))
  end.

(** three points in a box of side 4 with cells of width 1, and the first of
    them alone *)
Definition ex_lc : LinkCell := ex_construct 4 1 ex_points.

Definition ex_lc1 : LinkCell := ex_construct 4 1 [mk_vec3 0 0 0]%Q.

(** the offset that leads from the cell of the origin to the cell of each
    of the three points *)
Definition ex_near (j : Z) : vec3 Z :=
  if j =? 1 then mk_vec3 1 0 0 else if j =? 2 then mk_vec3 2 0 0
  else mk_vec3 0 0 0.

End GridExamples.

Module PmftExamples.
Import Pmft.

(** [Index2D] of a grid whose first index runs fastest *)
Definition ex_Index2D (w h i j : Z) : Z := j * w + i.

(** the rotation by the angle 0, the only orientation of the example *)
Definition ex_rotate (angle : Q) (v : vec2 Q) : vec2 Q := v.

(** a window of half-width 2 along both axes with 4 bins along each, in the
    default box *)
Definition ex_pmft : PMFTXY2D :=
  match construct (fun _ _ _ => []) (fun n => replicate (Z.to_nat n) 0%Q)
          (fun n => replicate (Z.to_nat n) 0) GridExamples.ex_sqrt
          default_Box ts_empty 2 2 4 4 with
  | Ok s => s
  | Throw _ =>
    mk_PMFTXY2D default_Box 0 0 0 0 0 0 0 [] [] [] [] 0 ts_empty
  end.

End PmftExamples.

Module AccumulatorSpec.
Import Correlation HistogramSpec.

(** the number of bonds that a neighbor source hands to [accumulate] *)
Definition bonds_handed (neighbors : outcome (list (nat * NeighborBond))) : Z :=
  match neighbors with
  | Ok bonds => Z.of_nat (length bonds)
  | Throw _ => 0
  end.

Section Accumulators.

Context {T : Type} (T0 : T) (Tadd Tmul : T -> T -> T) (Tdiv : T -> Z -> T).

(** The accumulators that the calls of the class produce. [reachable n s]:
    [s] is the object after a sequence of calls of [accumulate] (failing or
    not), [getRDF] and [reset] on an object that the constructor built, and
    [n] bonds have been handed to [accumulate] since the object was built or
    last reset. *)
Inductive reachable : Z -> @CorrelationFunction T -> Prop :=
| reach_new r_max dr s :
    construct T0 r_max dr = Ok s -> reachable 0 s
| reach_accumulate n s box values query_values neighbors :
    reachable n s ->
    reachable (n + bonds_handed neighbors)
      (accumulate T0 Tadd Tmul box values query_values neighbors s).2
| reach_getRDF n s :
    reachable n s -> reachable n (getRDF T0 Tadd Tdiv s).2
| reach_reset n s :
    reachable n s -> reachable 0 (reset T0 s).2.

(** the arrays of the threads after at most [n] bonds: no count is
    negative, no bin has counted more than [n] bonds, and a thread that has
    counted nothing in a bin holds [T()] for it *)
Definition clean (n : Z) (s : @CorrelationFunction T) : Prop :=
  wf s /\
  (forall tid i c,
     ts_local 0 (m_local_bin_counts s) tid !! i = Some c -> 0 <= c) /\
  (forall i, bin_sum (m_local_bin_counts s) i <= n) /\
  (forall tid i,
     ts_local 0 (m_local_bin_counts s) tid !! i = Some 0 ->
     (i < Z.to_nat (m_nbins s))%nat ->
     ts_local T0 (m_local_rdf_array s) tid !! i = Some T0).

End Accumulators.
End AccumulatorSpec.

Module ThreadSpec.
Import Correlation.

(** no thread but [tid] has an array *)
Definition unused {T} (tid : nat) (s : @CorrelationFunction T) : Prop :=
  forall tid', tid' <> tid ->
    ts_arrays (m_local_bin_counts s) !! tid' = None /\
    ts_arrays (m_local_rdf_array s) !! tid' = None.

End ThreadSpec.

(** Invariants of a computation: [keeps I c] says that [c] leaves the
    object in [I] when it starts in [I], whether it returns or throws. *)
Definition keeps {S A} (I : S -> Prop) (c : M S A) : Prop :=
  forall s, I s -> I (c s).2.

Module BoxExamples.
Import Locality GridExamples NeighborCellSpec.

(** a periodic box with the sides [Lx], [Ly] and [Lz], centred on the
    origin; a 2D box is not periodic along z *)
Definition ortho_box (Lx Ly Lz : Q) (flat : bool) : Box :=
  mk_Box (mk_vec3 Lx Ly Lz) flat
    (fun v => mk_vec3 (ex_wrap1 Lx (vx v)) (ex_wrap1 Ly (vy v))
                (if flat then vz v else ex_wrap1 Lz (vz v))).

Definition ex_build (box : Box) (w : Q) (points : list (vec3 Q)) : LinkCell :=
  match construct ex_coordToIndex ex_getCellCoord box w points
          (Z.of_nat (length points)) with
  | Ok lc => lc
  | Throw _ => initial box w points (Z.of_nat (length points))
  end.

(** two points at distance 5 along the long axis of a box of 4 x 4 x 12,
    with cells of width 1 *)
Definition ex_long_points : list (vec3 Q) := [mk_vec3 0 0 0; mk_vec3 0 0 5]%Q.

Definition ex_long : LinkCell :=
  ex_build (ortho_box 4 4 12 false) 1 ex_long_points.

(** the query for the nearest neighbor of the first of them within
    [r_max = 6] *)
Definition ex_long_query : LinkCellIterator :=
  new_LinkCellIterator ex_coordToIndex ex_getCellCoord ex_long
    (mk_vec3 0 0 0)%Q 0 6 0 true 0 1.

(** a 2D box of 4 x 4 with cells of width 1: a grid of 4 x 4 x 1 cells *)
Definition ex_flat : LinkCell :=
  ex_build (ortho_box 4 4 1 true) 1 [mk_vec3 0 0 0]%Q.

(** the cells of a grid at Chebyshev distance at most 1 from the cell with
    the coordinates [p], by their indices under [ex_coordToIndex] *)
Definition ex_near_cells (d p : vec3 Z) : list Z :=
  filter
    (fun c =>
       cell_distance d
         (mk_vec3 (c mod vx d) ((c / vx d) mod vy d) (c / (vx d * vy d))) p
       <= 1)
    (seqZ 0 (vx d * vy d * vz d)).

End BoxExamples.

Module AccumulatorExamples.
Import Correlation.

(** a correlation function with [r_max = 1] and the bin width [0.1f] *)
Definition ex_tenth : @CorrelationFunction Z :=
  match construct 0 1 (to_float (1 # 10)) with
  | Ok s => s
  | Throw _ => initial 1 (to_float (1 # 10))
  end.

(** a bond at the distance [0.7f] *)
Definition ex_bond_07 : NeighborBond := mk_NeighborBond 0 0 (to_float (7 # 10)).

(** a frame of three bonds found by two threads; the last is beyond the
    bins *)
Definition ex_frame : list (nat * NeighborBond) :=
  [(0%nat, ex_bond_07);
   (1%nat, mk_NeighborBond 0 0 (to_float (1 # 4)));
   (0%nat, mk_NeighborBond 0 0 5)].

(** an accumulator of one bin in which two threads have counted [2^31]
    bonds each, with the sums 5 and 7 *)
Definition ex_wrapped : @CorrelationFunction Z :=
  mk_CF default_Box 1 1 1 true 1 [0] [0] [1 # 2]%Q
    (mk_ThreadStorage 1 {[0%nat := [2 ^ 31]; 1%nat := [2 ^ 31]]})
    (mk_ThreadStorage 1 {[0%nat := [5]; 1%nat := [7]]}).

End AccumulatorExamples.

(** * Properties *)

(** ** Rounding *)

Module FloatFacts.

Lemma round_half_even_bounds (x : Q) :
  Qfloor x <= round_half_even x <= Qfloor x + 1.
Proof.
  unfold round_half_even.
  destruct (x - inject_Z (Qfloor x) ?= 1 # 2)%Q; [destruct (Z.even _)| |]; lia.
Qed.

Lemma round_half_even_Z (k : Z) : round_half_even (inject_Z k) = k.
Proof.
  unfold round_half_even. rewrite Qfloor_Z.
  destruct (Qcompare_spec (inject_Z k - inject_Z k) (1 # 2)) as [H|H|H].
  - exfalso. lra.
  - reflexivity.
  - exfalso. lra.
Qed.

#[global] Instance round_half_even_comp : Proper (Qeq ==> eq) round_half_even.
Proof.
  intros x y H. unfold round_half_even.
  rewrite (Qfloor_comp _ _ H).
  assert (Hc : (x - inject_Z (Qfloor y) ?= 1 # 2)%Q
               = (y - inject_Z (Qfloor y) ?= 1 # 2)%Q).
  { apply Qcompare_comp; [rewrite H; reflexivity | reflexivity]. }
  rewrite Hc. reflexivity.
Qed.

Lemma round_half_even_mono (x y : Q) :
  (x <= y)%Q -> round_half_even x <= round_half_even y.
Proof.
  intros H.
  pose proof (Qfloor_resp_le _ _ H) as Hf.
  destruct (Z.eq_dec (Qfloor x) (Qfloor y)) as [E|NE].
  - unfold round_half_even. rewrite E.
    destruct (Qcompare_spec (x - inject_Z (Qfloor y)) (1 # 2)) as [Hx|Hx|Hx];
    destruct (Qcompare_spec (y - inject_Z (Qfloor y)) (1 # 2)) as [Hy|Hy|Hy];
    try destruct (Z.even _); try lia; exfalso; lra.
  - pose proof (round_half_even_bounds x). pose proof (round_half_even_bounds y). lia.
Qed.

Lemma round_half_even_ge (k : Z) (x : Q) :
  (inject_Z k <= x)%Q -> k <= round_half_even x.
Proof.
  intros H. rewrite <- (round_half_even_Z k). apply round_half_even_mono, H.
Qed.

Lemma round_half_even_le (k : Z) (x : Q) :
  (x <= inject_Z k)%Q -> round_half_even x <= k.
Proof.
  intros H. rewrite <- (round_half_even_Z k). apply round_half_even_mono, H.
Qed.

Lemma pow2_pos (e : Z) : (0 < 2 ^ e)%Q.
Proof. apply Qpower_0_lt. reflexivity. Qed.

Lemma pow2_le (a b : Z) : a <= b -> (2 ^ a <= 2 ^ b)%Q.
Proof. intros H. apply Qpower_le_compat_l; [exact H | discriminate]. Qed.

Lemma pow2_Z (n : Z) : 0 <= n -> (2 ^ n)%Q == inject_Z (2 ^ n).
Proof. intros H. rewrite Zpower_Qpower by exact H. reflexivity. Qed.

Lemma pow2_add (a b : Z) : (2 ^ (a + b) == 2 ^ a * 2 ^ b)%Q.
Proof. apply Qpower_plus. discriminate. Qed.

Lemma pow2_sub (a b : Z) : (2 ^ (a - b) == 2 ^ a / 2 ^ b)%Q.
Proof. apply Qpower_minus. discriminate. Qed.

#[global] Instance Qlog2_comp : Proper (Qeq ==> eq) Qlog2.
Proof.
  intros x y H. unfold Qlog2.
  assert (Hb : Qle_bool 1 x = Qle_bool 1 y).
  { destruct (Qle_bool 1 x) eqn:E1, (Qle_bool 1 y) eqn:E2; try reflexivity.
    - apply Qle_bool_iff in E1. rewrite H in E1. apply Qle_bool_iff in E1. congruence.
    - apply Qle_bool_iff in E2. rewrite <- H in E2. apply Qle_bool_iff in E2. congruence. }
  rewrite Hb, (Qfloor_comp _ _ H).
  assert (Hi : (/ x == / y)%Q) by (rewrite H; reflexivity).
  rewrite (Qceiling_comp _ _ Hi). reflexivity.
Qed.

(** the binade of a positive rational *)
Lemma Qlog2_spec (x : Q) :
  (0 < x)%Q -> (2 ^ Qlog2 x <= x)%Q /\ (x < 2 ^ (Qlog2 x + 1))%Q.
Proof.
  intros Hx. unfold Qlog2. destruct (Qle_bool 1 x) eqn:E.
  - apply Qle_bool_iff in E.
    assert (Hf : 1 <= Qfloor x).
    { change 1 with (Qfloor 1). apply Qfloor_resp_le, E. }
    destruct (Z.log2_spec (Qfloor x)) as [Hlo Hhi]; [lia|].
    pose proof (Z.log2_nonneg (Qfloor x)) as Hnn.
    rewrite !pow2_Z by lia.
    pose proof (Qfloor_le x) as H1. pose proof (Qlt_floor x) as H2.
    split.
    + eapply Qle_trans; [|exact H1]. rewrite <- Zle_Qle. exact Hlo.
    + eapply Qlt_le_trans; [exact H2|]. rewrite <- Zle_Qle.
      rewrite <- Z.add_1_r in Hhi. lia.
  - assert (Hlt : (x < 1)%Q).
    { apply Qnot_le_lt. intros H. apply Qle_bool_iff in H. congruence. }
    set (y := (/ x)%Q).
    assert (Hy : (1 < y)%Q).
    { unfold y. apply Qlt_shift_inv_l; [exact Hx|]. lra. }
    assert (Hxy : (x * y == 1)%Q).
    { unfold y. field. lra. }
    assert (Hc : 2 <= Qceiling y).
    { assert (Hc1 : (1 < Qceiling y)%Z).
      { rewrite Zlt_Qlt. eapply Qlt_le_trans; [exact Hy|]. apply Qle_ceiling. }
      lia. }
    destruct (Z.log2_up_spec (Qceiling y)) as [Hlo Hhi]; [lia|].
    set (j := Z.log2_up (Qceiling y)) in *.
    assert (Hj : 1 <= j).
    { unfold j. change 1 with (Z.log2_up 2). apply Z.log2_up_le_mono. exact Hc. }
    pose proof (Qle_ceiling y) as H1. pose proof (Qceiling_lt y) as H2.
    assert (Hyj : (y <= 2 ^ j)%Q).
    { rewrite pow2_Z by lia. eapply Qle_trans; [exact H1|].
      rewrite <- Zle_Qle. exact Hhi. }
    assert (Hjy : (2 ^ (j - 1) < y)%Q).
    { rewrite pow2_Z by lia. eapply Qle_lt_trans; [|exact H2].
      rewrite <- Zle_Qle. replace (j - 1) with (Z.pred j) by lia. lia. }
    pose proof (pow2_pos j) as Pj. pose proof (pow2_pos (j - 1)) as Pj1.
    split.
    + rewrite Qpower_opp.
      apply Qle_shift_inv_r; [exact Pj|]. 
      assert (x * y <= x * 2 ^ j)%Q by (apply Qmult_le_l; assumption).
      lra.
    + replace (- j + 1) with (- (j - 1)) by lia. rewrite Qpower_opp.
      apply Qlt_shift_inv_l; [exact Pj1|].
      assert (x * 2 ^ (j - 1) < x * y)%Q by (apply Qmult_lt_l; assumption).
      lra.
Qed.

Lemma Qlog2_unique (x : Q) (e : Z) :
  (2 ^ e <= x)%Q -> (x < 2 ^ (e + 1))%Q -> Qlog2 x = e.
Proof.
  intros Hlo Hhi.
  assert (Hx : (0 < x)%Q) by (eapply Qlt_le_trans; [apply (pow2_pos e)|exact Hlo]).
  destruct (Qlog2_spec x Hx) as [Hlo' Hhi'].
  assert (H1 : e < Qlog2 x + 1).
  { apply (Qpower_lt_compat_l_inv 2); [|reflexivity].
    eapply Qle_lt_trans; [exact Hlo|exact Hhi']. }
  assert (H2 : Qlog2 x < e + 1).
  { apply (Qpower_lt_compat_l_inv 2); [|reflexivity].
    eapply Qle_lt_trans; [exact Hlo'|exact Hhi]. }
  lia.
Qed.

Lemma Qlog2_mono (x y : Q) : (0 < x)%Q -> (x <= y)%Q -> Qlog2 x <= Qlog2 y.
Proof.
  intros Hx Hxy.
  assert (Hy : (0 < y)%Q) by lra.
  destruct (Qlog2_spec x Hx) as [Hlo _]. destruct (Qlog2_spec y Hy) as [_ Hhi].
  assert (H : Qlog2 x < Qlog2 y + 1).
  { apply (Qpower_lt_compat_l_inv 2); [|reflexivity]. lra. }
  lia.
Qed.

Section Rounding.

Context (prec emin : Z) (Hprec : 1 <= prec).

Lemma round_to_eq (x : Q) :
  ~ (x == 0)%Q ->
  (round_to prec emin x
   == inject_Z (round_half_even (x / 2 ^ quantum prec emin x))
      * 2 ^ quantum prec emin x)%Q.
Proof.
  intros H. unfold round_to.
  destruct (Qeq_bool x 0) eqn:E.
  - apply Qeq_bool_iff in E. contradiction.
  - cbv zeta. rewrite Qred_correct. reflexivity.
Qed.

Lemma round_to_0 (x : Q) : (x == 0)%Q -> round_to prec emin x = 0%Q.
Proof.
  intros H. unfold round_to. 
  destruct (Qeq_bool x 0) eqn:E; [reflexivity|].
  apply Qeq_bool_neq in E. contradiction.
Qed.

#[global] Instance round_to_comp : Proper (Qeq ==> eq) (round_to prec emin).
Proof.
  intros x y H. unfold round_to.
  assert (Hb : Qeq_bool x 0 = Qeq_bool y 0).
  { destruct (Qeq_bool x 0) eqn:E1, (Qeq_bool y 0) eqn:E2; try reflexivity.
    - apply Qeq_bool_iff in E1. apply Qeq_bool_neq in E2. rewrite H in E1. contradiction.
    - apply Qeq_bool_iff in E2. apply Qeq_bool_neq in E1. rewrite H in E1. contradiction. }
  rewrite Hb. destruct (Qeq_bool y 0); [reflexivity|]. cbv zeta.
  assert (Ha : (Qabs x == Qabs y)%Q) by (rewrite H; reflexivity).
  rewrite (Qlog2_comp _ _ Ha).
  apply Qred_complete. rewrite H. reflexivity.
Qed.

Lemma round_to_nonneg (x : Q) : (0 <= x)%Q -> (0 <= round_to prec emin x)%Q.
Proof.
  intros Hx. destruct (Qeq_dec x 0) as [E|NE].
  - rewrite (round_to_0 x E). lra.
  - rewrite (round_to_eq x NE).
    pose proof (pow2_pos (quantum prec emin x)) as P.
    apply Qmult_le_0_compat; [|lra].
    change 0%Q with (inject_Z 0). rewrite <- Zle_Qle.
    apply round_half_even_ge. change (inject_Z 0) with 0%Q.
    apply Qle_shift_div_l; [exact P|]. lra.
Qed.

(** a value [R * 2^e] whose exponent is not below the quantum of its binade
    is representable *)
Lemma round_to_fix (x : Q) (R e : Z) :
  (0 < x)%Q -> (x == inject_Z R * 2 ^ e)%Q -> quantum prec emin x <= e ->
  (round_to prec emin x == x)%Q.
Proof.
  intros Hx HR He.
  rewrite round_to_eq by lra.
  set (q := quantum prec emin x) in *.
  pose proof (pow2_pos q) as P. pose proof (pow2_pos e) as Pe.
  assert (Hm : (x / 2 ^ q == inject_Z (R * 2 ^ (e - q)))%Q).
  { rewrite inject_Z_mult, <- pow2_Z by lia. rewrite pow2_sub, HR. field. lra. }
  rewrite Hm, round_half_even_Z, <- Hm. field. lra.
Qed.

Lemma round_to_pow2 (e : Z) : emin <= e -> (round_to prec emin (2 ^ e) == 2 ^ e)%Q.
Proof.
  intros He. pose proof (pow2_pos e) as P.
  apply (round_to_fix _ 1 e); [exact P | change (inject_Z 1) with 1%Q; lra |].
  unfold quantum. rewrite Qabs_pos by lra.
  rewrite (Qlog2_unique (2 ^ e) e); [lia | lra |].
  apply Qpower_lt_compat_l; [lia | reflexivity].
Qed.

Lemma round_to_mono (x y : Q) :
  (0 <= x)%Q -> (x <= y)%Q -> (round_to prec emin x <= round_to prec emin y)%Q.
Proof.
  intros Hx Hxy.
  destruct (Qeq_dec x 0) as [E|NE].
  { rewrite (round_to_0 x E). apply round_to_nonneg. lra. }
  assert (Hx' : (0 < x)%Q) by lra. assert (Hy' : (0 < y)%Q) by lra.
  rewrite (round_to_eq x) by lra. rewrite (round_to_eq y) by lra.
  unfold quantum. rewrite !Qabs_pos by lra.
  pose proof (Qlog2_mono x y Hx' Hxy) as HE.
  destruct (Qlog2_spec x Hx') as [_ Hxhi]. destruct (Qlog2_spec y Hy') as [Hylo _].
  set (Ex := Qlog2 x) in *. set (Ey := Qlog2 y) in *.
  set (qx := Z.max (Ex - (prec - 1)) emin). set (qy := Z.max (Ey - (prec - 1)) emin).
  pose proof (pow2_pos qx) as Px. pose proof (pow2_pos qy) as Py.
  destruct (Z.eq_dec qx qy) as [Eq|Nq].
  - rewrite Eq. apply Qmult_le_compat_r; [|lra].
    rewrite <- Zle_Qle. apply round_half_even_mono.
    apply Qmult_le_compat_r; [exact Hxy|]. apply Qlt_le_weak, Qinv_lt_0_compat, Py.
  - assert (Hq : qx < qy) by lia.
    assert (Hqy : qy = Ey - (prec - 1)) by lia.
    assert (HEx : Ex + 1 <= Ey) by lia.
    apply Qle_trans with (2 ^ Ey)%Q.
    + assert (Hr : round_half_even (x / 2 ^ qx) <= 2 ^ (Ey - qx)).
      { apply round_half_even_le. rewrite <- pow2_Z by lia. rewrite pow2_sub.
        apply Qmult_le_compat_r; [|apply Qlt_le_weak, Qinv_lt_0_compat, Px].
        pose proof (pow2_le (Ex + 1) Ey HEx). lra. }
      rewrite Zle_Qle in Hr. rewrite <- pow2_Z in Hr by lia.
      rewrite pow2_sub in Hr.
      apply Qle_trans with (2 ^ Ey / 2 ^ qx * 2 ^ qx)%Q.
      * apply Qmult_le_compat_r; [exact Hr | lra].
      * apply Qle_lteq. right. field. lra.
    + assert (Hr : 2 ^ (prec - 1) <= round_half_even (y / 2 ^ qy)).
      { apply round_half_even_ge. rewrite <- pow2_Z by lia.
        replace (prec - 1) with (Ey - qy) by lia. rewrite pow2_sub.
        apply Qmult_le_compat_r; [exact Hylo|apply Qlt_le_weak, Qinv_lt_0_compat, Py]. }
      rewrite Zle_Qle in Hr. rewrite <- pow2_Z in Hr by lia.
      replace (prec - 1) with (Ey - qy) in Hr by lia. rewrite pow2_sub in Hr.
      apply Qle_trans with (2 ^ Ey / 2 ^ qy * 2 ^ qy)%Q.
      * apply Qle_lteq. right. field. lra.
      * apply Qmult_le_compat_r; [exact Hr | lra].
Qed.

Lemma Qlog2_scale (k : Z) (x : Q) :
  (0 < x)%Q -> Qlog2 (2 ^ k * x) = Qlog2 x + k.
Proof.
  intros Hx. destruct (Qlog2_spec x Hx) as [Hlo Hhi].
  pose proof (pow2_pos k) as Pk.
  apply Qlog2_unique.
  - rewrite pow2_add, Qmult_comm. apply Qmult_le_l; assumption.
  - replace (Qlog2 x + k + 1) with (k + (Qlog2 x + 1)) by lia.
    rewrite pow2_add. apply Qmult_lt_l; assumption.
Qed.

End Rounding.

(** a float scaled by a power of two is a value of every format that is at
    least as wide as [float] *)
Lemma round_to_float_scaled (prec emin k : Z) (x : Q) :
  24 <= prec -> emin <= -149 -> 0 <= k -> (0 <= x)%Q -> is_float x ->
  (round_to prec emin (2 ^ k * x) == 2 ^ k * x)%Q.
Proof.
  intros Hp He Hk Hx Hf. pose proof (pow2_pos k) as Pk.
  destruct (Qeq_dec x 0) as [E|NE].
  { rewrite (round_to_0 prec emin (2 ^ k * x)) by (rewrite E; ring).
    rewrite E. ring. }
  assert (Hx' : (0 < x)%Q) by lra.
  assert (Hkx : (0 < 2 ^ k * x)%Q) by (apply Qmult_lt_0_compat; assumption).
  set (q := quantum 24 (-149) x).
  apply (round_to_fix prec emin _ (round_half_even (x / 2 ^ q)) (q + k)).
  - exact Hkx.
  - unfold is_float, to_float in Hf.
    rewrite (round_to_eq 24 (-149) x) in Hf by lra. fold q in Hf.
    rewrite pow2_add. rewrite <- Hf at 1. ring.
  - unfold q, quantum.
    rewrite (Qabs_pos (2 ^ k * x)) by (apply Qlt_le_weak, Hkx).
    rewrite (Qabs_pos x) by lra.
    rewrite Qlog2_scale by exact Hx'. lia.
Qed.

Lemma to_float_nonneg (x : Q) : (0 <= x)%Q -> (0 <= to_float x)%Q.
Proof. apply round_to_nonneg. Qed.

Lemma to_float_mono (x y : Q) :
  (0 <= x)%Q -> (x <= y)%Q -> (to_float x <= to_float y)%Q.
Proof. apply round_to_mono. lia. Qed.

Lemma to_double_mono (x y : Q) :
  (0 <= x)%Q -> (x <= y)%Q -> (to_double x <= to_double y)%Q.
Proof. apply round_to_mono. lia. Qed.

Lemma to_float_Z (n : Z) :
  0 <= n <= 2 ^ 24 -> (to_float (inject_Z n) == inject_Z n)%Q.
Proof.
  intros Hn.
  destruct (Z.eq_dec n 0) as [->|N0]; [reflexivity|].
  destruct (Z.eq_dec n (2 ^ 24)) as [->|N24]; [reflexivity|].
  assert (Hpos : (0 < inject_Z n)%Q).
  { change 0%Q with (inject_Z 0). rewrite <- Zlt_Qlt. lia. }
  apply (round_to_fix 24 (-149) _ n 0);
    [exact Hpos | change (2 ^ 0)%Q with 1%Q; ring |].
  unfold quantum. rewrite Qabs_pos by lra.
  destruct (Qlog2_spec _ Hpos) as [Hlo _].
  assert (Hl : Qlog2 (inject_Z n) < 24).
  { apply (Qpower_lt_compat_l_inv 2); [|reflexivity].
    eapply Qle_lt_trans; [exact Hlo|]. rewrite (pow2_Z 24) by lia.
    rewrite <- Zlt_Qlt. lia. }
  lia.
Qed.

Lemma to_float_ge_Z (n : Z) (x : Q) :
  0 <= n <= 2 ^ 24 -> (inject_Z n <= x)%Q -> (inject_Z n <= to_float x)%Q.
Proof.
  intros Hn Hx. rewrite <- (to_float_Z n Hn). apply to_float_mono; [|exact Hx].
  change 0%Q with (inject_Z 0). rewrite <- Zle_Qle. lia.
Qed.

(** rounding does not carry a value across a float *)
Lemma to_float_le_float (x y : Q) :
  (0 <= y)%Q -> (y <= x)%Q -> is_float x -> (to_float y <= x)%Q.
Proof.
  intros Hy Hyx Hf. unfold is_float in Hf. rewrite <- Hf.
  apply to_float_mono; assumption.
Qed.

Lemma to_double_le_float (x y : Q) :
  (0 <= y)%Q -> (y <= x)%Q -> is_float x -> (to_double y <= x)%Q.
Proof.
  intros Hy Hyx Hf.
  assert (Hd : (to_double x == x)%Q).
  { pose proof (round_to_float_scaled 53 (-1074) 0 x) as H.
    change (2 ^ 0)%Q with 1%Q in H.
    assert (E : (1 * x == x)%Q) by ring.
    rewrite (round_to_comp 53 (-1074) _ _ E) in H. rewrite E in H.
    apply H; try lia; [lra | exact Hf]. }
  rewrite <- Hd. apply to_double_mono; assumption.
Qed.

End FloatFacts.

(** ** Numbers *)

Lemma Qtrunc_nonneg (x : Q) : (0 <= x)%Q -> Qtrunc x = Qfloor x.
Proof.
  destruct x as [n d]. unfold Qle, Qtrunc, Qfloor. simpl. intros H.
  apply Z.quot_div_nonneg; lia.
Qed.

Lemma Qfloor_nonneg (x : Q) : (0 <= x)%Q -> 0 <= Qfloor x.
Proof.
  intros H. change 0 with (Qfloor 0). apply Qfloor_resp_le, H.
Qed.

Lemma to_unsigned_small (z : Z) : 0 <= z < UINT_MOD -> to_unsigned z = z.
Proof. intros H. unfold to_unsigned. apply Z.mod_small, H. Qed.

Lemma cvtt_ss2si_nonneg (x : Q) :
  (0 <= x)%Q ->
  to_unsigned (cvtt_ss2si x) = if Qfloor x <? 2 ^ 31 then Qfloor x else 2 ^ 31.
Proof.
  intros H. unfold cvtt_ss2si. rewrite (Qtrunc_nonneg x H).
  pose proof (Qfloor_nonneg x H) as Hf.
  destruct (Z.ltb_spec (Qfloor x) (2 ^ 31)) as [Hlt|Hge].
  - replace (INT_MIN <=? Qfloor x) with true
      by (symmetry; apply Z.leb_le; unfold INT_MIN; lia).
    simpl. apply to_unsigned_small. unfold UINT_MOD. lia.
  - rewrite andb_false_r. reflexivity.
Qed.

Lemma Qltb_lt (x y : Q) : Qltb x y = true <-> (x < y)%Q.
Proof.
  unfold Qltb. rewrite negb_true_iff. split.
  - intros H. apply Qnot_le_lt. intros Hle.
    apply Qle_bool_iff in Hle. congruence.
  - intros H. destruct (Qle_bool y x) eqn:E; [|reflexivity].
    apply Qle_bool_iff in E. exfalso. exact (Qlt_not_le _ _ H E).
Qed.

Lemma Qltb_ge (x y : Q) : Qltb x y = false <-> (y <= x)%Q.
Proof.
  unfold Qltb. rewrite negb_false_iff. apply Qle_bool_iff.
Qed.

Lemma Qleb_le (x y : Q) : Qleb x y = true <-> (x <= y)%Q.
Proof. apply Qle_bool_iff. Qed.

Lemma Qleb_gt (x y : Q) : Qleb x y = false <-> (y < x)%Q.
Proof.
  unfold Qleb. split.
  - intros H. apply Qnot_le_lt. intros Hle. apply Qle_bool_iff in Hle. congruence.
  - intros H. destruct (Qle_bool x y) eqn:E; [|reflexivity].
    apply Qle_bool_iff in E. exfalso. exact (Qlt_not_le _ _ H E).
Qed.

(** ** The object monad *)

Lemma read_Some {S A} (a : list A) (i : Z) (x : A) (s : S) :
  a !! Z.to_nat i = Some x -> read a i s = (Ok x, s).
Proof. intros H. unfold read. rewrite H. reflexivity. Qed.

Lemma write_Ok {A} (a : list A) (i : Z) (x : A) :
  (Z.to_nat i < length a)%nat -> write a i x = Ok (<[Z.to_nat i := x]> a).
Proof. intros H. unfold write. rewrite decide_True by exact H. reflexivity. Qed.

Lemma bind_Ok {S A B} (c : M S A) (k : A -> M S B) (s s' : S) (a : A) :
  c s = (Ok a, s') -> bind c k s = k a s'.
Proof. intros H. unfold bind. rewrite H. reflexivity. Qed.

Lemma bind_Throw {S A B} (c : M S A) (k : A -> M S B) (s s' : S) (e : exn) :
  c s = (Throw e, s') -> bind c k s = (Throw e, s').
Proof. intros H. unfold bind. rewrite H. reflexivity. Qed.

Lemma bind_gets {S A B} (f : S -> A) (k : A -> M S B) (s : S) :
  bind (gets f) k s = k (f s) s.
Proof. reflexivity. Qed.

Lemma bind_get {S B} (k : S -> M S B) (s : S) : bind get k s = k s s.
Proof. reflexivity. Qed.

Lemma bind_modify {S B} (f : S -> S) (k : unit -> M S B) (s : S) :
  bind (modify f) k s = k tt (f s).
Proof. reflexivity. Qed.

Lemma bind_read {S A B} (a : list A) (i : Z) (x : A) (k : A -> M S B) (s : S) :
  a !! Z.to_nat i = Some x -> bind (read a i) k s = k x s.
Proof. intros H. apply bind_Ok, read_Some, H. Qed.

(** An invariant rule for the counting loop. *)
Lemma for_loop_inv {S} (I : nat -> S -> Prop) (body : Z -> M S unit)
    (n : nat) (from : Z) (s : S) :
  I O s ->
  (forall k s, (k < n)%nat -> I k s ->
     exists s', body (from + Z.of_nat k) s = (Ok tt, s') /\ I (Datatypes.S k) s') ->
  exists s', for_loop from n body s = (Ok tt, s') /\ I n s'.
Proof.
  revert I from s. induction n as [|n IH]; intros I from s H0 Hstep.
  - exists s. split; [reflexivity | exact H0].
  - destruct (Hstep O s ltac:(lia) H0) as (s1 & Hb & H1).
    rewrite Z.add_0_r in Hb.
    destruct (IH (fun k => I (Datatypes.S k)) (from + 1) s1 H1) as (s2 & Hl & H2).
    + intros k s' Hk Hi. destruct (Hstep (Datatypes.S k) s' ltac:(lia) Hi) as (s'' & Hb' & Hi').
      exists s''. split; [|exact Hi'].
      rewrite <- Hb'. f_equal. lia.
    + exists s2. split; [|exact H2].
      simpl. unfold bind. rewrite Hb. exact Hl.
Qed.

(** An invariant rule for the loop over a container. *)
Lemma for_each_inv {S A} (I : list A -> S -> Prop) (body : A -> M S unit)
    (l : list A) (s : S) :
  I [] s ->
  (forall pre x s, pre ++ [x] `prefix_of` l -> I pre s ->
     exists s', body x s = (Ok tt, s') /\ I (pre ++ [x]) s') ->
  exists s', for_each l body s = (Ok tt, s') /\ I l s'.
Proof.
  revert I s. induction l as [|x l IH]; intros I s H0 Hstep.
  - exists s. split; [reflexivity | exact H0].
  - destruct (Hstep [] x s) as (s1 & Hb & H1); [ | exact H0 | ].
    { simpl. exists l. reflexivity. }
    destruct (IH (fun pre => I (x :: pre)) s1 H1) as (s2 & Hl & H2).
    + intros pre y s' Hpre Hi. apply (Hstep (x :: pre) y s'); [|exact Hi].
      simpl. apply prefix_cons, Hpre.
    + exists s2. split; [|exact H2].
      simpl. unfold bind. rewrite Hb. exact Hl.
Qed.

Lemma raises_only_ret {S A} P (a : A) : raises_only (S:=S) P (ret a).
Proof. intros s e s' H. discriminate. Qed.

Lemma raises_only_gets {S A} P (f : S -> A) : raises_only P (gets f).
Proof. intros s e s' H. discriminate. Qed.

Lemma raises_only_get {S} P : raises_only (S:=S) P get.
Proof. intros s e s' H. discriminate. Qed.

Lemma raises_only_modify {S} P (f : S -> S) : raises_only P (modify f).
Proof. intros s e s' H. discriminate. Qed.

Lemma raises_only_throw {S A} (P : exn -> Prop) e :
  P e -> raises_only (S:=S) (A:=A) P (throw e).
Proof. intros H s e' s' [= <- _]. exact H. Qed.

Lemma raises_only_bind {S A B} P (c : M S A) (k : A -> M S B) :
  raises_only P c -> (forall a, raises_only P (k a)) -> raises_only P (bind c k).
Proof.
  intros Hc Hk s e s' H. unfold bind in H.
  destruct (c s) as [[a|e1] s1] eqn:E.
  - exact (Hk a s1 e s' H).
  - injection H as <- _. exact (Hc s e1 s1 E).
Qed.

Lemma raises_only_read {S A} (P : exn -> Prop) (a : list A) i :
  P out_of_range -> raises_only (S:=S) P (read a i).
Proof.
  intros H. unfold read. destruct (a !! Z.to_nat i).
  - apply raises_only_ret.
  - apply raises_only_throw, H.
Qed.

Lemma raises_only_for_loop {S} P (body : Z -> M S unit) n from :
  (forall i, raises_only P (body i)) -> raises_only P (for_loop from n body).
Proof.
  intros Hb. revert from. induction n as [|n IH]; intros from; simpl.
  - apply raises_only_ret.
  - apply raises_only_bind; [apply Hb | intros _; apply IH].
Qed.

Lemma raises_only_for_each {S A} P (body : A -> M S unit) l :
  (forall x, raises_only P (body x)) -> raises_only P (for_each l body).
Proof.
  intros Hb. induction l as [|x l IH]; simpl.
  - apply raises_only_ret.
  - apply raises_only_bind; [apply Hb | intros _; apply IH].
Qed.

(** ** Lists and machine numbers, continued *)

Lemma fold_left_snoc {A B} (f : A -> B -> A) (l : list B) (x : B) (a : A) :
  fold_left f (l ++ [x]) a = f (fold_left f l a) x.
Proof. rewrite fold_left_app. reflexivity. Qed.

Lemma insert_app_replicate {A} (pre : list A) (k m : nat) (x y : A) :
  length pre = k ->
  <[k := y]> (pre ++ replicate (S m) x) = (pre ++ [y]) ++ replicate m x.
Proof.
  intros <-. rewrite insert_app_r_alt by lia.
  rewrite Nat.sub_diag. simpl. rewrite <- app_assoc. reflexivity.
Qed.

Lemma to_unsigned_range (z : Z) : 0 <= to_unsigned z < UINT_MOD.
Proof. unfold to_unsigned. apply Z.mod_pos_bound. reflexivity. Qed.

Lemma to_int_small (z : Z) : 0 <= z < 2 ^ 31 -> Locality.to_int z = z.
Proof.
  intros H. unfold Locality.to_int. rewrite to_unsigned_small by (unfold UINT_MOD; lia).
  replace (z <? 2 ^ 31) with true by (symmetry; apply Z.ltb_lt; lia).
  reflexivity.
Qed.

Module CorrelationFacts.
Import Correlation HistogramSpec FloatFacts.

Section Facts.

Context {T : Type} (T0 : T) (Tadd Tmul : T -> T -> T) (Tdiv : T -> Z -> T).

Local Abbreviation CF := (@CorrelationFunction T).

Lemma ts_all_lookup {A} (t : ThreadStorage A) (a : list A) :
  a ∈ ts_all t <-> exists tid, ts_arrays t !! tid = Some a.
Proof.
  unfold ts_all. rewrite list_elem_of_fmap. split.
  - intros ([tid a'] & -> & Hin). exists tid.
    apply elem_of_map_to_list in Hin. exact Hin.
  - intros [tid H]. exists (tid, a). split; [reflexivity|].
    apply elem_of_map_to_list. exact H.
Qed.

Lemma ts_local_length {A} (zero : A) (n : nat) (t : ThreadStorage A) tid :
  ts_wf n t -> length (ts_local zero t tid) = n.
Proof.
  intros [Hsize Harr]. unfold ts_local.
  destruct (ts_arrays t !! tid) as [a|] eqn:E; simpl.
  - rewrite Forall_forall in Harr. apply Harr, ts_all_lookup. eauto.
  - rewrite length_replicate. exact Hsize.
Qed.

Lemma ts_store_wf {A} (n : nat) (t : ThreadStorage A) tid a :
  ts_wf n t -> length a = n -> ts_wf n (ts_store t tid a).
Proof.
  intros [Hsize Harr] Ha. split; [exact Hsize|].
  rewrite Forall_forall in *. intros a' Hin.
  apply ts_all_lookup in Hin as [tid' Hin]. simpl in Hin.
  rewrite lookup_insert in Hin. case_decide.
  - injection Hin as <-. exact Ha.
  - apply Harr, ts_all_lookup. eauto.
Qed.

Lemma ts_all_length {A} (n : nat) (t : ThreadStorage A) a :
  ts_wf n t -> a ∈ ts_all t -> length a = n.
Proof.
  intros [_ Harr] Hin. rewrite Forall_forall in Harr. exact (Harr a Hin).
Qed.

Lemma bin_of_range (dr_inv : Q) (b : NeighborBond) :
  0 <= bin_of dr_inv b < 2 ^ 32.
Proof. apply to_unsigned_range. Qed.

Lemma fdiv_nonneg (a b : Q) : (0 <= a)%Q -> (0 < b)%Q -> (0 <= fdiv a b)%Q.
Proof.
  intros Ha Hb. apply to_float_nonneg, Qle_shift_div_l; [exact Hb|].
  rewrite Qmult_0_l. exact Ha.
Qed.

Lemma fmul_nonneg (a b : Q) : (0 <= a)%Q -> (0 <= b)%Q -> (0 <= fmul a b)%Q.
Proof. intros Ha Hb. apply to_float_nonneg, Qmult_le_0_compat; assumption. Qed.

(** a float quotient of at least 1 is not rounded below 1 *)
Lemma fdiv_ge_1 (a b : Q) : (0 < b)%Q -> (b <= a)%Q -> (1 <= fdiv a b)%Q.
Proof.
  intros Hb Hab. apply (to_float_ge_Z 1); [lia|].
  apply Qle_shift_div_l; [exact Hb|]. rewrite Qmult_1_l. exact Hab.
Qed.

(** the bin of a bond with a nonnegative distance: the floor of the float
    product, as long as that fits an [int] *)
Lemma bin_of_floor (dr : Q) (b : NeighborBond) :
  (0 < dr)%Q -> (0 <= distance b)%Q ->
  0 <= float_bin dr b /\
  bin_of (fdiv 1 dr) b =
    if float_bin dr b <? 2 ^ 31 then float_bin dr b else 2 ^ 31.
Proof.
  intros Hdr Hd. unfold bin_of, float_bin.
  assert (Hnn : (0 <= fmul (distance b) (fdiv 1 dr))%Q).
  { apply fmul_nonneg; [exact Hd|]. apply fdiv_nonneg; [discriminate|exact Hdr]. }
  split; [apply Qfloor_nonneg, Hnn|].
  apply (cvtt_ss2si_nonneg _ Hnn).
Qed.

(** One bond in [CorrelationFunction::accumulate]. When its bin is not
    below the number of bins the bond is dropped: the object is unchanged
    and no array is touched, whatever the value arrays are. Otherwise the
    count of that bin in the calling thread's array is incremented and
    [values[ref_id] * query_values[id]] is added to the thread's value for
    the bin; all array accesses are in range. *)
Lemma accumulate_bond_step (s : CF) (values query_values : list T)
    (dr_inv : Q) (tid : nat) (b : NeighborBond) :
  wf s ->
  let bin := bin_of dr_inv b in
  let run := accumulate_bond T0 Tadd Tmul values query_values dr_inv tid b in
  (m_nbins s <= bin -> run s = (Ok tt, s)) /\
  (bin < m_nbins s ->
   exists c r,
     ts_local 0 (m_local_bin_counts s) tid !! Z.to_nat bin = Some c /\
     ts_local T0 (m_local_rdf_array s) tid !! Z.to_nat bin = Some r /\
     let counted :=
       set_local_bin_counts
         (ts_store (m_local_bin_counts s) tid
            (<[Z.to_nat bin := (c + 1) mod UINT_MOD]>
               (ts_local 0 (m_local_bin_counts s) tid)))
         s in
     (forall v q,
        values !! Z.to_nat (ref_id b) = Some v ->
        query_values !! Z.to_nat (id_ b) = Some q ->
        run s =
          (Ok tt,
           set_local_rdf_array
             (ts_store (m_local_rdf_array s) tid
                (<[Z.to_nat bin := Tadd r (Tmul v q)]>
                   (ts_local T0 (m_local_rdf_array s) tid)))
             counted)) /\
     (values !! Z.to_nat (ref_id b) = None \/
      query_values !! Z.to_nat (id_ b) = None ->
      run s = (Throw out_of_range, counted))).
Proof.
  intros Hwf bin run.
  destruct Hwf as (Hn & _ & _ & Hlc & Hlv).
  pose proof (bin_of_range dr_inv b) as Hbin0. fold bin in Hbin0.
  split.
  - intros Hge. subst run. unfold accumulate_bond. fold bin. clearbody bin.
    unfold bind, gets. simpl.
    replace (bin <? m_nbins s) with false
      by (symmetry; apply Z.ltb_ge; exact Hge). reflexivity.
  - intros Hlt.
    pose proof (ts_local_length 0 _ _ tid Hlc) as Hlen_c.
    pose proof (ts_local_length T0 _ _ tid Hlv) as Hlen_v.
    assert (Hidx : (Z.to_nat bin < Z.to_nat (m_nbins s))%nat) by lia.
    destruct (lookup_lt_is_Some_2 (ts_local 0 (m_local_bin_counts s) tid)
                (Z.to_nat bin)) as [c Hc]; [lia|].
    destruct (lookup_lt_is_Some_2 (ts_local T0 (m_local_rdf_array s) tid)
                (Z.to_nat bin)) as [r Hr]; [lia|].
    exists c, r. split; [exact Hc|]. split; [exact Hr|].
    cbv zeta. subst run. unfold accumulate_bond. fold bin. clearbody bin.
    split.
    + intros v q Hv Hq. unfold bind, gets. simpl.
      replace (bin <? m_nbins s) with true by (symmetry; apply Z.ltb_lt; exact Hlt).
      rewrite (read_Some _ _ c s Hc).
      rewrite write_Ok by lia. unfold modify. simpl.
      rewrite (read_Some _ _ r _ Hr).
      rewrite (read_Some _ _ v _ Hv).
      rewrite (read_Some _ _ q _ Hq).
      rewrite write_Ok by lia. reflexivity.
    + intros Hnone. unfold bind, gets. simpl.
      replace (bin <? m_nbins s) with true by (symmetry; apply Z.ltb_lt; exact Hlt).
      rewrite (read_Some _ _ c s Hc).
      rewrite write_Ok by lia. unfold modify. simpl.
      rewrite (read_Some _ _ r _ Hr).
      destruct (values !! Z.to_nat (ref_id b)) as [v|] eqn:Ev.
      * rewrite (read_Some _ _ v _ Ev).
        destruct Hnone as [Hnone|Hnone]; [discriminate|].
        unfold read. rewrite Hnone. reflexivity.
      * unfold read. rewrite Ev. reflexivity.
Qed.

(** *** Reduction *)

Local Abbreviation reduce_bin := (reduce_bin Tadd Tdiv).
Local Abbreviation reduceCorrelationFunction := (reduceCorrelationFunction T0 Tadd Tdiv).
Local Abbreviation getRDF := (getRDF T0 Tadd Tdiv).
Local Abbreviation merged_value := (merged_value T0 Tadd).
Local Abbreviation reduced_value := (reduced_value T0 Tadd Tdiv).
Local Abbreviation reduced := (reduced T0 Tadd Tdiv).

Lemma store_Ok {A} (a : list A) set (i : Z) (x : A) (s : CF) :
  (Z.to_nat i < length a)%nat ->
  store a set i x s = (Ok tt, set (<[Z.to_nat i := x]> a) s).
Proof. intros H. unfold store. rewrite write_Ok by exact H. reflexivity. Qed.

(** one bin of the reduction, on arrays whose bin [i] is still cleared *)
Lemma reduce_bin_spec (s : CF) (C : list Z) (R : list T) (i : nat) :
  wf s ->
  length C = Z.to_nat (m_nbins s) -> length R = Z.to_nat (m_nbins s) ->
  C !! i = Some 0 -> R !! i = Some T0 ->
  reduce_bin (Z.of_nat i) (set_rdf_array R (set_bin_counts C s)) =
    (Ok tt, set_rdf_array (<[i := reduced_value s i]> R)
              (set_bin_counts (<[i := merged_count s i]> C) s)).
Proof.
  intros (Hn & _ & _ & Hlc & Hlv) HC HR HCi HRi.
  assert (Hi : (i < Z.to_nat (m_nbins s))%nat).
  { rewrite <- HC. apply lookup_lt_is_Some. eauto. }
  unfold Correlation.reduce_bin. rewrite bind_gets.
  cbn [m_local_bin_counts set_rdf_array set_bin_counts].
  (* the counts *)
  destruct (for_each_inv
    (fun pre st => st = set_rdf_array R (set_bin_counts
       (<[i := fold_left (fun c (l : list Z) => (c + default 0 (l !! i)) mod UINT_MOD)
                pre 0]> C) s))
    (fun local_bins : list Z =>
       a <- gets m_bin_counts;;
       c <- read a (Z.of_nat i);;
       l <- read local_bins (Z.of_nat i);;
       store a set_bin_counts (Z.of_nat i) ((c + l) mod UINT_MOD))
    (ts_all (m_local_bin_counts s))
    (set_rdf_array R (set_bin_counts C s))) as (s1 & Hrun1 & Hs1).
  { cbn [fold_left]. rewrite (list_insert_id C i 0 HCi). reflexivity. }
  { intros pre x st Hpre ->.
    assert (Hx : x ∈ ts_all (m_local_bin_counts s)).
    { destruct Hpre as [post ->]. rewrite !elem_of_app, list_elem_of_singleton.
      auto. }
    pose proof (ts_all_length _ _ _ Hlc Hx) as Hlx.
    destruct (lookup_lt_is_Some_2 x i) as [l Hl]; [lia|].
    eexists. split; [|reflexivity].
    rewrite bind_gets. cbn [m_bin_counts set_rdf_array set_bin_counts].
    erewrite bind_read
      by (rewrite Nat2Z.id; apply list_lookup_insert_eq; lia).
    erewrite bind_read by (rewrite Nat2Z.id; exact Hl).
    rewrite store_Ok by (rewrite Nat2Z.id, length_insert; lia).
    rewrite Nat2Z.id, list_insert_insert_eq, fold_left_snoc, Hl. reflexivity. }
  rewrite (bind_Ok _ _ _ _ _ Hrun1). subst s1. fold (merged_count s i).
  rewrite bind_gets.
  cbn [m_local_rdf_array set_rdf_array set_bin_counts].
  (* the values *)
  destruct (for_each_inv
    (fun pre st => st = set_rdf_array
       (<[i := fold_left (fun v (l : list T) => Tadd v (default T0 (l !! i)))
                pre T0]> R)
       (set_bin_counts (<[i := merged_count s i]> C) s))
    (fun local_rdf : list T =>
       a <- gets m_rdf_array;;
       v <- read a (Z.of_nat i);;
       l <- read local_rdf (Z.of_nat i);;
       store a set_rdf_array (Z.of_nat i) (Tadd v l))
    (ts_all (m_local_rdf_array s))
    (set_rdf_array R (set_bin_counts (<[i := merged_count s i]> C) s)))
    as (s2 & Hrun2 & Hs2).
  { cbn [fold_left]. rewrite (list_insert_id R i T0 HRi). reflexivity. }
  { intros pre x st Hpre ->.
    assert (Hx : x ∈ ts_all (m_local_rdf_array s)).
    { destruct Hpre as [post ->]. rewrite !elem_of_app, list_elem_of_singleton.
      auto. }
    pose proof (ts_all_length _ _ _ Hlv Hx) as Hlx.
    destruct (lookup_lt_is_Some_2 x i) as [l Hl]; [lia|].
    eexists. split; [|reflexivity].
    rewrite bind_gets. cbn [m_rdf_array set_rdf_array set_bin_counts].
    erewrite bind_read
      by (rewrite Nat2Z.id; apply list_lookup_insert_eq; lia).
    erewrite bind_read by (rewrite Nat2Z.id; exact Hl).
    rewrite store_Ok by (rewrite Nat2Z.id, length_insert; lia).
    rewrite Nat2Z.id, list_insert_insert_eq, fold_left_snoc, Hl. reflexivity. }
  rewrite (bind_Ok _ _ _ _ _ Hrun2). subst s2. fold (merged_value s i).
  (* the division *)
  rewrite bind_gets. cbn [m_bin_counts m_rdf_array set_rdf_array set_bin_counts].
  erewrite bind_read by (rewrite Nat2Z.id; apply list_lookup_insert_eq; lia).
  unfold Correlation.reduced_value.
  destruct (merged_count s i =? 0) eqn:Ez.
  - reflexivity.
  - rewrite bind_gets. cbn [m_bin_counts m_rdf_array set_rdf_array set_bin_counts].
    erewrite bind_read by (rewrite Nat2Z.id; apply list_lookup_insert_eq; lia).
    unfold divide. rewrite Ez. unfold bind, ret.
    rewrite store_Ok by (rewrite Nat2Z.id, length_insert; lia).
    rewrite Nat2Z.id, list_insert_insert_eq. reflexivity.
Qed.

(** On a well-formed object the reduction succeeds and computes [reduced]. *)
Lemma reduce_spec (s : CF) :
  wf s -> reduceCorrelationFunction s = (Ok tt, reduced s).
Proof.
  intros Hwf. pose proof Hwf as (Hn & Hlr & Hlb & Hlc & Hlv).
  set (n := Z.to_nat (m_nbins s)) in *.
  unfold Correlation.reduceCorrelationFunction. rewrite !bind_gets.
  unfold memset0. rewrite decide_True by (fold n; lia).
  fold n. rewrite drop_ge by lia. rewrite app_nil_r.
  rewrite bind_modify.
  (* the first loop clears the values *)
  destruct (for_loop_inv
    (fun k st => (k <= n)%nat /\
       st = set_rdf_array (replicate k T0 ++ drop k (m_rdf_array s))
              (set_bin_counts (replicate n 0) s))
    (fun i => a <- gets m_rdf_array;; store a set_rdf_array i T0)
    n 0 (set_bin_counts (replicate n 0) s)) as (s1 & Hrun1 & _ & Hs1).
  { split; [lia|]. simpl. rewrite drop_0. destruct s; reflexivity. }
  { intros k st Hk [_ ->]. eexists. split.
    - rewrite bind_gets. cbn [m_rdf_array set_rdf_array set_bin_counts].
      rewrite Z.add_0_l. rewrite store_Ok.
      + reflexivity.
      + rewrite Nat2Z.id, length_app, length_replicate, length_drop. lia.
    - split; [lia|]. rewrite Nat2Z.id.
      destruct (lookup_lt_is_Some_2 (m_rdf_array s) k) as [x Hx]; [lia|].
      assert (Hl : <[k := T0]> (replicate k T0 ++ drop k (m_rdf_array s))
                   = replicate (S k) T0 ++ drop (S k) (m_rdf_array s)).
      { rewrite (drop_S _ _ _ Hx).
        rewrite insert_app_r_alt by (rewrite length_replicate; lia).
        rewrite length_replicate, Nat.sub_diag.
        cbn [insert list_insert replicate].
        rewrite replicate_cons_app, <- app_assoc. reflexivity. }
      rewrite <- Hl. reflexivity. }
  rewrite (bind_Ok _ _ _ _ _ Hrun1). subst s1.
  rewrite drop_ge by lia. rewrite app_nil_r.
  (* the second loop merges the threads, bin by bin *)
  destruct (for_loop_inv
    (fun k st => (k <= n)%nat /\
       st = set_rdf_array ((reduced_value s <$> seq 0 k) ++ replicate (n - k) T0)
              (set_bin_counts ((merged_count s <$> seq 0 k) ++ replicate (n - k) 0) s))
    reduce_bin n 0
    (set_rdf_array (replicate n T0) (set_bin_counts (replicate n 0) s)))
    as (s2 & Hrun2 & _ & Hs2).
  { split; [lia|]. simpl. rewrite Nat.sub_0_r. reflexivity. }
  { intros k st Hk [_ ->]. eexists. split.
    - rewrite Z.add_0_l. apply reduce_bin_spec.
      + exact Hwf.
      + rewrite length_app, length_fmap, length_seq, length_replicate. fold n. lia.
      + rewrite length_app, length_fmap, length_seq, length_replicate. fold n. lia.
      + rewrite lookup_app_r by (rewrite length_fmap, length_seq; lia).
        rewrite length_fmap, length_seq, Nat.sub_diag.
        apply lookup_replicate_2. lia.
      + rewrite lookup_app_r by (rewrite length_fmap, length_seq; lia).
        rewrite length_fmap, length_seq, Nat.sub_diag.
        apply lookup_replicate_2. lia.
    - split; [lia|].
      replace (n - k)%nat with (S (n - S k)) by lia.
      rewrite !insert_app_replicate by (rewrite length_fmap, length_seq; reflexivity).
      rewrite seq_S. rewrite !fmap_app. reflexivity. }
  rewrite Hrun2. subst s2.
  rewrite Nat.sub_diag. simpl. rewrite !app_nil_r. reflexivity.
Qed.

Lemma reduced_wf (s : CF) : wf s -> wf (reduced s).
Proof.
  intros (Hn & Hlr & Hlb & Hlc & Hlv). unfold wf, Correlation.reduced. simpl.
  rewrite !length_fmap, !length_seq. auto.
Qed.

Lemma raises_only_store {A} (P : exn -> Prop) (a : list A)
    (set : list A -> CF -> CF) i x :
  P out_of_range -> raises_only P (store a set i x).
Proof.
  intros H. unfold store, write. case_decide.
  - apply raises_only_modify.
  - apply raises_only_throw, H.
Qed.

(** The reduction never divides by zero, whatever the object. *)
Lemma reduce_never_divides_by_zero :
  raises_only (fun e => e = out_of_range) reduceCorrelationFunction.
Proof.
  unfold Correlation.reduceCorrelationFunction.
  apply raises_only_bind; [apply raises_only_gets|]. intros nbins.
  apply raises_only_bind; [apply raises_only_gets|]. intros counts.
  unfold memset0. case_decide.
  2: { apply raises_only_throw. reflexivity. }
  apply raises_only_bind; [apply raises_only_modify|]. intros _.
  apply raises_only_bind.
  { apply raises_only_for_loop. intros i.
    apply raises_only_bind; [apply raises_only_gets|]. intros a.
    apply raises_only_store. reflexivity. }
  intros _. apply raises_only_for_loop. intros i.
  unfold Correlation.reduce_bin.
  apply raises_only_bind; [apply raises_only_gets|]. intros lc.
  apply raises_only_bind.
  { apply raises_only_for_each. intros x.
    apply raises_only_bind; [apply raises_only_gets|]. intros a.
    apply raises_only_bind; [apply raises_only_read; reflexivity|]. intros c.
    apply raises_only_bind; [apply raises_only_read; reflexivity|]. intros l.
    apply raises_only_store. reflexivity. }
  intros _.
  apply raises_only_bind; [apply raises_only_gets|]. intros lv.
  apply raises_only_bind.
  { apply raises_only_for_each. intros x.
    apply raises_only_bind; [apply raises_only_gets|]. intros a.
    apply raises_only_bind; [apply raises_only_read; reflexivity|]. intros c.
    apply raises_only_bind; [apply raises_only_read; reflexivity|]. intros l.
    apply raises_only_store. reflexivity. }
  intros _.
  apply raises_only_bind; [apply raises_only_gets|]. intros counts'.
  apply raises_only_bind; [apply raises_only_read; reflexivity|]. intros c.
  destruct (c =? 0) eqn:Ec.
  - apply raises_only_ret.
  - apply raises_only_bind; [apply raises_only_gets|]. intros a.
    apply raises_only_bind; [apply raises_only_read; reflexivity|]. intros v.
    apply raises_only_bind.
    + unfold divide. rewrite Ec. apply raises_only_ret.
    + intros q. apply raises_only_store. reflexivity.
Qed.

Lemma merged_value_default (s : CF) (i : nat) :
  Tadd T0 T0 = T0 ->
  (forall local_rdf, local_rdf ∈ ts_all (m_local_rdf_array s) ->
                     local_rdf !! i = Some T0) ->
  merged_value s i = T0.
Proof.
  intros Hadd. unfold Correlation.merged_value.
  induction (ts_all (m_local_rdf_array s)) as [|l L IH]; intros H.
  - reflexivity.
  - simpl. rewrite (H l) by (left). simpl. rewrite Hadd.
    apply IH. intros l' Hl'. apply H. right. exact Hl'.
Qed.

(** *** The constructor *)

Local Abbreviation constructor_body := (constructor_body T0).
Local Abbreviation construct := (construct T0).

Lemma constructor_rejects (r_max dr : Q) :
  (dr <= 0 \/ r_max <= 0 \/ r_max < dr)%Q ->
  exists what,
    constructor_body r_max dr (initial r_max dr) =
      (Throw (invalid_argument what), initial r_max dr).
Proof.
  intros H. unfold Correlation.constructor_body.
  destruct (Qleb dr 0) eqn:E1; [eexists; reflexivity|].
  destruct (Qleb r_max 0) eqn:E2; [eexists; reflexivity|].
  destruct (Qltb r_max dr) eqn:E3; [eexists; reflexivity|].
  apply Qleb_gt in E1. apply Qleb_gt in E2. apply Qltb_ge in E3.
  exfalso. destruct H as [H|[H|H]].
  - exact (Qlt_not_le _ _ E1 H).
  - exact (Qlt_not_le _ _ E2 H).
  - exact (Qlt_not_le _ _ H E3).
Qed.

Lemma constructor_accepts (r_max dr : Q) :
  (0 < dr)%Q -> (dr <= r_max)%Q ->
  exists s,
    constructor_body r_max dr (initial r_max dr) = (Ok tt, s) /\
    wf s /\ m_reduce s = true /\ m_r_max s = r_max /\ m_dr s = dr /\
    1 <= m_nbins s /\
    m_rdf_array s = replicate (Z.to_nat (m_nbins s)) T0 /\
    m_bin_counts s = replicate (Z.to_nat (m_nbins s)) 0 /\
    ts_arrays (m_local_bin_counts s) = ∅ /\
    ts_arrays (m_local_rdf_array s) = ∅.
Proof.
  intros Hdr Hle. unfold Correlation.constructor_body.
  assert (Hr : (0 < r_max)%Q) by (eapply Qlt_le_trans; eauto).
  replace (Qleb dr 0) with false by (symmetry; apply Qleb_gt, Hdr).
  replace (Qleb r_max 0) with false by (symmetry; apply Qleb_gt, Hr).
  replace (Qltb r_max dr) with false by (symmetry; apply Qltb_ge, Hle).
  unfold floorf.
  pose proof (fdiv_ge_1 r_max dr Hdr Hle) as Hq.
  set (f := Qfloor (fdiv r_max dr)).
  assert (H1 : 1 <= f).
  { change 1 with (Qfloor 1). apply Qfloor_resp_le, Hq. }
  assert (Hnb : to_unsigned (cvtt_ss2si (inject_Z f))
                = if f <? 2 ^ 31 then f else 2 ^ 31).
  { rewrite cvtt_ss2si_nonneg.
    - rewrite Qfloor_Z. reflexivity.
    - change 0%Q with (inject_Z 0). rewrite <- Zle_Qle. lia. }
  assert (Hrange : 1 <= to_unsigned (cvtt_ss2si (inject_Z f)) <= 2 ^ 31).
  { rewrite Hnb. destruct (Z.ltb_spec f (2 ^ 31)); lia. }
  clear Hnb. set (nb := to_unsigned (cvtt_ss2si (inject_Z f))) in *.
  exists (mk_CF default_Box r_max dr 0 true nb
            (replicate (Z.to_nat nb) T0) (replicate (Z.to_nat nb) 0)
            (bin_center dr <$> seqZ 0 nb)
            (ts_resize (Z.to_nat nb) ts_empty)
            (ts_resize (Z.to_nat nb) ts_empty)).
  split; [reflexivity|]. unfold wf, ts_wf. cbn -[Z.pow].
  rewrite !length_replicate.
  repeat split; try reflexivity; try lia.
  - unfold ts_all. simpl. rewrite map_to_list_empty. constructor.
  - unfold ts_all. simpl. rewrite map_to_list_empty. constructor.
Qed.

End Facts.
End CorrelationFacts.

Section Idempotence.
Import Correlation.
Context {T : Type} (T0 : T) (Tadd : T -> T -> T) (Tdiv : T -> Z -> T).

Lemma getRDF_reduced (s : @CorrelationFunction T) :
  m_reduce s = false ->
  getRDF T0 Tadd Tdiv s = (Ok (m_rdf_array s), s).
Proof.
  intros H. unfold getRDF. rewrite bind_gets, H.
  unfold bind, ret, modify, gets. destruct s; simpl in *. subst. reflexivity.
Qed.

Lemma reduceAndReturn_reduced {A} (reduce : M Density.RDF unit)
    (thing : Density.RDF -> A) (r : Density.RDF) :
  Density.m_reduce r = false ->
  Density.reduceAndReturn reduce thing r = (Ok (thing r), r).
Proof.
  intros H. unfold Density.reduceAndReturn. rewrite bind_gets, H.
  unfold bind, ret, modify, gets. destruct r; simpl in *. subst. reflexivity.
Qed.

(** C5. Reduction is idempotent. On a well-formed correlation function
    [getRDF] returns an array and clears [m_reduce]; a second call with no
    [accumulate] or [reset] in between returns the same array and leaves the
    whole object as the first call left it, so nothing is reduced again. The
    same holds for [RDF::reduceAndReturn] whenever its first call returns,
    for every member it is asked for and every [reduce]. *)
Theorem reduction_idempotent (s : @CorrelationFunction T)
    {A} (reduce : M Density.RDF unit) (thing : Density.RDF -> A)
    (r : Density.RDF) :
  wf s ->
  (exists a s1,
     getRDF T0 Tadd Tdiv s = (Ok a, s1) /\ m_reduce s1 = false /\
     getRDF T0 Tadd Tdiv s1 = (Ok a, s1)) /\
  (forall a r1,
     Density.reduceAndReturn reduce thing r = (Ok a, r1) ->
     Density.m_reduce r1 = false /\
     Density.reduceAndReturn reduce thing r1 = (Ok a, r1)).
Proof.
  intros Hwf. split.
  - unfold getRDF at 1. rewrite bind_gets.
    destruct (m_reduce s) eqn:Er.
    + rewrite (bind_Ok _ _ _ _ _ (CorrelationFacts.reduce_spec T0 Tadd Tdiv s Hwf)).
      rewrite bind_modify. unfold gets.
      eexists _, _. split; [reflexivity|]. split; [reflexivity|].
      apply getRDF_reduced. reflexivity.
    + unfold bind at 1. unfold ret at 1. rewrite bind_modify. unfold gets.
      eexists _, _. split; [reflexivity|]. split; [reflexivity|].
      apply getRDF_reduced. reflexivity.
  - intros a r1 H. unfold Density.reduceAndReturn in H.
    rewrite bind_gets in H. unfold bind at 1 in H.
    destruct ((if Density.m_reduce r then reduce else ret tt) r)
      as [[[]|e] r'] eqn:E; [|discriminate].
    rewrite bind_modify in H. unfold gets in H. injection H as <- <-.
    split; [reflexivity|].
    rewrite reduceAndReturn_reduced by reflexivity. reflexivity.
Qed.

End Idempotence.

Import Examples.

(** the example object is well formed *)
Lemma ex_cf_wf : Correlation.wf ex_cf.
Proof.
  unfold Correlation.wf, Correlation.ts_wf.
  repeat split; try (vm_compute; congruence).
  - vm_compute. repeat constructor.
  - vm_compute. repeat constructor.
Qed.

(** On the example object the second [getRDF] returns what the first
    returned. *)
Lemma reduction_idempotent_witness :
  Correlation.wf ex_cf /\
  exists a s1,
    Correlation.getRDF 0 Z.add Z.div ex_cf = (Ok a, s1) /\
    Correlation.m_reduce s1 = false /\
    Correlation.getRDF 0 Z.add Z.div s1 = (Ok a, s1).
Proof.
  split; [exact ex_cf_wf|].
  exact (proj1 (reduction_idempotent 0 Z.add Z.div ex_cf ex_rdf_reduce
                  Density.m_pcf ex_rdf ex_cf_wf)).
Defined.

Module LinkCellFacts.
Import Locality.
Import LinkCellSpec.

(** the cast of a float that fits [unsigned int] truncates it *)
Lemma float_to_unsigned_floor (x : Q) :
  (0 <= x)%Q -> Qfloor x < 2 ^ 32 -> float_to_unsigned x = Qfloor x.
Proof.
  intros H Hlt. unfold float_to_unsigned, cvtt_ss2si64.
  rewrite (Qtrunc_nonneg x H).
  pose proof (Qfloor_nonneg x H) as Hf.
  replace (- 2 ^ 63 <=? Qfloor x) with true by (symmetry; apply Z.leb_le; lia).
  replace (Qfloor x <? 2 ^ 63) with true by (symmetry; apply Z.ltb_lt; lia).
  simpl. apply to_unsigned_small. unfold UINT_MOD. lia.
Qed.

Lemma float_to_unsigned_nonneg (x : Q) :
  (0 <= x)%Q -> Qfloor x < 2 ^ 31 -> float_to_unsigned x = Qfloor x.
Proof. intros H Hlt. apply float_to_unsigned_floor; [exact H | lia]. Qed.

Lemma float_to_unsigned_range (x : Q) : 0 <= float_to_unsigned x < 2 ^ 32.
Proof. apply to_unsigned_range. Qed.

Lemma clamp_ge_1 (z : Z) : 0 <= z -> 1 <= (if z =? 0 then 1 else z).
Proof. intros H. destruct (Z.eqb_spec z 0); lia. Qed.

Lemma clamp_max (z : Z) : 0 <= z -> (if z =? 0 then 1 else z) = Z.max 1 z.
Proof. intros H. destruct (Z.eqb_spec z 0); lia. Qed.

Lemma computeDimensions_ge_1 (box : Box) (cell_width : Q) :
  let dim := computeDimensions box cell_width in
  1 <= vx dim /\ 1 <= vy dim /\ 1 <= vz dim.
Proof.
  cbv zeta. unfold computeDimensions. cbn [vx vy vz].
  split; [apply clamp_ge_1, to_unsigned_range|].
  split; [apply clamp_ge_1, to_unsigned_range|].
  destruct (is2D box); [reflexivity|]. apply clamp_ge_1, to_unsigned_range.
Qed.

(** the dimensions as clamped casts of the float quotients *)
Lemma computeDimensions_eq (box : Box) (cell_width : Q) :
  let L := getNearestPlaneDistance box in
  computeDimensions box cell_width =
    mk_vec3 (axis_dimension (vx L) cell_width)
      (axis_dimension (vy L) cell_width)
      (if is2D box then 1 else axis_dimension (vz L) cell_width).
Proof.
  cbv zeta. unfold computeDimensions, axis_dimension.
  destruct (is2D box); cbv zeta;
    rewrite !clamp_max by apply to_unsigned_range; reflexivity.
Qed.

Lemma box_check_spec (box : Box) (w : Q) :
  let d := getNearestPlaneDistance box in
  Qltb (vx d) (w * 2) || Qltb (vy d) (w * 2)
    || (negb (is2D box) && Qltb (vz d) (w * 2)) = true
  <-> box_too_small box w.
Proof.
  cbv zeta. unfold box_too_small.
  rewrite !orb_true_iff, andb_true_iff, negb_true_iff, !Qltb_lt. tauto.
Qed.

Lemma raises_only_store_cell_list P i x :
  P out_of_range -> raises_only P (store_cell_list i x).
Proof.
  intros H. unfold store_cell_list.
  apply raises_only_bind; [apply raises_only_gets|]. intros a.
  unfold write. case_decide.
  - apply raises_only_modify.
  - apply raises_only_throw, H.
Qed.

Lemma raises_only_for_down {S} P (body : Z -> M S unit) n :
  (forall i, raises_only P (body i)) -> raises_only P (for_down n body).
Proof.
  intros Hb. induction n as [|n IH]; simpl.
  - apply raises_only_ret.
  - apply raises_only_bind; [apply Hb | intros _; apply IH].
Qed.

Section Constructor.

Context (coordToIndex : vec3 Z -> Z -> Z -> Z -> Z).
Context (getCellCoord : Box -> vec3 Z -> vec3 Q -> vec3 Z).

Local Abbreviation constructor_body := (constructor_body coordToIndex getCellCoord).
Local Abbreviation construct := (construct coordToIndex getCellCoord).
Local Abbreviation computeCellList := (computeCellList coordToIndex getCellCoord).

Lemma computeCellList_raises points n_points :
  raises_only (fun e => e = out_of_range \/ (e = empty_error /\ n_points = 0))
    (computeCellList points n_points).
Proof.
  unfold Locality.computeCellList.
  destruct (Z.eqb_spec n_points 0) as [->|Hn].
  - apply raises_only_throw. right. split; reflexivity.
  - apply raises_only_bind; [apply raises_only_gets|]. intros Nc.
    repeat (apply raises_only_bind; [apply raises_only_modify|]; intros _).
    apply raises_only_bind.
    + apply raises_only_for_loop. intros i.
      apply raises_only_store_cell_list. left. reflexivity.
    + intros _. apply raises_only_for_down. intros i.
      apply raises_only_bind; [apply raises_only_read; left; reflexivity|].
      intros pt.
      apply raises_only_bind; [apply raises_only_gets|]. intros cell.
      apply raises_only_bind; [apply raises_only_gets|]. intros a.
      apply raises_only_bind; [apply raises_only_read; left; reflexivity|].
      intros head.
      apply raises_only_bind;
        [apply raises_only_store_cell_list; left; reflexivity|].
      intros _. apply raises_only_store_cell_list; left; reflexivity.
Qed.

(** The constructor raises the cell-width error exactly when the box is too
    small, and then before it has assigned any member. *)
Lemma constructor_box_check (box : Box) (w : Q) points n_points :
  let s0 := initial box w points n_points in
  (box_too_small box w -> constructor_body box points n_points s0 = (Throw box_error, s0)) /\
  (forall s', constructor_body box points n_points s0 = (Throw box_error, s') ->
              box_too_small box w).
Proof.
  cbv zeta. unfold Locality.constructor_body. rewrite bind_gets.
  cbn [m_cell_width initial].
  pose proof (box_check_spec box w) as Hc. cbv zeta in Hc.
  destruct (Qltb (vx (getNearestPlaneDistance box)) (w * 2)
            || Qltb (vy (getNearestPlaneDistance box)) (w * 2)
            || negb (is2D box) && Qltb (vz (getNearestPlaneDistance box)) (w * 2))
    eqn:E.
  - split; [reflexivity|]. intros _ _. apply Hc. reflexivity.
  - split.
    + intros H. apply Hc in H. discriminate.
    + intros s' H. exfalso. rewrite bind_modify, bind_gets in H.
      match type of H with context [if ?b then _ else _] => destruct b end.
      * discriminate.
      * rewrite bind_modify in H.
        apply computeCellList_raises in H. destruct H as [H|[H _]]; discriminate.
Qed.

(** [computeCellList] rejects an empty point set before it touches the
    object. *)
Lemma computeCellList_empty (s : LinkCell) points :
  computeCellList points 0 s = (Throw empty_error, s).
Proof. reflexivity. Qed.

End Constructor.
End LinkCellFacts.

Module NeighborCellFacts.
Import Locality.
Import NeighborCellSpec.

Lemma wrap_index_mod (dim n : Z) :
  1 <= dim < 2 ^ 31 -> -1 <= n <= dim ->
  to_int (wrap_index dim n) = (dim + n) mod dim.
Proof.
  intros Hd Hn. unfold wrap_index.
  rewrite to_unsigned_small by (unfold UINT_MOD; lia).
  apply to_int_small.
  pose proof (Z.mod_pos_bound (dim + n) dim ltac:(lia)). lia.
Qed.

Lemma axis_cells_cases (dim a : Z) :
  1 <= dim < 2 ^ 31 -> 0 <= a < dim ->
  (dim = 1 /\ axis_cells dim a = [0]) \/
  (dim = 2 /\ axis_cells dim a = [a; 1 - a]) \/
  (3 <= dim /\
   axis_cells dim a = [(a - 1) mod dim; a; (a + 1) mod dim]).
Proof.
  intros Hd Ha. unfold axis_cells, int_range.
  destruct (Z.ltb_spec dim 3) as [H3|H3];
    destruct (Z.ltb_spec dim 2) as [H2|H2]; try lia.
  - left. split; [lia|]. assert (dim = 1) as -> by lia. assert (a = 0) as -> by lia.
    reflexivity.
  - right. left. split; [lia|]. assert (dim = 2) as -> by lia.
    replace (a + 1 - a + 1) with 2 by lia.
    rewrite seqZ_cons by lia. rewrite seqZ_cons by lia. rewrite seqZ_nil by lia.
    cbn [fmap list_fmap]. rewrite !wrap_index_mod by lia.
    assert (a = 0 \/ a = 1) as [-> | ->] by lia; reflexivity.
  - right. right. split; [lia|].
    replace (a + 1 - (a - 1) + 1) with 3 by lia.
    rewrite seqZ_cons by lia. rewrite seqZ_cons by lia. rewrite seqZ_cons by lia.
    rewrite seqZ_nil by lia.
    cbn [fmap list_fmap]. rewrite !wrap_index_mod by lia.
    f_equal; [|f_equal; [|f_equal]].
    + replace (dim + (a - 1)) with (a - 1 + 1 * dim) by lia.
      apply Z.mod_add. lia.
    + replace (dim + Z.succ (a - 1)) with (a + 1 * dim) by lia.
      rewrite Z.mod_add by lia. apply Z.mod_small. lia.
    + replace (dim + Z.succ (Z.succ (a - 1))) with (a + 1 + 1 * dim) by lia.
      apply Z.mod_add. lia.
Qed.

Lemma mod_difference (dim a x : Z) :
  0 <= a < dim -> 0 <= x < dim ->
  (a - x) mod dim = if x <=? a then a - x else a - x + dim.
Proof.
  intros Ha Hx. destruct (Z.leb_spec x a).
  - apply Z.mod_small. lia.
  - rewrite <- (Z.mod_add (a - x) 1 dim) by lia.
    rewrite Z.mod_small by lia. lia.
Qed.

Lemma axis_distance_cases (dim a x : Z) :
  0 <= a < dim -> 0 <= x < dim ->
  axis_distance dim a x <= 1 <->
  x = a \/ x = a + 1 \/ x = a - 1 \/ x = a + 1 - dim \/ x = a - 1 + dim.
Proof.
  intros Ha Hx. unfold axis_distance.
  rewrite (mod_difference dim a x), (mod_difference dim x a) by lia.
  destruct (Z.leb_spec x a), (Z.leb_spec a x); lia.
Qed.

Lemma axis_cells_spec (dim a : Z) :
  1 <= dim < 2 ^ 31 -> 0 <= a < dim ->
  NoDup (axis_cells dim a) /\
  forall x, x ∈ axis_cells dim a <-> 0 <= x < dim /\ axis_distance dim a x <= 1.
Proof.
  intros Hd Ha.
  destruct (axis_cells_cases dim a Hd Ha) as [[-> ->]|[[-> ->]|[H3 ->]]].
  - split; [repeat constructor; set_solver|].
    intros x. rewrite list_elem_of_singleton. split.
    + intros ->. split; [lia|]. apply axis_distance_cases; lia.
    + lia.
  - split.
    + apply NoDup_cons. split; [rewrite list_elem_of_singleton; lia|].
      apply NoDup_singleton.
    + intros x. rewrite !elem_of_cons, elem_of_nil. split.
      * intros H. assert (Hx : 0 <= x < 2) by lia. split; [exact Hx|].
        apply axis_distance_cases; lia.
      * intros [H _]. lia.
  - assert (Hm1 : (a - 1) mod dim = if a =? 0 then dim - 1 else a - 1).
    { destruct (Z.eqb_spec a 0) as [->|Hne].
      - replace (0 - 1) with (dim - 1 + (-1) * dim) by lia.
        rewrite Z.mod_add by lia. apply Z.mod_small. lia.
      - apply Z.mod_small. lia. }
    assert (Hp1 : (a + 1) mod dim = if a =? dim - 1 then 0 else a + 1).
    { destruct (Z.eqb_spec a (dim - 1)) as [->|Hne].
      - replace (dim - 1 + 1) with (0 + 1 * dim) by lia.
        rewrite Z.mod_add by lia. reflexivity.
      - apply Z.mod_small. lia. }
    rewrite Hm1, Hp1. split.
    + destruct (Z.eqb_spec a 0), (Z.eqb_spec a (dim - 1));
        repeat (apply NoDup_cons; split;
                [rewrite ?elem_of_cons, ?elem_of_nil; lia|]);
        apply NoDup_nil; exact I.
    + intros x. rewrite !elem_of_cons, elem_of_nil. split.
      * intros Hx.
        assert (Hxr : 0 <= x < dim)
          by (destruct (Z.eqb_spec a 0), (Z.eqb_spec a (dim - 1)); lia).
        split; [exact Hxr|]. apply axis_distance_cases; [lia|lia|].
        destruct (Z.eqb_spec a 0), (Z.eqb_spec a (dim - 1)); lia.
      * intros [Hxr Hx]. apply axis_distance_cases in Hx; [|lia|lia].
        destruct (Z.eqb_spec a 0), (Z.eqb_spec a (dim - 1)); lia.
Qed.

Section Neighbors.

Context (getMultiIndex : list Z -> Z -> list Z).
Context (coordToIndex : vec3 Z -> Z -> Z -> Z -> Z).

Local Abbreviation indexToCoord := (indexToCoord getMultiIndex).
Local Abbreviation neighbor_cells_of := (neighbor_cells_of getMultiIndex coordToIndex).
Local Abbreviation computeCellNeighbors := (computeCellNeighbors getMultiIndex coordToIndex).

Local Abbreviation grid_layout := (grid_layout getMultiIndex coordToIndex).

Lemma neighbor_cells_of_axes (s : LinkCell) (cur_cell : Z) :
  grid_ok s -> in_grid (m_celldim s) (indexToCoord s cur_cell) ->
  let d := m_celldim s in
  let p := indexToCoord s cur_cell in
  neighbor_cells_of s cur_cell =
    (z ← axis_cells (vz d) (vz p);
     y ← axis_cells (vy d) (vy p);
     x ← axis_cells (vx d) (vx p);
     [coordToIndex d x y z]).
Proof.
  intros (Hx & Hy & Hz & H2) (Hi & Hj & Hk). cbv zeta.
  unfold Locality.neighbor_cells_of.
  rewrite !to_int_small by lia.
  assert (Hsk : (if is2D (m_box s) then vz (indexToCoord s cur_cell)
                 else if vz (m_celldim s) <? 3
                      then vz (indexToCoord s cur_cell)
                      else vz (indexToCoord s cur_cell) - 1)
                = (if vz (m_celldim s) <? 3
                   then vz (indexToCoord s cur_cell)
                   else vz (indexToCoord s cur_cell) - 1)).
  { destruct (is2D (m_box s)); [|reflexivity]. rewrite H2 by reflexivity.
    reflexivity. }
  assert (Hek : (if is2D (m_box s) then vz (indexToCoord s cur_cell)
                 else if vz (m_celldim s) <? 2
                      then vz (indexToCoord s cur_cell)
                      else vz (indexToCoord s cur_cell) + 1)
                = (if vz (m_celldim s) <? 2
                   then vz (indexToCoord s cur_cell)
                   else vz (indexToCoord s cur_cell) + 1)).
  { destruct (is2D (m_box s)); [|reflexivity]. rewrite H2 by reflexivity.
    reflexivity. }
  rewrite Hsk, Hek. unfold axis_cells.
  rewrite list_fmap_bind. apply list_bind_ext; [|reflexivity]. intros nk.
  unfold compose. rewrite list_fmap_bind. apply list_bind_ext; [|reflexivity].
  intros nj. unfold compose. rewrite list_fmap_bind. reflexivity.
Qed.

Lemma cell_distance_le_1 (d a b : vec3 Z) :
  cell_distance d a b <= 1 <->
  axis_distance (vx d) (vx a) (vx b) <= 1 /\
  axis_distance (vy d) (vy a) (vy b) <= 1 /\
  axis_distance (vz d) (vz a) (vz b) <= 1.
Proof. unfold cell_distance. lia. Qed.

Lemma neighbor_cells_of_spec (s : LinkCell) (cur_cell : Z) :
  let d := m_celldim s in
  let N := vx d * vy d * vz d in
  grid_ok s -> grid_layout s -> 0 <= cur_cell < N ->
  NoDup (neighbor_cells_of s cur_cell) /\
  forall c, c ∈ neighbor_cells_of s cur_cell <->
            0 <= c < N /\
            cell_distance d (indexToCoord s cur_cell) (indexToCoord s c) <= 1.
Proof.
  intros d N Hok [Hto Hfrom] Hcur.
  destruct (Hto cur_cell Hcur) as [Hin _].
  rewrite (neighbor_cells_of_axes s cur_cell Hok Hin). cbv zeta.
  fold d. set (p := indexToCoord s cur_cell) in *.
  destruct Hok as (Hx & Hy & Hz & _). destruct Hin as (Hi & Hj & Hk).
  fold d in Hx, Hy, Hz, Hi, Hj, Hk.
  destruct (axis_cells_spec (vx d) (vx p) Hx Hi) as [Ndx Mx].
  destruct (axis_cells_spec (vy d) (vy p) Hy Hj) as [Ndy My].
  destruct (axis_cells_spec (vz d) (vz p) Hz Hk) as [Ndz Mz].
  assert (Hmem : forall c,
    c ∈ (z ← axis_cells (vz d) (vz p);
         y ← axis_cells (vy d) (vy p);
         x ← axis_cells (vx d) (vx p);
         [coordToIndex d x y z]) <->
    exists x y z, c = coordToIndex d x y z /\
                  x ∈ axis_cells (vx d) (vx p) /\
                  y ∈ axis_cells (vy d) (vy p) /\
                  z ∈ axis_cells (vz d) (vz p)).
  { intros c. rewrite list_elem_of_bind. split.
    - intros (z & Hc & Hz'). apply list_elem_of_bind in Hc as (y & Hc & Hy').
      apply list_elem_of_bind in Hc as (x & Hc & Hx').
      apply list_elem_of_singleton in Hc. eauto 10.
    - intros (x & y & z & -> & Hx' & Hy' & Hz').
      exists z. split; [|exact Hz']. apply list_elem_of_bind.
      exists y. split; [|exact Hy']. apply list_elem_of_bind.
      exists x. split; [|exact Hx']. apply list_elem_of_singleton. reflexivity. }
  assert (Hinj : forall x y z x' y' z',
    x ∈ axis_cells (vx d) (vx p) -> y ∈ axis_cells (vy d) (vy p) ->
    z ∈ axis_cells (vz d) (vz p) ->
    x' ∈ axis_cells (vx d) (vx p) -> y' ∈ axis_cells (vy d) (vy p) ->
    z' ∈ axis_cells (vz d) (vz p) ->
    coordToIndex d x y z = coordToIndex d x' y' z' ->
    x = x' /\ y = y' /\ z = z').
  { intros x y z x' y' z' Hx1 Hy1 Hz1 Hx2 Hy2 Hz2 Heq.
    apply Mx in Hx1, Hx2. apply My in Hy1, Hy2. apply Mz in Hz1, Hz2.
    destruct (Hfrom x y z) as [_ H1]; [unfold in_grid; simpl; tauto|].
    destruct (Hfrom x' y' z') as [_ H2]; [unfold in_grid; simpl; tauto|].
    assert (mk_vec3 x y z = mk_vec3 x' y' z') as [= -> -> ->]
      by (rewrite <- H1, <- H2; unfold d in Heq; rewrite Heq; reflexivity).
    auto. }
  split.
  - apply NoDup_bind; [| |exact Ndz].
    + intros z1 z2 c Hz1 Hz2 Hc1 Hc2.
      apply list_elem_of_bind in Hc1 as (y1 & Hc1 & Hy1).
      apply list_elem_of_bind in Hc1 as (x1 & Hc1 & Hx1).
      apply list_elem_of_bind in Hc2 as (y2 & Hc2 & Hy2).
      apply list_elem_of_bind in Hc2 as (x2 & Hc2 & Hx2).
      apply list_elem_of_singleton in Hc1, Hc2. subst c.
      apply (Hinj x1 y1 z1 x2 y2 z2); assumption.
    + intros z Hz'. apply NoDup_bind; [| |exact Ndy].
      * intros y1 y2 c Hy1 Hy2 Hc1 Hc2.
        apply list_elem_of_bind in Hc1 as (x1 & Hc1 & Hx1).
        apply list_elem_of_bind in Hc2 as (x2 & Hc2 & Hx2).
        apply list_elem_of_singleton in Hc1, Hc2. subst c.
        apply (Hinj x1 y1 z x2 y2 z); assumption.
      * intros y Hy'. apply NoDup_bind; [| |exact Ndx].
        -- intros x1 x2 c Hx1 Hx2 Hc1 Hc2.
           apply list_elem_of_singleton in Hc1, Hc2. subst c.
           apply (Hinj x1 y z x2 y z); assumption.
        -- intros x _. apply NoDup_singleton.
  - intros c. rewrite Hmem, cell_distance_le_1. split.
    + intros (x & y & z & -> & Hx' & Hy' & Hz').
      apply Mx in Hx'. apply My in Hy'. apply Mz in Hz'.
      destruct (Hfrom x y z) as [Hr Hback]; [unfold in_grid; simpl; tauto|].
      split; [exact Hr|]. unfold d. rewrite Hback. simpl. tauto.
    + intros (Hc & Dx & Dy & Dz).
      destruct (Hto c Hc) as [(Hcx & Hcy & Hcz) Hback].
      cbv zeta in Hback. fold d in Hcx, Hcy, Hcz, Hback.
      exists (vx (indexToCoord s c)), (vy (indexToCoord s c)),
             (vz (indexToCoord s c)).
      split; [symmetry; exact Hback|].
      rewrite Mx, My, Mz. fold p in Dx, Dy, Dz. tauto.
Qed.

(** On a grid whose index conversions are inverse bijections, as they are
    when the grid has as many cells along x as along z,
    [computeCellNeighbors] returns, for every cell and every grid
    dimension from 1 on, exactly the cells at Chebyshev distance at most 1
    from the given cell under periodic wrap of the coordinates, each of them
    once, in ascending order; it records the list for the cell in the
    cache. *)
Lemma computeCellNeighbors_shell (s : LinkCell) (cur_cell : Z) :
  let d := m_celldim s in
  let N := vx d * vy d * vz d in
  grid_ok s -> grid_layout s -> 0 <= cur_cell < N ->
  exists neighbor_cells,
    computeCellNeighbors cur_cell s =
      (Ok neighbor_cells,
       set_cell_neighbors (<[cur_cell := neighbor_cells]> (m_cell_neighbors s)) s) /\
    NoDup neighbor_cells /\
    Sorted Z.le neighbor_cells /\
    forall c, c ∈ neighbor_cells <->
              0 <= c < N /\
              cell_distance d (indexToCoord s cur_cell) (indexToCoord s c) <= 1.
Proof.
  intros d N Hok Hlay Hcur.
  destruct (neighbor_cells_of_spec s cur_cell Hok Hlay Hcur) as [Hnd Hmem].
  exists (sort_cells (neighbor_cells_of s cur_cell)).
  split; [reflexivity|].
  pose proof (merge_sort_Permutation Z.le (neighbor_cells_of s cur_cell)) as Hp.
  split; [|split].
  - unfold sort_cells. rewrite Hp. exact Hnd.
  - apply Sorted_merge_sort. apply _.
  - intros c. unfold sort_cells. rewrite Hp. apply Hmem.
Qed.

End Neighbors.
End NeighborCellFacts.

Module CellListFacts.
Import Locality.
Import CellListSpec.

Lemma links_frame (cl cl' : list Z) (start : Z) (js : list Z) :
  (forall i, i = start \/ i ∈ js -> cl' !! Z.to_nat i = cl !! Z.to_nat i) ->
  links cl start js -> links cl' start js.
Proof.
  revert start. induction js as [|j js IH]; intros start Hsame H; simpl in *.
  - rewrite Hsame by auto. exact H.
  - destruct H as (H1 & H2 & H3). rewrite Hsame by auto.
    split; [exact H1|]. split; [exact H2|].
    apply IH; [|exact H3]. intros i [->|Hi]; apply Hsame; right.
    + left.
    + right. exact Hi.
Qed.

Lemma for_down_inv {S} (I : nat -> S -> Prop) (body : Z -> M S unit)
    (n : nat) (s : S) :
  I n s ->
  (forall k s, (k < n)%nat -> I (Datatypes.S k) s ->
     exists s', body (Z.of_nat k) s = (Ok tt, s') /\ I k s') ->
  exists s', for_down n body s = (Ok tt, s') /\ I O s'.
Proof.
  revert s. induction n as [|n IH]; intros s Hn Hstep.
  - exists s. split; [reflexivity | exact Hn].
  - destruct (Hstep n s ltac:(lia) Hn) as (s1 & Hb & H1).
    destruct (IH s1 H1) as (s2 & Hl & H2).
    + intros k s' Hk Hi. apply Hstep; [lia | exact Hi].
    + exists s2. split; [|exact H2].
      simpl. rewrite (bind_Ok _ _ _ _ _ Hb). exact Hl.
Qed.

Section CellList.

Context (coordToIndex : vec3 Z -> Z -> Z -> Z -> Z).
Context (getCellCoord : Box -> vec3 Z -> vec3 Q -> vec3 Z).

Local Abbreviation getCell := (getCell coordToIndex getCellCoord).
Local Abbreviation computeCellList := (computeCellList coordToIndex getCellCoord).
Local Abbreviation construct := (construct coordToIndex getCellCoord).
Local Abbreviation constructor_body := (constructor_body coordToIndex getCellCoord).

Local Abbreviation cell_of_point := (cell_of_point coordToIndex getCellCoord).
Local Abbreviation bucket := (bucket coordToIndex getCellCoord).
Local Abbreviation cell_list_ok := (cell_list_ok coordToIndex getCellCoord).

Lemma store_cell_list_Ok (s : LinkCell) (i x : Z) :
  (Z.to_nat i < length (m_cell_list s))%nat ->
  store_cell_list i x s =
    (Ok tt, set_cell_list (<[Z.to_nat i := x]> (m_cell_list s)) s).
Proof.
  intros H. unfold store_cell_list. rewrite bind_gets.
  rewrite write_Ok by exact H. reflexivity.
Qed.

Lemma filter_seqZ_cons {P : Z -> Prop} `{forall x, Decision (P x)} (k len : Z) :
  0 < len ->
  filter P (seqZ k len) =
    if decide (P k) then k :: filter P (seqZ (k + 1) (len - 1))
    else filter P (seqZ (k + 1) (len - 1)).
Proof.
  intros Hl. rewrite seqZ_cons by lia.
  replace (Z.succ k) with (k + 1) by lia.
  replace (Z.pred len) with (len - 1) by lia.
  rewrite filter_cons. reflexivity.
Qed.

(** [computeCellList] on an object whose grid is set up: it succeeds and
    leaves a cell list whose chains are the buckets. *)
Lemma computeCellList_spec (s : LinkCell) (n_points : Z) :
  0 < n_points -> n_points + m_size s < UINT_MOD -> 1 <= m_size s ->
  n_points < 2 ^ 31 ->
  Z.of_nat (length (m_points s)) = n_points ->
  (forall p, p ∈ m_points s -> 0 <= getCell s p < m_size s) ->
  exists cl,
    computeCellList (m_points s) n_points s =
      (Ok tt, set_cell_list cl (set_Nc (m_size s) (set_n_points n_points s))) /\
    cell_list_ok (set_cell_list cl (set_Nc (m_size s) (set_n_points n_points s))).
Proof.
  intros Hn Hsum HNc Hint Hlen Hcells.
  set (n := n_points) in *. set (Nc := m_size s) in *.
  set (s1 := set_Nc Nc (set_n_points n s)).
  assert (Hcell_j : forall j, 0 <= j < n ->
            0 <= getCell s (default (mk_vec3 0 0 0)%Q (m_points s !! Z.to_nat j)) < Nc).
  { intros j Hj. destruct (lookup_lt_is_Some_2 (m_points s) (Z.to_nat j)) as [p Hp];
      [lia|]. rewrite Hp. simpl. apply Hcells. eapply list_elem_of_lookup_2, Hp. }
  unfold Locality.computeCellList.
  replace (n =? 0) with false by (symmetry; apply Z.eqb_neq; lia).
  rewrite bind_gets. unfold getNumCells. fold Nc.
  rewrite !bind_modify.
  rewrite (to_unsigned_small (n + Nc)) by lia.
  change (set_Nc Nc (set_n_points n (set_cell_list ?l s)))
    with (set_cell_list l s1).
  (* the heads *)
  destruct (for_loop_inv
    (fun k st => st = set_cell_list
       (replicate (Z.to_nat n) 0 ++ replicate k LINK_CELL_TERMINATOR
          ++ replicate (Z.to_nat Nc - k) 0) s1)
    (fun cell => store_cell_list (to_unsigned (n + cell)) LINK_CELL_TERMINATOR)
    (Z.to_nat Nc) 0
    (set_cell_list (replicate (Z.to_nat (n + Nc)) 0) s1)) as (s2 & Hrun1 & Hs2).
  { simpl. rewrite Nat.sub_0_r, <- replicate_add. do 2 f_equal. lia. }
  { intros k st Hk ->. eexists. split.
    - rewrite Z.add_0_l. rewrite to_unsigned_small by lia.
      apply store_cell_list_Ok. cbn [m_cell_list set_cell_list].
      rewrite !length_app, !length_replicate. lia.
    - cbn [m_cell_list set_cell_list].
      assert (Hl : <[Z.to_nat (n + Z.of_nat k) := LINK_CELL_TERMINATOR]>
                     (replicate (Z.to_nat n) 0 ++ replicate k LINK_CELL_TERMINATOR
                        ++ replicate (Z.to_nat Nc - k) 0)
                   = replicate (Z.to_nat n) 0
                       ++ replicate (Datatypes.S k) LINK_CELL_TERMINATOR
                       ++ replicate (Z.to_nat Nc - Datatypes.S k) 0).
      { replace (Z.to_nat (n + Z.of_nat k)) with (Z.to_nat n + k)%nat by lia.
        rewrite <- (length_replicate (Z.to_nat n) 0) at 1.
        rewrite insert_app_r.
        replace (Z.to_nat Nc - k)%nat
          with (Datatypes.S (Z.to_nat Nc - Datatypes.S k)) by lia.
        rewrite insert_app_replicate by apply length_replicate.
        rewrite <- replicate_cons_app. reflexivity. }
      rewrite Hl. reflexivity. }
  rewrite (bind_Ok _ _ _ _ _ Hrun1). subst s2.
  rewrite Nat.sub_diag. cbn [replicate]. rewrite app_nil_r.
  (* the chains *)
  rewrite (to_int_small (n - 1)) by lia.
  replace (Z.to_nat (n - 1 + 1)) with (Z.to_nat n) by lia.
  destruct (for_down_inv
    (fun k st => exists cl,
       st = set_cell_list cl s1 /\
       length cl = Z.to_nat (n + Nc) /\
       forall c, 0 <= c < Nc ->
         links cl (n + c)
           (filter (fun j => cell_of_point s1 j = c)
                   (seqZ (Z.of_nat k) (n - Z.of_nat k))))
    (fun i =>
       pt <- read (m_points s) i;;
       cell <- gets (fun s0 => getCell s0 pt);;
       a <- gets m_cell_list;;
       head <- read a (to_unsigned (n + cell));;
       store_cell_list i head;;;
       store_cell_list (to_unsigned (n + cell)) i)
    (Z.to_nat n)
    (set_cell_list
       (replicate (Z.to_nat n) 0 ++ replicate (Z.to_nat Nc) LINK_CELL_TERMINATOR)
       s1)) as (s3 & Hrun2 & cl & -> & Hlcl & Hchains).
  { eexists. split; [reflexivity|]. split.
    - rewrite length_app, !length_replicate. lia.
    - intros c Hc. rewrite seqZ_nil by lia. simpl.
      rewrite lookup_app_r by (rewrite length_replicate; lia).
      rewrite length_replicate. apply lookup_replicate_2. lia. }
  { intros k st Hk (cl & -> & Hlcl & Hchains).
    destruct (lookup_lt_is_Some_2 (m_points s) k) as [pt Hpt]; [lia|].
    assert (Hck : cell_of_point s1 (Z.of_nat k) = getCell s pt).
    { unfold cell_of_point. cbn [m_points s1 set_Nc set_n_points].
      rewrite Nat2Z.id, Hpt. reflexivity. }
    assert (Hcr : 0 <= getCell s pt < Nc).
    { apply Hcells. eapply list_elem_of_lookup_2, Hpt. }
    set (cell := getCell s pt) in *.
    destruct (lookup_lt_is_Some_2 cl (Z.to_nat (n + cell))) as [head Hhead];
      [lia|].
    eexists. split.
    - erewrite bind_read by (rewrite Nat2Z.id; exact Hpt).
      rewrite bind_gets.
      change (getCell (set_cell_list cl s1) pt) with cell.
      rewrite bind_gets. cbn [m_cell_list set_cell_list].
      rewrite (to_unsigned_small (n + cell)) by lia.
      erewrite bind_read by exact Hhead.
      assert (Hst : (Z.to_nat (Z.of_nat k)
                     < length (m_cell_list (set_cell_list cl s1)))%nat)
        by (cbn [m_cell_list set_cell_list]; lia).
      rewrite (bind_Ok _ _ _ _ _ (store_cell_list_Ok _ _ head Hst)).
      rewrite store_cell_list_Ok
        by (cbn [m_cell_list set_cell_list]; rewrite length_insert; lia).
      reflexivity.
    - cbn [m_cell_list set_cell_list]. eexists. split; [reflexivity|].
      split; [rewrite !length_insert; exact Hlcl|].
      intros c Hc. rewrite Nat2Z.id.
      rewrite filter_seqZ_cons by lia.
      replace (n - Z.of_nat k - 1) with (n - Z.of_nat (Datatypes.S k)) by lia.
      replace (Z.of_nat k + 1) with (Z.of_nat (Datatypes.S k)) by lia.
      pose proof (Hchains c Hc) as Hold.
      assert (Hbig : forall j,
                j ∈ filter (fun j => cell_of_point s1 j = c)
                      (seqZ (Z.of_nat (Datatypes.S k)) (n - Z.of_nat (Datatypes.S k))) ->
                Z.of_nat k < j < n).
      { intros j Hj. apply list_elem_of_filter in Hj as [_ Hj].
        apply elem_of_seqZ in Hj. lia. }
      case_decide as Hdec.
      + (* the point goes to the head of its cell *)
        rewrite Hck in Hdec. subst c. simpl.
        split.
        { rewrite list_lookup_insert_eq by (rewrite length_insert; lia).
          reflexivity. }
        split; [unfold LINK_CELL_TERMINATOR; lia|].
        destruct (filter (fun j => cell_of_point s1 j = cell)
                    (seqZ (Z.of_nat (Datatypes.S k)) (n - Z.of_nat (Datatypes.S k))))
          as [|j js] eqn:Ef.
        * simpl in *. rewrite Hold in Hhead. injection Hhead as <-.
          rewrite list_lookup_insert_ne by lia.
          rewrite Nat2Z.id. apply list_lookup_insert_eq. lia.
        * simpl in Hold. destruct Hold as (H1 & H2 & H3).
          rewrite H1 in Hhead. injection Hhead as <-.
          simpl. split.
          { rewrite list_lookup_insert_ne by lia.
            rewrite Nat2Z.id. apply list_lookup_insert_eq. lia. }
          split; [exact H2|].
          eapply links_frame; [|exact H3].
          intros i Hi.
          assert (Z.of_nat k < i < n).
          { destruct Hi as [->|Hi]; apply Hbig; [left | right; exact Hi]. }
          rewrite !list_lookup_insert_ne by lia. reflexivity.
      + (* another cell: its chain is untouched *)
        rewrite Hck in Hdec.
        eapply links_frame; [|exact Hold].
        intros i Hi.
        assert (i = n + c \/ Z.of_nat k < i < n).
        { destruct Hi as [->|Hi]; [left; reflexivity | right; apply Hbig, Hi]. }
        rewrite !list_lookup_insert_ne by lia. reflexivity. }
  exists cl. split; [exact Hrun2|].
  unfold cell_list_ok. cbn [m_n_points m_size m_points m_cell_list set_cell_list s1 set_Nc set_n_points].
  fold n Nc. repeat split; try lia.
  - apply (Hcell_j j). lia.
  - apply (Hcell_j j). lia.
  - intros c Hc. specialize (Hchains c Hc).
    rewrite Z.sub_0_r in Hchains. exact Hchains.
Qed.

Local Abbreviation buildable := (buildable coordToIndex getCellCoord).

Lemma construct_spec (box : Box) (w : Q) (points : list (vec3 Q)) (n_points : Z) :
  buildable box w points n_points ->
  exists lc,
    construct box w points n_points = Ok lc /\
    cell_list_ok lc /\
    m_box lc = box /\ m_points lc = points /\ m_n_points lc = n_points /\
    m_cell_width lc = w /\ m_celldim lc = grid_dimensions box w /\
    m_size lc = grid_size box w.
Proof.
  intros (Hbox & Hn & Hlen & HNc & Hsum & Hcells).
  unfold Locality.construct, Locality.constructor_body.
  rewrite bind_gets. cbn [m_cell_width initial].
  replace (Qltb (vx (getNearestPlaneDistance box)) (w * 2)
           || Qltb (vy (getNearestPlaneDistance box)) (w * 2)
           || negb (is2D box) && Qltb (vz (getNearestPlaneDistance box)) (w * 2))
    with false.
  2: { symmetry. apply not_true_is_false. intros H.
       apply Hbox, LinkCellFacts.box_check_spec, H. }
  fold (grid_dimensions box w). rewrite bind_modify, bind_gets.
  cbn [m_size set_size]. fold (grid_size box w).
  replace (grid_size box w <? 1) with false by (symmetry; apply Z.ltb_ge; lia).
  rewrite bind_modify.
  set (s := set_celldim (grid_dimensions box w)
              (set_size (grid_size box w) (initial box w points n_points))).
  assert (H1 : n_points + m_size s < UINT_MOD) by exact Hsum.
  assert (H2 : 1 <= m_size s) by exact HNc.
  assert (H3 : Z.of_nat (length (m_points s)) = n_points) by exact Hlen.
  assert (H4 : forall p, p ∈ m_points s -> 0 <= getCell s p < m_size s)
    by (intros p Hp; exact (Hcells p Hp)).
  destruct (computeCellList_spec s n_points ltac:(lia) H1 H2 ltac:(lia) H3 H4)
    as (cl & Hrun & Hok).
  change (m_points s) with points in Hrun. rewrite Hrun.
  eexists. split; [reflexivity|]. split; [exact Hok|].
  repeat split.
Qed.

Lemma grid_dimensions_ge_1 (box : Box) (w : Q) :
  let d := grid_dimensions box w in
  1 <= vx d /\ 1 <= vy d /\ 1 <= vz d.
Proof.
  cbv zeta. unfold grid_dimensions.
  destruct (LinkCellFacts.computeDimensions_ge_1 box w) as (Hx & Hy & Hz).
  destruct (is2D box); simpl; auto with zarith.
Qed.

End CellList.
End CellListFacts.

Module ShellFacts.
Import Locality.
Import ShellSpec.

Lemma elem_of_int_range (from to x : Z) :
  x ∈ int_range from to <-> from <= x <= to.
Proof. unfold int_range. rewrite elem_of_seqZ. lia. Qed.

Lemma elem_of_shell (b : bool) (R : Z) (o : vec3 Z) :
  o ∈ shell b R <-> chebyshev o = R /\ offset_ok b o.
Proof.
  unfold shell. rewrite list_elem_of_filter. unfold offset_ok.
  split.
  - intros [Hc Hin]. split; [exact Hc|].
    apply list_elem_of_bind in Hin as (x & Hin & Hx).
    apply list_elem_of_bind in Hin as (y & Hin & Hy).
    apply list_elem_of_bind in Hin as (z & Hin & Hz).
    apply list_elem_of_singleton in Hin. subst o. simpl.
    intros ->. apply list_elem_of_singleton in Hz. exact Hz.
  - intros [Hc Hz]. split; [exact Hc|].
    destruct o as [x y z]. unfold chebyshev in Hc. simpl in *.
    apply list_elem_of_bind. exists x. split; [|apply elem_of_int_range; lia].
    apply list_elem_of_bind. exists y. split; [|apply elem_of_int_range; lia].
    apply list_elem_of_bind. exists z. split; [apply list_elem_of_singleton; reflexivity|].
    destruct b.
    + rewrite Hz by reflexivity. apply list_elem_of_singleton. reflexivity.
    + apply elem_of_int_range. lia.
Qed.

Lemma shell_nonempty (b : bool) (R : Z) : 0 <= R -> (0 < length (shell b R))%nat.
Proof.
  intros HR.
  assert (H : mk_vec3 R 0 0 ∈ shell b R).
  { apply elem_of_shell. split; [unfold chebyshev; simpl; lia|].
    intros _. reflexivity. }
  destruct (shell b R); [inversion H | simpl; lia].
Qed.

Lemma shell_0 (b : bool) : shell b 0 = [mk_vec3 0 0 0].
Proof. destruct b; reflexivity. Qed.

Lemma chebyshev_nonneg (o : vec3 Z) : 0 <= chebyshev o.
Proof. unfold chebyshev. lia. Qed.

Lemma elem_of_offsets_below (b : bool) (stop : Z) (o : vec3 Z) :
  o ∈ offsets_below b stop <-> chebyshev o < stop /\ offset_ok b o.
Proof.
  unfold offsets_below. rewrite list_elem_of_join. split.
  - intros (l & Ho & Hl). apply list_elem_of_fmap in Hl as (R & -> & HR).
    apply elem_of_seqZ in HR. apply elem_of_shell in Ho as [Hc Hok].
    split; [lia | exact Hok].
  - intros [Hc Hok]. exists (shell b (chebyshev o)). split.
    + apply elem_of_shell. auto.
    + apply list_elem_of_fmap. exists (chebyshev o). split; [reflexivity|].
      apply elem_of_seqZ. pose proof (chebyshev_nonneg o). lia.
Qed.

(** one increment of the shell iterator *)
Lemma remaining_step (sh : IteratorCellShell) (stop : Z) :
  shell_valid sh -> m_range sh < stop ->
  match remaining sh stop with
  | [] => shell_incr sh = IteratorCellShell_at stop (m_is2D sh)
  | o :: rest =>
    let sh' := shell_incr sh in
    shell_valid sh' /\ m_range sh <= m_range sh' < stop /\
    1 <= m_range sh' /\
    m_is2D sh' = m_is2D sh /\ shell_deref sh' = o /\
    remaining sh' stop = rest
  end.
Proof.
  intros [HR Hpos] Hstop. unfold remaining, shell_incr.
  destruct sh as [R pos b]. simpl in *.
  case_decide as Hnext.
  - (* the next offset of the same shell *)
    destruct (lookup_lt_is_Some_2 (shell b R) (S pos) Hnext) as [o Ho].
    rewrite (drop_S _ _ _ Ho). simpl.
    split; [split; [exact HR | exact Hnext]|].
    split; [lia|].
    split.
    { destruct (decide (R = 0)) as [->|]; [|lia].
      rewrite shell_0 in Hnext. simpl in Hnext. lia. }
    split; [reflexivity|].
    split; [unfold shell_deref; simpl; rewrite Ho; reflexivity | reflexivity].
  - rewrite drop_ge by lia. simpl.
    destruct (decide (R + 1 < stop)) as [Hlt|Hge].
    + (* the first offset of the next shell *)
      rewrite seqZ_cons by lia. rewrite fmap_cons. simpl.
      pose proof (shell_nonempty b (R + 1) ltac:(lia)) as Hne.
      destruct (shell b (R + 1)) as [|o l] eqn:Es; [simpl in Hne; lia|].
      simpl. split; [split; simpl; [lia | rewrite Es; simpl; lia]|].
      split; [lia|]. split; [lia|]. split; [reflexivity|].
      split; [unfold shell_deref; simpl; rewrite Es; reflexivity|].
      rewrite drop_0.
      replace (Z.succ (R + 1)) with (R + 1 + 1) by lia.
      replace (Z.pred (stop - R - 1)) with (stop - (R + 1) - 1) by lia.
      reflexivity.
    + (* the iterator arrives on the stop shell *)
      rewrite seqZ_nil by lia. simpl.
      assert (stop = R + 1) as -> by lia. reflexivity.
Qed.

Lemma remaining_initial (b : bool) (stop : Z) :
  1 <= stop ->
  offsets_below b stop
  = shell_deref (IteratorCellShell_at 0 b)
      :: remaining (IteratorCellShell_at 0 b) stop.
Proof.
  intros Hs. unfold offsets_below, remaining, shell_deref. simpl.
  rewrite seqZ_cons by lia. rewrite fmap_cons. simpl.
  rewrite shell_0. simpl.
  replace (Z.pred stop) with (stop - 0 - 1) by lia. reflexivity.
Qed.

Lemma shell_valid_initial (b : bool) : shell_valid (IteratorCellShell_at 0 b).
Proof. split; simpl; [lia | rewrite shell_0; simpl; lia]. Qed.

End ShellFacts.

Module IteratorFacts.
Import Locality CellListFacts ShellFacts
  CellListSpec ShellSpec.
Import IteratorSpec.

Lemma same_query_refl it : same_query it it.
Proof. repeat split. Qed.

Lemma same_query_trans a b c : same_query a b -> same_query b c -> same_query a c.
Proof.
  intros (A1 & A2 & A3 & A4 & A5 & A6 & A7) (B1 & B2 & B3 & B4 & B5 & B6 & B7).
  repeat split; congruence.
Qed.

Section Iterators.

Context (coordToIndex : vec3 Z -> Z -> Z -> Z -> Z).
Context (getCellCoord : Box -> vec3 Z -> vec3 Q -> vec3 Z).
Context (sqrtf : Q -> Q).

Local Abbreviation getCell := (getCell coordToIndex getCellCoord).
Local Abbreviation getCellIndex := (getCellIndex coordToIndex).
Local Abbreviation candidate := (candidate sqrtf).
Local Abbreviation ball_loop := (ball_loop coordToIndex sqrtf).
Local Abbreviation ball_next := (ball_next coordToIndex getCellCoord sqrtf).
Local Abbreviation cell_of_point := (cell_of_point coordToIndex getCellCoord).
Local Abbreviation bucket := (bucket coordToIndex getCellCoord).
Local Abbreviation cell_list_ok := (cell_list_ok coordToIndex getCellCoord).

Local Abbreviation cell_of_offset := (cell_of_offset coordToIndex).
Local Abbreviation point_cell_of := (point_cell_of getCellCoord).
Local Abbreviation test := (test sqrtf).
Local Abbreviation later_points := (later_points coordToIndex getCellCoord).

Lemma candidate_same lc a b pj j :
  same_query a b -> candidate lc a pj j = candidate lc b pj j.
Proof.
  intros (E1 & E2 & E3 & E4 & _). unfold Locality.candidate.
  rewrite E1, E2, E3, E4. reflexivity.
Qed.

Lemma test_same lc a b j : same_query a b -> test lc a j = test lc b j.
Proof.
  intros H. unfold test. rewrite (candidate_same lc a b _ _ H).
  destruct H as (_ & -> & _ & _ & -> & _). reflexivity.
Qed.

Lemma ball_stop_same lc a b R : same_query a b -> ball_stop lc a R = ball_stop lc b R.
Proof.
  intros (_ & _ & E3 & _ & _ & E6 & _). unfold ball_stop. rewrite E3, E6.
  reflexivity.
Qed.

Lemma omap_cons_inv {A B} (f : A -> option B) (l : list A) (b : B) (rest : list B) :
  omap f l = b :: rest ->
  exists pre x post,
    l = pre ++ x :: post /\ omap f pre = [] /\ f x = Some b /\ omap f post = rest.
Proof.
  induction l as [|x l IH]; simpl; [discriminate|].
  destruct (f x) as [y|] eqn:E.
  - intros [= -> <-]. exists [], x, l. auto.
  - intros H. destruct (IH H) as (pre & x' & post & -> & Hpre & Hx & Hpost).
    exists (x :: pre), x', post. simpl. rewrite E. auto.
Qed.

Section Ball.

Context (lc : LinkCell) (it0 : LinkCellIterator).
Context (Hok : cell_list_ok lc).

Local Abbreviation P := (point_cell_of lc it0).
Local Abbreviation n := (m_n_points lc).

Lemma point_lookup (j : Z) :
  0 <= j < n ->
  m_points lc !! Z.to_nat j
  = Some (default (mk_vec3 0 0 0)%Q (m_points lc !! Z.to_nat j)).
Proof.
  intros Hj. destruct Hok as (_ & _ & _ & Hlen & _).
  destruct (lookup_lt_is_Some_2 (m_points lc) (Z.to_nat j)) as [p Hp]; [lia|].
  rewrite Hp. reflexivity.
Qed.

(** scanning the rest of a bucket that holds no hit *)
Lemma ball_scan_miss (js : list Z) (it : LinkCellIterator) (fuel : nat) :
  same_query it it0 ->
  links (m_cell_list lc) (m_cell_iter it) js ->
  (forall j, j ∈ js -> 0 <= j < n) ->
  omap (test lc it0) js = [] ->
  ball_loop lc P (length js + 1 + fuel) BallScan it
  = ball_loop lc P fuel BallAdvance (set_cell_iter LINK_CELL_TERMINATOR it).
Proof.
  revert it. induction js as [|j js IH]; intros it Hq Hl Hr Hm.
  - simpl in *. rewrite Hl. reflexivity.
  - simpl in Hl. destruct Hl as (Hj & Hjr & Hl).
    simpl in Hm. destruct (test lc it0 j) as [b|] eqn:Et; [discriminate|].
    cbn [length Nat.add ball_loop]. cbv zeta. rewrite Hj.
    replace (atEnd j) with false
      by (symmetry; apply Z.eqb_neq; lia).
    assert (Hq' : same_query (set_cell_iter j it) it0) by exact Hq.
    rewrite <- (test_same lc _ _ j Hq') in Et. unfold test in Et.
    assert (Hr' : forall j', j' ∈ js -> 0 <= j' < n)
      by (intros j' Hj'; apply Hr; right; exact Hj').
    destruct (m_exclude_ii (set_cell_iter j it)
              && (m_query_point_idx (set_cell_iter j it) =? j)) eqn:Ex.
    + rewrite (IH (set_cell_iter j it) Hq' Hl Hr' Hm). reflexivity.
    + rewrite (point_lookup j) by (apply Hr; left).
      rewrite Et.
      rewrite (IH (set_cell_iter j it) Hq' Hl Hr' Hm). reflexivity.
Qed.

(** scanning a bucket up to its first hit *)
Lemma ball_scan_hit (pre post : list Z) (j : Z) (b : NeighborBond)
    (it : LinkCellIterator) (fuel : nat) :
  same_query it it0 ->
  links (m_cell_list lc) (m_cell_iter it) (pre ++ j :: post) ->
  (forall j', j' ∈ pre ++ j :: post -> 0 <= j' < n) ->
  omap (test lc it0) pre = [] -> test lc it0 j = Some b ->
  ball_loop lc P (length pre + 1 + fuel) BallScan it
  = Some (Ok b, set_cell_iter j it) /\
  links (m_cell_list lc) j post.
Proof.
  revert it. induction pre as [|j0 pre IH]; intros it Hq Hl Hr Hm Hb.
  - simpl in Hl. destruct Hl as (Hj & Hjr & Hl). split; [|exact Hl].
    cbn [length Nat.add ball_loop]. cbv zeta. rewrite Hj.
    replace (atEnd j) with false by (symmetry; apply Z.eqb_neq; lia).
    assert (Hq' : same_query (set_cell_iter j it) it0) by exact Hq.
    rewrite <- (test_same lc _ _ j Hq') in Hb. unfold test in Hb.
    destruct (m_exclude_ii (set_cell_iter j it)
              && (m_query_point_idx (set_cell_iter j it) =? j)) eqn:Ex;
      [discriminate|].
    rewrite (point_lookup j) by (apply Hr; left).
    rewrite Hb. reflexivity.
  - simpl in Hl. destruct Hl as (Hj & Hjr & Hl).
    simpl in Hm. destruct (test lc it0 j0) as [b0|] eqn:Et; [discriminate|].
    cbn [length Nat.add ball_loop]. cbv zeta. rewrite Hj.
    replace (atEnd j0) with false by (symmetry; apply Z.eqb_neq; lia).
    assert (Hq' : same_query (set_cell_iter j0 it) it0) by exact Hq.
    rewrite <- (test_same lc _ _ j0 Hq') in Et. unfold test in Et.
    assert (Hr' : forall j', j' ∈ pre ++ j :: post -> 0 <= j' < n)
      by (intros j' Hj'; apply Hr; right; exact Hj').
    destruct (m_exclude_ii (set_cell_iter j0 it)
              && (m_query_point_idx (set_cell_iter j0 it) =? j0)) eqn:Ex.
    + destruct (IH (set_cell_iter j0 it) Hq' Hl Hr' Hm Hb) as [H1 H2].
      split; [exact H1 | exact H2].
    + rewrite (point_lookup j0) by (apply Hr; left).
      rewrite Et.
      destruct (IH (set_cell_iter j0 it) Hq' Hl Hr' Hm Hb) as [H1 H2].
      split; [exact H1 | exact H2].
Qed.

Context (stop : Z).
Context (Hcells : forall o, 0 <= cell_of_offset lc P o < m_size lc).

Local Abbreviation Ready := (Ready lc it0 stop).
Local Abbreviation current_cell := (current_cell coordToIndex getCellCoord lc it0).
Local Abbreviation ball_post := (ball_post coordToIndex getCellCoord sqrtf lc it0 stop).

Context (Hstop : ball_stop lc it0 stop = true).
Context (Hgo : forall R, 1 <= R < stop -> ball_stop lc it0 R = false).

Lemma ball_post_shift (found : list NeighborBond) (k : nat)
    (run1 run2 : nat -> step_result) :
  (forall fuel, run1 (k + fuel)%nat = run2 fuel) ->
  ball_post found run2 -> ball_post found run1.
Proof.
  intros Hshift. destruct found as [|b rest]; simpl.
  - intros (fuel0 & it' & Hrun & Hfin). exists (k + fuel0)%nat, it'.
    split; [|exact Hfin]. intros fuel Hf.
    replace fuel with (k + (fuel - k))%nat by lia. rewrite Hshift.
    apply Hrun. lia.
  - intros (fuel0 & it' & js' & offs' & Hrun & Hrest).
    exists (k + fuel0)%nat, it', js', offs'. split; [|exact Hrest].
    intros fuel Hf.
    replace fuel with (k + (fuel - k))%nat by lia. rewrite Hshift.
    apply Hrun. lia.
Qed.

Lemma itercell_head (c : Z) :
  0 <= c < m_size lc ->
  links (m_cell_list lc) (itercell lc c) (bucket lc c) /\
  forall j, j ∈ bucket lc c -> 0 <= j < n.
Proof.
  intros Hc. destruct Hok as (Hn & Hsum & _ & _ & _ & _ & Hchains).
  split.
  - unfold itercell. rewrite to_unsigned_small by lia. apply Hchains, Hc.
  - intros j Hj. apply list_elem_of_filter in Hj as [_ Hj].
    apply elem_of_seqZ in Hj. lia.
Qed.

(** the search for the next cell, and what follows it *)
Lemma ball_advance_spec (offs : list (vec3 Z)) (it : LinkCellIterator) :
  same_query it it0 ->
  shell_valid (m_neigh_cell_iter it) ->
  m_range (m_neigh_cell_iter it) < stop ->
  remaining (m_neigh_cell_iter it) stop = offs ->
  m_finished it = false ->
  ball_post
    (omap (test lc it0) (later_points lc P (m_searched_cells it) offs))
    (fun fuel => ball_loop lc P fuel BallAdvance it).
Proof.
  revert it. induction offs as [|o offs IH]; intros it Hq Hv Hr Hrem Hfin.
  - (* the iterator reaches the stop shell *)
    pose proof (remaining_step _ stop Hv Hr) as Hstep. rewrite Hrem in Hstep.
    simpl. exists 1%nat, (set_finished true
      (set_neigh_cell_iter (shell_incr (m_neigh_cell_iter it)) it)).
    split; [|reflexivity].
    intros [|fuel] Hf; [lia|]. cbn [Locality.ball_loop]. cbv zeta.
    change (Qltb _ _) with
      (ball_stop lc (set_neigh_cell_iter (shell_incr (m_neigh_cell_iter it)) it)
         (m_range (shell_incr (m_neigh_cell_iter it)))).
    rewrite (ball_stop_same lc _ it0) by exact Hq.
    rewrite Hstep. cbn [m_range IteratorCellShell_at]. rewrite Hstop.
    reflexivity.
  - pose proof (remaining_step _ stop Hv Hr) as Hstep. rewrite Hrem in Hstep.
    cbv zeta in Hstep. destruct Hstep as (Hv' & Hr' & Hr1 & H2D & Hderef & Hrem').
    set (it1 := set_neigh_cell_iter (shell_incr (m_neigh_cell_iter it)) it).
    assert (Hq1 : same_query it1 it0) by exact Hq.
    assert (Hloop : forall fuel,
      ball_loop lc P (1 + fuel) BallAdvance it
      = if decide (cell_of_offset lc P o ∈ m_searched_cells it)
        then ball_loop lc P fuel BallAdvance it1
        else ball_loop lc P fuel BallScan
               (set_cell_iter (itercell lc (cell_of_offset lc P o))
                  (set_searched_cells
                     ({[cell_of_offset lc P o]} ∪ m_searched_cells it) it1))).
    { intros fuel. cbn [Nat.add Locality.ball_loop]. cbv zeta. fold it1.
      change (Qltb _ _) with
        (ball_stop lc it1 (m_range (shell_incr (m_neigh_cell_iter it)))).
      rewrite (ball_stop_same lc _ it0) by exact Hq1.
      rewrite Hgo by lia.
      cbn [m_neigh_cell_iter it1 set_neigh_cell_iter]. rewrite Hderef.
      reflexivity. }
    cbn [later_points]. cbv zeta.
    destruct (decide (cell_of_offset lc P o ∈ m_searched_cells it)) as [Hin|Hout].
    + (* a cell already searched *)
      eapply ball_post_shift.
      { intros fuel. apply Hloop. }
      apply (IH it1 Hq1 Hv' (proj2 Hr') Hrem' Hfin).
    + (* a new cell *)
      set (c := cell_of_offset lc P o) in *.
      set (it2 := set_cell_iter (itercell lc c)
                    (set_searched_cells ({[c]} ∪ m_searched_cells it) it1)).
      destruct (itercell_head c (Hcells o)) as [Hlinks Hrange].
      rewrite omap_app.
      destruct (omap (test lc it0) (bucket lc c)) as [|b r1] eqn:Eb.
      * (* nothing in it: go on *)
        cbn [app].
        apply (ball_post_shift _ (1 + (length (bucket lc c) + 1))
                 _ (fun fuel => ball_loop lc P fuel BallAdvance
                                  (set_cell_iter LINK_CELL_TERMINATOR it2))).
        { intros fuel.
          replace (1 + (length (bucket lc c) + 1) + fuel)%nat
            with (1 + (length (bucket lc c) + 1 + fuel))%nat by lia.
          rewrite Hloop. fold it2.
          apply (ball_scan_miss (bucket lc c) it2 fuel Hq Hlinks Hrange Eb). }
        apply (IH (set_cell_iter LINK_CELL_TERMINATOR it2) Hq Hv' (proj2 Hr')
                 Hrem' Hfin).
      * (* the first hit of the cell *)
        destruct (omap_cons_inv _ _ _ _ Eb) as (pre & j & post & Ebk & Hpre & Hj & Hpost).
        rewrite Ebk in Hlinks, Hrange.
        cbn [app ball_post].
        exists (1 + (length pre + 1))%nat, (set_cell_iter j it2), post, offs.
        split; [|split; [|split]].
        -- intros fuel Hf.
           replace fuel with (1 + (length pre + 1 + (fuel - (1 + (length pre + 1)))))%nat
             by lia.
           rewrite Hloop. fold it2.
           apply (ball_scan_hit pre post j b it2 _ Hq Hlinks Hrange Hpre Hj).
        -- assert (Hpost_range : forall j', j' ∈ post -> 0 <= j' < n).
           { intros j' Hj'. apply Hrange. rewrite elem_of_app. right. right.
             exact Hj'. }
           split; [exact Hq|]. split; [exact Hv'|]. split; [exact (proj2 Hr')|].
           split; [exact Hrem'|]. split; [|split; [exact Hpost_range | exact Hfin]].
           apply (ball_scan_hit pre post j b it2 0 Hq Hlinks Hrange Hpre Hj).
        -- unfold current_cell. cbn [m_neigh_cell_iter m_searched_cells it2 it1
             set_cell_iter set_searched_cells set_neigh_cell_iter].
           rewrite Hderef. fold c. apply elem_of_union_l, elem_of_singleton. reflexivity.
        -- cbn [m_searched_cells it2 it1 set_cell_iter set_searched_cells
             set_neigh_cell_iter]. rewrite omap_app, Hpost. reflexivity.
Qed.

(** the scan of the current cell, and what follows it *)
Lemma ball_scan_spec (it : LinkCellIterator) (js : list Z) (offs : list (vec3 Z)) :
  Ready it js offs ->
  current_cell it ∈ m_searched_cells it ->
  ball_post
    (omap (test lc it0) (js ++ later_points lc P (m_searched_cells it) offs))
    (fun fuel => ball_loop lc P fuel BallScan it).
Proof.
  intros (Hq & Hv & Hr & Hrem & Hlinks & Hrange & Hfin) Hcur.
  rewrite omap_app.
  destruct (omap (test lc it0) js) as [|b r1] eqn:Eb.
  - cbn [app].
    apply (ball_post_shift _ (length js + 1) _
             (fun fuel => ball_loop lc P fuel BallAdvance
                            (set_cell_iter LINK_CELL_TERMINATOR it))).
    { intros fuel. apply (ball_scan_miss js it fuel Hq Hlinks Hrange Eb). }
    apply (ball_advance_spec offs (set_cell_iter LINK_CELL_TERMINATOR it)
             Hq Hv Hr Hrem Hfin).
  - destruct (omap_cons_inv _ _ _ _ Eb) as (pre & j & post & -> & Hpre & Hj & Hpost).
    cbn [app ball_post].
    exists (length pre + 1)%nat, (set_cell_iter j it), post, offs.
    split; [|split; [|split]].
    + intros fuel Hf.
      replace fuel with (length pre + 1 + (fuel - (length pre + 1)))%nat by lia.
      apply (ball_scan_hit pre post j b it _ Hq Hlinks Hrange Hpre Hj).
    + split; [exact Hq|]. split; [exact Hv|]. split; [exact Hr|].
      split; [exact Hrem|]. split; [|split; [|exact Hfin]].
      * apply (ball_scan_hit pre post j b it 0 Hq Hlinks Hrange Hpre Hj).
      * intros j' Hj'. apply Hrange. rewrite elem_of_app. right. right. exact Hj'.
    + exact Hcur.
    + cbn [m_searched_cells set_cell_iter]. rewrite omap_app, Hpost. reflexivity.
Qed.

Lemma set_searched_cells_id (it : LinkCellIterator) :
  set_searched_cells (m_searched_cells it) it = it.
Proof. destruct it. reflexivity. Qed.

(** one call of [LinkCellQueryBallIterator::next] *)
Lemma ball_next_spec (it : LinkCellIterator) (js : list Z) (offs : list (vec3 Z)) :
  Ready it js offs ->
  ball_post
    (omap (test lc it0)
       (js ++ later_points lc P ({[current_cell it]} ∪ m_searched_cells it) offs))
    (fun fuel => ball_next lc fuel it).
Proof.
  intros HR. pose proof HR as (Hq & Hv & Hr & Hrem & Hlinks & Hrange & Hfin).
  assert (Hnext : forall fuel,
    ball_next lc fuel it
    = ball_loop lc P fuel BallScan
        (set_searched_cells ({[current_cell it]} ∪ m_searched_cells it) it)).
  { intros fuel. unfold Locality.ball_next, current_cell, cell_of_offset,
      point_cell_of.
    destruct Hq as (-> & _). reflexivity. }
  apply (ball_post_shift _ 0 _ _ Hnext).
  assert (Hcur : current_cell it ∈ {[current_cell it]} ∪ m_searched_cells it)
    by (apply elem_of_union_l, elem_of_singleton; reflexivity).
  exact (ball_scan_spec
           (set_searched_cells ({[current_cell it]} ∪ m_searched_cells it) it)
           js offs HR Hcur).
Qed.

(** All calls of [next]: the iterator yields, one after the other, the
    bonds of the points still to be visited, and then ends. *)
Lemma ball_drain_spec (found : list NeighborBond) :
  forall it js offs,
    Ready it js offs ->
    omap (test lc it0)
      (js ++ later_points lc P ({[current_cell it]} ∪ m_searched_cells it) offs)
    = found ->
    exists fuel0 calls0,
      forall fuel calls, (fuel0 <= fuel)%nat -> (calls0 <= calls)%nat ->
        drain (ball_next lc fuel) calls it = Some (Ok found).
Proof.
  induction found as [|b rest IH]; intros it js offs HR Hfound.
  - pose proof (ball_next_spec it js offs HR) as Hpost. rewrite Hfound in Hpost.
    destruct Hpost as (fuel0 & it' & Hrun & Hfin).
    exists fuel0, 1%nat. intros fuel [|calls] Hf Hc; [lia|].
    simpl. rewrite (Hrun fuel Hf), Hfin. reflexivity.
  - pose proof (ball_next_spec it js offs HR) as Hpost. rewrite Hfound in Hpost.
    destruct Hpost as (fuel0 & it' & js' & offs' & Hrun & HR' & Hcur & Hrest).
    destruct (IH it' js' offs' HR') as (fuel1 & calls1 & Hdrain).
    { replace ({[current_cell it']} ∪ m_searched_cells it')
        with (m_searched_cells it') by set_solver.
      exact Hrest. }
    exists (Nat.max fuel0 fuel1), (S calls1).
    intros fuel [|calls] Hf Hc; [lia|].
    simpl. rewrite (Hrun fuel) by lia.
    destruct HR' as (_ & _ & _ & _ & _ & _ & ->).
    rewrite (Hdrain fuel calls) by lia. reflexivity.
Qed.

End Ball.
End Iterators.
End IteratorFacts.

Lemma omap_all_None {A B} (f : A -> option B) (l : list A) :
  (forall x, x ∈ l -> f x = None) -> omap f l = [].
Proof.
  induction l as [|x l IH]; intros H; [reflexivity|].
  simpl. rewrite (H x) by left. apply IH. intros y Hy. apply H. right. exact Hy.
Qed.

Lemma omap_Permutation_subset {A B} `{EqDecision A} (f : A -> option B)
    (l1 l2 : list A) :
  NoDup l1 -> NoDup l2 ->
  (forall x, x ∈ l1 -> x ∈ l2) ->
  (forall x, x ∈ l2 -> x ∉ l1 -> f x = None) ->
  omap f l1 ≡ₚ omap f l2.
Proof.
  intros N1 N2 Hsub Hnone.
  assert (Hp : l2 ≡ₚ l1 ++ filter (fun x => x ∉ l1) l2).
  { apply NoDup_Permutation; [exact N2| |].
    - apply NoDup_app. split; [exact N1|]. split; [|apply NoDup_filter, N2].
      intros x Hx Hf. apply list_elem_of_filter in Hf as [Hf _]. exact (Hf Hx).
    - intros x. rewrite elem_of_app, list_elem_of_filter. split.
      + intros Hx. destruct (decide (x ∈ l1)); auto.
      + intros [Hx|[_ Hx]]; auto. }
  rewrite Hp, omap_app.
  rewrite (omap_all_None f (filter _ l2)).
  - rewrite app_nil_r. reflexivity.
  - intros x Hx. apply list_elem_of_filter in Hx as [Hx1 Hx2]. auto.
Qed.

Lemma omap_filter_fmap {A B} (f : A -> option B) (P : A -> Prop)
    `{forall x, Decision (P x)} (g : A -> B) (l : list A) :
  (forall x, f x = if decide (P x) then Some (g x) else None) ->
  omap f l = g <$> filter P l.
Proof.
  intros Hf. induction l as [|x l IH]; [reflexivity|].
  rewrite filter_cons. change (omap f (x :: l))
    with (match f x with Some y => y :: omap f l | None => omap f l end).
  rewrite Hf, IH. destruct (decide (P x)); reflexivity.
Qed.

Module SearchFacts.
Import Locality NeighborCellFacts CellListFacts ShellFacts IteratorFacts
  NeighborCellSpec CellListSpec ShellSpec IteratorSpec.
Import SearchSpec.

Section Search.

Context (coordToIndex : vec3 Z -> Z -> Z -> Z -> Z).
Context (getCellCoord : Box -> vec3 Z -> vec3 Q -> vec3 Z).
Context (sqrtf : Q -> Q).

Local Abbreviation getCell := (getCell coordToIndex getCellCoord).
Local Abbreviation getCellIndex := (getCellIndex coordToIndex).
Local Abbreviation candidate := (candidate sqrtf).
Local Abbreviation ball_next := (ball_next coordToIndex getCellCoord sqrtf).
Local Abbreviation cell_of_point := (cell_of_point coordToIndex getCellCoord).
Local Abbreviation bucket := (bucket coordToIndex getCellCoord).
Local Abbreviation cell_list_ok := (cell_list_ok coordToIndex getCellCoord).
Local Abbreviation cell_of_offset := (cell_of_offset coordToIndex).
Local Abbreviation point_cell_of := (point_cell_of getCellCoord).
Local Abbreviation test := (test sqrtf).
Local Abbreviation later_points := (later_points coordToIndex getCellCoord).
Local Abbreviation new_LinkCellIterator :=
  (new_LinkCellIterator coordToIndex getCellCoord).

Local Abbreviation bond_to := (bond_to sqrtf).
Local Abbreviation brute_force := (brute_force sqrtf).

Lemma test_spec (lc : LinkCell) (it : LinkCellIterator) (j : Z) :
  test lc it j =
    if decide (within lc it j = true /\ self_pair it j = false)
    then Some (bond_to lc it j) else None.
Proof.
  unfold IteratorSpec.test, Locality.candidate, within, self_pair, bond_to.
  fold (r_sq lc it j).
  destruct (m_exclude_ii it && (m_query_point_idx it =? j)).
  - rewrite decide_False by (intros [_ H]; discriminate). reflexivity.
  - rewrite (andb_comm (Qltb _ _)).
    destruct (Qleb (m_r_min it * m_r_min it) (r_sq lc it j)
              && Qltb (r_sq lc it j) (m_r_max it * m_r_max it)).
    + rewrite decide_True by auto. reflexivity.
    + rewrite decide_False by (intros [H _]; discriminate). reflexivity.
Qed.

Lemma brute_force_omap (lc : LinkCell) (it : LinkCellIterator) :
  brute_force lc it = omap (test lc it) (seqZ 0 (m_n_points lc)).
Proof.
  unfold brute_force. symmetry. apply omap_filter_fmap. apply test_spec.
Qed.

Lemma test_ref_id lc it j b : test lc it j = Some b -> ref_id b = j.
Proof.
  rewrite test_spec. case_decide; [|discriminate]. intros [= <-]. reflexivity.
Qed.

Lemma NoDup_omap_test lc it (l : list Z) :
  NoDup l -> NoDup (omap (test lc it) l).
Proof.
  induction 1 as [|x l Hx Hl IH]; simpl; [constructor|].
  destruct (test lc it x) as [b|] eqn:E; [|exact IH].
  constructor; [|exact IH].
  intros Hin. apply list_elem_of_omap in Hin as (y & Hy & Ey).
  apply test_ref_id in E, Ey. subst. exact (Hx Hy).
Qed.

Lemma elem_of_bucket (lc : LinkCell) (c j : Z) :
  j ∈ bucket lc c <-> 0 <= j < m_n_points lc /\ cell_of_point lc j = c.
Proof.
  unfold CellListSpec.bucket. rewrite list_elem_of_filter, elem_of_seqZ. lia.
Qed.

Lemma NoDup_bucket (lc : LinkCell) (c : Z) : NoDup (bucket lc c).
Proof. apply NoDup_filter, NoDup_seqZ. Qed.

Lemma elem_of_later_points lc P (offs : list (vec3 Z)) :
  forall (S : gset Z) (j : Z),
    j ∈ later_points lc P S offs <->
    0 <= j < m_n_points lc /\ (cell_of_point lc j ∉ S) /\
    exists o, o ∈ offs /\ cell_of_offset lc P o = cell_of_point lc j.
Proof.
  induction offs as [|o offs IH]; intros S j; simpl.
  - split; [intros H; inversion H|].
    intros (_ & _ & o & Ho & _). inversion Ho.
  - case_decide as Hc.
    + rewrite IH. split.
      * intros (Hj & HS & o' & Ho' & Heq). split; [exact Hj|]. split; [exact HS|].
        exists o'. split; [right; exact Ho' | exact Heq].
      * intros (Hj & HS & o' & Ho' & Heq). split; [exact Hj|]. split; [exact HS|].
        apply elem_of_cons in Ho' as [->|Ho'].
        -- rewrite Heq in Hc. contradiction.
        -- exists o'. auto.
    + rewrite elem_of_app, elem_of_bucket, IH. split.
      * intros [[Hj Heq]|(Hj & HS & o' & Ho' & Heq)].
        -- split; [exact Hj|]. split; [rewrite Heq; exact Hc|].
           exists o. split; [left | symmetry; exact Heq].
        -- split; [exact Hj|]. split; [set_solver|].
           exists o'. split; [right; exact Ho' | exact Heq].
      * intros (Hj & HS & o' & Ho' & Heq).
        destruct (decide (cell_of_point lc j = cell_of_offset lc P o)) as [E|E].
        -- left. auto.
        -- right. split; [exact Hj|]. split; [set_solver|].
           apply elem_of_cons in Ho' as [->|Ho']; [congruence|].
           exists o'. auto.
Qed.

Lemma NoDup_later_points lc P (offs : list (vec3 Z)) :
  forall S : gset Z, NoDup (later_points lc P S offs).
Proof.
  induction offs as [|o offs IH]; intros S; simpl; [constructor|].
  case_decide; [apply IH|].
  apply NoDup_app. split; [apply NoDup_bucket|]. split; [|apply IH].
  intros j Hj Hl. apply elem_of_bucket in Hj as [_ Hj].
  apply elem_of_later_points in Hl as (_ & HS & _).
  apply HS. rewrite Hj. apply elem_of_union_l, elem_of_singleton. reflexivity.
Qed.

Local Abbreviation grid_cells := (grid_cells coordToIndex).
Local Abbreviation shell_bound := (shell_bound coordToIndex getCellCoord sqrtf).
Local Abbreviation sqrt_below := (sqrt_below sqrtf).

Lemma Qsquare_nonneg (x : Q) : (0 <= x * x)%Q.
Proof.
  unfold Qle, Qmult. simpl. rewrite Z.mul_1_r. apply Z.square_nonneg.
Qed.

Lemma r_sq_nonneg (lc : LinkCell) (it : LinkCellIterator) (j : Z) :
  (0 <= r_sq lc it j)%Q.
Proof.
  unfold r_sq, dot. cbv zeta.
  set (v := wrap (m_box lc) _).
  apply Qle_trans with (0 + 0 + 0)%Q; [discriminate|].
  repeat apply Qplus_le_compat; apply Qsquare_nonneg.
Qed.

Lemma ball_stop_range_spec (lc : LinkCell) (it : LinkCellIterator) :
  (0 < getCellWidth lc)%Q ->
  let stop := ball_stop_range lc it in
  1 <= stop /\ ball_stop lc it stop = true /\
  forall R, 1 <= R < stop -> ball_stop lc it R = false.
Proof.
  intros Hw stop. set (w := getCellWidth lc) in *.
  set (F := Qfloor (m_r_max it / w)).
  assert (Hdiv : (m_r_max it / w * w == m_r_max it)%Q).
  { rewrite Qmult_comm. apply Qmult_div_r.
    intros H. rewrite H in Hw. exact (Qlt_irrefl _ Hw). }
  assert (Hup : (m_r_max it < inject_Z (F + 1) * w)%Q).
  { rewrite <- Hdiv at 1. apply Qmult_lt_r; [exact Hw|]. apply Qlt_floor. }
  assert (Hlow : (inject_Z F * w <= m_r_max it)%Q).
  { rewrite <- Hdiv. apply Qmult_le_r; [exact Hw|]. apply Qfloor_le. }
  split; [unfold stop, ball_stop_range; lia|]. split.
  - unfold ball_stop. apply Qltb_lt. eapply Qlt_le_trans; [exact Hup|].
    apply Qmult_le_r; [exact Hw|]. rewrite <- Zle_Qle.
    unfold stop, ball_stop_range. fold w F. lia.
  - intros R HR. unfold ball_stop. apply Qltb_ge.
    eapply Qle_trans; [|exact Hlow].
    apply Qmult_le_r; [exact Hw|]. rewrite <- Zle_Qle.
    unfold stop, ball_stop_range in HR. fold w F in HR. lia.
Qed.

Lemma cell_of_offset_range (lc : LinkCell) (P o : vec3 Z) :
  grid_cells lc ->
  1 <= vx (m_celldim lc) -> 1 <= vy (m_celldim lc) -> 1 <= vz (m_celldim lc) ->
  0 <= cell_of_offset lc P o < m_size lc.
Proof.
  intros Hg Hx Hy Hz. unfold IteratorSpec.cell_of_offset, Locality.getCellIndex.
  apply Hg. unfold in_grid. simpl.
  repeat split; apply Z.mod_pos_bound; lia.
Qed.

Lemma cell_of_offset_origin (lc : LinkCell) (P : vec3 Z) :
  in_grid (m_celldim lc) P ->
  cell_of_offset lc P (mk_vec3 0 0 0)
  = coordToIndex (m_celldim lc) (vx P) (vy P) (vz P).
Proof.
  intros (Hx & Hy & Hz).
  unfold IteratorSpec.cell_of_offset, Locality.getCellIndex, vadd_int. simpl.
  rewrite !Z.add_0_r, !Z.mod_small by lia. reflexivity.
Qed.

(** the points that the ball query visits from its initial state *)
Lemma initial_points (lc : LinkCell) (it0 : LinkCellIterator) (stop : Z) :
  1 <= stop ->
  in_grid (m_celldim lc) (point_cell_of lc it0) ->
  let P := point_cell_of lc it0 in
  let sh0 := IteratorCellShell_at 0 (is2D (m_box lc)) in
  let c0 := cell_of_offset lc P (shell_deref sh0) in
  c0 = getCell lc (m_query_point it0) /\
  bucket lc c0 ++ later_points lc P ({[c0]} ∪ ∅) (remaining sh0 stop)
  = later_points lc P ∅ (offsets_below (is2D (m_box lc)) stop).
Proof.
  intros Hs Hin. cbv zeta. split.
  - unfold shell_deref. simpl. rewrite shell_0. simpl.
    rewrite cell_of_offset_origin by exact Hin. reflexivity.
  - rewrite (remaining_initial _ stop Hs). simpl.
    rewrite decide_False by set_solver. reflexivity.
Qed.

(** a point that the walk over the offsets below [stop] does not reach
    fails the distance test *)
Lemma unvisited_fails (lc : LinkCell) (it : LinkCellIterator) (stop j : Z) :
  sqrt_below -> shell_bound lc it ->
  (0 <= m_r_max it)%Q ->
  (m_r_max it <= inject_Z (stop - 1) * getCellWidth lc)%Q ->
  0 <= j < m_n_points lc ->
  j ∉ later_points lc (point_cell_of lc it) ∅
        (offsets_below (is2D (m_box lc)) stop) ->
  test lc it j = None.
Proof.
  intros Hsqrt Hgeo Hr Hbound Hj Hnot.
  rewrite test_spec. apply decide_False. intros [Hw _].
  unfold within in Hw. apply andb_true_iff in Hw as [_ Hw].
  apply Qltb_lt in Hw. apply (Hsqrt _ _ (r_sq_nonneg lc it j) Hr) in Hw.
  apply (Qlt_not_le _ _ Hw). eapply Qle_trans; [exact Hbound|].
  apply Hgeo; [exact Hj|].
  intros o Hok Hcell.
  destruct (Z.le_gt_cases stop (chebyshev o)) as [Hle|Hlt]; [exact Hle|].
  exfalso. apply Hnot. apply elem_of_later_points.
  split; [exact Hj|]. split; [set_solver|].
  exists o. split; [|exact Hcell].
  apply elem_of_offsets_below. auto.
Qed.

Local Abbreviation construct := (construct coordToIndex getCellCoord).
Local Abbreviation buildable := (buildable coordToIndex getCellCoord).

(** the initial state of an iterator is ready for the search *)
Lemma initial_Ready (lc : LinkCell) (q : vec3 Q) (idx : Z) (r_max r_min : Q)
    (ex : bool) (extra k stop : Z) :
  let it0 := new_LinkCellIterator lc q idx r_max r_min ex extra k in
  cell_list_ok lc -> grid_cells lc ->
  1 <= vx (m_celldim lc) -> 1 <= vy (m_celldim lc) -> 1 <= vz (m_celldim lc) ->
  in_grid (m_celldim lc) (point_cell_of lc it0) ->
  1 <= stop ->
  Ready lc it0 stop it0
    (bucket lc (current_cell coordToIndex getCellCoord lc it0 it0))
    (remaining (IteratorCellShell_at 0 (is2D (m_box lc))) stop).
Proof.
  intros it0 Hok Hg Hx Hy Hz Hin Hs.
  destruct (initial_points lc it0 stop Hs Hin) as [Hc0 _].
  assert (Hcr : 0 <= current_cell coordToIndex getCellCoord lc it0 it0 < m_size lc)
    by (apply cell_of_offset_range; assumption).
  destruct (itercell_head coordToIndex getCellCoord lc Hok _ Hcr) as [Hl Hr].
  split; [apply same_query_refl|].
  split; [apply shell_valid_initial|].
  split; [simpl; lia|]. split; [reflexivity|].
  split; [|split; [exact Hr | reflexivity]].
  unfold current_cell in *. cbn [m_neigh_cell_iter it0 Locality.new_LinkCellIterator] in *.
  rewrite Hc0 in Hl at 1. exact Hl.
Qed.


End Search.
End SearchFacts.

Module KnnFacts.
Import Locality NeighborCellFacts CellListFacts ShellFacts IteratorFacts SearchFacts
  NeighborCellSpec CellListSpec ShellSpec IteratorSpec SearchSpec.

Lemma deref_chebyshev (sh : IteratorCellShell) :
  shell_valid sh ->
  chebyshev (shell_deref sh) = m_range sh /\
  offset_ok (m_is2D sh) (shell_deref sh).
Proof.
  intros [HR Hpos]. unfold shell_deref.
  destruct (lookup_lt_is_Some_2 _ _ Hpos) as [o Ho]. rewrite Ho. simpl.
  apply elem_of_shell. apply list_elem_of_lookup. eauto.
Qed.

Lemma remaining_chebyshev (sh : IteratorCellShell) (stop : Z) (o : vec3 Z) :
  o ∈ remaining sh stop -> m_range sh <= chebyshev o.
Proof.
  unfold remaining. rewrite elem_of_app. intros [H|H].
  - apply list_elem_of_lookup in H as (i & H). rewrite lookup_drop in H.
    apply list_elem_of_lookup_2, elem_of_shell in H as [-> _]. lia.
  - apply list_elem_of_join in H as (l & Ho & Hl).
    apply list_elem_of_fmap in Hl as (R & -> & HR).
    apply elem_of_seqZ in HR. apply elem_of_shell in Ho as [-> _]. lia.
Qed.

Lemma bond_le_total : Total bond_le.
Proof.
  intros a b. unfold bond_le.
  destruct (Qlt_le_dec (distance b) (distance a)) as [H|H]; [right|left].
  - apply Qlt_le_weak, H.
  - exact H.
Qed.

Lemma bond_le_trans : Transitive bond_le.
Proof. intros a b c. unfold bond_le. apply Qle_trans. Qed.

Lemma Sorted_sort_bonds (l : list NeighborBond) : Sorted bond_le (sort_bonds l).
Proof. apply Sorted_merge_sort, bond_le_total. Qed.

Lemma sort_bonds_Permutation (l : list NeighborBond) : sort_bonds l ≡ₚ l.
Proof. apply merge_sort_Permutation. Qed.

Import KnnSpec.

Section Knn.

Context (coordToIndex : vec3 Z -> Z -> Z -> Z -> Z).
Context (getCellCoord : Box -> vec3 Z -> vec3 Q -> vec3 Z).
Context (sqrtf : Q -> Q).

Local Abbreviation getCell := (getCell coordToIndex getCellCoord).
Local Abbreviation getCellIndex := (getCellIndex coordToIndex).
Local Abbreviation candidate := (candidate sqrtf).
Local Abbreviation knn_expand := (knn_expand coordToIndex sqrtf).
Local Abbreviation knn_next := (knn_next coordToIndex getCellCoord sqrtf).
Local Abbreviation cell_of_point := (cell_of_point coordToIndex getCellCoord).
Local Abbreviation bucket := (bucket coordToIndex getCellCoord).
Local Abbreviation cell_list_ok := (cell_list_ok coordToIndex getCellCoord).
Local Abbreviation cell_of_offset := (cell_of_offset coordToIndex).
Local Abbreviation point_cell_of := (point_cell_of getCellCoord).
Local Abbreviation test := (test sqrtf).
Local Abbreviation later_points := (later_points coordToIndex getCellCoord).
Local Abbreviation current_cell := (current_cell coordToIndex getCellCoord).
Local Abbreviation far := (far coordToIndex getCellCoord).
Local Abbreviation early := (early coordToIndex getCellCoord).
Local Abbreviation knn_post := (knn_post coordToIndex getCellCoord sqrtf).
Local Abbreviation passed := (passed coordToIndex getCellCoord).

Context (lc : LinkCell) (it0 : LinkCellIterator).
Context (Hok : cell_list_ok lc).
Context (max_range : Z).

Local Abbreviation P := (point_cell_of lc it0).
Local Abbreviation n := (m_n_points lc).
Local Abbreviation K := (m_num_neighbors it0).
Local Abbreviation b2D := (is2D (m_box lc)).

Context (Hcells : forall o, 0 <= cell_of_offset lc P o < m_size lc).
Context (HK : 1 <= K < UINT_MOD).

(** scanning the rest of a bucket: every hit joins the buffer *)
Lemma knn_scan (js : list Z) (it : LinkCellIterator) (fuel : nat) :
  same_query it it0 ->
  links (m_cell_list lc) (m_cell_iter it) js ->
  (forall j, j ∈ js -> 0 <= j < n) ->
  knn_expand lc P max_range (length js + 1 + fuel) KnnScan it
  = knn_expand lc P max_range fuel KnnAdvance
      (set_cell_iter LINK_CELL_TERMINATOR
         (set_current_neighbors
            (m_current_neighbors it ++ omap (test lc it0) js) it)).
Proof.
  revert it. induction js as [|j js IH]; intros it Hq Hl Hr.
  - simpl in Hl. cbn [length Nat.add Locality.knn_expand omap list_omap].
    cbv zeta. rewrite Hl. rewrite app_nil_r. reflexivity.
  - simpl in Hl. destruct Hl as (Hj & Hjr & Hl).
    cbn [length Nat.add Locality.knn_expand]. cbv zeta. rewrite Hj.
    replace (atEnd j) with false by (symmetry; apply Z.eqb_neq; lia).
    assert (Hq' : same_query (set_cell_iter j it) it0) by exact Hq.
    assert (Hr' : forall j', j' ∈ js -> 0 <= j' < n)
      by (intros j' Hj'; apply Hr; right; exact Hj').
    cbn [omap list_omap].
    rewrite <- (test_same sqrtf lc _ _ j Hq'). unfold IteratorSpec.test.
    destruct (m_exclude_ii (set_cell_iter j it)
              && (m_query_point_idx (set_cell_iter j it) =? j)) eqn:Ex.
    + rewrite (IH (set_cell_iter j it) Hq' Hl Hr'). reflexivity.
    + rewrite (point_lookup coordToIndex getCellCoord lc Hok j) by (apply Hr; left).
      destruct (candidate lc (set_cell_iter j it) _ j) as [b|] eqn:Ec.
      * rewrite (IH (set_current_neighbors
                       (m_current_neighbors (set_cell_iter j it) ++ [b])
                       (set_cell_iter j it)) Hq' Hl Hr').
        cbn [m_current_neighbors set_current_neighbors set_cell_iter].
        rewrite <- app_assoc. reflexivity.
      * rewrite (IH (set_cell_iter j it) Hq' Hl Hr'). reflexivity.
Qed.

Lemma knn_post_shift (it : LinkCellIterator) (todo : list Z) (k : nat)
    (run1 run2 : nat -> option (outcome unit * LinkCellIterator)) :
  (forall fuel, run1 (k + fuel)%nat = run2 fuel) ->
  knn_post lc it0 max_range it todo run2 -> knn_post lc it0 max_range it todo run1.
Proof.
  intros Hshift (fuel0 & it' & vis & unvis & Hrun & Hrest).
  exists (k + fuel0)%nat, it', vis, unvis. split; [|exact Hrest].
  intros fuel Hf. replace fuel with (k + (fuel - k))%nat by lia.
  rewrite Hshift. apply Hrun. lia.
Qed.

Lemma shell_eqb_range (a b : IteratorCellShell) :
  m_range a <> m_range b -> shell_eqb a b = false.
Proof.
  intros H. unfold shell_eqb. apply Z.eqb_neq in H. rewrite H. reflexivity.
Qed.

Lemma shell_eqb_refl (a : IteratorCellShell) : shell_eqb a a = true.
Proof.
  unfold shell_eqb. rewrite Z.eqb_refl, Nat.eqb_refl, eqb_reflx. reflexivity.
Qed.

(** the sort that ends a round, and the early exit *)
Lemma knn_sort_eq (it : LinkCellIterator) (fuel : nat) :
  same_query it it0 ->
  knn_expand lc P max_range (S fuel) KnnSort it
  = let it' := set_current_neighbors (sort_bonds (m_current_neighbors it)) it in
    if enough lc it0 it then Some (Ok tt, it')
    else knn_expand lc P max_range fuel KnnTop it'.
Proof.
  intros Hq. cbn [Locality.knn_expand]. unfold knn_sorted_enough, enough.
  cbv zeta. cbn [m_current_neighbors m_num_neighbors m_neigh_cell_iter
    set_current_neighbors].
  destruct Hq as (_ & _ & _ & _ & _ & _ & ->).
  rewrite (to_unsigned_small (K - 1)) by lia.
  destruct (Z.ltb_spec (Z.of_nat (length (sort_bonds (m_current_neighbors it)))) K)
    as [Hlt|Hge].
  - rewrite (lookup_ge_None_2 (sort_bonds (m_current_neighbors it))) by lia.
    reflexivity.
  - destruct (lookup_lt_is_Some_2 (sort_bonds (m_current_neighbors it))
                (Z.to_nat (K - 1))) as [b Hb]; [lia|].
    rewrite Hb. unfold getRange.
    destruct (Qltb _ _); reflexivity.
Qed.

Lemma knn_top_last (point_cell : vec3 Z) (max : Z) (it : LinkCellIterator)
    (fuel : nat) :
  m_neigh_cell_iter it = IteratorCellShell_at max b2D ->
  knn_expand lc point_cell max (S fuel) KnnTop it = Some (Ok tt, it).
Proof.
  intros H. cbn [Locality.knn_expand]. rewrite H, shell_eqb_refl. reflexivity.
Qed.

Lemma knn_top_scan (it : LinkCellIterator) (fuel : nat) :
  m_range (m_neigh_cell_iter it) < max_range ->
  m_cell_iter it <> LINK_CELL_TERMINATOR ->
  knn_expand lc P max_range (S fuel) KnnTop it
  = knn_expand lc P max_range fuel KnnScan it.
Proof.
  intros Hr Hc. cbn [Locality.knn_expand].
  rewrite shell_eqb_range by (simpl; lia).
  unfold atEnd. apply Z.eqb_neq in Hc. rewrite Hc. reflexivity.
Qed.

(** the points of the cells not yet opened are far *)
Lemma passed_far (it : LinkCellIterator) (A : list (vec3 Z)) (o : vec3 Z)
    (offs : list (vec3 Z)) (j : Z) :
  passed lc it0 max_range it A (o :: offs) ->
  j ∈ later_points lc P (m_searched_cells it) (o :: offs) ->
  far lc it0 j (m_range (shell_incr (m_neigh_cell_iter it))).
Proof.
  intros (Hq & Hv & Hr & H2D & Hrem & Hall & HA & Hcur) Hj.
  pose proof (remaining_step _ max_range Hv Hr) as Hstep. rewrite Hrem in Hstep.
  cbv zeta in Hstep. destruct Hstep as (Hv' & Hr' & Hr1 & H2D' & Hderef & Hrem').
  apply elem_of_later_points in Hj as (Hjn & HS & _).
  intros ox Hox Hcell.
  destruct (Z.le_gt_cases (m_range (shell_incr (m_neigh_cell_iter it)))
              (chebyshev ox)) as [Hle|Hlt]; [exact Hle|].
  exfalso.
  assert (Hin : ox ∈ offsets_below b2D max_range)
    by (apply elem_of_offsets_below; split; [lia | exact Hox]).
  rewrite <- Hall in Hin.
  apply elem_of_app in Hin as [Hin|Hin].
  { apply HS. rewrite <- Hcell. apply HA, Hin. }
  apply elem_of_cons in Hin as [->|Hin].
  { apply HS. rewrite <- Hcell. exact Hcur. }
  apply elem_of_cons in Hin as [->|Hin].
  { destruct (deref_chebyshev _ Hv') as [Hc _]. rewrite Hderef in Hc. lia. }
  rewrite <- Hrem' in Hin. apply remaining_chebyshev in Hin. lia.
Qed.

(** the search for the next cell, and what follows it *)
Lemma knn_advance_spec (offs : list (vec3 Z)) :
  forall (it : LinkCellIterator) (A : list (vec3 Z)),
    passed lc it0 max_range it A offs ->
    knn_post lc it0 max_range it (later_points lc P (m_searched_cells it) offs)
      (fun fuel => knn_expand lc P max_range fuel KnnAdvance it).
Proof.
  induction offs as [|o offs IH]; intros it A HP;
    pose proof HP as (Hq & Hv & Hr & H2D & Hrem & Hall & HA & Hcur);
    pose proof (remaining_step _ max_range Hv Hr) as Hstep;
    rewrite Hrem in Hstep.
  - (* the iterator reaches the last shell *)
    rewrite H2D in Hstep.
    set (it1 := set_neigh_cell_iter (shell_incr (m_neigh_cell_iter it)) it).
    set (it2 := set_current_neighbors (sort_bonds (m_current_neighbors it1)) it1).
    exists 3%nat, it2, [], [].
    split.
    { assert (Hloop : forall fuel,
        knn_expand lc P max_range (S fuel) KnnAdvance it
        = knn_expand lc P max_range fuel KnnSort it1).
      { intros fuel. cbn [Locality.knn_expand]. cbv zeta. fold it1.
        cbn [m_neigh_cell_iter it1 set_neigh_cell_iter].
        rewrite Hstep, shell_eqb_refl. reflexivity. }
      intros [|[|[|fuel]]] Hf; try lia.
      rewrite Hloop.
      rewrite (knn_sort_eq it1 (S fuel) Hq). cbv zeta. fold it2.
      destruct (enough lc it0 it1); [reflexivity|].
      apply (knn_top_last P max_range). exact Hstep. }
    split; [reflexivity|]. split; [exact Hq|].
    split; [reflexivity|]. split; [reflexivity|].
    split; [apply Sorted_sort_bonds|].
    split; [|left; reflexivity].
    cbn [omap list_omap]. rewrite app_nil_r. apply sort_bonds_Permutation.
  - cbv zeta in Hstep. destruct Hstep as (Hv' & Hr' & Hr1 & H2D' & Hderef & Hrem').
    set (it1 := set_neigh_cell_iter (shell_incr (m_neigh_cell_iter it)) it).
    set (c := cell_of_offset lc P o).
    assert (Hq1 : same_query it1 it0) by exact Hq.
    assert (Hall' : (A ++ [shell_deref (m_neigh_cell_iter it)]) ++ o :: offs
                    = offsets_below b2D max_range).
    { rewrite <- app_assoc. exact Hall. }
    assert (HA' : forall S : gset Z, m_searched_cells it ⊆ S ->
              forall o', o' ∈ A ++ [shell_deref (m_neigh_cell_iter it)] ->
                cell_of_offset lc P o' ∈ S).
    { intros S HS o' Ho'. apply HS.
      apply elem_of_app in Ho' as [Ho'|Ho']; [apply HA, Ho'|].
      apply list_elem_of_singleton in Ho'. subst o'. exact Hcur. }
    assert (Hloop : forall fuel,
      knn_expand lc P max_range (1 + fuel) KnnAdvance it
      = if decide (c ∈ m_searched_cells it)
        then knn_expand lc P max_range fuel KnnAdvance it1
        else knn_expand lc P max_range fuel KnnSort
               (set_cell_iter (itercell lc c)
                  (set_searched_cells ({[c]} ∪ m_searched_cells it) it1))).
    { intros fuel. cbn [Nat.add Locality.knn_expand]. cbv zeta. fold it1.
      rewrite shell_eqb_range
        by (cbn [m_neigh_cell_iter it1 set_neigh_cell_iter m_range
                 IteratorCellShell_at]; lia).
      cbn [m_neigh_cell_iter it1 set_neigh_cell_iter]. rewrite Hderef.
      reflexivity. }
    cbn [IteratorSpec.later_points]. cbv zeta. fold c.
    destruct (decide (c ∈ m_searched_cells it)) as [Hin|Hout].
    + (* a cell already searched *)
      eapply knn_post_shift; [intros fuel; apply Hloop|].
      apply (IH it1 (A ++ [shell_deref (m_neigh_cell_iter it)])).
      split; [exact Hq1|]. split; [exact Hv'|]. split; [exact (proj2 Hr')|].
      split; [rewrite <- H2D; exact H2D'|]. split; [exact Hrem'|].
      split; [cbn [m_neigh_cell_iter it1 set_neigh_cell_iter];
              rewrite Hderef; exact Hall'|].
      split; [apply HA'; reflexivity|].
      unfold IteratorSpec.current_cell.
      cbn [m_neigh_cell_iter it1 set_neigh_cell_iter]. rewrite Hderef. exact Hin.
    + (* a new cell: the round ends *)
      set (it2 := set_cell_iter (itercell lc c)
                    (set_searched_cells ({[c]} ∪ m_searched_cells it) it1)).
      set (it3 := set_current_neighbors (sort_bonds (m_current_neighbors it2)) it2).
      assert (Hq2 : same_query it2 it0) by exact Hq.
      destruct (enough lc it0 it2) eqn:Een.
      * (* early exit *)
        exists 2%nat, it3, [], (bucket lc c
          ++ later_points lc P ({[c]} ∪ m_searched_cells it) offs).
        split.
        { intros [|[|fuel]] Hf; try lia.
          change (S (S fuel)) with (1 + S fuel)%nat.
          rewrite (Hloop (S fuel)). fold it2.
          rewrite (knn_sort_eq it2 fuel Hq2). cbv zeta. rewrite Een.
          reflexivity. }
        split; [reflexivity|]. split; [exact Hq|].
        split; [reflexivity|]. split; [reflexivity|].
        split; [apply Sorted_sort_bonds|].
        split; [cbn [omap list_omap]; rewrite app_nil_r;
                apply sort_bonds_Permutation|].
        right. unfold enough in Een.
        cbn [m_current_neighbors it2 it1 set_cell_iter set_searched_cells
             set_neigh_cell_iter m_neigh_cell_iter] in Een.
        destruct (sort_bonds (m_current_neighbors it) !! Z.to_nat (K - 1))
          as [b|] eqn:Eb; [|discriminate].
        split; [exact (Z.lt_le_incl _ _ (proj2 Hr'))|].
        exists b. split; [exact Eb|]. split; [apply Qltb_lt, Een|].
        intros j Hj. apply (passed_far it A o offs j HP).
        cbn [IteratorSpec.later_points]. cbv zeta. fold c.
        rewrite decide_False by exact Hout. exact Hj.
      * (* the bucket of the new cell is scanned *)
        destruct (itercell_head coordToIndex getCellCoord lc Hok c (Hcells o))
          as [Hlinks Hrange].
        set (it4 := set_cell_iter LINK_CELL_TERMINATOR
                      (set_current_neighbors
                         (m_current_neighbors it3
                          ++ omap (test lc it0) (bucket lc c)) it3)).
        assert (HP4 : passed lc it0 max_range it4
                        (A ++ [shell_deref (m_neigh_cell_iter it)]) offs).
        { split; [exact Hq|]. split; [exact Hv'|]. split; [exact (proj2 Hr')|].
          split; [rewrite <- H2D; exact H2D'|]. split; [exact Hrem'|].
          split; [cbn [m_neigh_cell_iter it4 it3 it2 it1 set_cell_iter
                       set_current_neighbors set_searched_cells
                       set_neigh_cell_iter];
                  rewrite Hderef; exact Hall'|].
          split; [apply HA'; apply union_subseteq_r|].
          unfold IteratorSpec.current_cell.
          cbn [m_neigh_cell_iter m_searched_cells it4 it3 it2 it1 set_cell_iter
               set_current_neighbors set_searched_cells set_neigh_cell_iter].
          rewrite Hderef. apply elem_of_union_l, elem_of_singleton. reflexivity. }
        destruct (IH it4 _ HP4)
          as (fuel0 & it' & vis & unvis & Hrun & Htodo & Hq' & Hcount & Hfin
              & Hsorted & Hperm & Hearly).
        exists (3 + (length (bucket lc c) + 1 + fuel0))%nat, it',
          (bucket lc c ++ vis), unvis.
        split.
        { intros fuel Hf.
          replace fuel
            with (1 + S (S (length (bucket lc c) + 1
                            + (fuel - (3 + (length (bucket lc c) + 1))))))%nat
            by lia.
          rewrite Hloop. fold it2.
          rewrite (knn_sort_eq it2 _ Hq2). cbv zeta. rewrite Een. fold it3.
          rewrite knn_top_scan.
          - rewrite (knn_scan (bucket lc c) it3 _ Hq Hlinks Hrange). fold it4.
            apply Hrun. lia.
          - exact (proj2 Hr').
          - cbn [m_cell_iter it3 it2 set_current_neighbors set_cell_iter].
            unfold itercell. destruct Hok as (Hn & Hsum & _).
            pose proof (Hcells o) as Hc. fold c in Hc.
            rewrite to_unsigned_small by lia.
            unfold LINK_CELL_TERMINATOR. unfold UINT_MOD in Hsum. lia. }
        split.
        { cbn [m_searched_cells it4 it3 it2 it1 set_cell_iter
               set_current_neighbors set_searched_cells set_neigh_cell_iter]
            in Htodo.
          rewrite Htodo, app_assoc. reflexivity. }
        split; [exact Hq'|]. split; [exact Hcount|]. split; [exact Hfin|].
        split; [exact Hsorted|]. split; [|exact Hearly].
        rewrite Hperm.
        cbn [m_current_neighbors it4 it3 it2 it1 set_cell_iter
             set_current_neighbors set_searched_cells set_neigh_cell_iter].
        rewrite omap_app, sort_bonds_Permutation, !app_assoc. reflexivity.
Qed.

(** the expansion loop from a position where a bucket is to be scanned *)
Lemma knn_top_spec (it : LinkCellIterator) (A : list (vec3 Z)) (js : list Z)
    (offs : list (vec3 Z)) :
  passed lc it0 max_range it A offs ->
  links (m_cell_list lc) (m_cell_iter it) js ->
  (forall j, j ∈ js -> 0 <= j < n) ->
  m_cell_iter it <> LINK_CELL_TERMINATOR ->
  knn_post lc it0 max_range it (js ++ later_points lc P (m_searched_cells it) offs)
    (fun fuel => knn_expand lc P max_range fuel KnnTop it).
Proof.
  intros HP Hlinks Hrange Hne.
  pose proof HP as (Hq & Hv & Hr & H2D & Hrem & Hall & HA & Hcur).
  set (it4 := set_cell_iter LINK_CELL_TERMINATOR
                (set_current_neighbors
                   (m_current_neighbors it ++ omap (test lc it0) js) it)).
  assert (HP4 : passed lc it0 max_range it4 A offs) by exact HP.
  destruct (knn_advance_spec offs it4 A HP4)
    as (fuel0 & it' & vis & unvis & Hrun & Htodo & Hq' & Hcount & Hfin
        & Hsorted & Hperm & Hearly).
  exists (1 + (length js + 1 + fuel0))%nat, it', (js ++ vis), unvis.
  split.
  { intros fuel Hf.
    replace fuel with (S (length js + 1 + (fuel - (1 + (length js + 1)))))%nat
      by lia.
    rewrite (knn_top_scan it _ Hr Hne).
    rewrite (knn_scan js it _ Hq Hlinks Hrange). fold it4. apply Hrun. lia. }
  split.
  { cbn [m_searched_cells it4 set_cell_iter set_current_neighbors] in Htodo.
    rewrite Htodo, app_assoc. reflexivity. }
  split; [exact Hq'|]. split; [exact Hcount|]. split; [exact Hfin|].
  split; [exact Hsorted|]. split; [|exact Hearly].
  rewrite Hperm. cbn [m_current_neighbors it4 set_cell_iter set_current_neighbors].
  rewrite omap_app, !app_assoc. reflexivity.
Qed.

(** the last loop of [next] on a buffer whose bonds are all within [r_max] *)
Lemma knn_yield_spec (it : LinkCellIterator) :
  same_query it it0 -> 0 <= m_count it ->
  Forall (fun b => Qltb (m_r_max it0) (distance b) = false)
    (m_current_neighbors it) ->
  knn_yield it
  = match m_current_neighbors it !! Z.to_nat (m_count it) with
    | Some b =>
      if m_count it <? K then (Ok b, set_count (m_count it + 1) it)
      else (Ok ITERATOR_TERMINATOR, set_finished true it)
    | None => (Ok ITERATOR_TERMINATOR, set_finished true it)
    end.
Proof.
  intros (_ & _ & Hrm & _ & _ & _ & HKit) Hc Hall. unfold knn_yield.
  rewrite HKit.
  destruct (Z.ltb_spec (m_count it) K) as [HcK|HcK]; cbn [andb].
  - destruct (Z.ltb_spec (m_count it) (Z.of_nat (length (m_current_neighbors it))))
      as [Hlt|Hge].
    + destruct (lookup_lt_is_Some_2 (m_current_neighbors it)
                  (Z.to_nat (m_count it))) as [b Hb]; [lia|].
      rewrite Hb. rewrite to_unsigned_small by lia.
      cbn [m_count m_current_neighbors set_count m_r_max].
      replace (m_count it + 1 - 1) with (m_count it) by lia. rewrite Hb.
      rewrite Hrm.
      rewrite (proj1 (Forall_forall _ _) Hall b)
        by (apply list_elem_of_lookup_2 in Hb; exact Hb).
      reflexivity.
    + rewrite lookup_ge_None_2 by lia. reflexivity.
  - destruct (m_current_neighbors it !! Z.to_nat (m_count it)); reflexivity.
Qed.

Lemma knn_next_buffered (it : LinkCellIterator) (fuel : nat) :
  m_current_neighbors it <> [] ->
  knn_next lc fuel it
  = Some (knn_yield
            (set_searched_cells
               ({[getCellIndex lc
                    (vadd_int (getCellCoord (m_box lc) (m_celldim lc)
                                 (m_query_point it))
                       (shell_deref (m_neigh_cell_iter it)))]}
                ∪ m_searched_cells it) it)).
Proof.
  intros Hne. unfold Locality.knn_next. cbv zeta.
  cbn [m_current_neighbors set_searched_cells].
  destruct (m_current_neighbors it) as [|b l] eqn:E; [contradiction|].
  reflexivity.
Qed.

(** the calls of [next] that follow the expansion *)
Lemma knn_drain_buffered (m : nat) :
  forall it : LinkCellIterator,
    same_query it it0 -> m_finished it = false -> 0 <= m_count it ->
    m_current_neighbors it <> [] ->
    Forall (fun b => Qltb (m_r_max it0) (distance b) = false)
      (m_current_neighbors it) ->
    (length (take (Z.to_nat K) (m_current_neighbors it))
     - Z.to_nat (m_count it) <= m)%nat ->
    forall fuel calls, (m + 1 <= calls)%nat ->
      drain (knn_next lc fuel) calls it
      = Some (Ok (drop (Z.to_nat (m_count it))
                    (take (Z.to_nat K) (m_current_neighbors it)))).
Proof.
  induction m as [|m IH]; intros it Hq Hfin Hc Hne Hall Hm fuel calls Hcalls;
    (destruct calls as [|calls]; [lia|]);
    cbn [drain]; rewrite (knn_next_buffered it fuel Hne);
    rewrite knn_yield_spec by assumption;
    cbn [m_current_neighbors m_count set_searched_cells];
    rewrite length_take in Hm.
  - destruct (m_current_neighbors it !! Z.to_nat (m_count it)) as [b|] eqn:Eb.
    + apply lookup_lt_Some in Eb.
      destruct (Z.ltb_spec (m_count it) K) as [HcK|HcK]; [lia|].
      cbn [m_finished set_finished]. rewrite drop_ge; [reflexivity|].
      rewrite length_take. lia.
    + apply lookup_ge_None in Eb.
      cbn [m_finished set_finished]. rewrite drop_ge; [reflexivity|].
      rewrite length_take. lia.
  - destruct (m_current_neighbors it !! Z.to_nat (m_count it)) as [b|] eqn:Eb.
    + destruct (Z.ltb_spec (m_count it) K) as [HcK|HcK].
      * cbn [m_finished set_count set_searched_cells]. rewrite Hfin.
        rewrite (IH (set_count (m_count it + 1) _)); try assumption.
        -- cbn [m_count m_current_neighbors set_count set_searched_cells].
           replace (Z.to_nat (m_count it + 1)) with (S (Z.to_nat (m_count it)))
             by lia.
           rewrite <- drop_S; [reflexivity|].
           rewrite lookup_take_lt by lia. exact Eb.
        -- cbn [m_count set_count]. lia.
        -- cbn [m_count m_current_neighbors set_count set_searched_cells].
           rewrite length_take. lia.
        -- lia.
      * cbn [m_finished set_finished]. rewrite drop_ge; [reflexivity|].
        rewrite length_take. lia.
    + apply lookup_ge_None in Eb.
      cbn [m_finished set_finished]. rewrite drop_ge; [reflexivity|].
      rewrite length_take. lia.
Qed.

(** All calls of [next] from a fresh iterator: the expansion loop runs in
    the first call and fills the buffer [buf], and the calls return its
    first [K] bonds one after the other. *)
Lemma knn_drain_spec (it : LinkCellIterator) (A : list (vec3 Z)) (js : list Z)
    (offs : list (vec3 Z)) :
  let Sc := {[current_cell lc it0 it]} ∪ m_searched_cells it in
  max_range = knn_max_range lc ->
  m_current_neighbors it = [] -> m_count it = 0 -> m_finished it = false ->
  passed lc it0 max_range (set_searched_cells Sc it) A offs ->
  links (m_cell_list lc) (m_cell_iter it) js ->
  (forall j, j ∈ js -> 0 <= j < n) ->
  m_cell_iter it <> LINK_CELL_TERMINATOR ->
  (forall j b, 0 <= j < n -> test lc it0 j = Some b ->
     Qltb (m_r_max it0) (distance b) = false) ->
  exists fuel0 calls0 buf vis unvis,
    (forall fuel calls, (fuel0 <= fuel)%nat -> (calls0 <= calls)%nat ->
       drain (knn_next lc fuel) calls it
       = Some (Ok (take (Z.to_nat K) buf))) /\
    (buf = [] ->
     exists it',
       (forall fuel, (fuel0 <= fuel)%nat ->
          knn_next lc fuel it = Some (Ok ITERATOR_TERMINATOR, it')) /\
       m_finished it' = true) /\
    js ++ later_points lc P Sc offs = vis ++ unvis /\
    Sorted bond_le buf /\ buf ≡ₚ omap (test lc it0) vis /\
    (unvis = [] \/ exists R, early lc it0 max_range buf R unvis).
Proof.
  intros Sc Hmax Hbuf Hcount Hfin HP Hlinks Hrange Hne Hhit.
  pose proof HP as (Hq & _).
  destruct (knn_top_spec (set_searched_cells Sc it) A js offs HP Hlinks Hrange Hne)
    as (fuel0 & it' & vis & unvis & Hrun & Htodo & Hq' & Hcount' & Hfin'
        & Hsorted & Hperm & Hearly).
  cbn [m_searched_cells m_count m_finished m_current_neighbors
       set_searched_cells] in Htodo, Hcount', Hfin', Hperm.
  rewrite Hbuf in Hperm. cbn [app] in Hperm.
  rewrite Hcount in Hcount'. rewrite Hfin in Hfin'.
  assert (Hnext : forall fuel, (fuel0 <= fuel)%nat ->
            knn_next lc fuel it = Some (knn_yield it')).
  { intros fuel Hf. pose proof (Hrun fuel Hf) as Hrun'.
    unfold Locality.knn_next. cbv zeta.
    cbn [m_current_neighbors set_searched_cells]. rewrite Hbuf.
    destruct Hq as (Hqp & _). cbn [m_query_point set_searched_cells] in Hqp.
    rewrite Hqp, <- Hmax.
    match goal with
    | |- match ?e with _ => _ end = _ =>
      change e with (knn_expand lc P max_range fuel KnnTop
                       (set_searched_cells Sc it))
    end.
    rewrite Hrun'. reflexivity. }
  assert (Hall : Forall (fun b => Qltb (m_r_max it0) (distance b) = false)
                   (m_current_neighbors it')).
  { apply Forall_forall. intros b Hb. rewrite Hperm in Hb.
    apply list_elem_of_omap in Hb as (j & Hvis & Hj).
    apply (Hhit j b); [|exact Hj].
    assert (Hin : j ∈ js ++ later_points lc P Sc offs)
      by (rewrite Htodo; apply elem_of_app; left; exact Hvis).
    apply elem_of_app in Hin as [Hin|Hin]; [exact (Hrange j Hin)|].
    apply elem_of_later_points in Hin as (Hin & _). exact Hin. }
  pose proof (knn_yield_spec it' Hq' ltac:(lia) Hall) as Hyield.
  rewrite Hcount' in Hyield. change (Z.to_nat 0) with 0%nat in Hyield.
  exists fuel0, (length (take (Z.to_nat K) (m_current_neighbors it')) + 1)%nat,
    (m_current_neighbors it'), vis, unvis.
  split; [|split; [|split; [exact Htodo|split; [exact Hsorted|
    split; [exact Hperm|]]]]].
  - intros fuel calls Hf Hcalls. destruct calls as [|calls]; [lia|].
    cbn [drain]. rewrite (Hnext fuel Hf), Hyield.
    destruct (m_current_neighbors it') as [|b l] eqn:Eb.
    + cbn [lookup list_lookup m_finished set_finished]. rewrite take_nil.
      reflexivity.
    + cbn [lookup list_lookup]. replace (0 <? K) with true
        by (symmetry; apply Z.ltb_lt; lia).
      cbn [m_finished set_count]. rewrite Hfin'.
      rewrite (knn_drain_buffered
                 (length (take (Z.to_nat K) (b :: l)) - 1)
                 (set_count (0 + 1) it')).
      * cbn [m_count m_current_neighbors set_count]. rewrite Eb.
        change (Z.to_nat (0 + 1)) with 1%nat.
        replace (Z.to_nat K) with (S (Z.to_nat K - 1)) by lia.
        reflexivity.
      * exact Hq'.
      * exact Hfin'.
      * cbn [m_count set_count]. lia.
      * cbn [m_current_neighbors set_count]. rewrite Eb. discriminate.
      * cbn [m_current_neighbors set_count]. rewrite Eb. exact Hall.
      * cbn [m_count m_current_neighbors set_count]. rewrite Eb.
        change (Z.to_nat (0 + 1)) with 1%nat. apply Nat.le_refl.
      * rewrite length_take in *. cbn [length] in *. lia.
  - intros Eb. exists (set_finished true it'). split; [|reflexivity].
    intros fuel Hf. rewrite (Hnext fuel Hf), Hyield, Eb. reflexivity.
  - destruct Hearly as [->|He]; [left; reflexivity|].
    right. eexists. exact He.
Qed.

End Knn.
End KnnFacts.

Lemma Permutation_split {A} `{EqDecision A} (l1 l2 : list A) :
  NoDup l1 -> NoDup l2 -> (forall x, x ∈ l1 -> x ∈ l2) ->
  l2 ≡ₚ l1 ++ filter (fun x => x ∉ l1) l2.
Proof.
  intros N1 N2 Hsub.
  apply NoDup_Permutation; [exact N2| |].
  - apply NoDup_app. split; [exact N1|]. split; [|apply NoDup_filter, N2].
    intros x Hx Hf. apply list_elem_of_filter in Hf as [Hf _]. exact (Hf Hx).
  - intros x. rewrite elem_of_app, list_elem_of_filter. split.
    + intros Hx. destruct (decide (x ∈ l1)); auto.
    + intros [Hx|[_ Hx]]; auto.
Qed.

Lemma StronglySorted_lookup_le {A} (R : relation A) `{!Reflexive R}
    (l : list A) (i j : nat) (x y : A) :
  StronglySorted R l -> (i <= j)%nat ->
  l !! i = Some x -> l !! j = Some y -> R x y.
Proof.
  intros Hs. revert i j. induction Hs as [|a l Hs IH Hall]; intros i j Hij Hx Hy.
  - discriminate.
  - destruct i as [|i], j as [|j]; simpl in *; try lia.
    + injection Hx as <-. injection Hy as <-. reflexivity.
    + injection Hx as <-. apply (proj1 (Forall_forall _ _) Hall).
      apply list_elem_of_lookup_2 in Hy. exact Hy.
    + apply (IH i j); [lia | exact Hx | exact Hy].
Qed.

Module NearestFacts.
Import Locality NeighborCellFacts CellListFacts ShellFacts IteratorFacts
  SearchFacts KnnFacts KnnSpec
  NeighborCellSpec CellListSpec ShellSpec IteratorSpec SearchSpec.

Lemma bond_le_refl : Reflexive bond_le.
Proof. intros a. unfold bond_le. apply Qle_refl. Qed.

(** the number of shells that the nearest-neighbor query may visit *)
Lemma knn_max_range_spec (lc : LinkCell) :
  let mpd := min_plane_distance (m_box lc) in
  let w := getCellWidth lc in
  (0 < w)%Q -> (0 <= mpd)%Q -> Qceiling (mpd / (2 * w)) + 1 < 2 ^ 31 ->
  1 <= knn_max_range lc /\
  (mpd / 2 <= inject_Z (knn_max_range lc - 1) * w)%Q.
Proof.
  intros mpd w Hw Hm Hfit.
  assert (H2w : (0 < 2 * w)%Q).
  { apply Qmult_lt_0_compat; [reflexivity | exact Hw]. }
  assert (Hq : (0 <= mpd / (2 * w))%Q).
  { apply Qle_shift_div_l; [exact H2w|]. rewrite Qmult_0_l. exact Hm. }
  set (c := Qceiling (mpd / (2 * w))) in *.
  assert (Hc : 0 <= c).
  { rewrite Zle_Qle. eapply Qle_trans; [exact Hq | apply Qle_ceiling]. }
  assert (Hmax : knn_max_range lc = c + 1).
  { unfold knn_max_range. fold mpd w c.
    assert (E : (inject_Z c + 1 == inject_Z (c + 1))%Q)
      by (rewrite inject_Z_plus; reflexivity).
    rewrite LinkCellFacts.float_to_unsigned_nonneg.
    - rewrite (Qfloor_comp _ _ E), Qfloor_Z. reflexivity.
    - rewrite E. change 0%Q with (inject_Z 0). rewrite <- Zle_Qle. lia.
    - rewrite (Qfloor_comp _ _ E), Qfloor_Z. exact Hfit. }
  rewrite Hmax. split; [lia|].
  replace (c + 1 - 1) with c by lia.
  apply Qle_trans with (mpd / (2 * w) * w)%Q.
  - apply Qle_shift_div_r; [reflexivity|].
    assert (E : (mpd / (2 * w) * w * 2 == mpd)%Q).
    { field. intros H. rewrite H in Hw. exact (Qlt_irrefl _ Hw). }
    rewrite E. apply Qle_refl.
  - apply Qmult_le_r; [exact Hw|]. apply Qle_ceiling.
Qed.

Section Nearest.

Context (coordToIndex : vec3 Z -> Z -> Z -> Z -> Z).
Context (getCellCoord : Box -> vec3 Z -> vec3 Q -> vec3 Z).
Context (sqrtf : Q -> Q).

Local Abbreviation getCell := (getCell coordToIndex getCellCoord).
Local Abbreviation knn_next := (knn_next coordToIndex getCellCoord sqrtf).
Local Abbreviation ball_next := (ball_next coordToIndex getCellCoord sqrtf).
Local Abbreviation cell_of_point := (cell_of_point coordToIndex getCellCoord).
Local Abbreviation bucket := (bucket coordToIndex getCellCoord).
Local Abbreviation cell_list_ok := (cell_list_ok coordToIndex getCellCoord).
Local Abbreviation cell_of_offset := (cell_of_offset coordToIndex).
Local Abbreviation point_cell_of := (point_cell_of getCellCoord).
Local Abbreviation test := (test sqrtf).
Local Abbreviation later_points := (later_points coordToIndex getCellCoord).
Local Abbreviation new_LinkCellIterator :=
  (new_LinkCellIterator coordToIndex getCellCoord).
Local Abbreviation construct := (construct coordToIndex getCellCoord).
Local Abbreviation buildable := (buildable coordToIndex getCellCoord).
Local Abbreviation grid_cells := (grid_cells coordToIndex).
Local Abbreviation shell_bound := (shell_bound coordToIndex getCellCoord sqrtf).
Local Abbreviation sqrt_below := (sqrt_below sqrtf).
Local Abbreviation brute_force := (brute_force sqrtf).
Local Abbreviation far := (far coordToIndex getCellCoord).
Local Abbreviation early := (early coordToIndex getCellCoord).
Local Abbreviation passed := (passed coordToIndex getCellCoord).

(** a bond that passes the distance test is not farther than [r_max] *)
Lemma test_within_r_max (lc : LinkCell) (it : LinkCellIterator) (j : Z)
    (b : NeighborBond) :
  sqrt_below -> (0 <= m_r_max it)%Q ->
  test lc it j = Some b -> Qltb (m_r_max it) (distance b) = false.
Proof.
  intros Hsqrt Hr. rewrite test_spec. case_decide as Hw; [|discriminate].
  intros [= <-]. destruct Hw as [Hw _]. unfold within in Hw.
  apply andb_true_iff in Hw as [_ Hw]. apply Qltb_lt in Hw.
  apply Qltb_ge. cbn [distance bond_to]. apply Qlt_le_weak.
  apply (Hsqrt _ _ (r_sq_nonneg lc it j) Hr Hw).
Qed.

(** the initial state of an iterator, once [next] has recorded the cell of
    the query point *)
Lemma initial_passed (lc : LinkCell) (q : vec3 Q) (idx : Z) (r_max r_min : Q)
    (ex : bool) (extra k max_range : Z) :
  let it0 := new_LinkCellIterator lc q idx r_max r_min ex extra k in
  let Sc := {[current_cell coordToIndex getCellCoord lc it0 it0]}
            ∪ m_searched_cells it0 in
  1 <= max_range ->
  passed lc it0 max_range (set_searched_cells Sc it0) []
    (remaining (IteratorCellShell_at 0 (is2D (m_box lc))) max_range).
Proof.
  intros it0 Sc Hmax.
  split; [exact (same_query_refl it0)|]. split; [apply shell_valid_initial|].
  split; [simpl; lia|]. split; [reflexivity|]. split; [reflexivity|].
  split; [symmetry; apply (remaining_initial _ _ Hmax)|].
  split; [intros o Ho; inversion Ho|].
  apply elem_of_union_l, elem_of_singleton. reflexivity.
Qed.


(** the only candidate of a single point is the query point itself *)
Lemma test_single (lc : LinkCell) (it : LinkCellIterator) (l : list Z) :
  m_n_points lc = 1 -> m_exclude_ii it = true -> m_query_point_idx it = 0 ->
  (forall j, j ∈ l -> 0 <= j < m_n_points lc) ->
  omap (test lc it) l = [].
Proof.
  intros Hn Hex Hidx Hl. apply omap_all_None. intros j Hj.
  specialize (Hl j Hj). unfold IteratorSpec.test. rewrite Hex, Hidx.
  replace (0 =? j) with true by (symmetry; apply Z.eqb_eq; lia). reflexivity.
Qed.

(** C9. For a cell list built on a single point, with [exclude_ii] set and
    the index of that point as query index, the first call of [next]
    returns the terminator and ends the sequence, for the ball query and
    for the nearest-neighbor query alike and for every [r_max] and [r_min]:
    both queries yield no bond. The only candidate is skipped by the test
    on the indices, which precedes the distance test. *)
Theorem single_point_no_bonds (box : Box) (cell_width : Q)
    (points : list (vec3 Q)) (lc : LinkCell) (query_point : vec3 Q)
    (r_max r_min : Q) (extra_search_width num_neighbors : Z) :
  let ball_it := new_LinkCellIterator lc query_point 0 r_max r_min true
                   extra_search_width 0 in
  let nearest_it := new_LinkCellIterator lc query_point 0 r_max r_min true
                      0 num_neighbors in
  buildable box cell_width points 1 ->
  construct box cell_width points 1 = Ok lc ->
  (0 < cell_width)%Q ->
  1 <= num_neighbors < UINT_MOD ->
  grid_cells lc ->
  in_grid (m_celldim lc) (point_cell_of lc ball_it) ->
  exists fuel0, forall fuel, (fuel0 <= fuel)%nat ->
    (exists it', ball_next lc fuel ball_it = Some (Ok ITERATOR_TERMINATOR, it') /\
                 m_finished it' = true) /\
    (exists it', knn_next lc fuel nearest_it
                 = Some (Ok ITERATOR_TERMINATOR, it') /\
                 m_finished it' = true) /\
    (forall calls, (1 <= calls)%nat ->
       drain (ball_next lc fuel) calls ball_it = Some (Ok []) /\
       drain (knn_next lc fuel) calls nearest_it = Some (Ok [])).
Proof.
  intros ball_it nearest_it Hbuild Hcons Hw HK Hg Hin.
  destruct (construct_spec coordToIndex getCellCoord box cell_width points
              1 Hbuild)
    as (lc' & Hcons' & Hok & Hbox & Hpts & Hn & Hcw & Hdim & Hsize).
  rewrite Hcons in Hcons'. injection Hcons' as <-.
  destruct (grid_dimensions_ge_1 box cell_width) as (Hdx & Hdy & Hdz).
  rewrite <- Hdim in Hdx, Hdy, Hdz.
  assert (Hw' : (0 < getCellWidth lc)%Q)
    by (unfold getCellWidth; rewrite Hcw; exact Hw).
  set (P := point_cell_of lc ball_it) in *.
  assert (Hcells : forall o, 0 <= cell_of_offset lc P o < m_size lc)
    by (intros o; apply cell_of_offset_range; assumption).
  (* the ball query *)
  assert (Hball : exists fuel1 it',
            (forall fuel, (fuel1 <= fuel)%nat ->
               ball_next lc fuel ball_it = Some (Ok ITERATOR_TERMINATOR, it')) /\
            m_finished it' = true).
  { destruct (ball_stop_range_spec lc ball_it Hw') as (Hs1 & Hstop & Hgo).
    set (stop := ball_stop_range lc ball_it) in *.
    pose proof (initial_Ready coordToIndex getCellCoord lc query_point 0 r_max
                  r_min true extra_search_width 0 stop Hok Hg Hdx Hdy Hdz Hin
                  Hs1) as HReady.
    fold ball_it in HReady.
    pose proof (ball_next_spec coordToIndex getCellCoord sqrtf lc ball_it Hok
                  stop Hcells Hstop Hgo ball_it _ _ HReady) as Hpost.
    rewrite (test_single lc ball_it) in Hpost; [exact Hpost| exact Hn
      | reflexivity | reflexivity |].
    intros j Hj. apply elem_of_app in Hj as [Hj|Hj].
    - destruct HReady as (_ & _ & _ & _ & _ & Hrange & _). exact (Hrange j Hj).
    - apply elem_of_later_points in Hj as (Hj & _). exact Hj. }
  (* the nearest-neighbor query *)
  assert (Hnear : exists fuel2 it',
            (forall fuel, (fuel2 <= fuel)%nat ->
               knn_next lc fuel nearest_it
               = Some (Ok ITERATOR_TERMINATOR, it')) /\
            m_finished it' = true).
  { pose proof (LinkCellFacts.float_to_unsigned_range
                  (inject_Z (Qceiling (min_plane_distance (m_box lc)
                                       / (2 * getCellWidth lc))) + 1))
      as Hmax0.
    fold (knn_max_range lc) in Hmax0.
    destruct (decide (knn_max_range lc = 0)) as [Hz|Hnz].
    - (* no shell at all: the expansion loop is not entered *)
      eexists 1%nat, _. split; [|shelve].
      intros [|fuel] Hf; [lia|].
      unfold Locality.knn_next. cbv zeta.
      cbn [m_current_neighbors nearest_it Locality.new_LinkCellIterator
           set_searched_cells].
      match goal with
      | |- match Locality.knn_expand _ _ _ ?pc _ _ _ ?it with _ => _ end = _ =>
        rewrite (knn_top_last coordToIndex sqrtf lc pc (knn_max_range lc) it fuel)
          by (cbn [m_neigh_cell_iter set_searched_cells]; rewrite Hz; reflexivity)
      end.
      unfold knn_yield.
      cbn [m_count m_num_neighbors m_current_neighbors set_searched_cells
           nearest_it Locality.new_LinkCellIterator length].
      replace (0 <? num_neighbors) with true
        by (symmetry; apply Z.ltb_lt; lia).
      cbn [andb Z.ltb Z.of_nat Z.compare]. reflexivity.
      Unshelve. reflexivity.
    - assert (Hmax1 : 1 <= knn_max_range lc) by lia.
      pose proof (initial_Ready coordToIndex getCellCoord lc query_point 0 r_max
                    r_min true 0 num_neighbors (knn_max_range lc) Hok Hg Hdx
                    Hdy Hdz Hin Hmax1) as HReady.
      fold nearest_it in HReady.
      destruct HReady as (_ & _ & _ & _ & Hlinks & Hrange & _).
      assert (Hhead : m_cell_iter nearest_it <> LINK_CELL_TERMINATOR).
      { cbn [m_cell_iter nearest_it Locality.new_LinkCellIterator].
        unfold itercell. destruct Hok as (Hn0 & Hsum & _).
        destruct (initial_points coordToIndex getCellCoord lc nearest_it 1
                    ltac:(lia) Hin) as [Hc0 _].
        pose proof (Hcells (shell_deref
                              (IteratorCellShell_at 0 (is2D (m_box lc))))) as Hc.
        change (point_cell_of lc nearest_it) with P in Hc0.
        rewrite Hc0 in Hc.
        cbn [m_query_point nearest_it Locality.new_LinkCellIterator] in Hc.
        rewrite to_unsigned_small by lia.
        unfold LINK_CELL_TERMINATOR. unfold UINT_MOD in Hsum. lia. }
      destruct (knn_drain_spec coordToIndex getCellCoord sqrtf lc nearest_it
                  Hok (knn_max_range lc) Hcells HK nearest_it [] _ _ eq_refl
                  eq_refl eq_refl eq_refl
                  (initial_passed lc query_point 0 r_max r_min true 0
                     num_neighbors (knn_max_range lc) Hmax1)
                  Hlinks Hrange Hhead)
        as (fuel0 & calls0 & buf & vis & unvis & _ & Hterm & Htodo & _
            & Hperm & _).
      { intros j b Hj Htest. exfalso.
        assert (Hnone : omap (test lc nearest_it) [j] = []).
        { apply test_single; [exact Hn | reflexivity | reflexivity|].
          intros j' Hj'. apply list_elem_of_singleton in Hj'. subst j'. exact Hj. }
        cbn [omap list_omap] in Hnone. rewrite Htest in Hnone. discriminate. }
      assert (Hbuf : buf = []).
      { apply Permutation_nil_r. rewrite Hperm.
        rewrite (test_single lc nearest_it vis); [reflexivity | exact Hn
          | reflexivity | reflexivity |].
        intros j Hj.
        assert (Hj' : j ∈ vis ++ unvis) by (apply elem_of_app; left; exact Hj).
        rewrite <- Htodo in Hj'. apply elem_of_app in Hj' as [Hj'|Hj'].
        - exact (Hrange j Hj').
        - apply elem_of_later_points in Hj' as (Hj' & _). exact Hj'. }
      destruct (Hterm Hbuf) as (it' & Hnext & Hfin').
      exists fuel0, it'. split; [exact Hnext | exact Hfin']. }
  destruct Hball as (fuel1 & itb & Hb & Hbfin).
  destruct Hnear as (fuel2 & itn & Hk & Hkfin).
  exists (Nat.max fuel1 fuel2). intros fuel Hf.
  split; [exists itb; split; [apply Hb; lia | exact Hbfin]|].
  split; [exists itn; split; [apply Hk; lia | exact Hkfin]|].
  intros [|calls] Hc; [lia|]. cbn [drain].
  rewrite (Hb fuel) by lia. rewrite (Hk fuel) by lia.
  rewrite Hbfin, Hkfin. split; reflexivity.
Qed.

End Nearest.

End NearestFacts.

Module ErrorFacts.
Import Locality LinkCellFacts
  LinkCellSpec.

(** what the accumulation and the reduction raise by themselves: an access
    out of the bounds of an array, never a configuration error *)
Lemma accumulate_bond_raises {T} (T0 : T) (Tadd Tmul : T -> T -> T)
    (values query_values : list T) (dr_inv : Q) (tid : nat) (b : NeighborBond) :
  raises_only (fun e => e = out_of_range)
    (Correlation.accumulate_bond T0 Tadd Tmul values query_values dr_inv tid b).
Proof.
  unfold Correlation.accumulate_bond. cbv zeta.
  apply raises_only_bind; [apply raises_only_gets|]. intros nbins.
  destruct (_ <? nbins); [|apply raises_only_ret].
  apply raises_only_bind; [apply raises_only_gets|]. intros lcnt.
  apply raises_only_bind; [apply raises_only_read; reflexivity|]. intros c.
  apply raises_only_bind.
  { unfold write. case_decide; [apply raises_only_modify|].
    apply raises_only_throw. reflexivity. }
  intros _.
  apply raises_only_bind; [apply raises_only_gets|]. intros lrdf.
  apply raises_only_bind; [apply raises_only_read; reflexivity|]. intros r.
  apply raises_only_bind; [apply raises_only_read; reflexivity|]. intros v.
  apply raises_only_bind; [apply raises_only_read; reflexivity|]. intros q.
  unfold write. case_decide; [apply raises_only_modify|].
  apply raises_only_throw. reflexivity.
Qed.

Lemma accumulate_raises {T} (T0 : T) (Tadd Tmul : T -> T -> T) (box : Box)
    (values query_values : list T) (bonds : list (nat * NeighborBond)) :
  raises_only (fun e => e = out_of_range)
    (Correlation.accumulate T0 Tadd Tmul box values query_values (Ok bonds)).
Proof.
  unfold Correlation.accumulate.
  apply raises_only_bind; [apply raises_only_modify|]. intros _.
  apply raises_only_bind; [apply raises_only_gets|]. intros dr.
  apply raises_only_bind.
  { unfold Correlation.loopOverNeighbors. apply raises_only_for_each.
    intros tb. apply accumulate_bond_raises. }
  intros _. apply raises_only_bind; apply raises_only_modify || intros _.
  apply raises_only_modify.
Qed.

(** a failure of the neighbor source ends the accumulation at once; only
    the box has been assigned by then *)
Lemma accumulate_rejected {T} (T0 : T) (Tadd Tmul : T -> T -> T) (box : Box)
    (values query_values : list T) (e : exn) (s : Correlation.CorrelationFunction) :
  Correlation.accumulate T0 Tadd Tmul box values query_values (Throw e) s
  = (Throw e, Correlation.set_box box s).
Proof. reflexivity. Qed.

End ErrorFacts.

Module ExampleFacts.
Import Locality NeighborCellFacts CellListFacts ShellFacts IteratorFacts
  SearchFacts KnnFacts KnnSpec NearestFacts LinkCellFacts GridExamples
  LinkCellSpec NeighborCellSpec CellListSpec ShellSpec IteratorSpec SearchSpec.

Lemma Qsquare_le (a b : Q) : (0 <= a)%Q -> (a <= b)%Q -> (a * a <= b * b)%Q.
Proof.
  intros Ha Hab. apply Qle_trans with (a * b)%Q.
  - rewrite (Qmult_comm a b). apply Qmult_le_compat_r; assumption.
  - apply Qmult_le_compat_r; [exact Hab|]. eapply Qle_trans; eassumption.
Qed.

Lemma ex_sqrt_below : sqrt_below ex_sqrt.
Proof.
  intros x r Hx Hr Hlt. unfold ex_sqrt.
  set (n := Qfloor (x * 1000000)).
  assert (Hn : 0 <= n).
  { apply Qfloor_nonneg. apply Qmult_le_0_compat; [exact Hx | discriminate]. }
  pose proof (Z.sqrt_spec n Hn) as [Hs _].
  pose proof (Z.sqrt_nonneg n) as Hs0.
  set (s := Z.sqrt n) in *.
  apply Qlt_shift_div_r; [reflexivity|].
  destruct (Qlt_le_dec (inject_Z s) (r * 1000)) as [H|H]; [exact H|].
  exfalso.
  assert (H1 : (r * 1000 * (r * 1000) <= inject_Z s * inject_Z s)%Q).
  { apply Qsquare_le; [|exact H].
    apply Qmult_le_0_compat; [exact Hr | discriminate]. }
  assert (H2 : (inject_Z s * inject_Z s <= x * 1000000)%Q).
  { rewrite <- inject_Z_mult. eapply Qle_trans; [|apply Qfloor_le].
    fold n. rewrite <- Zle_Qle. exact Hs. }
  assert (H3 : (x * 1000000 < r * 1000 * (r * 1000))%Q).
  { assert (E : (r * 1000 * (r * 1000) == r * r * 1000000)%Q) by ring.
    rewrite E. apply Qmult_lt_r; [reflexivity | exact Hlt]. }
  apply (Qlt_irrefl (x * 1000000)).
  eapply Qlt_le_trans; [exact H3|]. eapply Qle_trans; eassumption.
Qed.

Section Bound.

Context (coordToIndex : vec3 Z -> Z -> Z -> Z -> Z).
Context (getCellCoord : Box -> vec3 Z -> vec3 Q -> vec3 Z).
Context (sqrtf : Q -> Q).

(** the geometric contract holds when every point has an offset that leads
    to its cell and whose shell is not farther than the point *)
Lemma shell_bound_by_offsets (lc : LinkCell) (it : LinkCellIterator)
    (near : Z -> vec3 Z) :
  (0 <= getCellWidth lc)%Q ->
  (forall j, 0 <= j < m_n_points lc ->
     offset_ok (is2D (m_box lc)) (near j) /\
     cell_of_offset coordToIndex lc (point_cell_of getCellCoord lc it) (near j)
     = cell_of_point coordToIndex getCellCoord lc j /\
     (inject_Z (chebyshev (near j) - 1) * getCellWidth lc
      <= sqrtf (r_sq lc it j))%Q) ->
  shell_bound coordToIndex getCellCoord sqrtf lc it.
Proof.
  intros Hw Hnear j R Hj Hfar.
  destruct (Hnear j Hj) as (Hok & Hcell & Hle).
  specialize (Hfar (near j) Hok Hcell).
  eapply Qle_trans; [|exact Hle].
  apply Qmult_le_compat_r; [|exact Hw]. rewrite <- Zle_Qle. lia.
Qed.

End Bound.

Local Abbreviation ex_it extra k :=
  (new_LinkCellIterator ex_coordToIndex ex_getCellCoord ex_lc
     (mk_vec3 0 0 0)%Q 0 2 0 true extra k).

Lemma ex_lc_built :
  construct ex_coordToIndex ex_getCellCoord (cubic_box 4) 1 ex_points 3
  = Ok ex_lc.
Proof. vm_compute. reflexivity. Qed.

Lemma ex_lc1_built :
  construct ex_coordToIndex ex_getCellCoord (cubic_box 4) 1
    [mk_vec3 0 0 0]%Q 1
  = Ok ex_lc1.
Proof. vm_compute. reflexivity. Qed.

Lemma ex_box_large : ~ box_too_small (cubic_box 4) 1.
Proof.
  unfold box_too_small. cbn. intros [H|[H|[_ H]]]; revert H; apply Qle_not_lt;
    discriminate.
Qed.

Lemma ex_buildable (points : list (vec3 Q)) :
  (0 < length points < 1000)%nat ->
  Forall (fun p =>
    let c := ex_getCellCoord (cubic_box 4) (mk_vec3 4 4 4) p in
    0 <= ex_coordToIndex (mk_vec3 4 4 4) (vx c) (vy c) (vz c) < 64) points ->
  buildable ex_coordToIndex ex_getCellCoord (cubic_box 4) 1 points
    (Z.of_nat (length points)).
Proof.
  intros Hlen Hall.
  split; [exact ex_box_large|]. split; [lia|]. split; [reflexivity|].
  assert (Hs : grid_size (cubic_box 4) 1 = 64) by (vm_compute; reflexivity).
  assert (Hd : grid_dimensions (cubic_box 4) 1 = mk_vec3 4 4 4)
    by (vm_compute; reflexivity).
  rewrite Hs, Hd.
  split; [lia|]. split; [unfold UINT_MOD; lia|].
  intros p Hp. exact (proj1 (Forall_forall _ _) Hall p Hp).
Qed.

Lemma ex_lc_buildable :
  buildable ex_coordToIndex ex_getCellCoord (cubic_box 4) 1 ex_points 3.
Proof.
  apply (ex_buildable ex_points); [simpl; lia|].
  unfold ex_points.
  repeat (constructor; [vm_compute; split; [discriminate | reflexivity]|]).
  constructor.
Qed.

Lemma ex_lc1_buildable :
  buildable ex_coordToIndex ex_getCellCoord (cubic_box 4) 1
    [mk_vec3 0 0 0]%Q 1.
Proof.
  apply (ex_buildable [mk_vec3 0 0 0]%Q); [simpl; lia|].
  unfold ex_points.
  repeat (constructor; [vm_compute; split; [discriminate | reflexivity]|]).
  constructor.
Qed.

Lemma ex_grid_cells (lc : LinkCell) :
  m_celldim lc = mk_vec3 4 4 4 -> m_size lc = 64 ->
  grid_cells ex_coordToIndex lc.
Proof.
  intros Hd Hs x y z. rewrite Hd, Hs. unfold in_grid, ex_coordToIndex. simpl.
  lia.
Qed.

Lemma ex_lc_grid_cells : grid_cells ex_coordToIndex ex_lc.
Proof. apply ex_grid_cells; vm_compute; reflexivity. Qed.

Lemma ex_lc1_grid_cells : grid_cells ex_coordToIndex ex_lc1.
Proof. apply ex_grid_cells; vm_compute; reflexivity. Qed.

Lemma ex_lc_in_grid (extra k : Z) :
  in_grid (m_celldim ex_lc) (point_cell_of ex_getCellCoord ex_lc (ex_it extra k)).
Proof. vm_compute. repeat split; first [reflexivity | discriminate]. Qed.

Lemma ex_lc_shell_bound (extra k : Z) :
  shell_bound ex_coordToIndex ex_getCellCoord ex_sqrt ex_lc (ex_it extra k).
Proof.
  apply (shell_bound_by_offsets _ _ _ _ _ ex_near); [vm_compute; discriminate|].
  intros j Hj.
  assert (Hn : m_n_points ex_lc = 3) by (vm_compute; reflexivity).
  assert (H2D : is2D (m_box ex_lc) = false) by (vm_compute; reflexivity).
  rewrite Hn in Hj. clear Hn.
  split; [intros H; rewrite H2D in H; discriminate H|].
  assert (Hc : j = 0 \/ j = 1 \/ j = 2) by lia.
  destruct Hc as [Hc|[Hc|Hc]]; subst j;
    (split; [vm_compute; reflexivity | vm_compute; discriminate]).
Qed.

End ExampleFacts.

Module ConfigurationFacts.
Import Locality NeighborCellFacts CellListFacts LinkCellFacts ErrorFacts
  Examples GridExamples
  LinkCellSpec NeighborCellSpec CellListSpec.

Section BoxCheck.

Context (coordToIndex : vec3 Z -> Z -> Z -> Z -> Z).
Context (getCellCoord : Box -> vec3 Z -> vec3 Q -> vec3 Z).

Local Abbreviation construct := (construct coordToIndex getCellCoord).
Local Abbreviation buildable := (buildable coordToIndex getCellCoord).

Lemma construct_box_error (box : Box) (w : Q) (points : list (vec3 Q))
    (n_points : Z) :
  construct box w points n_points = Throw box_error <-> box_too_small box w.
Proof.
  destruct (constructor_box_check coordToIndex getCellCoord box w points
              n_points) as [Hif Honly].
  unfold Locality.construct. split.
  - intros H.
    destruct (constructor_body coordToIndex getCellCoord box points n_points
                (initial box w points n_points)) as [[u|e] s'] eqn:E;
      [discriminate|].
    injection H as ->. exact (Honly s' eq_refl).
  - intros H. rewrite (Hif H). reflexivity.
Qed.

(** C3. The constructor of the cell list raises the error of a cell width
    larger than half the box exactly when [cell_width * 2] is strictly
    greater than the nearest plane distance along the first or the second
    axis or, in 3D, along the third. The boundary is accepted: when
    [cell_width * 2] equals the nearest plane distances the check passes,
    and the construction succeeds whenever the cell list is buildable. *)
Theorem construct_box_check_strict (box : Box) (cell_width : Q)
    (points : list (vec3 Q)) (n_points : Z) :
  let d := getNearestPlaneDistance box in
  (construct box cell_width points n_points = Throw box_error <->
   (vx d < cell_width * 2 \/ vy d < cell_width * 2 \/
    (is2D box = false /\ vz d < cell_width * 2))%Q) /\
  ((cell_width * 2 == vx d)%Q -> (cell_width * 2 == vy d)%Q ->
   (cell_width * 2 == vz d)%Q ->
   construct box cell_width points n_points <> Throw box_error) /\
  (buildable box cell_width points n_points ->
   exists lc, construct box cell_width points n_points = Ok lc).
Proof.
  cbv zeta. split; [apply construct_box_error|]. split.
  - intros Hx Hy Hz H. apply construct_box_error in H.
    destruct H as [H|[H|[_ H]]]; revert H; apply Qle_not_lt.
    + rewrite Hx. apply Qle_refl.
    + rewrite Hy. apply Qle_refl.
    + rewrite Hz. apply Qle_refl.
  - intros Hb.
    destruct (construct_spec coordToIndex getCellCoord box cell_width points
                n_points Hb) as (lc & Hlc & _).
    exists lc. exact Hlc.
Qed.

End BoxCheck.

(** A cell width of exactly half the thickness of the box is accepted. *)
Lemma half_thickness_accepted :
  (1 * 2 == vx (getNearestPlaneDistance (cubic_box 2)))%Q /\
  (1 * 2 == vy (getNearestPlaneDistance (cubic_box 2)))%Q /\
  (1 * 2 == vz (getNearestPlaneDistance (cubic_box 2)))%Q /\
  exists lc,
    Locality.construct ex_coordToIndex ex_getCellCoord (cubic_box 2) 1
      [mk_vec3 0 0 0]%Q 1 = Ok lc.
Proof.
  split; [reflexivity|]. split; [reflexivity|]. split; [reflexivity|].
  eexists. vm_compute. reflexivity.
Qed.

(** C6. The configuration errors that the sources raise come before any
    assignment to the object concerned: the constructor of the correlation
    function rejects a non-positive bin width, a non-positive [r_max] and a
    bin width above [r_max] with the object as the member initializers left
    it, and no object results; the constructor of the cell list rejects a
    cell width above half the box in the same way; [computeCellList] rejects
    an empty point set without a change to the object; [querySingle] raises
    whatever the validation of the query arguments raises, before it builds
    an iterator. A rejection by the neighbor source ends [accumulate] with
    the histograms, the frame counter and the flag [m_reduce] untouched; the
    member [m_box] has been assigned by then. Once the bonds are produced,
    accumulation and reduction raise no configuration error. *)
Theorem configuration_errors_come_first :
  (forall (T : Type) (T0 : T) (r_max dr : Q),
     (dr <= 0 \/ r_max <= 0 \/ r_max < dr)%Q ->
     exists what,
       Correlation.constructor_body T0 r_max dr (Correlation.initial r_max dr)
       = (Throw (invalid_argument what), Correlation.initial r_max dr) /\
       Correlation.construct T0 r_max dr = Throw (invalid_argument what)) /\
  (forall coordToIndex getCellCoord box cell_width points n_points,
     box_too_small box cell_width ->
     constructor_body coordToIndex getCellCoord box points n_points
       (initial box cell_width points n_points)
     = (Throw box_error, initial box cell_width points n_points)) /\
  (forall coordToIndex getCellCoord s points,
     computeCellList coordToIndex getCellCoord points 0 s
     = (Throw empty_error, s)) /\
  (forall coordToIndex getCellCoord validateQueryArgs extra_search_width lc
          query_point query_point_idx args e,
     validateQueryArgs args = Throw e ->
     querySingle coordToIndex getCellCoord validateQueryArgs
       extra_search_width lc query_point query_point_idx args = Throw e) /\
  (forall (T : Type) (T0 : T) (Tadd Tmul : T -> T -> T) box values
          query_values e s,
     Correlation.accumulate T0 Tadd Tmul box values query_values (Throw e) s
     = (Throw e, Correlation.set_box box s)) /\
  (forall (T : Type) (T0 : T) (Tadd Tmul : T -> T -> T) box values
          query_values bonds,
     raises_only (fun e => e = out_of_range)
       (Correlation.accumulate T0 Tadd Tmul box values query_values
          (Ok bonds))) /\
  (forall (T : Type) (T0 : T) (Tadd : T -> T -> T) (Tdiv : T -> Z -> T),
     raises_only (fun e => e = out_of_range)
       (Correlation.reduceCorrelationFunction T0 Tadd Tdiv)).
Proof.
  split.
  { intros T T0 r_max dr H.
    destruct (CorrelationFacts.constructor_rejects T0 r_max dr H) as [what Hw].
    exists what. split; [exact Hw|]. unfold Correlation.construct.
    rewrite Hw. reflexivity. }
  split.
  { intros coordToIndex getCellCoord box w points n H.
    exact (proj1 (constructor_box_check coordToIndex getCellCoord box w points n)
             H). }
  split; [intros; apply computeCellList_empty|].
  split.
  { intros coordToIndex getCellCoord validate extra lc q idx args e H.
    unfold querySingle. rewrite H. reflexivity. }
  split; [intros; apply accumulate_rejected|].
  split; [intros; apply accumulate_raises|].
  intros. apply CorrelationFacts.reduce_never_divides_by_zero.
Qed.

(** A rejection by the neighbor source leaves the box of the new frame in
    the object. *)
Lemma accumulate_failure_assigns_box :
  exists s',
    Correlation.accumulate 0 Z.add Z.mul (cubic_box 4) ex_values
      ex_query_values (Throw (invalid_argument "r_min > r_max")) ex_cf
    = (Throw (invalid_argument "r_min > r_max"), s') /\
    vx (getNearestPlaneDistance (Correlation.m_box ex_cf)) = 0%Q /\
    vx (getNearestPlaneDistance (Correlation.m_box s')) = 4%Q.
Proof.
  eexists. split; [reflexivity|]. split; vm_compute; reflexivity.
Qed.

End ConfigurationFacts.

Module Witnesses.
Import Locality NeighborCellFacts CellListFacts ShellFacts IteratorFacts
  SearchFacts KnnFacts KnnSpec NearestFacts LinkCellFacts GridExamples
  ExampleFacts ConfigurationFacts
  LinkCellSpec NeighborCellSpec CellListSpec ShellSpec IteratorSpec SearchSpec.

(** the grid of the example: 4 cells along every axis *)
Lemma ex_lc_grid_ok : grid_ok ex_lc.
Proof.
  assert (Hd : m_celldim ex_lc = mk_vec3 4 4 4) by (vm_compute; reflexivity).
  assert (H2 : is2D (m_box ex_lc) = false) by (vm_compute; reflexivity).
  unfold grid_ok. rewrite Hd, H2. simpl. repeat split; try lia.
Qed.

(** the index conversions of the example are inverse to each other *)
Lemma ex_lc_grid_layout : grid_layout ex_getMultiIndex ex_coordToIndex ex_lc.
Proof.
  assert (Hd : m_celldim ex_lc = mk_vec3 4 4 4) by (vm_compute; reflexivity).
  unfold grid_layout, indexToCoord, in_grid. rewrite Hd.
  unfold ex_getMultiIndex, ex_coordToIndex. cbn -[Z.mul Z.div Z.modulo Z.add].
  split.
  - intros c Hc. change (4 * 4) with 16 in *.
    repeat split; Z.div_mod_to_equations; lia.
  - intros x y z Hin. change (4 * 4) with 16 in *.
    split; [lia|]. f_equal; Z.div_mod_to_equations; lia.
Qed.

(** The neighbors of cell 0 in the example grid. *)
Lemma computeCellNeighbors_shell_witness :
  grid_ok ex_lc /\ grid_layout ex_getMultiIndex ex_coordToIndex ex_lc /\
  exists neighbor_cells,
    computeCellNeighbors ex_getMultiIndex ex_coordToIndex 0 ex_lc =
      (Ok neighbor_cells,
       set_cell_neighbors (<[0 := neighbor_cells]> (m_cell_neighbors ex_lc))
         ex_lc) /\
    NoDup neighbor_cells /\ Sorted Z.le neighbor_cells.
Proof.
  split; [exact ex_lc_grid_ok|]. split; [exact ex_lc_grid_layout|].
  destruct (computeCellNeighbors_shell ex_getMultiIndex ex_coordToIndex ex_lc 0
              ex_lc_grid_ok ex_lc_grid_layout)
    as (cells & Hrun & Hnd & Hsorted & _).
  - vm_compute. split; [discriminate | reflexivity].
  - exists cells. auto.
Defined.



(** the cell of the query point in the example of a single point *)
Lemma ex_lc1_in_grid (extra k : Z) :
  in_grid (m_celldim ex_lc1)
    (point_cell_of ex_getCellCoord ex_lc1
       (new_LinkCellIterator ex_coordToIndex ex_getCellCoord ex_lc1
          (mk_vec3 0 0 0)%Q 0 2 0 true extra k)).
Proof. vm_compute. repeat split; first [reflexivity | discriminate]. Qed.

(** A single point in a box of side 4: both queries around it are empty. *)
Lemma single_point_no_bonds_witness :
  buildable ex_coordToIndex ex_getCellCoord (cubic_box 4) 1
    [mk_vec3 0 0 0]%Q 1 /\
  construct ex_coordToIndex ex_getCellCoord (cubic_box 4) 1
    [mk_vec3 0 0 0]%Q 1 = Ok ex_lc1 /\
  exists fuel0, forall fuel, (fuel0 <= fuel)%nat ->
    drain (ball_next ex_coordToIndex ex_getCellCoord ex_sqrt ex_lc1 fuel) 1
      (new_LinkCellIterator ex_coordToIndex ex_getCellCoord ex_lc1
         (mk_vec3 0 0 0)%Q 0 2 0 true 1 0)
    = Some (Ok []) /\
    drain (knn_next ex_coordToIndex ex_getCellCoord ex_sqrt ex_lc1 fuel) 1
      (new_LinkCellIterator ex_coordToIndex ex_getCellCoord ex_lc1
         (mk_vec3 0 0 0)%Q 0 2 0 true 0 1)
    = Some (Ok []).
Proof.
  split; [exact ex_lc1_buildable|]. split; [exact ex_lc1_built|].
  destruct (single_point_no_bonds ex_coordToIndex ex_getCellCoord ex_sqrt
              (cubic_box 4) 1 [mk_vec3 0 0 0]%Q ex_lc1 (mk_vec3 0 0 0)%Q 2 0 1 1
              ex_lc1_buildable ex_lc1_built)
    as (fuel0 & Hrun).
  - reflexivity.
  - unfold UINT_MOD. lia.
  - exact ex_lc1_grid_cells.
  - exact (ex_lc1_in_grid 1 0).
  - exists fuel0. intros fuel Hf.
    destruct (Hrun fuel Hf) as (_ & _ & Hdrain).
    exact (Hdrain 1%nat (Nat.le_refl 1)).
Defined.

End Witnesses.

(** ** Further properties of the cell list *)

Module CellListLaws.
Import Locality NeighborCellFacts CellListFacts LinkCellFacts SearchFacts
  GridExamples ExampleFacts
  LinkCellSpec NeighborCellSpec CellListSpec.

Lemma StronglySorted_seqZ (a len : Z) : StronglySorted Z.lt (seqZ a len).
Proof.
  destruct (Z.le_gt_cases len 0) as [H|H].
  - rewrite seqZ_nil by lia. constructor.
  - rewrite <- (Z2Nat.id len) by lia. generalize (Z.to_nat len). clear H.
    intros k. revert a. induction k as [|k IH]; intros a.
    + constructor.
    + rewrite Nat2Z.inj_succ, seqZ_cons by lia.
      replace (Z.pred (Z.succ (Z.of_nat k))) with (Z.of_nat k) by lia.
      constructor; [apply IH|].
      apply Forall_forall. intros x Hx. apply elem_of_seqZ in Hx. lia.
Qed.

Lemma StronglySorted_filter {A} (R : relation A) (P : A -> Prop)
    `{forall x, Decision (P x)} (l : list A) :
  StronglySorted R l -> StronglySorted R (filter P l).
Proof.
  induction 1 as [|x l Hl IH Hx]; [constructor|].
  rewrite filter_cons. case_decide; [|exact IH].
  constructor; [exact IH|].
  apply Forall_forall. intros y Hy. apply list_elem_of_filter in Hy as [_ Hy].
  rewrite Forall_forall in Hx. exact (Hx y Hy).
Qed.

Section CellList.

Context (coordToIndex : vec3 Z -> Z -> Z -> Z -> Z).
Context (getCellCoord : Box -> vec3 Z -> vec3 Q -> vec3 Z).

Local Abbreviation getCell := (getCell coordToIndex getCellCoord).
Local Abbreviation computeCellList := (computeCellList coordToIndex getCellCoord).
Local Abbreviation construct := (construct coordToIndex getCellCoord).
Local Abbreviation constructor_body := (constructor_body coordToIndex getCellCoord).
Local Abbreviation cell_of_point := (cell_of_point coordToIndex getCellCoord).
Local Abbreviation bucket := (bucket coordToIndex getCellCoord).
Local Abbreviation cell_list_ok := (cell_list_ok coordToIndex getCellCoord).
Local Abbreviation buildable := (buildable coordToIndex getCellCoord).

(** X1. The constructor lays the points out as one chain per cell: the cell
    list has a slot for every point and a head slot for every cell, every
    point lies in a cell of the grid, and the chain that starts at the head
    slot [n_points + c] of a cell [c] runs through exactly the indices of
    the points of that cell, in ascending order, before it reaches the
    terminator. *)
Theorem cell_list_partition (box : Box) (w : Q) (points : list (vec3 Q))
    (n_points : Z) :
  buildable box w points n_points ->
  exists lc,
    construct box w points n_points = Ok lc /\
    Z.of_nat (length (m_cell_list lc)) = n_points + m_size lc /\
    (forall j, 0 <= j < n_points -> 0 <= cell_of_point lc j < m_size lc) /\
    (forall c, 0 <= c < m_size lc ->
       exists js,
         links (m_cell_list lc) (n_points + c) js /\
         StronglySorted Z.lt js /\
         forall j, j ∈ js <-> 0 <= j < n_points /\ cell_of_point lc j = c).
Proof.
  intros Hbuild.
  destruct (construct_spec coordToIndex getCellCoord box w points n_points
              Hbuild)
    as (lc & Hcons & Hok & _ & _ & Hn & _).
  destruct Hok as (_ & _ & _ & _ & Hlen & Hcell & Hchain).
  rewrite Hn in Hlen, Hcell, Hchain.
  exists lc. split; [exact Hcons|]. split; [exact Hlen|].
  split; [exact Hcell|].
  intros c Hc. exists (bucket lc c). split; [exact (Hchain c Hc)|].
  split.
  - apply StronglySorted_filter, StronglySorted_seqZ.
  - intros j. rewrite elem_of_bucket, Hn. reflexivity.
Qed.

(** the constructor, case by case *)
Lemma construct_cases (box : Box) (w : Q) (points : list (vec3 Q))
    (n_points : Z) :
  let d := getNearestPlaneDistance box in
  construct box w points n_points =
    if Qltb (vx d) (w * 2) || Qltb (vy d) (w * 2)
       || (negb (is2D box) && Qltb (vz d) (w * 2))
    then Throw box_error
    else if grid_size box w <? 1
    then Throw (runtime_error "At least one cell must be present.")
    else
      match computeCellList points n_points
              (set_celldim (grid_dimensions box w)
                 (set_size (grid_size box w)
                    (initial box w points n_points))) with
      | (Ok _, s) => Ok s
      | (Throw e, _) => Throw e
      end.
Proof.
  cbv zeta. unfold Locality.construct, Locality.constructor_body.
  rewrite bind_gets. cbn [m_cell_width initial].
  destruct (Qltb (vx (getNearestPlaneDistance box)) (w * 2)
            || Qltb (vy (getNearestPlaneDistance box)) (w * 2)
            || negb (is2D box) && Qltb (vz (getNearestPlaneDistance box)) (w * 2));
    [reflexivity|].
  fold (grid_dimensions box w). rewrite bind_modify, bind_gets.
  cbn [m_size set_size]. fold (grid_size box w).
  destruct (grid_size box w <? 1); [reflexivity|].
  rewrite bind_modify. reflexivity.
Qed.

(** X2. The errors of the constructor, in the order in which it checks: a
    box that is too small for the cell width is reported first, whatever
    the points are; then a grid whose number of cells, computed on
    [unsigned int], is 0; then an empty point set. As every dimension is at
    least 1, the error of a grid without cells can only come from a product
    of the dimensions that does not fit [unsigned int]. Nothing else is
    raised but the error of an access outside an array. *)
Theorem construct_error_order (box : Box) (w : Q) (points : list (vec3 Q))
    (n_points : Z) :
  let d := grid_dimensions box w in
  let no_cells := runtime_error "At least one cell must be present." in
  (box_too_small box w ->
   construct box w points n_points = Throw box_error) /\
  (~ box_too_small box w -> grid_size box w = 0 ->
   construct box w points n_points = Throw no_cells) /\
  (~ box_too_small box w -> 1 <= grid_size box w -> n_points = 0 ->
   construct box w points n_points = Throw empty_error) /\
  (vx d * vy d * vz d < UINT_MOD ->
   construct box w points n_points <> Throw no_cells) /\
  (forall e, construct box w points n_points = Throw e ->
     e = box_error \/ e = no_cells \/ e = empty_error \/ e = out_of_range).
Proof.
  intros d no_cells.
  pose proof (construct_cases box w points n_points) as Hc. cbv zeta in Hc.
  pose proof (box_check_spec box w) as Hb. cbv zeta in Hb.
  assert (Hlist : forall s e,
            match computeCellList points n_points s with
            | (Ok _, s') => Ok s'
            | (Throw e', _) => Throw e'
            end = Throw e -> e = empty_error \/ e = out_of_range).
  { intros s e H.
    destruct (computeCellList points n_points s) as [[u|e'] s'] eqn:E;
      [discriminate|].
    injection H as ->.
    destruct (computeCellList_raises coordToIndex getCellCoord points n_points
                s e s' E) as [H|[H _]]; subst e; auto. }
  destruct (Qltb (vx (getNearestPlaneDistance box)) (w * 2)
            || Qltb (vy (getNearestPlaneDistance box)) (w * 2)
            || negb (is2D box) && Qltb (vz (getNearestPlaneDistance box)) (w * 2))
    eqn:Echeck.
  - (* the box is too small *)
    assert (Hsmall : box_too_small box w) by (apply Hb; reflexivity).
    rewrite Hc. repeat split.
    + intros H _. contradiction.
    + intros H _ _. contradiction.
    + intros _. discriminate.
    + intros e [= <-]. left. reflexivity.
  - assert (Hlarge : ~ box_too_small box w).
    { intros H. apply Hb in H. discriminate. }
    destruct (Z.ltb_spec (grid_size box w) 1) as [Hsize|Hsize].
    + (* no cell *)
      rewrite Hc.
      assert (H0 : grid_size box w = 0).
      { unfold CellListSpec.grid_size, to_unsigned in *.
        pose proof (Z.mod_pos_bound
                      (vx (grid_dimensions box w) * vy (grid_dimensions box w)
                       * vz (grid_dimensions box w)) UINT_MOD ltac:(reflexivity)).
        lia. }
      repeat split.
      * intros H. contradiction.
      * intros _ H. lia.
      * intros Hfit _.
        destruct (grid_dimensions_ge_1 box w)
          as (Hx & Hy & Hz).
        fold d in Hx, Hy, Hz.
        unfold CellListSpec.grid_size, to_unsigned in H0. fold d in H0.
        rewrite Z.mod_small in H0 by nia. nia.
      * intros e [= <-]. right. left. reflexivity.
    + rewrite Hc. repeat split.
      * intros H. contradiction.
      * intros _ H. lia.
      * intros _ _ ->. reflexivity.
      * intros _ H. apply Hlist in H as [H|H]; discriminate.
      * intros e H. apply Hlist in H as [H|H]; subst e; auto.
Qed.

End CellList.

Section Neighbors.

Context (getMultiIndex : list Z -> Z -> list Z).
Context (coordToIndex : vec3 Z -> Z -> Z -> Z -> Z).

Local Abbreviation indexToCoord := (indexToCoord getMultiIndex).
Local Abbreviation neighbor_cells_of := (neighbor_cells_of getMultiIndex coordToIndex).
Local Abbreviation computeCellNeighbors := (computeCellNeighbors getMultiIndex coordToIndex).
Local Abbreviation grid_layout := (grid_layout getMultiIndex coordToIndex).

Lemma length_bind_const {A B} (f : A -> list B) (k : nat) (l : list A) :
  (forall x, length (f x) = k) -> length (l ≫= f) = (length l * k)%nat.
Proof.
  intros Hf. induction l as [|x l IH]; [reflexivity|].
  rewrite bind_cons, length_app, Hf, IH. simpl. lia.
Qed.

Lemma axis_cells_length (dim a : Z) :
  1 <= dim < 2 ^ 31 -> 0 <= a < dim ->
  Z.of_nat (length (axis_cells dim a)) = Z.min 3 dim.
Proof.
  intros Hd Ha.
  destruct (axis_cells_cases dim a Hd Ha) as [[-> ->]|[[-> ->]|[H3 ->]]];
    simpl; lia.
Qed.

(** the neighbor list does not depend on the lists computed before *)
Lemma neighbor_cells_of_cache (m : gmap Z (list Z)) (s : LinkCell) (c : Z) :
  neighbor_cells_of (set_cell_neighbors m s) c = neighbor_cells_of s c.
Proof. reflexivity. Qed.

Lemma computeCellNeighbors_eq (s : LinkCell) (cur_cell : Z) :
  computeCellNeighbors cur_cell s =
    (Ok (sort_cells (neighbor_cells_of s cur_cell)),
     set_cell_neighbors
       (<[cur_cell := sort_cells (neighbor_cells_of s cur_cell)]>
          (m_cell_neighbors s)) s).
Proof. reflexivity. Qed.

Lemma elem_of_sort_cells (l : list Z) (c : Z) : c ∈ sort_cells l <-> c ∈ l.
Proof. unfold sort_cells. rewrite merge_sort_Permutation. reflexivity. Qed.


Lemma axis_distance_sym (dim a b : Z) :
  axis_distance dim a b = axis_distance dim b a.
Proof. unfold axis_distance. apply Z.min_comm. Qed.

Lemma cell_distance_sym (d a b : vec3 Z) :
  cell_distance d a b = cell_distance d b a.
Proof.
  unfold cell_distance.
  rewrite (axis_distance_sym (vx d)), (axis_distance_sym (vy d)),
    (axis_distance_sym (vz d)). reflexivity.
Qed.

Lemma cell_distance_refl (d a : vec3 Z) : cell_distance d a a = 0.
Proof.
  unfold cell_distance, axis_distance. rewrite !Z.sub_diag, !Zmod_0_l.
  reflexivity.
Qed.

(** X4. Being a neighbor cell is a reflexive and symmetric relation: the
    list of a cell holds the cell itself, and it holds a cell [b] exactly
    when the list of [b], computed afterwards on the same object, holds the
    cell. Both lists are then in the table of the object. *)
Theorem computeCellNeighbors_symmetric (s : LinkCell) (a b : Z) :
  let d := m_celldim s in
  let N := vx d * vy d * vz d in
  grid_ok s -> grid_layout s -> 0 <= a < N -> 0 <= b < N ->
  exists la lb s1 s2,
    computeCellNeighbors a s = (Ok la, s1) /\
    computeCellNeighbors b s1 = (Ok lb, s2) /\
    a ∈ la /\ (b ∈ la <-> a ∈ lb) /\
    m_cell_neighbors s2 !! b = Some lb /\
    (a <> b -> m_cell_neighbors s2 !! a = Some la).
Proof.
  intros d N Hok Hlay Ha Hb.
  rewrite computeCellNeighbors_eq.
  eexists _, _, _, _. split; [reflexivity|].
  rewrite computeCellNeighbors_eq, neighbor_cells_of_cache.
  split; [reflexivity|].
  destruct (neighbor_cells_of_spec getMultiIndex coordToIndex s a Hok Hlay Ha)
    as [_ Hina].
  destruct (neighbor_cells_of_spec getMultiIndex coordToIndex s b Hok Hlay Hb)
    as [_ Hinb].
  fold d N in Hina, Hinb.
  split.
  { apply elem_of_sort_cells, Hina. split; [exact Ha|].
    rewrite cell_distance_refl. lia. }
  split.
  { rewrite !elem_of_sort_cells, Hina, Hinb, cell_distance_sym. tauto. }
  cbn [m_cell_neighbors set_cell_neighbors]. split.
  - apply lookup_insert_eq.
  - intros Hne. rewrite lookup_insert_ne by congruence. apply lookup_insert_eq.
Qed.

End Neighbors.

End CellListLaws.

(** ** What the queries never return *)

Module SearchLaws.
Import Locality NeighborCellFacts CellListFacts ShellFacts IteratorFacts
  SearchFacts KnnFacts KnnSpec NearestFacts
  LinkCellSpec NeighborCellSpec CellListSpec ShellSpec IteratorSpec SearchSpec.

Section Search.

Context (coordToIndex : vec3 Z -> Z -> Z -> Z -> Z).
Context (getCellCoord : Box -> vec3 Z -> vec3 Q -> vec3 Z).
Context (sqrtf : Q -> Q).

Local Abbreviation getCell := (getCell coordToIndex getCellCoord).
Local Abbreviation knn_next := (knn_next coordToIndex getCellCoord sqrtf).
Local Abbreviation ball_next := (ball_next coordToIndex getCellCoord sqrtf).
Local Abbreviation cell_of_point := (cell_of_point coordToIndex getCellCoord).
Local Abbreviation bucket := (bucket coordToIndex getCellCoord).
Local Abbreviation cell_list_ok := (cell_list_ok coordToIndex getCellCoord).
Local Abbreviation cell_of_offset := (cell_of_offset coordToIndex).
Local Abbreviation point_cell_of := (point_cell_of getCellCoord).
Local Abbreviation test := (test sqrtf).
Local Abbreviation later_points := (later_points coordToIndex getCellCoord).
Local Abbreviation new_LinkCellIterator :=
  (new_LinkCellIterator coordToIndex getCellCoord).
Local Abbreviation bond_to := (bond_to sqrtf).
Local Abbreviation brute_force := (brute_force sqrtf).
Local Abbreviation grid_cells := (grid_cells coordToIndex).
Local Abbreviation sqrt_below := (sqrt_below sqrtf).
Local Abbreviation construct := (construct coordToIndex getCellCoord).
Local Abbreviation buildable := (buildable coordToIndex getCellCoord).

(** the bonds of distinct points have distinct reference indices *)
Lemma NoDup_ref_id (lc : LinkCell) (it : LinkCellIterator) (l : list Z) :
  NoDup l -> NoDup (ref_id <$> omap (test lc it) l).
Proof.
  induction 1 as [|x l Hx Hl IH]; simpl; [constructor|].
  destruct (test lc it x) as [b|] eqn:E; [|exact IH].
  rewrite fmap_cons. constructor; [|exact IH].
  intros Hin. apply list_elem_of_fmap in Hin as (b' & Hb' & Hin).
  apply list_elem_of_omap in Hin as (y & Hy & Ey).
  apply test_ref_id in E, Ey. subst. rewrite Hb' in Hx. exact (Hx Hy).
Qed.

(** a bond found at a point of the system is a bond of the brute-force
    search *)
Lemma tested_is_brute_force (lc : LinkCell) (it : LinkCellIterator)
    (l : list Z) (b : NeighborBond) :
  (forall j, j ∈ l -> 0 <= j < m_n_points lc) ->
  b ∈ omap (test lc it) l -> b ∈ brute_force lc it.
Proof.
  intros Hl Hb. apply list_elem_of_omap in Hb as (j & Hj & Hb).
  rewrite brute_force_omap. apply list_elem_of_omap. exists j.
  split; [|exact Hb]. apply elem_of_seqZ. specialize (Hl j Hj). lia.
Qed.



End Search.

End SearchLaws.

(** ** Further properties of the correlation function *)

Module CorrelationLaws.
Import Correlation CorrelationFacts HistogramSpec FloatFacts.

Section Laws.

Context {T : Type} (T0 : T) (Tadd Tmul : T -> T -> T) (Tdiv : T -> Z -> T).

Local Abbreviation CF := (@CorrelationFunction T).
Local Abbreviation constructor_body := (constructor_body T0).
Local Abbreviation construct := (construct T0).
Local Abbreviation reduceCorrelationFunction := (reduceCorrelationFunction T0 Tadd Tdiv).
Local Abbreviation getRDF := (getRDF T0 Tadd Tdiv).
Local Abbreviation reset := (reset T0).
Local Abbreviation merged_value := (merged_value T0 Tadd).
Local Abbreviation reduced_value := (reduced_value T0 Tadd Tdiv).
Local Abbreviation reduced := (reduced T0 Tadd Tdiv).
Local Abbreviation accumulate := (accumulate T0 Tadd Tmul).
Local Abbreviation accumulate_bond := (accumulate_bond T0 Tadd Tmul).
Local Abbreviation added := (added T0).

(** *** The constructor *)

(** the object that the constructor builds *)
Lemma construct_eq (r_max dr : Q) :
  (0 < dr)%Q -> (dr <= r_max)%Q ->
  let nb := to_unsigned (cvtt_ss2si (floorf (fdiv r_max dr))) in
  construct r_max dr =
    Ok (mk_CF default_Box r_max dr 0 true nb
          (replicate (Z.to_nat nb) T0) (replicate (Z.to_nat nb) 0)
          (bin_center dr <$> seqZ 0 nb)
          (ts_resize (Z.to_nat nb) ts_empty)
          (ts_resize (Z.to_nat nb) ts_empty)).
Proof.
  intros Hdr Hle nb. unfold Correlation.construct, Correlation.constructor_body.
  assert (Hr : (0 < r_max)%Q) by (eapply Qlt_le_trans; eauto).
  replace (Qleb dr 0) with false by (symmetry; apply Qleb_gt, Hdr).
  replace (Qleb r_max 0) with false by (symmetry; apply Qleb_gt, Hr).
  replace (Qltb r_max dr) with false by (symmetry; apply Qltb_ge, Hle).
  reflexivity.
Qed.

(** the constructor succeeds exactly on [0 < dr <= r_max] *)
Lemma construct_Ok_inv (r_max dr : Q) (s : CF) :
  construct r_max dr = Ok s -> (0 < dr)%Q /\ (dr <= r_max)%Q.
Proof.
  intros H.
  destruct (Qlt_le_dec 0 dr) as [Hdr|Hdr].
  - destruct (Qlt_le_dec r_max dr) as [Hlt|Hle]; [|split; assumption].
    exfalso.
    destruct (constructor_rejects T0 r_max dr) as [what Hrej]; [auto|].
    unfold Correlation.construct in H. rewrite Hrej in H. discriminate.
  - exfalso.
    destruct (constructor_rejects T0 r_max dr) as [what Hrej]; [auto|].
    unfold Correlation.construct in H. rewrite Hrej in H. discriminate.
Qed.

Lemma nbins_floor (r_max dr : Q) :
  (0 < dr)%Q -> (dr <= r_max)%Q ->
  1 <= Qfloor (fdiv r_max dr) /\
  to_unsigned (cvtt_ss2si (floorf (fdiv r_max dr)))
  = if Qfloor (fdiv r_max dr) <? 2 ^ 31 then Qfloor (fdiv r_max dr) else 2 ^ 31.
Proof.
  intros Hdr Hle. pose proof (fdiv_ge_1 r_max dr Hdr Hle) as Hq.
  assert (H1 : 1 <= Qfloor (fdiv r_max dr)).
  { change 1 with (Qfloor 1). apply Qfloor_resp_le, Hq. }
  split; [exact H1|]. unfold floorf.
  rewrite cvtt_ss2si_nonneg.
  - rewrite Qfloor_Z. reflexivity.
  - change 0%Q with (inject_Z 0). rewrite <- Zle_Qle. lia.
Qed.

(** X7. With [0 < dr <= r_max] the constructor succeeds, and the number of
    bins is the floor of the quotient [r_max / dr] that the [float] division
    gives, at least 1 (the rounding of the division can make it one more
    than the floor of the exact quotient). The bin counts are 0, the values
    are [T()], there is one bin center for every bin, no frame has been
    counted and the next read reduces. *)
Theorem constructor_bins (r_max dr : Q) :
  (0 < dr)%Q -> (dr <= r_max)%Q -> Qfloor (fdiv r_max dr) < 2 ^ 31 ->
  exists s,
    construct r_max dr = Ok s /\
    m_nbins s = Qfloor (fdiv r_max dr) /\ 1 <= m_nbins s /\
    m_r_max s = r_max /\ m_dr s = dr /\
    m_rdf_array s = replicate (Z.to_nat (m_nbins s)) T0 /\
    m_bin_counts s = replicate (Z.to_nat (m_nbins s)) 0 /\
    length (m_r_array s) = Z.to_nat (m_nbins s) /\
    ts_arrays (m_local_bin_counts s) = ∅ /\
    ts_arrays (m_local_rdf_array s) = ∅ /\
    m_frame_counter s = 0 /\ m_reduce s = true /\ wf s.
Proof.
  intros Hdr Hle Hfit.
  pose proof (construct_eq r_max dr Hdr Hle) as Hc. cbv zeta in Hc.
  destruct (nbins_floor r_max dr Hdr Hle) as (H1 & Hnb).
  apply Z.ltb_lt in Hfit. rewrite Hfit in Hnb. apply Z.ltb_lt in Hfit.
  rewrite Hnb in Hc. set (f := Qfloor (fdiv r_max dr)) in *. clearbody f.
  eexists. split; [exact Hc|]. unfold wf, ts_wf.
  cbn [m_nbins m_rdf_array m_bin_counts m_r_array m_frame_counter m_reduce
       m_r_max m_dr ts_arrays ts_empty
       m_local_bin_counts m_local_rdf_array ts_size ts_resize].
  rewrite !length_replicate, length_fmap, length_seqZ.
  repeat split; try reflexivity; try assumption; try lia.
  all: unfold ts_all; simpl; rewrite map_to_list_empty; constructor.
Qed.

(** what the constructor builds, whatever the number of bins *)
Lemma construct_new (r_max dr : Q) (s : CF) :
  construct r_max dr = Ok s ->
  wf s /\ m_dr s = dr /\ (0 < dr)%Q /\ 1 <= m_nbins s /\
  ts_arrays (m_local_bin_counts s) = ∅ /\
  ts_arrays (m_local_rdf_array s) = ∅.
Proof.
  intros H. destruct (construct_Ok_inv r_max dr s H) as [Hdr Hle].
  destruct (constructor_accepts T0 r_max dr Hdr Hle)
    as (s' & Hrun & Hwf & _ & _ & Hd & Hn & _ & _ & Hc & Hv).
  unfold Correlation.construct in H. rewrite Hrun in H. injection H as <-.
  auto 10.
Qed.

(** *** Reset and reduction *)

Lemma ts_reset_elem {A} (zero : A) (t : ThreadStorage A) (a : list A) :
  a ∈ ts_all (ts_reset zero t) ->
  exists a0, a0 ∈ ts_all t /\ a = replicate (length a0) zero.
Proof.
  intros H. apply ts_all_lookup in H as [tid H]. simpl in H.
  rewrite lookup_fmap in H.
  destruct (ts_arrays t !! tid) as [a0|] eqn:E; [|discriminate].
  injection H as <-. exists a0. split; [|reflexivity].
  apply ts_all_lookup. eauto.
Qed.

Lemma ts_reset_wf {A} (zero : A) (n : nat) (t : ThreadStorage A) :
  ts_wf n t -> ts_wf n (ts_reset zero t).
Proof.
  intros Hwf. pose proof Hwf as [Hsize _]. split; [exact Hsize|].
  apply Forall_forall. intros a Ha.
  apply ts_reset_elem in Ha as (a0 & Ha0 & ->).
  rewrite length_replicate. exact (ts_all_length n t a0 Hwf Ha0).
Qed.

Lemma fmap_seq_const {A} (f : nat -> A) (c : A) (n : nat) :
  (forall i, (i < n)%nat -> f i = c) -> f <$> seq 0 n = replicate n c.
Proof.
  intros H. apply list_eq. intros i.
  rewrite list_lookup_fmap.
  destruct (decide (i < n)%nat) as [Hi|Hi].
  - rewrite lookup_seq_lt by exact Hi. simpl. rewrite H by exact Hi.
    symmetry. apply lookup_replicate_2. exact Hi.
  - rewrite lookup_seq_ge by lia. simpl. symmetry.
    apply lookup_replicate_None. lia.
Qed.

Lemma merged_count_cleared (s : CF) (i : nat) :
  (forall l, l ∈ ts_all (m_local_bin_counts s) -> default 0 (l !! i) = 0) ->
  merged_count s i = 0.
Proof.
  unfold merged_count.
  induction (ts_all (m_local_bin_counts s)) as [|l L IH]; intros H.
  - reflexivity.
  - simpl. rewrite (H l) by left. simpl.
    apply IH. intros l' Hl'. apply H. right. exact Hl'.
Qed.

(** X9. After [reset] the correlation function is empty again: the frame
    counter is 0, and the next read reduces, finds no count in any bin and
    returns [T()] for every bin, provided that [T() + T()] is [T()]. *)
Theorem reset_clears (s : CF) :
  wf s -> Tadd T0 T0 = T0 ->
  exists s1 s2,
    reset s = (Ok tt, s1) /\
    m_frame_counter s1 = 0 /\ m_reduce s1 = true /\
    getRDF s1 = (Ok (replicate (Z.to_nat (m_nbins s)) T0), s2) /\
    m_bin_counts s2 = replicate (Z.to_nat (m_nbins s)) 0 /\
    m_rdf_array s2 = replicate (Z.to_nat (m_nbins s)) T0 /\
    m_frame_counter s2 = 0 /\ m_reduce s2 = false.
Proof.
  intros Hwf Hadd. pose proof Hwf as (Hn & Hlr & Hlb & Hlc & Hlv).
  set (s1 := set_reduce true
               (set_frame_counter 0
                  (set_local_bin_counts (ts_reset 0 (m_local_bin_counts s))
                     (set_local_rdf_array
                        (ts_reset T0 (m_local_rdf_array s)) s)))).
  assert (Hwf1 : wf s1).
  { unfold wf. cbn. repeat split; try assumption; try lia.
    - apply (ts_reset_wf 0 _ _ Hlc).
    - apply (ts_reset_wf 0 _ _ Hlc).
    - apply (ts_reset_wf T0 _ _ Hlv).
    - apply (ts_reset_wf T0 _ _ Hlv). }
  assert (Hcount : forall i, merged_count s1 i = 0).
  { intros i. apply merged_count_cleared. intros l Hl.
    apply ts_reset_elem in Hl as (a0 & _ & ->).
    destruct (replicate (length a0) 0 !! i) as [x|] eqn:E; [|reflexivity].
    apply lookup_replicate in E as [-> _]. reflexivity. }
  assert (Hvalue : forall i, (i < Z.to_nat (m_nbins s))%nat ->
                             reduced_value s1 i = T0).
  { intros i Hi. unfold Correlation.reduced_value. rewrite Hcount. simpl.
    apply merged_value_default; [exact Hadd|]. intros l Hl.
    apply ts_reset_elem in Hl as (a0 & Ha0 & ->).
    apply lookup_replicate_2.
    rewrite (ts_all_length _ _ a0 Hlv Ha0). exact Hi. }
  exists s1. eexists. split; [reflexivity|].
  split; [reflexivity|]. split; [reflexivity|].
  unfold Correlation.getRDF. rewrite bind_gets.
  change (m_reduce s1) with true. cbv iota.
  rewrite (bind_Ok _ _ _ _ _ (reduce_spec T0 Tadd Tdiv s1 Hwf1)).
  rewrite bind_modify. unfold gets.
  assert (Hr : m_rdf_array (reduced s1) = replicate (Z.to_nat (m_nbins s)) T0).
  { cbn [m_rdf_array Correlation.reduced set_rdf_array set_bin_counts].
    change (m_nbins s1) with (m_nbins s). apply fmap_seq_const, Hvalue. }
  assert (Hb : m_bin_counts (reduced s1) = replicate (Z.to_nat (m_nbins s)) 0).
  { cbn [m_bin_counts Correlation.reduced set_rdf_array set_bin_counts].
    change (m_nbins s1) with (m_nbins s). apply fmap_seq_const.
    intros i _. apply Hcount. }
  cbn [m_rdf_array set_reduce]. rewrite Hr.
  split; [reflexivity|].
  cbn [m_bin_counts m_rdf_array m_frame_counter m_reduce set_reduce].
  rewrite Hr, Hb. repeat split.
Qed.

Lemma reduced_reduced (s : CF) : reduced (reduced s) = reduced s.
Proof. destruct s. reflexivity. Qed.

(** X10. The reduction starts from cleared arrays, so it can be repeated:
    running it a second time, without any accumulation in between, changes
    nothing; no bond is counted twice. The arrays of the threads are left
    as they are. *)
Theorem reduce_repeatable (s : CF) :
  wf s ->
  exists s1,
    reduceCorrelationFunction s = (Ok tt, s1) /\
    reduceCorrelationFunction s1 = (Ok tt, s1) /\
    m_local_bin_counts s1 = m_local_bin_counts s /\
    m_local_rdf_array s1 = m_local_rdf_array s.
Proof.
  intros Hwf. exists (reduced s).
  split; [apply reduce_spec, Hwf|]. split.
  - rewrite (reduce_spec T0 Tadd Tdiv (reduced s) (reduced_wf T0 Tadd Tdiv s Hwf)).
    rewrite reduced_reduced. reflexivity.
  - split; reflexivity.
Qed.

(** *** Accumulation *)

Lemma only_locals_refl (s : CF) : only_locals s s.
Proof. repeat split. Qed.

Lemma only_locals_trans (a b c : CF) :
  only_locals a b -> only_locals b c -> only_locals a c.
Proof.
  unfold only_locals. intros H1 H2.
  destruct H1 as (?&?&?&?&?&?&?&?&?), H2 as (?&?&?&?&?&?&?&?&?).
  repeat split; congruence.
Qed.

Lemma accumulate_bond_only_locals (values query_values : list T) (dr_inv : Q)
    (tid : nat) (b : NeighborBond) (s : CF) :
  only_locals s (accumulate_bond values query_values dr_inv tid b s).2.
Proof.
  unfold Correlation.accumulate_bond. rewrite bind_gets.
  destruct (bin_of dr_inv b <? m_nbins s); [|apply only_locals_refl].
  rewrite bind_gets. unfold bind at 1.
  destruct (read (ts_local 0 (m_local_bin_counts s) tid) (bin_of dr_inv b) s)
    as [[c|e] s1] eqn:E1.
  2: { unfold read in E1. destruct (_ !! _); injection E1 as _ <-;
       apply only_locals_refl. }
  assert (s1 = s) as ->.
  { unfold read in E1. destruct (_ !! _); injection E1 as _ <-; reflexivity. }
  unfold bind at 1.
  destruct (write (ts_local 0 (m_local_bin_counts s) tid) (bin_of dr_inv b)
              ((c + 1) mod UINT_MOD)) as [a'|e]; [|apply only_locals_refl].
  unfold modify at 1. rewrite bind_gets.
  set (s2 := set_local_bin_counts _ s).
  assert (H2 : only_locals s s2) by (repeat split).
  unfold bind at 1.
  destruct (read (ts_local T0 (m_local_rdf_array s2) tid) (bin_of dr_inv b) s2)
    as [[r|e] s3] eqn:E3.
  2: { unfold read in E3. destruct (_ !! _); injection E3 as _ <-; exact H2. }
  assert (s3 = s2) as ->.
  { unfold read in E3. destruct (_ !! _); injection E3 as _ <-; reflexivity. }
  unfold bind at 1.
  destruct (read values (ref_id b) s2) as [[v|e] s4] eqn:E4.
  2: { unfold read in E4. destruct (_ !! _); injection E4 as _ <-; exact H2. }
  assert (s4 = s2) as ->.
  { unfold read in E4. destruct (_ !! _); injection E4 as _ <-; reflexivity. }
  unfold bind at 1.
  destruct (read query_values (id_ b) s2) as [[q|e] s5] eqn:E5.
  2: { unfold read in E5. destruct (_ !! _); injection E5 as _ <-; exact H2. }
  assert (s5 = s2) as ->.
  { unfold read in E5. destruct (_ !! _); injection E5 as _ <-; reflexivity. }
  destruct (write (ts_local T0 (m_local_rdf_array s2) tid) (bin_of dr_inv b)
              (Tadd r (Tmul v q))) as [a''|e]; [|exact H2].
  apply (only_locals_trans _ _ _ H2). repeat split.
Qed.

Lemma for_each_only_locals {A} (body : A -> M CF unit) (l : list A) :
  (forall x s, only_locals s (body x s).2) ->
  forall s, only_locals s (for_each l body s).2.
Proof.
  intros Hbody. induction l as [|x l IH]; intros s.
  - apply only_locals_refl.
  - cbn [for_each]. unfold bind. pose proof (Hbody x s) as Hx.
    destruct (body x s) as [[u|e] s1]; [|exact Hx].
    exact (only_locals_trans _ _ _ Hx (IH s1)).
Qed.

(** X11. [accumulate] never touches what a reader sees: whether it succeeds
    or fails, the reduced values and counts, the number of bins and the bin
    centers are what they were, and the box is the one of the neighbor
    query. When it succeeds it has counted one frame and marked the object
    for reduction; when it fails it has done neither. *)
Theorem accumulate_keeps_reduced (box : Box) (values query_values : list T)
    (neighbors : outcome (list (nat * NeighborBond))) (s : CF) :
  let r := accumulate box values query_values neighbors s in
  (m_rdf_array r.2 = m_rdf_array s /\ m_bin_counts r.2 = m_bin_counts s /\
   m_nbins r.2 = m_nbins s /\ m_r_array r.2 = m_r_array s /\
   m_box r.2 = box) /\
  match r.1 with
  | Ok _ =>
    m_frame_counter r.2 = (m_frame_counter s + 1) mod UINT_MOD /\
    m_reduce r.2 = true
  | Throw _ =>
    m_frame_counter r.2 = m_frame_counter s /\ m_reduce r.2 = m_reduce s
  end.
Proof.
  intros r.
  set (s0 := set_box box s).
  assert (Heq : r =
            match loopOverNeighbors neighbors
                    (accumulate_bond values query_values (fdiv 1 (m_dr s0))) s0 with
            | (Ok _, s1) =>
              (Ok tt,
               set_reduce true
                 (set_frame_counter ((m_frame_counter s1 + 1) mod UINT_MOD) s1))
            | (Throw e, s1) => (Throw e, s1)
            end).
  { subst r. unfold Correlation.accumulate.
    rewrite bind_modify, bind_gets. unfold bind at 1. fold s0.
    destruct (loopOverNeighbors neighbors
                (accumulate_bond values query_values (fdiv 1 (m_dr s0))) s0)
      as [[u|e] s1]; reflexivity. }
  rewrite Heq. clear Heq r.
  assert (Hloop : only_locals s0
            (loopOverNeighbors neighbors
               (accumulate_bond values query_values (fdiv 1 (m_dr s0))) s0).2).
  { destruct neighbors as [bonds|e]; [|apply only_locals_refl].
    apply for_each_only_locals. intros tb st.
    apply accumulate_bond_only_locals. }
  destruct (loopOverNeighbors neighbors
              (accumulate_bond values query_values (fdiv 1 (m_dr s0))) s0)
    as [[u|e] s1].
  - destruct Hloop as (Hb & _ & _ & Hf & _ & Hn & Hr & Hc & Ha).
    cbn in Hb, Hf, Hn, Hr, Hc, Ha |- *. repeat split; assumption || congruence.
  - destruct Hloop as (Hb & _ & _ & Hf & Hre & Hn & Hr & Hc & Ha).
    cbn in Hb, Hf, Hre, Hn, Hr, Hc, Ha |- *. repeat split; assumption.
Qed.

(** *** The histogram *)

Lemma Zsum_app (l1 l2 : list Z) : Zsum (l1 ++ l2) = Zsum l1 + Zsum l2.
Proof.
  unfold Zsum. induction l1 as [|x l1 IH]; simpl; [reflexivity|].
  rewrite IH. lia.
Qed.

Lemma Zsum_cons (x : Z) (l : list Z) : Zsum (x :: l) = x + Zsum l.
Proof. reflexivity. Qed.

Lemma Zsum_Permutation (l1 l2 : list Z) : l1 ≡ₚ l2 -> Zsum l1 = Zsum l2.
Proof.
  unfold Zsum. induction 1; simpl; lia.
Qed.

Lemma merged_count_sum (s : CF) (i : nat) :
  merged_count s i = bin_sum (m_local_bin_counts s) i mod UINT_MOD.
Proof.
  unfold merged_count, bin_sum.
  induction (ts_all (m_local_bin_counts s)) as [|l L IH] using rev_ind.
  - reflexivity.
  - rewrite fold_left_snoc, IH, fmap_app, Zsum_app. simpl.
    rewrite Z.add_0_r. apply Zplus_mod_idemp_l.
Qed.

(** storing the array of one thread replaces its share of the sum *)
Lemma bin_sum_store (t : ThreadStorage Z) (tid : nat) (a' : list Z) (i : nat) :
  bin_sum (ts_store t tid a') i
  = bin_sum t i - default 0 (ts_local 0 t tid !! i) + default 0 (a' !! i).
Proof.
  unfold bin_sum, ts_all, ts_store, ts_local. cbn [ts_arrays ts_size].
  set (g := fun l : list Z => default 0 (l !! i)).
  assert (P1 : map_to_list (<[tid := a']> (ts_arrays t))
               ≡ₚ (tid, a') :: map_to_list (delete tid (ts_arrays t))).
  { rewrite <- insert_delete_eq. apply map_to_list_insert, lookup_delete_eq. }
  rewrite (Zsum_Permutation _ _
             (fmap_Permutation g _ _ (fmap_Permutation snd _ _ P1))).
  rewrite !fmap_cons, Zsum_cons. cbn [snd].
  destruct (ts_arrays t !! tid) as [a|] eqn:E; cbn [default].
  - assert (P2 : map_to_list (ts_arrays t)
                 ≡ₚ (tid, a) :: map_to_list (delete tid (ts_arrays t))).
    { symmetry. apply map_to_list_delete, E. }
    rewrite (Zsum_Permutation _ _
               (fmap_Permutation g _ _ (fmap_Permutation snd _ _ P2))).
    rewrite !fmap_cons, Zsum_cons. cbn [snd]. unfold g, id. lia.
  - rewrite (delete_id _ _ E).
    assert (H0 : default 0 (replicate (ts_size t) 0 !! i) = 0).
    { destruct (replicate (ts_size t) 0 !! i) as [x|] eqn:E'; [|reflexivity].
      apply lookup_replicate in E' as [-> _]. reflexivity. }
    rewrite H0. unfold g. lia.
Qed.

Lemma ts_local_store {A} (zero : A) (t : ThreadStorage A) (tid tid' : nat)
    (a : list A) :
  ts_local zero (ts_store t tid a) tid'
  = if decide (tid' = tid) then a else ts_local zero t tid'.
Proof.
  unfold ts_local, ts_store. cbn [ts_arrays ts_size]. case_decide.
  - subst. rewrite lookup_insert_eq. reflexivity.
  - rewrite lookup_insert_ne by auto. reflexivity.
Qed.

Lemma counted_wf (s : CF) tid bin c : wf s -> wf (counted s tid bin c).
Proof.
  intros (Hn & Hlr & Hlb & Hlc & Hlv). unfold wf, counted.
  cbn [m_nbins m_rdf_array m_bin_counts m_local_bin_counts m_local_rdf_array
       set_local_bin_counts].
  repeat split; try assumption; try lia; try apply Hlc; try apply Hlv.
  apply ts_store_wf; [exact Hlc|]. rewrite length_insert.
  apply (ts_local_length 0 _ _ tid Hlc).
Qed.

Lemma added_wf (s : CF) tid bin x : wf s -> wf (added s tid bin x).
Proof.
  intros (Hn & Hlr & Hlb & Hlc & Hlv). unfold wf, added.
  cbn [m_nbins m_rdf_array m_bin_counts m_local_bin_counts m_local_rdf_array
       set_local_rdf_array].
  repeat split; try assumption; try lia; try apply Hlc; try apply Hlv.
  apply ts_store_wf; [exact Hlv|]. rewrite length_insert.
  apply (ts_local_length T0 _ _ tid Hlv).
Qed.

(** one bond, processed by one thread, whatever the value arrays hold: the
    bond is dropped, or counted and its product added, or counted before
    the access to a value array fails *)
Lemma accumulate_bond_cases (s : CF) (values query_values : list T)
    (dr_inv : Q) (tid : nat) (b : NeighborBond) :
  wf s ->
  let bin := bin_of dr_inv b in
  let run := accumulate_bond values query_values dr_inv tid b s in
  (m_nbins s <= bin /\ run = (Ok tt, s)) \/
  (bin < m_nbins s /\
   exists c r,
     ts_local 0 (m_local_bin_counts s) tid !! Z.to_nat bin = Some c /\
     ts_local T0 (m_local_rdf_array s) tid !! Z.to_nat bin = Some r /\
     ((exists v q,
         values !! Z.to_nat (ref_id b) = Some v /\
         query_values !! Z.to_nat (id_ b) = Some q /\
         run = (Ok tt, added (counted s tid bin c) tid bin (Tadd r (Tmul v q))))
      \/ run = (Throw out_of_range, counted s tid bin c))).
Proof.
  intros Hwf bin run.
  destruct (accumulate_bond_step T0 Tadd Tmul s values query_values dr_inv tid b
              Hwf) as [Hdrop Hcount].
  fold bin in Hdrop, Hcount.
  destruct (Z.le_gt_cases (m_nbins s) bin) as [Hge|Hlt].
  - left. split; [exact Hge | exact (Hdrop Hge)].
  - right. split; [lia|].
    destruct (Hcount ltac:(lia)) as (c & r & Hc & Hr & Hok & Hfail).
    exists c, r. split; [exact Hc|]. split; [exact Hr|].
    destruct (values !! Z.to_nat (ref_id b)) as [v|] eqn:Ev.
    + destruct (query_values !! Z.to_nat (id_ b)) as [q|] eqn:Eq.
      * left. exists v, q. split; [reflexivity|]. split; [reflexivity|].
        exact (Hok v q eq_refl eq_refl).
      * right. apply Hfail. right. reflexivity.
    + right. apply Hfail. left. reflexivity.
Qed.

(** one bond that has its values, processed by one thread *)
Lemma accumulate_bond_run (s : CF) (values query_values : list T)
    (tid : nat) (b : NeighborBond) :
  wf s -> (0 < m_dr s)%Q -> bond_ok values query_values (tid, b) ->
  let bin := float_bin (m_dr s) b in
  exists s',
    accumulate_bond values query_values (fdiv 1 (m_dr s)) tid b s = (Ok tt, s') /\
    wf s' /\ only_locals s s' /\ 0 <= bin /\
    ((m_nbins s <= bin /\ s' = s) \/
     (bin < m_nbins s /\
      exists c r,
        ts_local 0 (m_local_bin_counts s) tid !! Z.to_nat bin = Some c /\
        ts_local T0 (m_local_rdf_array s) tid !! Z.to_nat bin = Some r /\
        s' = added (counted s tid bin c) tid bin
               (Tadd r (bond_product T0 Tmul values query_values (tid, b))))).
Proof.
  intros Hwf Hdr (Hd & [v Hv] & [q Hq]) bin. cbn [snd] in Hd, Hv, Hq.
  destruct (bin_of_floor (m_dr s) b Hdr Hd) as [Hbin0 Hbin]. fold bin in Hbin0, Hbin.
  pose proof Hwf as (Hn & _).
  destruct (accumulate_bond_cases s values query_values (fdiv 1 (m_dr s)) tid b Hwf)
    as [[Hge Hrun]|(Hlt & c & r & Hc & Hr & Hrun)].
  - exists s. split; [exact Hrun|]. split; [exact Hwf|].
    split; [apply only_locals_refl|]. split; [exact Hbin0|]. left.
    split; [|reflexivity]. rewrite Hbin in Hge.
    destruct (Z.ltb_spec bin (2 ^ 31)); lia.
  - assert (Hb : bin_of (fdiv 1 (m_dr s)) b = bin).
    { rewrite Hbin in Hlt |- *. destruct (Z.ltb_spec bin (2 ^ 31)); [reflexivity|lia]. }
    rewrite Hb in Hlt, Hc, Hr, Hrun.
    destruct Hrun as [(v' & q' & Hv' & Hq' & Hrun)|Hrun].
    2: { exfalso. 
         destruct (accumulate_bond_step T0 Tadd Tmul s values query_values
                     (fdiv 1 (m_dr s)) tid b Hwf) as [_ Hcount].
         rewrite Hb in Hcount.
         destruct (Hcount Hlt) as (c1 & r1 & _ & _ & Hok & _).
         rewrite (Hok v q Hv Hq) in Hrun. discriminate. }
    rewrite Hv in Hv'. rewrite Hq in Hq'. injection Hv' as <-. injection Hq' as <-.
    eexists. split; [exact Hrun|].
    split; [apply added_wf, counted_wf, Hwf|].
    split; [repeat split|]. split; [exact Hbin0|]. right.
    split; [exact Hlt|]. exists c, r. split; [exact Hc|]. split; [exact Hr|].
    unfold bond_product. cbn [snd]. rewrite Hv, Hq. reflexivity.
Qed.

(** one bond, as far as the sums of the counts go *)
Lemma accumulate_bond_sum (s : CF) (values query_values : list T)
    (tid : nat) (b : NeighborBond) :
  wf s -> (0 < m_dr s)%Q -> bond_ok values query_values (tid, b) ->
  exists s',
    accumulate_bond values query_values (fdiv 1 (m_dr s)) tid b s = (Ok tt, s') /\
    wf s' /\ only_locals s s' /\
    forall i, (i < Z.to_nat (m_nbins s))%nat ->
      bin_sum (m_local_bin_counts s') i mod UINT_MOD
      = (bin_sum (m_local_bin_counts s) i
         + (if decide (float_bin (m_dr s) b = Z.of_nat i) then 1 else 0))
        mod UINT_MOD.
Proof.
  intros Hwf Hdr Hok.
  destruct (accumulate_bond_run s values query_values tid b Hwf Hdr Hok)
    as (s' & Hrun & Hwf' & Hloc & Hbin0 & Hcases).
  exists s'. split; [exact Hrun|]. split; [exact Hwf'|]. split; [exact Hloc|].
  set (bin := float_bin (m_dr s) b) in *.
  pose proof Hwf as (Hn & Hlr & Hlb & Hlc & Hlv).
  destruct Hcases as [[Hge ->]|(Hlt & c & r & Hc & Hr & ->)].
  - intros i Hi. rewrite decide_False by lia. rewrite Z.add_0_r. reflexivity.
  - intros i Hi. unfold added, counted.
    cbn [m_local_bin_counts set_local_rdf_array set_local_bin_counts].
    rewrite bin_sum_store.
    pose proof (ts_local_length 0 _ _ tid Hlc) as Hlen_c.
    destruct (decide (bin = Z.of_nat i)) as [Hbi|Hbi].
    + assert (Z.to_nat bin = i) as <- by lia.
      rewrite Hc, list_lookup_insert_eq by lia. cbn [default]. unfold id.
      rewrite Zplus_mod_idemp_r. f_equal. lia.
    + rewrite list_lookup_insert_ne by lia. f_equal. lia.
Qed.

Lemma bonds_in_bin_snoc (dr : Q) (pre : list (nat * NeighborBond))
    (tb : nat * NeighborBond) (i : Z) :
  bonds_in_bin dr (pre ++ [tb]) i
  = bonds_in_bin dr pre i
    + (if decide (float_bin dr tb.2 = i) then 1 else 0).
Proof.
  unfold bonds_in_bin. rewrite filter_app, length_app, filter_cons, filter_nil.
  case_decide; simpl; lia.
Qed.

(** the loop of [accumulate] over the bonds, as far as the counts go *)
Lemma accumulate_loop_counts (s0 : CF) (values query_values : list T)
    (bonds : list (nat * NeighborBond)) :
  wf s0 -> (0 < m_dr s0)%Q -> Forall (bond_ok values query_values) bonds ->
  exists s1,
    for_each bonds
      (fun tb => accumulate_bond values query_values (fdiv 1 (m_dr s0)) tb.1 tb.2) s0
    = (Ok tt, s1) /\
    wf s1 /\ only_locals s0 s1 /\
    forall i, (i < Z.to_nat (m_nbins s0))%nat ->
      bin_sum (m_local_bin_counts s1) i mod UINT_MOD
      = (bin_sum (m_local_bin_counts s0) i
         + bonds_in_bin (m_dr s0) bonds (Z.of_nat i)) mod UINT_MOD.
Proof.
  intros Hwf0 Hdr Hbonds.
  apply (for_each_inv
    (fun pre st =>
       wf st /\ only_locals s0 st /\
       forall i, (i < Z.to_nat (m_nbins s0))%nat ->
         bin_sum (m_local_bin_counts st) i mod UINT_MOD
         = (bin_sum (m_local_bin_counts s0) i
            + bonds_in_bin (m_dr s0) pre (Z.of_nat i)) mod UINT_MOD)).
  { split; [exact Hwf0|]. split; [apply only_locals_refl|].
    intros i _. unfold bonds_in_bin. simpl. rewrite Z.add_0_r. reflexivity. }
  intros pre tb st Hpre (Hwfst & Hlocst & Hsumst).
  assert (Hin : tb ∈ bonds).
  { destruct Hpre as [k ->]. apply elem_of_app. left. apply elem_of_app.
    right. left. }
  rewrite Forall_forall in Hbonds. specialize (Hbonds tb Hin).
  pose proof Hlocst as (_ & _ & Hdrst & _ & _ & Hnst & _).
  destruct (accumulate_bond_sum st values query_values tb.1 tb.2 Hwfst)
    as (st' & Hrun' & Hwf' & Hloc' & Hsum').
  { rewrite Hdrst. exact Hdr. }
  { destruct tb. exact Hbonds. }
  rewrite Hdrst in Hrun'. exists st'. split; [exact Hrun'|].
  split; [exact Hwf'|]. split.
  { exact (only_locals_trans _ _ _ Hlocst Hloc'). }
  intros i Hi. rewrite Hsum' by (rewrite Hnst; exact Hi).
  rewrite bonds_in_bin_snoc, Hdrst, Z.add_assoc.
  rewrite <- Zplus_mod_idemp_l, (Hsumst i Hi), Zplus_mod_idemp_l.
  reflexivity.
Qed.

(** [accumulate] on a list of bonds, as its loop *)
Lemma accumulate_eq (s : CF) (box : Box) (values query_values : list T)
    (bonds : list (nat * NeighborBond)) (s1 : CF) :
  for_each bonds
    (fun tb => accumulate_bond values query_values (fdiv 1 (m_dr s)) tb.1 tb.2)
    (set_box box s) = (Ok tt, s1) ->
  accumulate box values query_values (Ok bonds) s
  = (Ok tt,
     set_reduce true
       (set_frame_counter ((m_frame_counter s1 + 1) mod UINT_MOD) s1)).
Proof.
  intros Hrun. unfold Correlation.accumulate.
  rewrite bind_modify, bind_gets. unfold loopOverNeighbors.
  change (m_dr (set_box box s)) with (m_dr s).
  rewrite (bind_Ok _ _ _ _ _ Hrun). reflexivity.
Qed.

(** X12. Accumulation followed by reduction is a histogram of the bond
    distances: for every bin [i] the reduced count is what the threads held
    before, plus the number of the new bonds that fall in the bin, on
    [unsigned int]. A bond at distance [d] falls in the bin
    [floor(d * (1.0f / dr))], the product and the quotient being those of
    [float]. Bonds beyond the last bin are not counted, and it does not
    matter which thread found which bond. *)
Theorem accumulate_counts_bonds (s : CF) (box : Box)
    (values query_values : list T) (bonds : list (nat * NeighborBond)) :
  wf s -> (0 < m_dr s)%Q -> Forall (bond_ok values query_values) bonds ->
  exists s1 s2,
    accumulate box values query_values (Ok bonds) s = (Ok tt, s1) /\
    reduceCorrelationFunction s1 = (Ok tt, s2) /\
    forall i, 0 <= i < m_nbins s ->
      m_bin_counts s2 !! Z.to_nat i
      = Some ((merged_count s (Z.to_nat i) + bonds_in_bin (m_dr s) bonds i)
              mod UINT_MOD).
Proof.
  intros Hwf Hdr Hbonds.
  destruct (accumulate_loop_counts (set_box box s) values query_values bonds
              Hwf Hdr Hbonds) as (s1 & Hrun & Hwf1 & Hloc & Hsum).
  destruct Hloc as (_ & _ & _ & _ & _ & Hn1 & _).
  cbn [m_dr m_nbins m_local_bin_counts set_box] in Hrun, Hn1, Hsum.
  set (s1' := set_reduce true
                (set_frame_counter ((m_frame_counter s1 + 1) mod UINT_MOD) s1)).
  assert (Hwf1' : wf s1') by exact Hwf1.
  exists s1', (reduced s1').
  split; [exact (accumulate_eq s box values query_values bonds s1 Hrun)|].
  split; [apply reduce_spec, Hwf1'|].
  intros i Hi.
  cbn [m_bin_counts Correlation.reduced set_rdf_array set_bin_counts].
  change (m_nbins s1') with (m_nbins s1). rewrite Hn1.
  rewrite list_lookup_fmap, lookup_seq_lt by lia. cbn [fmap option_fmap option_map].
  f_equal. rewrite !merged_count_sum.
  change (m_local_bin_counts s1') with (m_local_bin_counts s1).
  rewrite Nat.add_0_l.
  rewrite (Hsum (Z.to_nat i)) by lia. rewrite Z2Nat.id by lia.
  rewrite Zplus_mod_idemp_l. reflexivity.
Qed.

End Laws.

End CorrelationLaws.

(** ** The wrappers of the RDF class *)

Module RdfLaws.
Import Density.

Section Laws.

Context (reduce : M RDF unit).

(** X14. The two wrappers of the RDF class work together. A successful
    [accumulateGeneral] counts the frame, records the numbers of points and
    marks the object, so that the next read runs [reduce], once: it returns
    the member of the reduced object, and a read that follows returns from
    the same object without reducing again. When the loop over the
    neighbors fails, the frame is not counted and the mark is not set. *)
Theorem accumulate_then_read {A B} (thing : RDF -> A) (other : RDF -> B)
    (box : Box) (n_points n_query_points : Z) (loop : M RDF unit) (s : RDF) :
  let s0 := mk_RDF box (m_frame_counter s) (m_n_points s)
              (m_n_query_points s) (m_reduce s) (m_r_max s) (m_r_min s)
              (m_bins s) (m_pcf s) (m_histogram s) (m_N_r s)
              (m_vol_array2D s) (m_vol_array3D s) (m_local_histograms s) in
  (forall e s1, loop s0 = (Throw e, s1) ->
     accumulateGeneral box n_points n_query_points loop s = (Throw e, s1)) /\
  (forall s1, loop s0 = (Ok tt, s1) ->
     exists s2,
       accumulateGeneral box n_points n_query_points loop s = (Ok tt, s2) /\
       m_frame_counter s2 = to_unsigned (m_frame_counter s1 + 1) /\
       m_n_points s2 = n_points /\ m_n_query_points s2 = n_query_points /\
       m_reduce s2 = true /\
       (forall e s3, reduce s2 = (Throw e, s3) ->
          reduceAndReturn reduce thing s2 = (Throw e, s3)) /\
       (forall s3, reduce s2 = (Ok tt, s3) ->
          reduceAndReturn reduce thing s2
          = (Ok (thing (set_reduce false s3)), set_reduce false s3) /\
          reduceAndReturn reduce other (set_reduce false s3)
          = (Ok (other (set_reduce false s3)), set_reduce false s3))).
Proof.
  intros s0. split.
  - intros e s1 H. unfold accumulateGeneral. rewrite bind_modify. fold s0.
    unfold bind. rewrite H. reflexivity.
  - intros s1 H. eexists. split.
    { unfold accumulateGeneral. rewrite bind_modify. fold s0.
      unfold bind at 1. rewrite H. reflexivity. }
    do 4 (split; [reflexivity|]). split.
    + intros e s3 Hr. unfold reduceAndReturn. rewrite bind_gets.
      cbn [m_reduce set_accumulated]. unfold bind. rewrite Hr. reflexivity.
    + intros s3 Hr. split.
      * unfold reduceAndReturn. rewrite bind_gets.
        cbn [m_reduce set_accumulated]. unfold bind at 1. rewrite Hr.
        reflexivity.
      * apply reduceAndReturn_reduced. reflexivity.
Qed.

End Laws.

End RdfLaws.

(** ** The potential of mean force in XY coordinates *)

Module PmftLaws.
Import Pmft FloatFacts.

Lemma Qtrunc_inject_Z (z : Z) : Qtrunc (inject_Z z) = z.
Proof. unfold Qtrunc. simpl. apply Z.quot_1_r. Qed.

(** a bin index, read as [unsigned int], is below a bound that [int] can
    hold exactly when the bin is neither negative nor beyond the bound *)
Lemma unsigned_bin_below (z n : Z) :
  n <= 2 ^ 31 ->
  (to_unsigned (cvtt_ss2si (inject_Z z)) <? n) = (0 <=? z) && (z <? n).
Proof.
  intros Hn. unfold cvtt_ss2si. rewrite Qtrunc_inject_Z. cbv zeta.
  unfold to_unsigned, UINT_MOD, INT_MIN.
  destruct (Z.leb_spec (- 2 ^ 31) z) as [Hlo|Hlo];
    destruct (Z.ltb_spec z (2 ^ 31)) as [Hhi|Hhi]; cbn [andb].
  - destruct (Z.leb_spec 0 z) as [H0|H0]; cbn [andb].
    + rewrite Z.mod_small by lia. reflexivity.
    + apply Z.ltb_ge.
      replace (z mod 2 ^ 32) with (z + 2 ^ 32); [lia|].
      apply (Z.mod_unique z (2 ^ 32) (-1)); [left; lia | lia].
  - change ((- 2 ^ 31) mod 2 ^ 32) with (2 ^ 31).
    replace (2 ^ 31 <? n) with false by (symmetry; apply Z.ltb_ge; lia).
    replace (z <? n) with false by (symmetry; apply Z.ltb_ge; lia).
    rewrite andb_false_r. reflexivity.
  - change ((- 2 ^ 31) mod 2 ^ 32) with (2 ^ 31).
    replace (2 ^ 31 <? n) with false by (symmetry; apply Z.ltb_ge; lia).
    replace (0 <=? z) with false by (symmetry; apply Z.leb_gt; lia).
    reflexivity.
  - lia.
Qed.

Lemma unsigned_bin_inside (z n : Z) :
  n <= 2 ^ 31 -> 0 <= z < n -> to_unsigned (cvtt_ss2si (inject_Z z)) = z.
Proof.
  intros Hn Hz. unfold cvtt_ss2si. rewrite Qtrunc_inject_Z. cbv zeta.
  unfold INT_MIN.
  replace (- 2 ^ 31 <=? z) with true by (symmetry; apply Z.leb_le; lia).
  replace (z <? 2 ^ 31) with true by (symmetry; apply Z.ltb_lt; lia).
  cbn [andb]. apply to_unsigned_small. unfold UINT_MOD. lia.
Qed.

Section Laws.

Context (precomputeAxisBinCenter : Z -> Q -> Q -> list Q).
Context (makeEmptyArray_float : Z -> list Q).
Context (makeEmptyArray_uint : Z -> list Z).
Context (Index2D : Z -> Z -> Z -> Z -> Z).
Context (rotate : Q -> vec2 Q -> vec2 Q).
Context (sqrtf : Q -> Q).

Local Abbreviation construct :=
  (construct precomputeAxisBinCenter makeEmptyArray_float makeEmptyArray_uint
     sqrtf).
Local Abbreviation accumulate_bond := (accumulate_bond Index2D rotate).

(** the bin width of an axis, as the constructor computes it: the product
    and the quotient on [double], the result rounded to [float] *)
Lemma axis_width_twice (x_max : Q) :
  (0 <= x_max)%Q -> is_float x_max -> (dmul 2 x_max == 2 * x_max)%Q.
Proof.
  intros Hx Hf. unfold dmul, to_double.
  exact (round_to_float_scaled 53 (-1074) 1 x_max ltac:(lia) ltac:(lia)
           ltac:(lia) Hx Hf).
Qed.

(** the check of the bin width of one axis *)
Lemma axis_check (x_max : Q) (n : Z) :
  1 <= n -> (0 <= x_max)%Q -> is_float x_max ->
  Qltb x_max (to_float (ddiv (dmul 2 x_max) (to_float (inject_Z n)))) = false
  <-> (x_max == 0)%Q \/ 2 <= n.
Proof.
  intros Hn Hx Hf. rewrite Qltb_ge.
  pose proof (axis_width_twice x_max Hx Hf) as H2x.
  unfold ddiv.
  rewrite (round_to_comp 53 (-1074) _ (2 * x_max / to_float (inject_Z n))%Q)
    by (rewrite H2x; reflexivity).
  fold (to_double (2 * x_max / to_float (inject_Z n))%Q).
  split.
  - intros Hle. destruct (Z.le_gt_cases 2 n) as [Hn2|Hn2]; [right; exact Hn2|].
    left. assert (n = 1) as -> by lia.
    destruct (Qeq_dec x_max 0) as [E|NE]; [exact E|]. exfalso.
    assert (Hpos : (0 < x_max)%Q) by lra.
    assert (E1 : (2 * x_max / to_float (inject_Z 1) == 2 ^ 1 * x_max)%Q).
    { change (to_float (inject_Z 1)) with 1%Q. change (2 ^ 1)%Q with 2%Q.
      field. }
    unfold to_double in Hle.
    rewrite (round_to_comp 53 (-1074) _ _ E1) in Hle.
    pose proof (round_to_float_scaled 53 (-1074) 1 x_max ltac:(lia) ltac:(lia)
                  ltac:(lia) Hx Hf) as Hd.
    unfold to_float in Hle.
    rewrite (round_to_comp 24 (-149) _ _ Hd) in Hle.
    rewrite (round_to_float_scaled 24 (-149) 1 x_max ltac:(lia) ltac:(lia)
               ltac:(lia) Hx Hf) in Hle.
    change (2 ^ 1)%Q with 2%Q in Hle. lra.
  - intros [H0|H2].
    + assert (E0 : (2 * x_max / to_float (inject_Z n) == 0)%Q).
      { rewrite H0. unfold Qdiv. ring. }
      unfold to_double, to_float at 1.
      rewrite (round_to_comp 53 (-1074) _ _ E0).
      change (round_to 24 (-149) (round_to 53 (-1074) 0)) with 0%Q.
      exact Hx.
    + assert (HF : (2 <= to_float (inject_Z n))%Q).
      { apply (to_float_ge_Z 2); [lia|]. rewrite <- Zle_Qle. exact H2. }
      assert (Hy0 : (0 <= 2 * x_max / to_float (inject_Z n))%Q).
      { apply Qle_shift_div_l; lra. }
      assert (Hy : (2 * x_max / to_float (inject_Z n) <= x_max)%Q).
      { apply Qle_shift_div_r; [lra|]. nra. }
      apply to_float_le_float; [|apply to_double_le_float; assumption|exact Hf].
      apply (round_to_nonneg 53 (-1074)), Hy0.
Qed.

(** X15. For a window whose half-widths are values of [float], the
    constructor accepts exactly the windows with at least one bin along each
    axis and a half-width that is not negative, with one more condition that
    comes from the check of the bin width: a half-width that is not 0 needs
    two bins at least, as one bin is twice as wide as the half-width. A
    half-width of 0 is accepted, although the error of a negative one asks
    for a positive value. The bin widths of the accepted object are at most
    the half-widths. *)
Theorem construct_accepts (box : Box) (local_bin_counts : ThreadStorage Z)
    (x_max y_max : Q) (n_x n_y : Z) :
  is_float x_max -> is_float y_max ->
  (is_Ok (construct box local_bin_counts x_max y_max n_x n_y) <->
   1 <= n_x /\ 1 <= n_y /\ (0 <= x_max)%Q /\ (0 <= y_max)%Q /\
   ((x_max == 0)%Q \/ 2 <= n_x) /\ ((y_max == 0)%Q \/ 2 <= n_y)) /\
  (forall s, construct box local_bin_counts x_max y_max n_x n_y = Ok s ->
     m_n_x s = n_x /\ m_n_y s = n_y /\
     m_x_max s = x_max /\ m_y_max s = y_max /\
     (m_dx s <= x_max)%Q /\ (m_dy s <= y_max)%Q /\
     ts_size (m_local_bin_counts s) = Z.to_nat (to_unsigned (n_x * n_y))) /\
  (1 <= n_y -> (0 < x_max)%Q -> (0 <= y_max)%Q ->
   construct box local_bin_counts x_max y_max 1 n_y
   = Throw (invalid_argument
              "PMFTXY2D requires that dx is less than or equal to x_max.")).
Proof.
  intros Hfx Hfy. split; [|split].
  - unfold Pmft.construct. cbv zeta.
    destruct (Z.ltb_spec n_x 1) as [Hnx|Hnx].
    { split; [intros []|]. intros (H & _). lia. }
    destruct (Z.ltb_spec n_y 1) as [Hny|Hny].
    { split; [intros []|]. intros (_ & H & _). lia. }
    destruct (Qltb x_max 0) eqn:Ex.
    { apply Qltb_lt in Ex. split; [intros []|]. intros (_ & _ & H & _). lra. }
    destruct (Qltb y_max 0) eqn:Ey.
    { apply Qltb_lt in Ey. split; [intros []|]. intros (_ & _ & _ & H & _). lra. }
    apply Qltb_ge in Ex, Ey.
    pose proof (axis_check x_max n_x Hnx Ex Hfx) as Hcx.
    pose proof (axis_check y_max n_y Hny Ey Hfy) as Hcy.
    destruct (Qltb x_max _) eqn:Edx.
    { split; [intros []|]. intros (_ & _ & _ & _ & H & _).
      apply Hcx in H. discriminate. }
    destruct (Qltb y_max _) eqn:Edy.
    { split; [intros []|]. intros (_ & _ & _ & _ & _ & H).
      apply Hcy in H. discriminate. }
    split; [|intros _; exact I]. intros _.
    repeat split; try assumption.
    + apply Hcx. reflexivity.
    + apply Hcy. reflexivity.
  - unfold Pmft.construct. cbv zeta. intros s H.
    destruct (Z.ltb_spec n_x 1) as [Hnx|Hnx]; [discriminate|].
    destruct (Z.ltb_spec n_y 1) as [Hny|Hny]; [discriminate|].
    destruct (Qltb x_max 0); [discriminate|].
    destruct (Qltb y_max 0); [discriminate|].
    destruct (Qltb x_max _) eqn:Edx; [discriminate|].
    destruct (Qltb y_max _) eqn:Edy; [discriminate|].
    injection H as <-.
    cbn [m_n_x m_n_y m_x_max m_y_max m_dx m_dy m_jacobian m_local_bin_counts
         ts_size ts_resize].
    apply Qltb_ge in Edx, Edy.
    repeat split; try reflexivity; assumption.
  - intros Hny Hx Hy. unfold Pmft.construct. cbv zeta.
    change (1 <? 1) with false. cbv iota.
    replace (n_y <? 1) with false by (symmetry; apply Z.ltb_ge; lia).
    replace (Qltb x_max 0) with false
      by (symmetry; apply Qltb_ge, Qlt_le_weak, Hx).
    replace (Qltb y_max 0) with false by (symmetry; apply Qltb_ge, Hy).
    destruct (Qltb x_max _) eqn:Edx; [reflexivity|]. exfalso.
    apply (axis_check x_max 1 ltac:(lia) (Qlt_le_weak _ _ Hx) Hfx) in Edx.
    destruct Edx as [E|E]; [lra | lia].
Qed.

(** X16. One bond of the accumulation: the vector from the reference point
    to the query point, wrapped into the box and rotated by the negated
    orientation of the reference point, has the bin
    [(floor((x + x_max) * (1.0f / dx)), floor((y + y_max) * (1.0f / dy)))],
    every operation being that of [float], for bin widths that are
    positive. The bond is counted, in this bin of the calling thread,
    exactly when both coordinates of the bin lie on the grid; otherwise it
    changes nothing. A negative bin becomes a large
    [unsigned int] and is dropped by the same test as a bin that is too
    large. *)
Theorem accumulate_bond_window (s : PMFTXY2D) (points : list (vec3 Q))
    (orientations : list Q) (query_points : list (vec3 Q)) (tid : nat)
    (b : NeighborBond) (ref qp : vec3 Q) (angle : Q) :
  let local := ts_local 0 (m_local_bin_counts s) tid in
  let delta := wrap (m_box s) (vsub_float qp ref) in
  let r := rotate (- angle)%Q (mk_vec2 (vx delta) (vy delta)) in
  let binx := Qfloor (fmul (fadd (v2x r) (m_x_max s)) (fdiv 1 (m_dx s))) in
  let biny := Qfloor (fmul (fadd (v2y r) (m_y_max s)) (fdiv 1 (m_dy s))) in
  let run := accumulate_bond points orientations query_points
               (fdiv 1 (m_dx s)) (fdiv 1 (m_dy s)) tid b s in
  1 <= m_n_x s <= 2 ^ 31 -> 1 <= m_n_y s <= 2 ^ 31 ->
  (0 < m_dx s)%Q -> (0 < m_dy s)%Q ->
  (forall i j, 0 <= i < m_n_x s -> 0 <= j < m_n_y s ->
     (Z.to_nat (Index2D (m_n_x s) (m_n_y s) i j) < length local)%nat) ->
  points !! Z.to_nat (ref_id b) = Some ref ->
  query_points !! Z.to_nat (id_ b) = Some qp ->
  orientations !! Z.to_nat (ref_id b) = Some angle ->
  (0 <= binx < m_n_x s /\ 0 <= biny < m_n_y s ->
   exists c,
     local !! Z.to_nat (Index2D (m_n_x s) (m_n_y s) binx biny) = Some c /\
     run = (Ok tt,
            set_local_bin_counts
              (ts_store (m_local_bin_counts s) tid
                 (<[Z.to_nat (Index2D (m_n_x s) (m_n_y s) binx biny)
                    := (c + 1) mod UINT_MOD]> local)) s)) /\
  (~ (0 <= binx < m_n_x s /\ 0 <= biny < m_n_y s) -> run = (Ok tt, s)).
Proof.
  intros local delta r binx biny run Hnx Hny Hdx Hdy Hidx Href Hqp Hang.
  assert (Hrun : run =
    (if (to_unsigned (cvtt_ss2si (inject_Z binx)) <? m_n_x s)
        && (to_unsigned (cvtt_ss2si (inject_Z biny)) <? m_n_y s)
     then
       (c <- read local
               (Index2D (m_n_x s) (m_n_y s)
                  (to_unsigned (cvtt_ss2si (inject_Z binx)))
                  (to_unsigned (cvtt_ss2si (inject_Z biny)))) ;;
        match write local
                (Index2D (m_n_x s) (m_n_y s)
                   (to_unsigned (cvtt_ss2si (inject_Z binx)))
                   (to_unsigned (cvtt_ss2si (inject_Z biny))))
                ((c + 1) mod UINT_MOD) with
        | Throw e => throw e
        | Ok a' =>
            modify (fun s => set_local_bin_counts
                               (ts_store (m_local_bin_counts s) tid a') s)
        end) s
     else (Ok tt, s))).
  { subst run. unfold Pmft.accumulate_bond.
    rewrite (bind_read _ _ _ _ _ Href), (bind_read _ _ _ _ _ Hqp), bind_gets.
    rewrite (bind_read _ _ _ _ _ Hang). rewrite !bind_gets.
    fold delta. fold r. unfold floorf. fold binx. fold biny.
    destruct ((to_unsigned (cvtt_ss2si (inject_Z binx)) <? m_n_x s)
              && (to_unsigned (cvtt_ss2si (inject_Z biny)) <? m_n_y s));
      [|reflexivity].
    rewrite bind_gets. reflexivity. }
  rewrite (unsigned_bin_below binx (m_n_x s)) in Hrun by lia.
  rewrite (unsigned_bin_below biny (m_n_y s)) in Hrun by lia.
  split.
  - intros (Hbx & Hby).
    replace ((0 <=? binx) && (binx <? m_n_x s)) with true in Hrun
      by (symmetry; apply andb_true_iff; split;
          [apply Z.leb_le | apply Z.ltb_lt]; lia).
    replace ((0 <=? biny) && (biny <? m_n_y s)) with true in Hrun
      by (symmetry; apply andb_true_iff; split;
          [apply Z.leb_le | apply Z.ltb_lt]; lia).
    cbn [andb] in Hrun.
    rewrite (unsigned_bin_inside binx (m_n_x s)) in Hrun by lia.
    rewrite (unsigned_bin_inside biny (m_n_y s)) in Hrun by lia.
    pose proof (Hidx binx biny Hbx Hby) as Hlt.
    destruct (lookup_lt_is_Some_2 local _ Hlt) as [c Hc].
    exists c. split; [exact Hc|].
    rewrite Hrun, (bind_read _ _ _ _ _ Hc), write_Ok by exact Hlt.
    reflexivity.
  - intros Hout. rewrite Hrun.
    destruct ((0 <=? binx) && (binx <? m_n_x s)) eqn:Ebx; [|reflexivity].
    destruct ((0 <=? biny) && (biny <? m_n_y s)) eqn:Eby;
      [|reflexivity].
    exfalso. apply Hout.
    apply andb_true_iff in Ebx as [Hb1 Hb2]. apply Z.leb_le in Hb1.
    apply Z.ltb_lt in Hb2.
    apply andb_true_iff in Eby as [Hb3 Hb4]. apply Z.leb_le in Hb3.
    apply Z.ltb_lt in Hb4. lia.
Qed.

End Laws.

End PmftLaws.

(** ** The examples of the further properties *)

Module LawWitnesses.
Import Locality NeighborCellFacts CellListFacts ShellFacts IteratorFacts
  SearchFacts KnnFacts KnnSpec NearestFacts LinkCellFacts GridExamples
  ExampleFacts Witnesses Examples HistogramSpec PmftExamples
  CellListLaws SearchLaws CorrelationLaws PmftLaws
  LinkCellSpec NeighborCellSpec CellListSpec ShellSpec IteratorSpec SearchSpec.

(** The cell list of the three points of the example has three slots for
    the points and one for every cell. *)
Lemma cell_list_partition_witness :
  buildable ex_coordToIndex ex_getCellCoord (cubic_box 4) 1 ex_points 3 /\
  exists lc,
    construct ex_coordToIndex ex_getCellCoord (cubic_box 4) 1 ex_points 3
    = Ok lc /\
    Z.of_nat (length (m_cell_list lc)) = 3 + m_size lc.
Proof.
  split; [exact ex_lc_buildable|].
  destruct (cell_list_partition ex_coordToIndex ex_getCellCoord (cubic_box 4) 1
              ex_points 3 ex_lc_buildable) as (lc & Hcons & Hlen & _).
  exists lc. split; [exact Hcons | exact Hlen].
Defined.

Lemma ex_lc_cell_0 :
  in_grid (m_celldim ex_lc) (indexToCoord ex_getMultiIndex ex_lc 0).
Proof. vm_compute. repeat split; first [reflexivity | discriminate]. Qed.


Lemma ex_lc_cells :
  0 <= 0 < vx (m_celldim ex_lc) * vy (m_celldim ex_lc) * vz (m_celldim ex_lc) /\
  0 <= 1 < vx (m_celldim ex_lc) * vy (m_celldim ex_lc) * vz (m_celldim ex_lc).
Proof.
  assert (Hd : m_celldim ex_lc = mk_vec3 4 4 4) by (vm_compute; reflexivity).
  rewrite Hd. simpl. lia.
Qed.

(** Cells 0 and 1 of the example grid are neighbors of each other. *)
Lemma computeCellNeighbors_symmetric_witness :
  grid_ok ex_lc /\ grid_layout ex_getMultiIndex ex_coordToIndex ex_lc /\
  exists la lb s1 s2,
    computeCellNeighbors ex_getMultiIndex ex_coordToIndex 0 ex_lc
    = (Ok la, s1) /\
    computeCellNeighbors ex_getMultiIndex ex_coordToIndex 1 s1
    = (Ok lb, s2) /\
    0 ∈ la /\ (1 ∈ la <-> 0 ∈ lb).
Proof.
  split; [exact ex_lc_grid_ok|]. split; [exact ex_lc_grid_layout|].
  destruct (computeCellNeighbors_symmetric ex_getMultiIndex ex_coordToIndex
              ex_lc 0 1 ex_lc_grid_ok ex_lc_grid_layout
              (proj1 ex_lc_cells) (proj2 ex_lc_cells))
    as (la & lb & s1 & s2 & H1 & H2 & H3 & H4 & _).
  exists la, lb, s1, s2. auto.
Defined.



(** A correlation function with [r_max = 1] and the bin width [0.1f] has
    10 bins. *)
Lemma constructor_bins_witness :
  (0 < to_float (1 # 10))%Q /\ (to_float (1 # 10) <= 1)%Q /\
  Qfloor (fdiv 1 (to_float (1 # 10))) < 2 ^ 31 /\
  exists s,
    Correlation.construct 0 1 (to_float (1 # 10)) = Ok s /\
    Correlation.m_nbins s = 10 /\
    Correlation.m_bin_counts s = replicate 10 0.
Proof.
  split; [vm_compute; reflexivity|]. split; [vm_compute; discriminate|].
  split; [vm_compute; reflexivity|].
  destruct (constructor_bins 0 1 (to_float (1 # 10)))
    as (s & Hc & Hn & _ & _ & _ & _ & Hb & _).
  - vm_compute. reflexivity.
  - vm_compute. discriminate.
  - vm_compute. reflexivity.
  - assert (H10 : Qfloor (fdiv 1 (to_float (1 # 10))) = 10)
      by (vm_compute; reflexivity).
    rewrite H10 in Hn. rewrite Hn in Hb.
    exists s. split; [exact Hc|]. split; [exact Hn | exact Hb].
Defined.

Lemma ex_cf_dr : (0 < Correlation.m_dr ex_cf)%Q.
Proof. vm_compute. reflexivity. Qed.

(** After [reset] the example object reads as empty. *)
Lemma reset_clears_witness :
  Correlation.wf ex_cf /\
  exists s1 s2,
    Correlation.reset 0 ex_cf = (Ok tt, s1) /\
    Correlation.getRDF 0 Z.add Z.div s1
    = (Ok (replicate (Z.to_nat (Correlation.m_nbins ex_cf)) 0), s2) /\
    Correlation.m_frame_counter s2 = 0.
Proof.
  split; [exact ex_cf_wf|].
  destruct (reset_clears 0 Z.add Z.div ex_cf ex_cf_wf eq_refl)
    as (s1 & s2 & H1 & _ & _ & H2 & _ & _ & H3 & _).
  exists s1, s2. auto.
Defined.

(** On the example object a second reduction changes nothing. *)
Lemma reduce_repeatable_witness :
  Correlation.wf ex_cf /\
  exists s1,
    Correlation.reduceCorrelationFunction 0 Z.add Z.div ex_cf = (Ok tt, s1) /\
    Correlation.reduceCorrelationFunction 0 Z.add Z.div s1 = (Ok tt, s1).
Proof.
  split; [exact ex_cf_wf|].
  destruct (reduce_repeatable 0 Z.add Z.div ex_cf ex_cf_wf)
    as (s1 & H1 & H2 & _).
  exists s1. auto.
Defined.

Lemma ex_bonds_ok : Forall (bond_ok ex_values ex_query_values) ex_bonds.
Proof.
  repeat constructor; simpl; first [discriminate | eexists; reflexivity].
Qed.

(** A second frame of the three bonds of the example, counted in bin 1. *)
Lemma accumulate_counts_bonds_witness :
  Correlation.wf ex_cf /\ (0 < Correlation.m_dr ex_cf)%Q /\
  Forall (bond_ok ex_values ex_query_values) ex_bonds /\
  exists s1 s2,
    Correlation.accumulate 0 Z.add Z.mul default_Box ex_values ex_query_values
      (Ok ex_bonds) ex_cf = (Ok tt, s1) /\
    Correlation.reduceCorrelationFunction 0 Z.add Z.div s1 = (Ok tt, s2) /\
    Correlation.m_bin_counts s2 !! Z.to_nat 1
    = Some ((Correlation.merged_count ex_cf (Z.to_nat 1)
             + bonds_in_bin (Correlation.m_dr ex_cf) ex_bonds 1)
            mod UINT_MOD).
Proof.
  split; [exact ex_cf_wf|]. split; [exact ex_cf_dr|].
  split; [exact ex_bonds_ok|].
  destruct (accumulate_counts_bonds 0 Z.add Z.mul Z.div ex_cf default_Box
              ex_values ex_query_values ex_bonds ex_cf_wf ex_cf_dr ex_bonds_ok)
    as (s1 & s2 & H1 & H2 & H3).
  exists s1, s2. split; [exact H1|]. split; [exact H2|].
  apply H3. vm_compute. split; [discriminate | reflexivity].
Defined.

Lemma ex_pmft_built :
  Pmft.construct (fun _ _ _ => []) (fun n => replicate (Z.to_nat n) 0%Q)
    (fun n => replicate (Z.to_nat n) 0) ex_sqrt default_Box ts_empty 2 2 4 4
  = Ok ex_pmft.
Proof. vm_compute. reflexivity. Qed.

(** A window of half-width 2 with 4 bins along each axis is accepted. *)
Lemma construct_accepts_witness :
  is_float 2 /\
  is_Ok (Pmft.construct (fun _ _ _ => []) (fun n => replicate (Z.to_nat n) 0%Q)
           (fun n => replicate (Z.to_nat n) 0) ex_sqrt default_Box ts_empty
           2 2 4 4).
Proof.
  assert (Hf : is_float 2) by (vm_compute; reflexivity).
  split; [exact Hf|].
  apply (proj1 (construct_accepts (fun _ _ _ => [])
                  (fun n => replicate (Z.to_nat n) 0%Q)
                  (fun n => replicate (Z.to_nat n) 0) ex_sqrt default_Box
                  ts_empty 2 2 4 4 Hf Hf)).
  repeat split; first [lia | discriminate | right; lia].
Defined.

(** In the example window a vector of (1/2, 1/2) falls in the bin (2, 2). *)
Lemma accumulate_bond_window_witness :
  exists c,
    ts_local 0 (Pmft.m_local_bin_counts ex_pmft) 0%nat !! Z.to_nat (ex_Index2D 4 4 2 2)
    = Some c /\
    Pmft.accumulate_bond ex_Index2D ex_rotate [mk_vec3 0 0 0]%Q [0%Q]
       [mk_vec3 (1 # 2) (1 # 2) 0]%Q (fdiv 1 (Pmft.m_dx ex_pmft))
       (fdiv 1 (Pmft.m_dy ex_pmft)) 0%nat (mk_NeighborBond 0 0 (1 # 2)) ex_pmft
    = (Ok tt,
       Pmft.set_local_bin_counts
         (ts_store (Pmft.m_local_bin_counts ex_pmft) 0%nat
            (<[Z.to_nat (ex_Index2D 4 4 2 2) := (c + 1) mod UINT_MOD]>
               (ts_local 0 (Pmft.m_local_bin_counts ex_pmft) 0%nat)))
         ex_pmft).
Proof.
  destruct (accumulate_bond_window ex_Index2D ex_rotate ex_pmft
              [mk_vec3 0 0 0]%Q [0%Q] [mk_vec3 (1 # 2) (1 # 2) 0]%Q 0%nat
              (mk_NeighborBond 0 0 (1 # 2)) (mk_vec3 0 0 0)%Q
              (mk_vec3 (1 # 2) (1 # 2) 0)%Q 0%Q) as [Hin _].
  - vm_compute. split; discriminate.
  - vm_compute. split; discriminate.
  - vm_compute. reflexivity.
  - vm_compute. reflexivity.
  - intros i j Hi Hj.
    assert (Hx : Pmft.m_n_x ex_pmft = 4) by (vm_compute; reflexivity).
    assert (Hy : Pmft.m_n_y ex_pmft = 4) by (vm_compute; reflexivity).
    assert (Hl : length (ts_local 0 (Pmft.m_local_bin_counts ex_pmft) 0%nat)
                 = 16%nat) by (vm_compute; reflexivity).
    rewrite Hx in *. rewrite Hy in *. rewrite Hl. unfold ex_Index2D. lia.
  - reflexivity.
  - reflexivity.
  - reflexivity.
  - assert (Hbx : Qfloor (fmul (fadd (1 # 2) (Pmft.m_x_max ex_pmft))
                            (fdiv 1 (Pmft.m_dx ex_pmft))) = 2)
      by (vm_compute; reflexivity).
    assert (Hby : Qfloor (fmul (fadd (1 # 2) (Pmft.m_y_max ex_pmft))
                            (fdiv 1 (Pmft.m_dy ex_pmft))) = 2)
      by (vm_compute; reflexivity).
    assert (Hx : Pmft.m_n_x ex_pmft = 4) by (vm_compute; reflexivity).
    assert (Hy : Pmft.m_n_y ex_pmft = 4) by (vm_compute; reflexivity).
    assert (Hd : wrap (Pmft.m_box ex_pmft)
                   (vsub_float (mk_vec3 (1 # 2) (1 # 2) 0)%Q (mk_vec3 0 0 0)%Q)
                 = mk_vec3 (1 # 2) (1 # 2) 0%Q) by (vm_compute; reflexivity).
    rewrite Hd in Hin. unfold ex_rotate in Hin. cbn [Pmft.v2x Pmft.v2y vx vy] in Hin.
    rewrite Hbx, Hby, Hx, Hy in Hin.
    destruct Hin as (c & Hc & Hrun); [lia|].
    exists c. split; [exact Hc | exact Hrun].
Defined.

End LawWitnesses.

(** ** The arrays of the threads *)

Module ThreadLaws.
Import Correlation CorrelationFacts HistogramSpec FloatFacts CorrelationLaws.

Lemma count_up_unsigned (n : nat) (c : Z) :
  0 <= c < UINT_MOD -> count_up n c = (c + Z.of_nat n) mod UINT_MOD.
Proof.
  intros Hc. unfold count_up. induction n as [|n IH].
  - simpl. rewrite Z.add_0_r, Z.mod_small by exact Hc. reflexivity.
  - rewrite Nat.iter_succ, IH, Zplus_mod_idemp_l. f_equal. lia.
Qed.

Section Threads.

Context {T : Type} (T0 : T) (Tadd Tmul : T -> T -> T) (Tdiv : T -> Z -> T).

Local Abbreviation CF := (@CorrelationFunction T).
Local Abbreviation accumulate := (accumulate T0 Tadd Tmul).
Local Abbreviation accumulate_bond := (accumulate_bond T0 Tadd Tmul).
Local Abbreviation added := (added T0).
Local Abbreviation bond_product := (bond_product T0 Tmul).
Local Abbreviation add_products := (add_products T0 Tadd Tmul).

(** one bond, as seen in the arrays of the threads *)
Lemma accumulate_bond_thread (s : CF) (values query_values : list T)
    (tid : nat) (b : NeighborBond) :
  wf s -> (0 < m_dr s)%Q -> bond_ok values query_values (tid, b) ->
  exists s',
    accumulate_bond values query_values (fdiv 1 (m_dr s)) tid b s = (Ok tt, s') /\
    wf s' /\ only_locals s s' /\
    forall tid' i, (i < Z.to_nat (m_nbins s))%nat ->
      let hit :=
        bool_decide (tid' = tid /\ float_bin (m_dr s) b = Z.of_nat i) in
      ts_local 0 (m_local_bin_counts s') tid' !! i
      = (fun c => if hit then (c + 1) mod UINT_MOD else c)
          <$> ts_local 0 (m_local_bin_counts s) tid' !! i /\
      ts_local T0 (m_local_rdf_array s') tid' !! i
      = (fun r => if hit
                  then Tadd r (bond_product values query_values (tid, b))
                  else r)
          <$> ts_local T0 (m_local_rdf_array s) tid' !! i.
Proof.
  intros Hwf Hdr Hok.
  destruct (accumulate_bond_run T0 Tadd Tmul s values query_values tid b Hwf Hdr
              Hok) as (s' & Hrun & Hwf' & Hloc & Hbin0 & Hcases).
  exists s'. split; [exact Hrun|]. split; [exact Hwf'|]. split; [exact Hloc|].
  set (bin := float_bin (m_dr s) b) in *.
  pose proof Hwf as (Hn & Hlr & Hlb & Hlc & Hlv).
  intros tid' i Hi hit.
  destruct Hcases as [[Hge ->]|(Hlt & c & r & Hc & Hr & ->)].
  - assert (Hh : hit = false).
    { subst hit. apply bool_decide_eq_false. intros [_ H]. lia. }
    rewrite Hh. split.
    + destruct (ts_local 0 (m_local_bin_counts s) tid' !! i); reflexivity.
    + destruct (ts_local T0 (m_local_rdf_array s) tid' !! i); reflexivity.
  - unfold HistogramSpec.added, counted.
    cbn [m_local_bin_counts m_local_rdf_array set_local_rdf_array
         set_local_bin_counts].
    rewrite !ts_local_store.
    pose proof (ts_local_length 0 _ _ tid Hlc) as Hlen_c.
    pose proof (ts_local_length T0 _ _ tid Hlv) as Hlen_v.
    destruct (decide (tid' = tid)) as [->|Hne].
    + destruct (decide (bin = Z.of_nat i)) as [Hbi|Hbi].
      * assert (Hh : hit = true).
        { subst hit. apply bool_decide_eq_true. split; [reflexivity|exact Hbi]. }
        rewrite Hh. assert (Z.to_nat bin = i) as <- by lia.
        rewrite !list_lookup_insert_eq by lia. rewrite Hc, Hr. split; reflexivity.
      * assert (Hh : hit = false).
        { subst hit. apply bool_decide_eq_false. intros [_ H]. contradiction. }
        rewrite Hh. rewrite !list_lookup_insert_ne by lia. split.
        -- destruct (ts_local 0 (m_local_bin_counts s) tid !! i); reflexivity.
        -- destruct (ts_local T0 (m_local_rdf_array s) tid !! i); reflexivity.
    + assert (Hh : hit = false).
      { subst hit. apply bool_decide_eq_false. intros [H _]. contradiction. }
      rewrite Hh. split.
      * destruct (ts_local 0 (m_local_bin_counts s) tid' !! i); reflexivity.
      * destruct (ts_local T0 (m_local_rdf_array s) tid' !! i); reflexivity.
Qed.

Lemma thread_bonds_snoc (dr : Q) (pre : list (nat * NeighborBond))
    (tb : nat * NeighborBond) (tid : nat) (i : Z) :
  thread_bonds dr (pre ++ [tb]) tid i
  = thread_bonds dr pre tid i
    ++ (if bool_decide (tid = tb.1 /\ float_bin dr tb.2 = i) then [tb] else []).
Proof.
  unfold thread_bonds. rewrite filter_app, filter_cons, filter_nil.
  case_decide as Hd; case_bool_decide as Hb; try reflexivity.
  - exfalso. apply Hb. destruct Hd. auto.
  - exfalso. apply Hd. destruct Hb. auto.
Qed.

(** the loop of [accumulate] over the bonds, thread by thread and bin by
    bin *)
Lemma accumulate_loop_threads (s0 : CF) (values query_values : list T)
    (bonds : list (nat * NeighborBond)) :
  wf s0 -> (0 < m_dr s0)%Q -> Forall (bond_ok values query_values) bonds ->
  exists s1,
    for_each bonds
      (fun tb => accumulate_bond values query_values (fdiv 1 (m_dr s0)) tb.1 tb.2) s0
    = (Ok tt, s1) /\
    wf s1 /\ only_locals s0 s1 /\
    forall tid i, (i < Z.to_nat (m_nbins s0))%nat ->
      let mine := thread_bonds (m_dr s0) bonds tid (Z.of_nat i) in
      ts_local 0 (m_local_bin_counts s1) tid !! i
      = count_up (length mine) <$> ts_local 0 (m_local_bin_counts s0) tid !! i /\
      ts_local T0 (m_local_rdf_array s1) tid !! i
      = add_products values query_values mine
          <$> ts_local T0 (m_local_rdf_array s0) tid !! i.
Proof.
  intros Hwf0 Hdr Hbonds.
  apply (for_each_inv
    (fun pre st =>
       wf st /\ only_locals s0 st /\
       forall tid i, (i < Z.to_nat (m_nbins s0))%nat ->
         ts_local 0 (m_local_bin_counts st) tid !! i
         = count_up (length (thread_bonds (m_dr s0) pre tid (Z.of_nat i)))
             <$> ts_local 0 (m_local_bin_counts s0) tid !! i /\
         ts_local T0 (m_local_rdf_array st) tid !! i
         = add_products values query_values
             (thread_bonds (m_dr s0) pre tid (Z.of_nat i))
             <$> ts_local T0 (m_local_rdf_array s0) tid !! i)).
  { split; [exact Hwf0|]. split; [apply only_locals_refl|].
    intros tid i _. unfold thread_bonds, count_up, HistogramSpec.add_products.
    simpl. split.
    - destruct (ts_local 0 (m_local_bin_counts s0) tid !! i); reflexivity.
    - destruct (ts_local T0 (m_local_rdf_array s0) tid !! i); reflexivity. }
  intros pre tb st Hpre (Hwfst & Hlocst & Hinv).
  assert (Hin : tb ∈ bonds).
  { destruct Hpre as [k ->]. apply elem_of_app. left. apply elem_of_app.
    right. left. }
  rewrite Forall_forall in Hbonds. specialize (Hbonds tb Hin).
  pose proof Hlocst as (_ & _ & Hdrst & _ & _ & Hnst & _).
  destruct (accumulate_bond_thread st values query_values tb.1 tb.2 Hwfst)
    as (st' & Hrun' & Hwf' & Hloc' & Hstep).
  { rewrite Hdrst. exact Hdr. }
  { destruct tb. exact Hbonds. }
  rewrite Hdrst in Hrun'. exists st'. split; [exact Hrun'|].
  split; [exact Hwf'|]. split.
  { exact (only_locals_trans _ _ _ Hlocst Hloc'). }
  intros tid i Hi.
  destruct (Hstep tid i ltac:(rewrite Hnst; exact Hi)) as [Hc Hv].
  destruct (Hinv tid i Hi) as [Hc0 Hv0].
  rewrite Hdrst in Hc, Hv. rewrite thread_bonds_snoc.
  replace (tb.1, tb.2) with tb in Hv by (destruct tb; reflexivity).
  split.
  - rewrite Hc, Hc0.
    destruct (ts_local 0 (m_local_bin_counts s0) tid !! i) as [c0|]; [|reflexivity].
    cbn [fmap option_fmap option_map]. f_equal.
    case_bool_decide.
    + rewrite length_app. cbn [length]. rewrite Nat.add_1_r. reflexivity.
    + rewrite app_nil_r. reflexivity.
  - rewrite Hv, Hv0.
    destruct (ts_local T0 (m_local_rdf_array s0) tid !! i) as [r0|]; [|reflexivity].
    cbn [fmap option_fmap option_map]. f_equal.
    case_bool_decide.
    + unfold HistogramSpec.add_products. rewrite fmap_app, fold_left_app.
      reflexivity.
    + rewrite app_nil_r. reflexivity.
Qed.

(** C4. In [CorrelationFunction::accumulate] every bond is binned by the
    truncation of the [float] product [distance * (1.0f / dr)], read as
    [unsigned int]; for a nonnegative distance that is the floor of the
    product as long as it fits an [int]. A bond whose bin is not below the
    number of bins is dropped: the object is unchanged and no array is
    touched, whatever the value arrays hold. Over a whole list of bonds
    that have their values, [accumulate] succeeds, and in the arrays of
    every thread every bin has been incremented once for every bond of the
    thread that falls in it, and [values[ref_id] * query_values[id]] of
    these bonds have been added to the value of the bin, in the order of
    the bonds. *)
Theorem accumulate_thread_bins (s : CF) (box : Box)
    (values query_values : list T) (bonds : list (nat * NeighborBond)) :
  wf s -> (0 < m_dr s)%Q -> Forall (bond_ok values query_values) bonds ->
  (forall b, (0 <= distance b)%Q -> float_bin (m_dr s) b < 2 ^ 31 ->
     bin_of (fdiv 1 (m_dr s)) b = float_bin (m_dr s) b) /\
  (forall any_values any_query_values tid b,
     m_nbins s <= bin_of (fdiv 1 (m_dr s)) b ->
     accumulate_bond any_values any_query_values (fdiv 1 (m_dr s)) tid b s
     = (Ok tt, s)) /\
  exists s1,
    accumulate box values query_values (Ok bonds) s = (Ok tt, s1) /\
    wf s1 /\ m_nbins s1 = m_nbins s /\
    forall tid i, 0 <= i < m_nbins s ->
      let mine := thread_bonds (m_dr s) bonds tid i in
      ts_local 0 (m_local_bin_counts s1) tid !! Z.to_nat i
      = count_up (length mine)
          <$> ts_local 0 (m_local_bin_counts s) tid !! Z.to_nat i /\
      ts_local T0 (m_local_rdf_array s1) tid !! Z.to_nat i
      = add_products values query_values mine
          <$> ts_local T0 (m_local_rdf_array s) tid !! Z.to_nat i.
Proof.
  intros Hwf Hdr Hbonds. split; [|split].
  - intros b Hd Hfit. destruct (bin_of_floor (m_dr s) b Hdr Hd) as [_ ->].
    apply Z.ltb_lt in Hfit. rewrite Hfit. reflexivity.
  - intros vs qs tid b Hge.
    exact (proj1 (accumulate_bond_step T0 Tadd Tmul s vs qs (fdiv 1 (m_dr s))
                    tid b Hwf) Hge).
  - destruct (accumulate_loop_threads (set_box box s) values query_values bonds
                Hwf Hdr Hbonds) as (s1 & Hrun & Hwf1 & Hloc & Hthreads).
    destruct Hloc as (_ & _ & _ & _ & _ & Hn1 & _).
    cbn [m_dr m_nbins m_local_bin_counts m_local_rdf_array set_box]
      in Hrun, Hn1, Hthreads.
    eexists. split; [exact (accumulate_eq T0 Tadd Tmul s box values query_values
                               bonds s1 Hrun)|].
    split; [exact Hwf1|]. split; [exact Hn1|].
    intros tid i Hi. cbv zeta.
    cbn [m_local_bin_counts m_local_rdf_array set_reduce set_frame_counter].
    destruct (Hthreads tid (Z.to_nat i) ltac:(lia)) as [Hc Hv].
    rewrite Z2Nat.id in Hc, Hv by lia. split; assumption.
Qed.

End Threads.

End ThreadLaws.

(** ** The accumulators that can be reached *)

Module AccumulatorFacts.
Import Correlation CorrelationFacts HistogramSpec FloatFacts CorrelationLaws
  ThreadLaws AccumulatorSpec.

Lemma Zsum_nonneg (l : list Z) : Forall (fun x => 0 <= x) l -> 0 <= Zsum l.
Proof.
  induction 1 as [|x l Hx _ IH]; [reflexivity|]. rewrite Zsum_cons. lia.
Qed.

Lemma Zsum_zero (l : list Z) :
  Forall (fun x => 0 <= x) l -> Zsum l = 0 -> Forall (fun x => x = 0) l.
Proof.
  induction 1 as [|x l Hx Hl IH]; intros Hs; [constructor|].
  rewrite Zsum_cons in Hs. pose proof (Zsum_nonneg l Hl).
  constructor; [lia|]. apply IH. lia.
Qed.

Lemma Zsum_zeros (l : list Z) : Forall (fun x => x = 0) l -> Zsum l = 0.
Proof.
  induction 1 as [|x l Hx _ IH]; [reflexivity|]. rewrite Zsum_cons. lia.
Qed.

(** the array of thread [tid], if it has one, is what [local()] gives *)
Lemma ts_all_local {A} (zero : A) (t : ThreadStorage A) (a : list A) :
  a ∈ ts_all t <-> exists tid, ts_arrays t !! tid = Some a /\ ts_local zero t tid = a.
Proof.
  rewrite ts_all_lookup. split.
  - intros [tid H]. exists tid. split; [exact H|]. unfold ts_local. rewrite H.
    reflexivity.
  - intros (tid & H & _). exists tid. exact H.
Qed.

Lemma replicate_lookup_default {A} (n i : nat) (x : A) :
  default x (replicate n x !! i) = x.
Proof.
  destruct (replicate n x !! i) as [y|] eqn:E; [|reflexivity].
  apply lookup_replicate in E as [-> _]. reflexivity.
Qed.

Section Sums.

(** the counts of the bin [i], none of which is negative *)
Lemma bin_entries_nonneg (t : ThreadStorage Z) (i : nat) :
  (forall tid i c, ts_local 0 t tid !! i = Some c -> 0 <= c) ->
  Forall (fun x => 0 <= x) ((fun l => default 0 (l !! i)) <$> ts_all t).
Proof.
  intros Hnn. apply Forall_fmap, Forall_forall. intros l Hl. simpl.
  apply (ts_all_local 0) in Hl as (tid & _ & Hloc).
  destruct (l !! i) as [c|] eqn:E; [|reflexivity]. simpl.
  apply (Hnn tid i c). rewrite Hloc. exact E.
Qed.

Lemma bin_sum_nonneg (t : ThreadStorage Z) (i : nat) :
  (forall tid i c, ts_local 0 t tid !! i = Some c -> 0 <= c) ->
  0 <= bin_sum t i.
Proof. intros Hnn. apply Zsum_nonneg, bin_entries_nonneg, Hnn. Qed.

(** the count of one thread is at most the sum over the threads *)
Lemma local_le_bin_sum (t : ThreadStorage Z) (tid : nat) (i : nat) :
  (forall tid i c, ts_local 0 t tid !! i = Some c -> 0 <= c) ->
  default 0 (ts_local 0 t tid !! i) <= bin_sum t i.
Proof.
  intros Hnn.
  pose proof (bin_sum_store t tid (replicate (ts_size t) 0) i) as Hst.
  rewrite replicate_lookup_default in Hst.
  assert (H0 : 0 <= bin_sum (ts_store t tid (replicate (ts_size t) 0)) i).
  { apply bin_sum_nonneg. intros tid' j c. rewrite ts_local_store.
    case_decide as Hd.
    - intros Hr. apply lookup_replicate in Hr as [-> _]. lia.
    - apply Hnn. }
  lia.
Qed.

End Sums.

Section Facts.

Context {T : Type} (T0 : T) (Tadd Tmul : T -> T -> T) (Tdiv : T -> Z -> T).

Local Abbreviation CF := (@CorrelationFunction T).
Local Abbreviation construct := (construct T0).
Local Abbreviation reduceCorrelationFunction := (reduceCorrelationFunction T0 Tadd Tdiv).
Local Abbreviation getRDF := (getRDF T0 Tadd Tdiv).
Local Abbreviation reset := (reset T0).
Local Abbreviation merged_value := (merged_value T0 Tadd).
Local Abbreviation reduced := (reduced T0 Tadd Tdiv).
Local Abbreviation accumulate := (accumulate T0 Tadd Tmul).
Local Abbreviation accumulate_bond := (accumulate_bond T0 Tadd Tmul).
Local Abbreviation added := (added T0).
Local Abbreviation clean := (clean T0).
Local Abbreviation reachable := (reachable T0 Tadd Tmul Tdiv).

Lemma clean_mono (n m : Z) (s : CF) : n <= m -> clean n s -> clean m s.
Proof.
  intros Hnm (Hwf & Hnn & Hsum & Hval). split; [exact Hwf|].
  split; [exact Hnn|]. split; [|exact Hval].
  intros i. specialize (Hsum i). lia.
Qed.

(** counting a bond keeps the arrays clean *)
Lemma clean_counted (k : Z) (s : CF) (tid : nat) (bin c : Z) :
  clean k s -> k + 1 < UINT_MOD -> 0 <= bin < m_nbins s ->
  ts_local 0 (m_local_bin_counts s) tid !! Z.to_nat bin = Some c ->
  clean (k + 1) (counted s tid bin c) /\
  ts_local 0 (m_local_bin_counts (counted s tid bin c)) tid !! Z.to_nat bin
  = Some (c + 1) /\ 1 <= c + 1.
Proof.
  intros (Hwf & Hnn & Hsum & Hval) Hk Hbin Hc.
  pose proof Hwf as (Hn & Hlr & Hlb & Hlc & Hlv).
  pose proof (ts_local_length 0 _ _ tid Hlc) as Hlen_c.
  assert (Hc0 : 0 <= c) by exact (Hnn tid _ c Hc).
  assert (Hck : c <= k).
  { pose proof (local_le_bin_sum (m_local_bin_counts s) tid (Z.to_nat bin) Hnn)
      as H. rewrite Hc in H. simpl in H. specialize (Hsum (Z.to_nat bin)). lia. }
  assert (Hmod : (c + 1) mod UINT_MOD = c + 1) by (apply Z.mod_small; lia).
  assert (Hnew : ts_local 0 (m_local_bin_counts (counted s tid bin c)) tid
                 = <[Z.to_nat bin := c + 1]> (ts_local 0 (m_local_bin_counts s) tid)).
  { unfold counted. cbn [m_local_bin_counts set_local_bin_counts].
    rewrite ts_local_store, decide_True by reflexivity. rewrite Hmod.
    reflexivity. }
  split; [|split; [|lia]].
  2: { rewrite Hnew. apply list_lookup_insert_eq. lia. }
  split; [apply counted_wf, Hwf|]. split; [|split].
  - intros tid' i x. unfold counted.
    cbn [m_local_bin_counts set_local_bin_counts]. rewrite ts_local_store.
    case_decide; [|apply Hnn]. subst tid'.
    destruct (decide (i = Z.to_nat bin)) as [->|Hi].
    + rewrite list_lookup_insert_eq by lia. intros [= <-]. rewrite Hmod. lia.
    + rewrite list_lookup_insert_ne by auto. apply Hnn.
  - intros i. unfold counted. cbn [m_local_bin_counts set_local_bin_counts].
    rewrite bin_sum_store. specialize (Hsum i).
    destruct (decide (i = Z.to_nat bin)) as [->|Hi].
    + rewrite Hc, list_lookup_insert_eq by lia. simpl. rewrite Hmod. lia.
    + rewrite list_lookup_insert_ne by auto. lia.
  - intros tid' i. unfold counted.
    cbn [m_local_bin_counts m_local_rdf_array m_nbins set_local_bin_counts].
    rewrite ts_local_store. case_decide; [|apply Hval]. subst tid'.
    destruct (decide (i = Z.to_nat bin)) as [->|Hi].
    + rewrite list_lookup_insert_eq by lia. rewrite Hmod. intros [= H]. lia.
    + rewrite list_lookup_insert_ne by auto. apply Hval.
Qed.

(** adding a value to a bin that has a count keeps the arrays clean *)
Lemma clean_added (k : Z) (s : CF) (tid : nat) (bin c : Z) (x : T) :
  clean k s -> 0 <= bin < m_nbins s ->
  ts_local 0 (m_local_bin_counts s) tid !! Z.to_nat bin = Some c -> c <> 0 ->
  clean k (added s tid bin x).
Proof.
  intros (Hwf & Hnn & Hsum & Hval) Hbin Hc Hc0.
  split; [apply added_wf, Hwf|]. split; [exact Hnn|]. split; [exact Hsum|].
  intros tid' i. unfold HistogramSpec.added.
  cbn [m_local_bin_counts m_local_rdf_array m_nbins set_local_rdf_array].
  rewrite ts_local_store. case_decide; [|apply Hval]. subst tid'.
  destruct (decide (i = Z.to_nat bin)) as [->|Hi].
  - rewrite Hc. intros [= H]. contradiction.
  - rewrite list_lookup_insert_ne by auto. apply Hval.
Qed.

(** one bond, whatever becomes of it *)
Lemma clean_bond (k : Z) (s : CF) (values query_values : list T)
    (dr_inv : Q) (tid : nat) (b : NeighborBond) :
  clean k s -> k + 1 < UINT_MOD ->
  clean (k + 1) (accumulate_bond values query_values dr_inv tid b s).2.
Proof.
  intros Hclean Hk. pose proof Hclean as (Hwf & _).
  pose proof (bin_of_range dr_inv b) as Hb0.
  destruct (accumulate_bond_cases T0 Tadd Tmul s values query_values dr_inv tid b
              Hwf) as [[Hge ->]|(Hlt & c & r & Hc & Hr & Hrun)].
  - apply (clean_mono k); [lia | exact Hclean].
  - destruct (clean_counted k s tid (bin_of dr_inv b) c Hclean Hk ltac:(lia) Hc)
      as (Hcl & Hc' & Hc1).
    destruct Hrun as [(v & q & _ & _ & ->)| ->]; [|exact Hcl].
    cbn [snd]. apply (clean_added (k + 1) _ tid _ (c + 1)).
    + exact Hcl.
    + unfold counted. cbn [m_nbins set_local_bin_counts]. lia.
    + exact Hc'.
    + lia.
Qed.

Lemma clean_loop (body : nat * NeighborBond -> M CF unit)
    (bonds : list (nat * NeighborBond)) :
  (forall k s tb, clean k s -> k + 1 < UINT_MOD -> clean (k + 1) (body tb s).2) ->
  forall k s, clean k s -> k + Z.of_nat (length bonds) < UINT_MOD ->
    clean (k + Z.of_nat (length bonds)) (for_each bonds body s).2.
Proof.
  intros Hbody. induction bonds as [|tb bonds IH]; intros k s Hclean Hk.
  - simpl. rewrite Z.add_0_r. exact Hclean.
  - cbn [for_each length] in *. unfold bind.
    pose proof (Hbody k s tb Hclean ltac:(lia)) as H1.
    destruct (body tb s) as [[u|e] s1]; cbn [snd] in *.
    + replace (k + Z.of_nat (S (length bonds)))
        with (k + 1 + Z.of_nat (length bonds)) by lia.
      apply IH; [exact H1 | lia].
    + apply (clean_mono (k + 1)); [lia | exact H1].
Qed.

Lemma clean_accumulate (n : Z) (s : CF) (box : Box)
    (values query_values : list T)
    (neighbors : outcome (list (nat * NeighborBond))) :
  clean n s -> n + bonds_handed neighbors < UINT_MOD ->
  clean (n + bonds_handed neighbors)
    (accumulate box values query_values neighbors s).2.
Proof.
  intros Hclean Hn. unfold Correlation.accumulate.
  rewrite bind_modify, bind_gets.
  assert (H0 : clean n (set_box box s)) by exact Hclean.
  destruct neighbors as [bonds|e]; cbn [bonds_handed] in *.
  - pose proof (clean_loop
        (fun tb => accumulate_bond values query_values
                     (fdiv 1 (m_dr (set_box box s))) tb.1 tb.2) bonds
        (fun k st tb Hc Hk => clean_bond k st values query_values _ tb.1 tb.2 Hc Hk)
        n (set_box box s) H0 Hn) as Hl.
    unfold bind at 1. unfold loopOverNeighbors.
    destruct (for_each bonds _ (set_box box s)) as [[u|e] s1]; cbn [snd] in *.
    + rewrite bind_modify. exact Hl.
    + exact Hl.
  - rewrite Z.add_0_r. exact H0.
Qed.

Lemma clean_getRDF (n : Z) (s : CF) : clean n s -> clean n (getRDF s).2.
Proof.
  intros Hclean. pose proof Hclean as (Hwf & Hnn & Hsum & Hval).
  unfold Correlation.getRDF. rewrite bind_gets.
  destruct (m_reduce s).
  - rewrite (bind_Ok _ _ _ _ _ (reduce_spec T0 Tadd Tdiv s Hwf)).
    rewrite bind_modify. cbn [snd gets].
    split; [exact (reduced_wf T0 Tadd Tdiv s Hwf)|].
    split; [exact Hnn|]. split; [exact Hsum | exact Hval].
  - unfold bind at 1. unfold ret at 1. rewrite bind_modify. exact Hclean.
Qed.

Lemma ts_local_reset {A} (zero : A) (t : ThreadStorage A) (tid : nat) :
  ts_local zero (ts_reset zero t) tid
  = replicate (length (ts_local zero t tid)) zero.
Proof.
  unfold ts_local, ts_reset. cbn [ts_arrays ts_size]. rewrite lookup_fmap.
  destruct (ts_arrays t !! tid) as [a|]; simpl.
  - reflexivity.
  - rewrite length_replicate. reflexivity.
Qed.

Lemma clean_reset (s : CF) : wf s -> clean 0 (reset s).2.
Proof.
  intros Hwf. pose proof Hwf as (Hn & Hlr & Hlb & Hlc & Hlv).
  unfold Correlation.reset. rewrite !bind_modify. cbn [snd modify].
  split; [|split; [|split]].
  - unfold wf. cbn. repeat split; try assumption; try lia.
    + apply (ts_reset_wf 0 _ _ Hlc).
    + apply (ts_reset_wf 0 _ _ Hlc).
    + apply (ts_reset_wf T0 _ _ Hlv).
    + apply (ts_reset_wf T0 _ _ Hlv).
  - intros tid i c. cbn. rewrite ts_local_reset.
    intros H. apply lookup_replicate in H as [-> _]. lia.
  - intros i. cbn. unfold bin_sum. rewrite Zsum_zeros; [lia|].
    apply Forall_fmap, Forall_forall. intros l Hl. simpl.
    apply ts_reset_elem in Hl as (a0 & _ & ->).
    apply replicate_lookup_default.
  - intros tid i _ Hi. cbn. rewrite ts_local_reset.
    apply lookup_replicate_2.
    rewrite (ts_local_length T0 _ _ tid Hlv). exact Hi.
Qed.

Lemma clean_new (r_max dr : Q) (s : CF) : construct r_max dr = Ok s -> clean 0 s.
Proof.
  intros H.
  destruct (construct_new T0 r_max dr s H) as (Hwf & _ & _ & _ & Hc & Hv).
  pose proof Hwf as (Hn & Hlr & Hlb & Hlc & Hlv).
  split; [exact Hwf|]. split; [|split].
  - intros tid i c. unfold ts_local. rewrite Hc, lookup_empty. simpl.
    intros H0. apply lookup_replicate in H0 as [-> _]. lia.
  - intros i. unfold bin_sum, ts_all. rewrite Hc, map_to_list_empty.
    reflexivity.
  - intros tid i _ Hi. unfold ts_local. rewrite Hv, lookup_empty. simpl.
    apply lookup_replicate_2. destruct Hlv as [-> _]. exact Hi.
Qed.

(** *** Every object that can be reached is well formed *)

Lemma for_each_keeps {A} (I : CF -> Prop) (body : A -> M CF unit) (l : list A) :
  (forall x s, I s -> I (body x s).2) ->
  forall s, I s -> I (for_each l body s).2.
Proof.
  intros Hbody. induction l as [|x l IH]; intros s Hs; [exact Hs|].
  cbn [for_each]. unfold bind. pose proof (Hbody x s Hs) as H1.
  destruct (body x s) as [[u|e] s1]; cbn [snd] in *; [apply IH|]; exact H1.
Qed.

Lemma accumulate_bond_wf (s : CF) (values query_values : list T)
    (dr_inv : Q) (tid : nat) (b : NeighborBond) :
  wf s -> wf (accumulate_bond values query_values dr_inv tid b s).2.
Proof.
  intros Hwf.
  destruct (accumulate_bond_cases T0 Tadd Tmul s values query_values dr_inv tid b
              Hwf) as [[Hge ->]|(Hlt & c & r & Hc & Hr & Hrun)]; [exact Hwf|].
  destruct Hrun as [(v & q & _ & _ & ->)| ->]; cbn [snd].
  - apply added_wf, counted_wf, Hwf.
  - apply counted_wf, Hwf.
Qed.

Lemma accumulate_wf (s : CF) (box : Box) (values query_values : list T)
    (neighbors : outcome (list (nat * NeighborBond))) :
  wf s -> wf (accumulate box values query_values neighbors s).2.
Proof.
  intros Hwf. unfold Correlation.accumulate.
  rewrite bind_modify, bind_gets.
  assert (H0 : wf (set_box box s)) by exact Hwf.
  destruct neighbors as [bonds|e]; [|exact H0].
  pose proof (for_each_keeps wf
      (fun tb : nat * NeighborBond =>
         accumulate_bond values query_values
           (fdiv 1 (m_dr (set_box box s))) tb.1 tb.2) bonds
      (fun tb st Hst => accumulate_bond_wf st values query_values _ tb.1 tb.2 Hst)
      (set_box box s) H0) as Hl.
  unfold bind at 1. unfold loopOverNeighbors.
  destruct (for_each bonds _ (set_box box s)) as [[u|e] s1]; cbn [snd] in *.
  - rewrite bind_modify. exact Hl.
  - exact Hl.
Qed.

Lemma reachable_wf (n : Z) (s : CF) : reachable n s -> wf s.
Proof.
  induction 1 as [r_max dr s Hc|n s box vs qs nb _ IH|n s _ IH|n s _ IH].
  - exact (proj1 (clean_new r_max dr s Hc)).
  - apply accumulate_wf, IH.
  - unfold Correlation.getRDF. rewrite bind_gets.
    destruct (m_reduce s).
    + rewrite (bind_Ok _ _ _ _ _ (reduce_spec T0 Tadd Tdiv s IH)).
      rewrite bind_modify. exact (reduced_wf T0 Tadd Tdiv s IH).
    + unfold bind at 1. unfold ret at 1. rewrite bind_modify. exact IH.
  - exact (proj1 (clean_reset s IH)).
Qed.

Lemma bonds_handed_nonneg neighbors : 0 <= bonds_handed neighbors.
Proof. destruct neighbors; simpl; lia. Qed.

(** an object that has been handed fewer than [2^32] bonds is clean *)
Lemma reachable_clean (n : Z) (s : CF) :
  reachable n s -> n < UINT_MOD -> clean n s.
Proof.
  induction 1 as [r_max dr s Hc|n s box vs qs nb Hr IH|n s _ IH|n s Hr _];
    intros Hn.
  - exact (clean_new r_max dr s Hc).
  - pose proof (bonds_handed_nonneg nb).
    apply clean_accumulate; [apply IH; lia | exact Hn].
  - apply clean_getRDF, IH, Hn.
  - apply clean_reset, (reachable_wf n s Hr).
Qed.

(** in a clean object, a bin without a count holds the default value in
    every thread *)
Lemma clean_uncounted (n : Z) (s : CF) :
  clean n s -> n < UINT_MOD -> uncounted_bins_default T0 s.
Proof.
  intros (Hwf & Hnn & Hsum & Hval) Hn i l Hcount Hl Hi.
  pose proof Hwf as (_ & _ & _ & Hlc & Hlv).
  rewrite merged_count_sum in Hcount.
  pose proof (bin_sum_nonneg (m_local_bin_counts s) i Hnn) as H0.
  specialize (Hsum i).
  rewrite Z.mod_small in Hcount by lia.
  pose proof (Zsum_zero _ (bin_entries_nonneg (m_local_bin_counts s) i Hnn)
                Hcount) as Hzero.
  apply (ts_all_local T0) in Hl as (tid & _ & <-).
  apply Hval; [|exact Hi].
  pose proof (ts_local_length 0 _ _ tid Hlc) as Hlen.
  destruct (lookup_lt_is_Some_2 (ts_local 0 (m_local_bin_counts s) tid) i)
    as [c Hc]; [lia|].
  rewrite Hc. f_equal.
  unfold ts_local in Hc.
  destruct (ts_arrays (m_local_bin_counts s) !! tid) as [a|] eqn:E;
    simpl in Hc.
  - rewrite Forall_fmap, Forall_forall in Hzero.
    assert (Ha : a ∈ ts_all (m_local_bin_counts s))
      by (apply ts_all_lookup; eauto).
    specialize (Hzero a Ha). simpl in Hzero. rewrite Hc in Hzero. exact Hzero.
  - apply lookup_replicate in Hc as [-> _]. reflexivity.
Qed.

(** C10. The reduction never divides by zero, whatever the object: the only
    exception it can raise is an array access out of range. On an object
    that the calls of the class have produced, it raises none, and as long
    as fewer than [2^32] bonds have been handed to [accumulate] since the
    object was built or last reset, every bin whose merged count is zero
    holds [T()] after the reduction, [T() + T()] being [T()]. *)
Theorem reduce_zero_count_bins (n : Z) (s : CF) :
  reachable n s -> n < 2 ^ 32 -> Tadd T0 T0 = T0 ->
  (forall s0 e s0',
     reduceCorrelationFunction s0 = (Throw e, s0') -> e <> division_by_zero) /\
  exists s',
    reduceCorrelationFunction s = (Ok tt, s') /\
    forall i,
      m_bin_counts s' !! i = Some 0 -> m_rdf_array s' !! i = Some T0.
Proof.
  intros Hreach Hn Hadd. split.
  - intros s0 e s0' H.
    rewrite (reduce_never_divides_by_zero T0 Tadd Tdiv s0 e s0' H). discriminate.
  - pose proof (reachable_clean n s Hreach Hn) as Hclean.
    pose proof (clean_uncounted n s Hclean Hn) as Hinv.
    pose proof Hclean as (Hwf & _).
    exists (reduced s). split; [apply reduce_spec, Hwf|].
    intros i Hi. unfold Correlation.reduced in *. simpl in *.
    assert (Hlt : (i < Z.to_nat (m_nbins s))%nat).
    { apply lookup_lt_Some in Hi. rewrite length_fmap, length_seq in Hi. exact Hi. }
    rewrite list_lookup_fmap, lookup_seq_lt in Hi by exact Hlt.
    simpl in Hi. injection Hi as Hi.
    rewrite list_lookup_fmap, lookup_seq_lt by exact Hlt. simpl.
    unfold Correlation.reduced_value. rewrite Hi. simpl. f_equal.
    apply merged_value_default; [exact Hadd|].
    intros l Hl. exact (Hinv i l Hi Hl Hlt).
Qed.

End Facts.

End AccumulatorFacts.

(** ** The correlation values of one thread *)

Module MeanLaws.
Import Correlation CorrelationFacts HistogramSpec FloatFacts CorrelationLaws
  ThreadLaws AccumulatorSpec AccumulatorFacts ThreadSpec.

(** the arrays of a storage that only thread [tid] has used *)
Lemma ts_all_single {A} (t : ThreadStorage A) (tid : nat) :
  (forall tid', tid' <> tid -> ts_arrays t !! tid' = None) ->
  ts_all t = match ts_arrays t !! tid with Some a => [a] | None => [] end.
Proof.
  intros Hothers. unfold ts_all.
  destruct (ts_arrays t !! tid) as [a|] eqn:E.
  - assert (Hm : ts_arrays t = {[tid := a]}).
    { apply map_eq. intros k. destruct (decide (k = tid)) as [->|Hk].
      - rewrite lookup_singleton_eq. exact E.
      - rewrite lookup_singleton_ne by auto. apply Hothers, Hk. }
    rewrite Hm, map_to_list_singleton. reflexivity.
  - assert (Hm : ts_arrays t = ∅).
    { apply map_eq. intros k. rewrite lookup_empty.
      destruct (decide (k = tid)) as [->|Hk]; [exact E | apply Hothers, Hk]. }
    rewrite Hm, map_to_list_empty. reflexivity.
Qed.

Section Means.

Context {T : Type} (T0 : T) (Tadd Tmul : T -> T -> T) (Tdiv : T -> Z -> T).

Local Abbreviation CF := (@CorrelationFunction T).
Local Abbreviation construct := (construct T0).
Local Abbreviation getRDF := (getRDF T0 Tadd Tdiv).
Local Abbreviation merged_value := (merged_value T0 Tadd).
Local Abbreviation reduced_value := (reduced_value T0 Tadd Tdiv).
Local Abbreviation reduced := (reduced T0 Tadd Tdiv).
Local Abbreviation accumulate := (accumulate T0 Tadd Tmul).
Local Abbreviation accumulate_bond := (accumulate_bond T0 Tadd Tmul).
Local Abbreviation add_products := (add_products T0 Tadd Tmul).

Lemma accumulate_bond_unused (s : CF) (values query_values : list T)
    (dr_inv : Q) (tid : nat) (b : NeighborBond) :
  wf s -> unused tid s ->
  unused tid (accumulate_bond values query_values dr_inv tid b s).2.
Proof.
  intros Hwf Hun.
  destruct (accumulate_bond_cases T0 Tadd Tmul s values query_values dr_inv tid b
              Hwf) as [[Hge ->]|(Hlt & c & r & Hc & Hr & Hrun)]; [exact Hun|].
  assert (Hcounted : unused tid (counted s tid (bin_of dr_inv b) c)).
  { intros tid' Hne. destruct (Hun tid' Hne) as [H1 H2]. unfold counted.
    cbn [m_local_bin_counts m_local_rdf_array set_local_bin_counts ts_store
         ts_arrays].
    rewrite lookup_insert_ne by auto. split; assumption. }
  destruct Hrun as [(v & q & _ & _ & ->)| ->]; cbn [snd]; [|exact Hcounted].
  intros tid' Hne. destruct (Hcounted tid' Hne) as [H1 H2].
  unfold HistogramSpec.added.
  cbn [m_local_bin_counts m_local_rdf_array set_local_rdf_array ts_store
       ts_arrays].
  rewrite lookup_insert_ne by auto. split; assumption.
Qed.

Lemma accumulate_loop_unused (values query_values : list T) (dr_inv : Q)
    (tid : nat) (bonds : list (nat * NeighborBond)) :
  Forall (fun tb => tb.1 = tid) bonds ->
  forall s, wf s -> unused tid s ->
    unused tid
      (for_each bonds
         (fun tb => accumulate_bond values query_values dr_inv tb.1 tb.2) s).2.
Proof.
  induction 1 as [|tb bonds Htb _ IH]; intros s Hwf Hun; [exact Hun|].
  cbn [for_each]. unfold bind.
  pose proof (accumulate_bond_unused s values query_values dr_inv tid tb.2 Hwf Hun)
    as H1.
  pose proof (accumulate_bond_wf T0 Tadd Tmul s values query_values dr_inv tid
                tb.2 Hwf) as H2.
  rewrite Htb.
  destruct (accumulate_bond values query_values dr_inv tid tb.2 s)
    as [[u|e] s1]; cbn [snd] in *; [apply IH; assumption | exact H1].
Qed.

Lemma thread_bonds_all (dr : Q) (bonds : list (nat * NeighborBond))
    (tid : nat) (i : Z) :
  Forall (fun tb => tb.1 = tid) bonds ->
  thread_bonds dr bonds tid i = filter (fun tb => float_bin dr tb.2 = i) bonds.
Proof.
  intros H. unfold thread_bonds. induction H as [|tb bonds Htb _ IH].
  - reflexivity.
  - rewrite !filter_cons, IH.
    destruct (decide (float_bin dr tb.2 = i)) as [Hb|Hb].
    + rewrite decide_True by (split; assumption). reflexivity.
    + rewrite decide_False by (intros [_ ?]; contradiction). reflexivity.
Qed.

(** X13. What [getRDF] returns when one thread has accumulated a list of
    fewer than [2^32] bonds into a new object: for every bin, the number of
    the bonds that fall in the bin and, when there are such bonds, their
    products [values[ref_id] * query_values[id]] added one after the other
    to [T()], in the order of the bonds, added to [T()] by the reduction
    and divided by their number; [T()] when there are none ([T() + T()]
    being [T()]). No property of the sum other than that is used: the sum
    of [double] is not associative. *)
Theorem accumulate_means (r_max dr : Q) (s : CF) (box : Box)
    (values query_values : list T) (bonds : list (nat * NeighborBond))
    (tid : nat) :
  construct r_max dr = Ok s ->
  Forall (bond_ok values query_values) bonds ->
  Forall (fun tb => tb.1 = tid) bonds ->
  Z.of_nat (length bonds) < 2 ^ 32 ->
  Tadd T0 T0 = T0 ->
  exists s1 a s2,
    accumulate box values query_values (Ok bonds) s = (Ok tt, s1) /\
    getRDF s1 = (Ok a, s2) /\ m_reduce s2 = false /\
    forall i, 0 <= i < m_nbins s ->
      let mine := filter (fun tb => float_bin dr tb.2 = i) bonds in
      m_bin_counts s2 !! Z.to_nat i = Some (Z.of_nat (length mine)) /\
      a !! Z.to_nat i
      = Some (if decide (mine = []) then T0
              else Tdiv (Tadd T0 (add_products values query_values mine T0))
                     (Z.of_nat (length mine))).
Proof.
  intros Hnew Hbonds Htid Hlen Hadd.
  destruct (construct_new T0 r_max dr s Hnew)
    as (Hwf & Hdr_eq & Hdr & Hnb & Hc0 & Hv0).
  assert (Hdr' : (0 < m_dr (set_box box s))%Q) by (cbn; rewrite Hdr_eq; exact Hdr).
  destruct (accumulate_loop_threads T0 Tadd Tmul (set_box box s) values
              query_values bonds Hwf Hdr' Hbonds)
    as (s1 & Hrun & Hwf1 & Hloc & Hthreads).
  assert (Hun0 : unused tid (set_box box s)).
  { intros tid' _. cbn. rewrite Hc0, Hv0, !lookup_empty. split; reflexivity. }
  pose proof (accumulate_loop_unused values query_values
                (fdiv 1 (m_dr (set_box box s))) tid bonds Htid
                (set_box box s) Hwf Hun0) as Hun1.
  rewrite Hrun in Hun1. cbn [snd] in Hun1.
  destruct Hloc as (_ & _ & _ & _ & _ & Hn1 & _).
  cbn [m_dr m_nbins m_local_bin_counts m_local_rdf_array set_box]
    in Hrun, Hn1, Hthreads.
  rewrite Hdr_eq in Hthreads.
  set (s1' := set_reduce true
                (set_frame_counter ((m_frame_counter s1 + 1) mod UINT_MOD) s1)).
  assert (Hwf1' : wf s1') by exact Hwf1.
  exists s1', (m_rdf_array (reduced s1')), (set_reduce false (reduced s1')).
  split; [exact (accumulate_eq T0 Tadd Tmul s box values query_values bonds s1 Hrun)|].
  split.
  { unfold Correlation.getRDF. rewrite bind_gets.
    change (m_reduce s1') with true. cbv iota.
    rewrite (bind_Ok _ _ _ _ _ (reduce_spec T0 Tadd Tdiv s1' Hwf1')).
    rewrite bind_modify. reflexivity. }
  split; [reflexivity|].
  intros i Hi mine.
  destruct (Hthreads tid (Z.to_nat i) ltac:(lia)) as [Hc Hv].
  rewrite Z2Nat.id in Hc, Hv by lia.
  rewrite (thread_bonds_all dr bonds tid i Htid) in Hc, Hv. fold mine in Hc, Hv.
  (* the arrays of the new object *)
  pose proof Hwf as (_ & _ & _ & [Hsz_c _] & [Hsz_v _]).
  assert (Hc00 : ts_local 0 (m_local_bin_counts s) tid !! Z.to_nat i = Some 0).
  { unfold ts_local. rewrite Hc0, lookup_empty. simpl.
    apply lookup_replicate_2. lia. }
  assert (Hv00 : ts_local T0 (m_local_rdf_array s) tid !! Z.to_nat i = Some T0).
  { unfold ts_local. rewrite Hv0, lookup_empty. simpl.
    apply lookup_replicate_2. lia. }
  rewrite Hc00 in Hc. rewrite Hv00 in Hv. cbn [fmap option_fmap option_map] in Hc, Hv.
  assert (Hmine : Z.of_nat (length mine) < UINT_MOD).
  { pose proof (length_filter (fun tb => float_bin dr tb.2 = i) bonds) as H.
    fold mine in H. unfold UINT_MOD. lia. }
  rewrite count_up_unsigned in Hc by (unfold UINT_MOD; lia).
  rewrite Z.add_0_l, Z.mod_small in Hc by lia.
  (* the merged count *)
  assert (Hmc : merged_count s1' (Z.to_nat i) = Z.of_nat (length mine)).
  { unfold merged_count. change (m_local_bin_counts s1') with (m_local_bin_counts s1).
    rewrite (ts_all_single (m_local_bin_counts s1) tid)
      by (intros tid' Hne; exact (proj1 (Hun1 tid' Hne))).
    unfold ts_local in Hc.
    destruct (ts_arrays (m_local_bin_counts s1) !! tid) as [ac|]; simpl in Hc.
    - cbn [fold_left]. rewrite Hc. simpl. rewrite Z.mod_small by lia. reflexivity.
    - cbn [fold_left]. apply lookup_replicate in Hc as [Hc _]. symmetry.
      exact Hc. }
  (* the merged value *)
  assert (Hmv : merged_value s1' (Z.to_nat i)
                = if decide (mine = []) then T0
                  else Tadd T0 (add_products values query_values mine T0)).
  { unfold Correlation.merged_value.
    change (m_local_rdf_array s1') with (m_local_rdf_array s1).
    rewrite (ts_all_single (m_local_rdf_array s1) tid)
      by (intros tid' Hne; exact (proj2 (Hun1 tid' Hne))).
    unfold ts_local in Hv.
    destruct (ts_arrays (m_local_rdf_array s1) !! tid) as [av|]; simpl in Hv.
    - cbn [fold_left]. rewrite Hv. simpl. case_decide as Hm; [|reflexivity].
      rewrite Hm. unfold HistogramSpec.add_products. simpl. exact Hadd.
    - cbn [fold_left]. apply lookup_replicate in Hv as [Hv _].
      case_decide; [reflexivity|]. rewrite Hv. symmetry. exact Hadd. }
  cbn [m_bin_counts m_rdf_array Correlation.reduced set_rdf_array set_bin_counts
       set_reduce].
  change (m_nbins s1') with (m_nbins s1). rewrite Hn1.
  rewrite !list_lookup_fmap, !lookup_seq_lt by lia.
  cbn [fmap option_fmap option_map]. rewrite Nat.add_0_l. split.
  - f_equal. exact Hmc.
  - f_equal. unfold Correlation.reduced_value. rewrite Hmc, Hmv.
    assert (Hnil : Z.of_nat (length mine) = 0 <-> mine = []).
    { split; [|intros ->; reflexivity].
      intros H. destruct mine; [reflexivity | simpl in H; lia]. }
    destruct (Z.eqb_spec (Z.of_nat (length mine)) 0) as [Hz|Hz];
      repeat case_decide; try reflexivity; exfalso; tauto.
Qed.

End Means.

End MeanLaws.

(** ** The dimensions of the grid *)

Module GridLaws.
Import Locality LinkCellSpec LinkCellFacts CellListSpec CellListFacts
  CellListLaws FloatFacts.

Lemma keeps_ret {S A} (I : S -> Prop) (a : A) : keeps I (ret a).
Proof. intros s H. exact H. Qed.

Lemma keeps_gets {S A} (I : S -> Prop) (f : S -> A) : keeps I (gets f).
Proof. intros s H. exact H. Qed.

Lemma keeps_throw {S A} (I : S -> Prop) e : keeps (A:=A) I (throw e).
Proof. intros s H. exact H. Qed.

Lemma keeps_modify {S} (I : S -> Prop) (f : S -> S) :
  (forall s, I s -> I (f s)) -> keeps I (modify f).
Proof. intros Hf s H. exact (Hf s H). Qed.

Lemma keeps_read {S A} (I : S -> Prop) (a : list A) i : keeps (S:=S) I (read a i).
Proof. intros s H. unfold read. destruct (a !! Z.to_nat i); exact H. Qed.

Lemma keeps_bind {S A B} (I : S -> Prop) (c : M S A) (k : A -> M S B) :
  keeps I c -> (forall a, keeps I (k a)) -> keeps I (bind c k).
Proof.
  intros Hc Hk s H. unfold bind. pose proof (Hc s H) as H1.
  destruct (c s) as [[a|e] s1]; cbn [snd] in *; [apply Hk|]; exact H1.
Qed.

Lemma keeps_for_loop {S} (I : S -> Prop) (body : Z -> M S unit) n from :
  (forall i, keeps I (body i)) -> keeps I (for_loop from n body).
Proof.
  intros Hb. revert from. induction n as [|n IH]; intros from; simpl.
  - apply keeps_ret.
  - apply keeps_bind; [apply Hb | intros _; apply IH].
Qed.

Lemma keeps_for_down {S} (I : S -> Prop) (body : Z -> M S unit) n :
  (forall i, keeps I (body i)) -> keeps I (for_down n body).
Proof.
  intros Hb. induction n as [|n IH]; simpl.
  - apply keeps_ret.
  - apply keeps_bind; [apply Hb | intros _; apply IH].
Qed.

Section Grid.

Context (coordToIndex : vec3 Z -> Z -> Z -> Z -> Z).
Context (getCellCoord : Box -> vec3 Z -> vec3 Q -> vec3 Z).

Local Abbreviation construct := (construct coordToIndex getCellCoord).
Local Abbreviation computeCellList := (computeCellList coordToIndex getCellCoord).

(** [computeCellList] leaves the dimensions and the number of cells alone *)
Lemma computeCellList_keeps_grid (d : vec3 Z) (N : Z) points n_points :
  keeps (fun s => m_celldim s = d /\ m_size s = N)
    (computeCellList points n_points).
Proof.
  set (I := fun s : LinkCell => m_celldim s = d /\ m_size s = N).
  assert (Hstore : forall i x, keeps I (store_cell_list i x)).
  { intros i x. unfold store_cell_list.
    apply keeps_bind; [apply keeps_gets|]. intros a.
    destruct (write a i x); [|apply keeps_throw].
    apply keeps_modify. intros s H. exact H. }
  unfold Locality.computeCellList.
  destruct (n_points =? 0); [apply keeps_throw|].
  apply keeps_bind; [apply keeps_gets|]. intros Nc.
  apply keeps_bind; [apply keeps_modify; intros s H; exact H|]. intros _.
  apply keeps_bind; [apply keeps_modify; intros s H; exact H|]. intros _.
  apply keeps_bind; [apply keeps_modify; intros s H; exact H|]. intros _.
  apply keeps_bind.
  { apply keeps_for_loop. intros i. apply Hstore. }
  intros _. apply keeps_for_down. intros i.
  apply keeps_bind; [apply keeps_read|]. intros pt.
  apply keeps_bind; [apply keeps_gets|]. intros cell.
  apply keeps_bind; [apply keeps_gets|]. intros a.
  apply keeps_bind; [apply keeps_read|]. intros head.
  apply keeps_bind; [apply Hstore|]. intros _. apply Hstore.
Qed.

(** in 2D the third dimension is 1 already *)
Lemma grid_dimensions_eq (box : Box) (w : Q) :
  grid_dimensions box w = computeDimensions box w.
Proof.
  unfold grid_dimensions. rewrite (computeDimensions_eq box w). cbv zeta.
  destruct (is2D box); reflexivity.
Qed.

(** C8. [computeDimensions] is total, and along every axis it returns the
    quotient of the nearest plane distance by the cell width, as the
    [float] division rounds it, cast to [unsigned int] and clamped to a
    minimum of 1; the third dimension of a 2D box is 1. For a quotient that
    is not negative and below [2^32] the cast is the floor, so that an axis
    whose quotient floors to 0 gets one cell. Every dimension is at least 1
    and so is their product; the constructor stores the product modulo
    [2^32] as the number of cells and raises the error of a grid without
    cells when that is 0, so that a cell list that has been built has at
    least one cell. *)
Theorem computeDimensions_clamped (box : Box) (cell_width : Q)
    (points : list (vec3 Q)) (n_points : Z) :
  let L := getNearestPlaneDistance box in
  let dim := computeDimensions box cell_width in
  let cells (l : Q) := float_to_unsigned (fdiv l cell_width) in
  (vx dim = Z.max 1 (cells (vx L)) /\ vy dim = Z.max 1 (cells (vy L)) /\
   vz dim = if is2D box then 1 else Z.max 1 (cells (vz L))) /\
  (forall l, (0 <= l)%Q -> (0 < cell_width)%Q ->
     Qfloor (fdiv l cell_width) < 2 ^ 32 ->
     0 <= Qfloor (fdiv l cell_width) /\ cells l = Qfloor (fdiv l cell_width)) /\
  (1 <= vx dim < 2 ^ 32 /\ 1 <= vy dim < 2 ^ 32 /\ 1 <= vz dim < 2 ^ 32 /\
   1 <= vx dim * vy dim * vz dim) /\
  (forall lc, construct box cell_width points n_points = Ok lc ->
     m_celldim lc = dim /\
     m_size lc = (vx dim * vy dim * vz dim) mod 2 ^ 32 /\ 1 <= m_size lc) /\
  ((vx dim * vy dim * vz dim) mod 2 ^ 32 = 0 ->
   ~ box_too_small box cell_width ->
   construct box cell_width points n_points
   = Throw (runtime_error "At least one cell must be present.")).
Proof.
  intros L dim cells.
  pose proof (computeDimensions_eq box cell_width) as Heq. cbv zeta in Heq.
  fold L in Heq. fold dim in Heq. unfold axis_dimension in Heq. fold cells in Heq.
  assert (Hr : forall l, 1 <= Z.max 1 (cells l) < 2 ^ 32).
  { intros l. pose proof (float_to_unsigned_range (fdiv l cell_width)) as H.
    fold (cells l) in H. lia. }
  pose proof (construct_cases coordToIndex getCellCoord box cell_width points
                n_points) as Hcases. cbv zeta in Hcases.
  unfold grid_size in Hcases. rewrite grid_dimensions_eq in Hcases.
  fold dim in Hcases. unfold to_unsigned, UINT_MOD in Hcases.
  split; [|split; [|split; [|split]]].
  - rewrite Heq. cbn [vx vy vz]. auto.
  - intros l Hl Hw Hfit.
    assert (H0 : (0 <= fdiv l cell_width)%Q).
    { apply to_float_nonneg, Qle_shift_div_l; [exact Hw|].
      rewrite Qmult_0_l. exact Hl. }
    split; [apply Qfloor_nonneg, H0|].
    apply float_to_unsigned_floor; assumption.
  - rewrite Heq. cbn [vx vy vz].
    pose proof (Hr (vx L)) as Hx. pose proof (Hr (vy L)) as Hy.
    pose proof (Hr (vz L)) as Hz. unfold cells in Hx, Hy, Hz |- *.
    set (a := Z.max 1 (float_to_unsigned (fdiv (vx L) cell_width))) in *.
    set (b := Z.max 1 (float_to_unsigned (fdiv (vy L) cell_width))) in *.
    set (c := Z.max 1 (float_to_unsigned (fdiv (vz L) cell_width))) in *.
    clearbody a b c.
    assert (Hab : 1 <= a * b) by nia.
    assert (Habc : 1 <= a * b * c) by nia.
    assert (Hab1 : 1 <= a * b * 1) by lia.
    destruct (is2D box); repeat split; first [lia | assumption].
  - intros lc Hlc. rewrite Hlc in Hcases.
    destruct (Qltb _ _ || Qltb _ _ || _); [discriminate|].
    destruct (Z.ltb_spec ((vx dim * vy dim * vz dim) mod 2 ^ 32) 1) as [Hlt|Hge];
      [discriminate|].
    pose proof (computeCellList_keeps_grid dim
                  ((vx dim * vy dim * vz dim) mod 2 ^ 32) points n_points
                  (set_celldim dim
                     (set_size ((vx dim * vy dim * vz dim) mod 2 ^ 32)
                        (initial box cell_width points n_points)))
                  (conj eq_refl eq_refl)) as Hk.
    destruct (computeCellList points n_points _) as [[u|e] s1];
      [|discriminate].
    injection Hcases as <-. cbn [snd] in Hk. destruct Hk as [Hd Hs].
    rewrite Hd, Hs. auto.
  - intros H0 Hbox. rewrite Hcases.
    replace (Qltb _ _ || Qltb _ _ || _) with false.
    2: { symmetry. apply not_true_is_false. intros H.
         apply Hbox, box_check_spec, H. }
    rewrite H0. reflexivity.
Qed.

End Grid.

End GridLaws.

(** ** Where the code and the specification part *)

Module Divergences.
Import Locality GridExamples BoxExamples AccumulatorExamples NeighborCellSpec
  SearchSpec HistogramSpec.

(** C8. With a nearest plane distance of 1 and the cell width [0.1f], which
    is less than half of it, the exact quotient floors to 9 but the [float]
    division gives 10, and [computeDimensions] returns 10 cells along every
    axis. With 65536 cells along every axis the product of the dimensions
    wraps around to 0, and the constructor raises the error of a grid
    without cells. *)
Lemma float_quotient_above_floor :
  (to_float (1 # 10) * 2 <= 1)%Q /\
  Z.max 1 (Qfloor (1 / to_float (1 # 10))) = 9 /\
  computeDimensions (cubic_box 1) (to_float (1 # 10)) = mk_vec3 10 10 10 /\
  computeDimensions (cubic_box 65536) 1 = mk_vec3 65536 65536 65536 /\
  construct ex_coordToIndex ex_getCellCoord (cubic_box 65536) 1
    [mk_vec3 0 0 0]%Q 1
  = Throw (runtime_error "At least one cell must be present.").
Proof.
  split; [vm_compute; discriminate|].
  split; [vm_compute; reflexivity|].
  split; [vm_compute; reflexivity|].
  split; [vm_compute; reflexivity|].
  vm_compute. reflexivity.
Qed.


(** C7. On the grid of 4 x 4 x 1 cells of a 2D box, with the row-major
    multi-index of the shape [{4, 4, 1}], [indexToCoord] gives cell 5, the
    cell (1, 1, 0), the coordinates (0, 1, 1), which are not its own and
    not even on the grid; the neighbors that [computeCellNeighbors] returns
    for cell 5 are those of the cell (0, 1, 0), not the cells at Chebyshev
    distance at most 1 from it. *)
Theorem computeCellNeighbors_flat_grid :
  m_celldim ex_flat = mk_vec3 4 4 1 /\
  ex_coordToIndex (m_celldim ex_flat) 1 1 0 = 5 /\
  ex_near_cells (m_celldim ex_flat) (mk_vec3 1 1 0)
  = [0; 1; 2; 4; 5; 6; 8; 9; 10] /\
  indexToCoord ex_getMultiIndex ex_flat 5 = mk_vec3 0 1 1 /\
  (computeCellNeighbors ex_getMultiIndex ex_coordToIndex 5 ex_flat).1
  = Ok [0; 1; 3; 4; 5; 7; 8; 9; 11].
Proof.
  split; [vm_compute; reflexivity|].
  split; [vm_compute; reflexivity|].
  split; [vm_compute; reflexivity|].
  split; [vm_compute; reflexivity|].
  vm_compute. reflexivity.
Qed.

(** C4. With the bin width [0.1f], a bond at the distance [0.7f] has
    [floor(distance / dr) = 6], but [accumulate] counts it in bin 7: the
    [float] product [0.7f * (1.0f / 0.1f)] is 7. *)
Lemma accumulate_bin_above_floor :
  Correlation.m_dr ex_tenth = to_float (1 # 10) /\
  Qfloor (distance ex_bond_07 / Correlation.m_dr ex_tenth) = 6 /\
  exists s1,
    Correlation.accumulate 0 Z.add Z.mul default_Box [1] [1]
      (Ok [(0%nat, ex_bond_07)]) ex_tenth = (Ok tt, s1) /\
    ts_local 0 (Correlation.m_local_bin_counts s1) 0%nat
    = [0; 0; 0; 0; 0; 0; 0; 1; 0; 0].
Proof.
  split; [vm_compute; reflexivity|]. split; [vm_compute; reflexivity|].
  exists (Correlation.accumulate 0 Z.add Z.mul default_Box [1] [1]
            (Ok [(0%nat, ex_bond_07)]) ex_tenth).2.
  split; vm_compute; reflexivity.
Qed.

(** C10. In an accumulator whose two threads have counted [2^31] bonds each
    in a bin, the merged count of the bin wraps around to 0, and the
    reduction leaves the undivided sum 12 in the bin, not [T()]. *)
Lemma wrapped_count_keeps_sum :
  Correlation.wf ex_wrapped /\
  exists s',
    Correlation.reduceCorrelationFunction 0 Z.add Z.div ex_wrapped = (Ok tt, s') /\
    Correlation.m_bin_counts s' = [0] /\
    Correlation.m_rdf_array s' = [12].
Proof.
  split.
  - unfold Correlation.wf, Correlation.ts_wf.
    repeat split; try (vm_compute; congruence).
    + vm_compute. repeat constructor.
    + vm_compute. repeat constructor.
  - exists (Correlation.reduceCorrelationFunction 0 Z.add Z.div ex_wrapped).2.
    split; [vm_compute; reflexivity|]. split; vm_compute; reflexivity.
Qed.

End Divergences.

(** ** The examples of the accumulation *)

Module ThreadWitnesses.
Import Correlation CorrelationFacts HistogramSpec AccumulatorSpec
  AccumulatorExamples ThreadLaws AccumulatorFacts MeanLaws.

Lemma ex_tenth_built : construct 0 1 (to_float (1 # 10)) = Ok ex_tenth.
Proof. vm_compute. reflexivity. Qed.

Lemma ex_tenth_wf : wf ex_tenth.
Proof.
  unfold wf, ts_wf.
  repeat split; try (vm_compute; congruence).
  - vm_compute. constructor.
  - vm_compute. constructor.
Qed.

Lemma ex_tenth_dr : (0 < m_dr ex_tenth)%Q.
Proof. vm_compute. reflexivity. Qed.

Lemma ex_frame_ok : Forall (bond_ok [1] [1]) ex_frame.
Proof.
  repeat constructor; simpl;
    first [vm_compute; discriminate | eexists; reflexivity].
Qed.

(** A frame of three bonds on the example object: thread 0 counts the bond
    at distance [0.7f] in bin 7. *)
Lemma accumulate_thread_bins_witness :
  wf ex_tenth /\ (0 < m_dr ex_tenth)%Q /\ Forall (bond_ok [1] [1]) ex_frame /\
  exists s1,
    accumulate 0 Z.add Z.mul default_Box [1] [1] (Ok ex_frame) ex_tenth
    = (Ok tt, s1) /\
    ts_local 0 (m_local_bin_counts s1) 0%nat !! Z.to_nat 7
    = count_up (length (thread_bonds (m_dr ex_tenth) ex_frame 0%nat 7))
        <$> ts_local 0 (m_local_bin_counts ex_tenth) 0%nat !! Z.to_nat 7.
Proof.
  split; [exact ex_tenth_wf|]. split; [exact ex_tenth_dr|].
  split; [exact ex_frame_ok|].
  destruct (accumulate_thread_bins 0 Z.add Z.mul ex_tenth default_Box [1] [1]
              ex_frame ex_tenth_wf ex_tenth_dr ex_frame_ok)
    as (_ & _ & s1 & Hrun & _ & _ & Hbins).
  exists s1. split; [exact Hrun|].
  assert (Hn : 0 <= 7 < m_nbins ex_tenth)
    by (vm_compute; split; [discriminate | reflexivity]).
  exact (proj1 (Hbins 0%nat 7 Hn)).
Defined.

Lemma ex_frame_reachable :
  reachable 0 Z.add Z.mul Z.div (0 + bonds_handed (Ok ex_frame))
    (accumulate 0 Z.add Z.mul default_Box [1] [1] (Ok ex_frame) ex_tenth).2.
Proof.
  apply reach_accumulate. exact (reach_new 0 Z.add Z.mul Z.div _ _ _ ex_tenth_built).
Qed.

(** After the frame of three bonds nothing has been counted in bin 0, and
    the reduction leaves 0 there. *)
Lemma reduce_zero_count_bins_witness :
  reachable 0 Z.add Z.mul Z.div (0 + bonds_handed (Ok ex_frame))
    (accumulate 0 Z.add Z.mul default_Box [1] [1] (Ok ex_frame) ex_tenth).2 /\
  0 + bonds_handed (Ok ex_frame) < 2 ^ 32 /\
  exists s',
    reduceCorrelationFunction 0 Z.add Z.div
      (accumulate 0 Z.add Z.mul default_Box [1] [1] (Ok ex_frame) ex_tenth).2
    = (Ok tt, s') /\
    m_bin_counts s' !! 0%nat = Some 0 /\
    m_rdf_array s' !! 0%nat = Some 0.
Proof.
  split; [exact ex_frame_reachable|].
  assert (Hlt : 0 + bonds_handed (Ok ex_frame) < 2 ^ 32)
    by (vm_compute; reflexivity).
  split; [exact Hlt|].
  destruct (reduce_zero_count_bins 0 Z.add Z.mul Z.div _ _ ex_frame_reachable
              Hlt eq_refl) as (_ & s' & Hrun & Hbins).
  exists s'. split; [exact Hrun|].
  assert (Hc : m_bin_counts s' !! 0%nat = Some 0).
  { assert (Hs : (reduceCorrelationFunction 0 Z.add Z.div
                    (accumulate 0 Z.add Z.mul default_Box [1] [1] (Ok ex_frame)
                       ex_tenth).2).2 = s') by (rewrite Hrun; reflexivity).
    rewrite <- Hs. vm_compute. reflexivity. }
  split; [exact Hc | exact (Hbins 0%nat Hc)].
Defined.

(** Two bonds at the distance [0.7f], found by one thread: bin 7 of the new
    object holds their number, and [getRDF] returns their mean. *)
Lemma accumulate_means_witness :
  construct 0 1 (to_float (1 # 10)) = Ok ex_tenth /\
  Forall (bond_ok [2] [3]) [(0%nat, ex_bond_07); (0%nat, ex_bond_07)] /\
  exists s1 a s2,
    accumulate 0 Z.add Z.mul default_Box [2] [3]
      (Ok [(0%nat, ex_bond_07); (0%nat, ex_bond_07)]) ex_tenth = (Ok tt, s1) /\
    getRDF 0 Z.add Z.div s1 = (Ok a, s2) /\
    m_bin_counts s2 !! Z.to_nat 7 = Some 2 /\
    a !! Z.to_nat 7 = Some 6.
Proof.
  assert (Hok : Forall (bond_ok [2] [3])
                  [(0%nat, ex_bond_07); (0%nat, ex_bond_07)]).
  { repeat constructor; simpl;
      first [vm_compute; discriminate | eexists; reflexivity]. }
  split; [exact ex_tenth_built|]. split; [exact Hok|].
  destruct (accumulate_means 0 Z.add Z.mul Z.div 1 (to_float (1 # 10)) ex_tenth
              default_Box [2] [3] [(0%nat, ex_bond_07); (0%nat, ex_bond_07)]
              0%nat ex_tenth_built Hok)
    as (s1 & a & s2 & Hacc & Hget & _ & Hbins).
  - repeat constructor.
  - vm_compute. reflexivity.
  - reflexivity.
  - exists s1, a, s2. split; [exact Hacc|]. split; [exact Hget|].
    assert (Hn : 0 <= 7 < m_nbins ex_tenth)
      by (vm_compute; split; [discriminate | reflexivity]).
    destruct (Hbins 7 Hn) as [Hc Hv].
    assert (Hmine : filter (fun tb : nat * NeighborBond =>
                              float_bin (to_float (1 # 10)) tb.2 = 7)
                      [(0%nat, ex_bond_07); (0%nat, ex_bond_07)]
                    = [(0%nat, ex_bond_07); (0%nat, ex_bond_07)]).
    { assert (Hb : float_bin (to_float (1 # 10)) ex_bond_07 = 7)
        by (vm_compute; reflexivity).
      rewrite !filter_cons, filter_nil. cbn [snd]. rewrite Hb.
      rewrite !decide_True by reflexivity. reflexivity. }
    rewrite Hmine in Hc, Hv. split; [exact Hc|]. rewrite Hv.
    rewrite decide_False by discriminate. reflexivity.
Defined.

End ThreadWitnesses.
